(** * hypebot: the esports aggregation engine (esports_lib.py, util_lib.py)

    A shallow embedding of [hypebot/plugins/league/esports_lib.py] and of the
    helpers of [hypebot/core/util_lib.py] it calls, followed by the theorems
    that settle the claims of the specification.

    Conventions of the embedding.
    - Upstream documents are the values [json.loads] produces; a Python
      [dict] keeps insertion order, so it is an association list whose keys
      are unique ([od_set] replaces in place or appends).
    - A Python exception is a [Raise] result.  Stateful code runs in the
      monad [M S], which keeps the state reached when an exception is raised:
      the mutations done before the raise stay, as in Python.
    - The protobuf [Match] messages are shared and mutated through aliases
      (a bracket's schedule, a provider's [_matches], the engine's wrappers),
      so they live in a store ([heap]) and are named by their index.
    - Strings are ASCII; integers are unbounded. *)

From stdpp Require Import base list strings pretty.
From Stdlib Require Import Ascii ZArith Lia Permutation Sorted.

Open Scope Z_scope.

(** ** Python results and exceptions *)

Inductive exn :=
| KeyError | TypeError | IndexError | AttributeError | ValueError | OtherError.

Inductive result (A : Type) :=
| Ok (a : A)
| Raise (e : exn).
Arguments Ok {A} a.
Arguments Raise {A} e.

#[global] Instance result_ret : MRet result := fun A a => Ok a.
#[global] Instance result_bind : MBind result :=
  fun A B f r => match r with Ok a => f a | Raise e => Raise e end.
#[global] Instance result_fmap : FMap result :=
  fun A B f r => match r with Ok a => Ok (f a) | Raise e => Raise e end.

Definition is_ok {A} (r : result A) : bool :=
  match r with Ok _ => true | Raise _ => false end.

(** The state-and-exception monad of the stateful code. *)
Definition M (S A : Type) : Type := S -> S * result A.

#[global] Instance M_ret {S} : MRet (M S) := fun A a s => (s, Ok a).
#[global] Instance M_bind {S} : MBind (M S) :=
  fun A B f m s =>
    match m s with
    | (s', Ok a) => f a s'
    | (s', Raise e) => (s', Raise e)
    end.

Definition lift {S A} (r : result A) : M S A := fun s => (s, r).
Definition raise {S A} (e : exn) : M S A := fun s => (s, Raise e).
Definition get_state {S} : M S S := fun s => (s, Ok s).
Definition gets {S A} (f : S -> A) : M S A := fun s => (s, Ok (f s)).
Definition modify {S} (f : S -> S) : M S unit := fun s => (f s, Ok tt).
Definition ret {S A} (a : A) : M S A := mret a.
Definition pass {S} : M S unit := mret tt.

(** [for x in l: body x] *)
Fixpoint for_ {S A} (l : list A) (body : A -> M S unit) : M S unit :=
  match l with
  | [] => mret tt
  | x :: l' => body x ≫= fun _ => for_ l' body
  end.

(** A loop that threads local variables [acc] through its iterations. *)
Fixpoint fold_ {S A B} (l : list A) (body : B -> A -> M S B) (acc : B) : M S B :=
  match l with
  | [] => mret acc
  | x :: l' => body acc x ≫= fold_ l' body
  end.

Fixpoint rfold {A B} (l : list A) (body : B -> A -> result B) (acc : B) : result B :=
  match l with
  | [] => Ok acc
  | x :: l' => body acc x ≫= rfold l' body
  end.

Fixpoint rmap {A B} (f : A -> result B) (l : list A) : result (list B) :=
  match l with
  | [] => Ok []
  | x :: l' => f x ≫= fun y => rmap f l' ≫= fun ys => Ok (y :: ys)
  end.

(** ** Insertion-ordered dictionaries *)

Section odict.
Context {K V : Type} `{EqDecision K}.

Fixpoint od_get (d : list (K * V)) (k : K) : option V :=
  match d with
  | [] => None
  | (k', v) :: d' => if decide (k' = k) then Some v else od_get d' k
  end.

(** [d[k] = v]: an existing key keeps its position. *)
Fixpoint od_set (d : list (K * V)) (k : K) (v : V) : list (K * V) :=
  match d with
  | [] => [(k, v)]
  | (k', v') :: d' =>
      if decide (k' = k) then (k', v) :: d' else (k', v') :: od_set d' k v
  end.

Definition od_contains (d : list (K * V)) (k : K) : bool :=
  match od_get d k with Some _ => true | None => false end.

Definition od_keys (d : list (K * V)) : list K := map fst d.
Definition od_values (d : list (K * V)) : list V := map snd d.
End odict.

(** ** JSON documents as Python values *)

#[local] Set Warnings "-register-all".

Inductive json :=
| JNull
| JBool (b : bool)
| JNum (n : Z)
| JStr (s : string)
| JList (l : list json)
| JDict (d : list (string * json)).

(** Python's [==] on these values ([True == 1]; dictionaries compare
    regardless of order). *)
Fixpoint py_eq (a b : json) : bool :=
  match a, b with
  | JNull, JNull => true
  | JBool x, JBool y => bool_decide (x = y)
  | JBool x, JNum n => n =? (if x then 1 else 0)
  | JNum n, JBool x => n =? (if x then 1 else 0)
  | JNum n, JNum m => n =? m
  | JStr s, JStr t => String.eqb s t
  | JList l, JList l' =>
      (fix go (l l' : list json) : bool :=
         match l, l' with
         | [], [] => true
         | x :: l, y :: l' => py_eq x y && go l l'
         | _, _ => false
         end) l l'
  | JDict d, JDict d' =>
      (length d =? length d')%nat &&
      (fix go (d : list (string * json)) : bool :=
         match d with
         | [] => true
         | (k, v) :: d =>
             match od_get d' k with
             | Some v' => py_eq v v'
             | None => false
             end && go d
         end) d
  | _, _ => false
  end.

(** [bool(x)] *)
Definition py_truthy (j : json) : bool :=
  match j with
  | JNull => false
  | JBool b => b
  | JNum n => negb (n =? 0)
  | JStr s => negb (String.eqb s "")
  | JList l => match l with [] => false | _ => true end
  | JDict d => match d with [] => false | _ => true end
  end.

Definition is_None (j : json) : bool :=
  match j with JNull => true | _ => false end.

(** ASCII helpers for the [str] methods the code calls. *)
Definition is_upper (c : ascii) : bool :=
  let n := nat_of_ascii c in ((65 <=? n) && (n <=? 90))%nat.
Definition is_lower (c : ascii) : bool :=
  let n := nat_of_ascii c in ((97 <=? n) && (n <=? 122))%nat.
Definition is_digit (c : ascii) : bool :=
  let n := nat_of_ascii c in ((48 <=? n) && (n <=? 57))%nat.
Definition to_lower (c : ascii) : ascii :=
  if is_upper c then ascii_of_nat (nat_of_ascii c + 32) else c.
Definition to_upper (c : ascii) : ascii :=
  if is_lower c then ascii_of_nat (nat_of_ascii c - 32) else c.

Fixpoint str_map (f : ascii -> ascii) (s : string) : string :=
  match s with
  | EmptyString => EmptyString
  | String c s' => String (f c) (str_map f s')
  end.

Fixpoint str_filter (f : ascii -> bool) (s : string) : string :=
  match s with
  | EmptyString => EmptyString
  | String c s' => if f c then String c (str_filter f s') else str_filter f s'
  end.

Definition str_lower : string -> string := str_map to_lower.

(** [s.title()]: a letter that follows a non-letter is upper-cased, the
    others are lower-cased. *)
Fixpoint str_title_go (prev_cased : bool) (s : string) : string :=
  match s with
  | EmptyString => EmptyString
  | String c s' =>
      let cased := is_upper c || is_lower c in
      String (if prev_cased then to_lower c else to_upper c) (str_title_go cased s')
  end.
Definition str_title : string -> string := str_title_go false.

(** [s.replace(a, b)] for one-character [a] and [b]. *)
Definition str_replace_char (a b : ascii) : string -> string :=
  str_map (fun c => if bool_decide (c = a) then b else c).

(** [sub in s] *)
Fixpoint str_contains (sub s : string) : bool :=
  String.prefix sub s ||
  match s with
  | EmptyString => false
  | String _ s' => str_contains sub s'
  end.

(** [s.split(sep)] for a one-character separator. *)
Fixpoint str_split_go (sep : ascii) (cur : string) (s : string) : list string :=
  match s with
  | EmptyString => [cur]
  | String c s' =>
      if bool_decide (c = sep) then cur :: str_split_go sep "" s'
      else str_split_go sep (cur +:+ String c "") s'
  end.
Definition str_split (sep : ascii) (s : string) : list string :=
  str_split_go sep "" s.

Fixpoint str_chars (s : string) : list string :=
  match s with
  | EmptyString => []
  | String c s' => String c "" :: str_chars s'
  end.

Fixpoint str_join (sep : string) (l : list string) : string :=
  match l with
  | [] => ""
  | [x] => x
  | x :: l' => x +:+ sep +:+ str_join sep l'
  end.

(** [repr(s)] of a string: single quotes unless the string has a single
    quote and no double quote; the backslash and the quote are escaped. *)
Definition str_repr (s : string) : string :=
  let sq := "'"%char in
  let dq := Ascii false true false false false true false false in
  let bs := "\"%char in
  let q := if str_contains (String sq "") s && negb (str_contains (String dq "") s)
           then dq else sq in
  let esc := (fix go (s : string) : string :=
                match s with
                | EmptyString => EmptyString
                | String c s' =>
                    if bool_decide (c = bs) || bool_decide (c = q)
                    then String bs (String c (go s'))
                    else String c (go s')
                end) s in
  String q "" +:+ esc +:+ String q "".

(** [repr(x)] and [str(x)] (the latter is what ['%s' % x] prints). *)
Fixpoint py_repr (j : json) : string :=
  match j with
  | JNull => "None"
  | JBool true => "True"
  | JBool false => "False"
  | JNum n => pretty n
  | JStr s => str_repr s
  | JList l => "[" +:+ str_join ", " (map py_repr l) +:+ "]"
  | JDict d =>
      "{" +:+ str_join ", "
        (map (fun kv => str_repr (fst kv) +:+ ": " +:+ py_repr (snd kv)) d) +:+ "}"
  end.

Definition py_str (j : json) : string :=
  match j with
  | JStr s => s
  | _ => py_repr j
  end.

(** [obj[k]] for a string key [k]. *)
Definition py_getitem (o : json) (k : string) : result json :=
  match o with
  | JDict d => match od_get d k with Some v => Ok v | None => Raise KeyError end
  | _ => Raise TypeError
  end.

(** [obj[i]] for a non-negative integer [i]. *)
Definition py_index (o : json) (i : nat) : result json :=
  match o with
  | JList l => match l !! i with Some v => Ok v | None => Raise IndexError end
  | JStr s => match str_chars s !! i with
              | Some c => Ok (JStr c)
              | None => Raise IndexError
              end
  | JDict _ => Raise KeyError
  | _ => Raise TypeError
  end.

(** [k in obj] for a string [k]. *)
Definition py_contains (k : string) (o : json) : result bool :=
  match o with
  | JDict d => Ok (od_contains d k)
  | JList l => Ok (existsb (py_eq (JStr k)) l)
  | JStr s => Ok (str_contains k s)
  | _ => Raise TypeError
  end.

(** [x in obj] for a value [x]. *)
Definition py_contains_val (x : json) (o : json) : result bool :=
  match o with
  | JDict d =>
      match x with
      | JStr k => Ok (od_contains d k)
      | JList _ | JDict _ => Raise TypeError
      | _ => Ok false
      end
  | JList l => Ok (existsb (py_eq x) l)
  | JStr s => match x with JStr k => Ok (str_contains k s) | _ => Raise TypeError end
  | _ => Raise TypeError
  end.

(** [obj.get(k, default)] *)
Definition py_get (o : json) (k : string) (default : json) : result json :=
  match o with
  | JDict d => Ok (match od_get d k with Some v => v | None => default end)
  | _ => Raise AttributeError
  end.

(** [obj.values()] and [obj.items()] *)
Definition py_values (o : json) : result (list json) :=
  match o with
  | JDict d => Ok (od_values d)
  | _ => Raise AttributeError
  end.

Definition py_items (o : json) : result (list (string * json)) :=
  match o with
  | JDict d => Ok d
  | _ => Raise AttributeError
  end.

(** [for x in obj] *)
Definition py_iter (o : json) : result (list json) :=
  match o with
  | JList l => Ok l
  | JDict d => Ok (map JStr (od_keys d))
  | JStr s => Ok (map JStr (str_chars s))
  | _ => Raise TypeError
  end.

(** [len(obj)] *)
Definition py_len (o : json) : result nat :=
  match o with
  | JList l => Ok (length l)
  | JDict d => Ok (length d)
  | JStr s => Ok (String.length s)
  | _ => Raise TypeError
  end.

(** A string method called on a value: [AttributeError] unless it is a [str]. *)
Definition py_str_method (f : string -> string) (o : json) : result string :=
  match o with
  | JStr s => Ok (f s)
  | _ => Raise AttributeError
  end.

(** The keys a value can take in a dictionary whose keys are hashable
    JSON scalars ([True] and [1] are the same key). *)
Inductive hkey :=
| HNone
| HInt (n : Z)
| HStr (s : string).

#[global] Instance hkey_eq_dec : EqDecision hkey.
Proof. solve_decision. Defined.

Definition py_hash (j : json) : result hkey :=
  match j with
  | JNull => Ok HNone
  | JBool b => Ok (HInt (if b then 1 else 0))
  | JNum n => Ok (HInt n)
  | JStr s => Ok (HStr s)
  | JList _ | JDict _ => Raise TypeError
  end.

(** [d[x]], [d.get(x)] and [x in d] for a dictionary of the program whose
    keys are strings, at a JSON value [x]. *)
Definition od_getitem_json {V} (d : list (string * V)) (x : json) : result V :=
  h ← py_hash x;
  match h with
  | HStr k => match od_get d k with Some v => Ok v | None => Raise KeyError end
  | _ => Raise KeyError
  end.

Definition od_get_json {V} (d : list (string * V)) (x : json) : result (option V) :=
  h ← py_hash x;
  match h with
  | HStr k => Ok (od_get d k)
  | _ => Ok None
  end.

(** ** util_lib *)

(** [int(s)] on a decimal numeral with an optional sign; anything else is a
    [ValueError].  (The keys of the paths this program passes to [Access]
    are never numerals.) *)
Fixpoint digits_value (acc : Z) (s : string) : option Z :=
  match s with
  | EmptyString => Some acc
  | String c s' =>
      if is_digit c
      then digits_value (10 * acc + Z.of_nat (nat_of_ascii c - 48)) s'
      else None
  end.

Definition py_int (s : string) : result Z :=
  let parse (s : string) :=
    match s with
    | EmptyString => None
    | _ => digits_value 0 s
    end in
  let r := match s with
           | String "-"%char s' => Z.opp <$> parse s'
           | String "+"%char s' => parse s'
           | _ => parse s
           end in
  match r with Some n => Ok n | None => Raise ValueError end.

(** [obj[k]] for an integer [k] that may be negative, on a sequence. *)
Definition py_index_Z (o : json) (k : Z) : result json :=
  n ← py_len o;
  let i := if k <? 0 then Z.of_nat n + k else k in
  if i <? 0 then Raise IndexError else py_index o (Z.to_nat i).

(** The body of the loop of [util_lib.Access]. *)
Fixpoint Access_keys (obj : json) (keys : list string) (default : json) : result json :=
  match keys with
  | [] => Ok obj
  | k :: keys' =>
      match obj with
      | JDict d =>
          (* obj = obj.get(k) *)
          match od_get d k with
          | Some JNull | None => Ok default
          | Some obj' => Access_keys obj' keys' default
          end
      | JNull =>
          (* AttributeError, obj is None: continue *)
          Access_keys JNull keys' default
      | _ =>
          (* AttributeError: k = int(k); obj[k] if k < len(obj) else None *)
          k' ← py_int k;
          n ← py_len obj;
          if k' <? Z.of_nat n then
            obj' ← py_index_Z obj k';
            if is_None obj' then Ok default else Access_keys obj' keys' default
          else Ok default
      end
  end.

Definition Access (obj : json) (path : string) (default : json) : result json :=
  Access_keys obj (str_split "."%char path) default.

(** [CanonicalizeName] on ASCII names: lower-case, then keep the letters and
    the digits. *)
Definition CanonicalizeName (raw_name : string) : string :=
  str_filter (fun c => is_lower c || is_digit c) (str_lower raw_name).

Definition _MIRC_COLORS : list string :=
  ["white"; "black"; "blue"; "green"; "red"; "brown"; "purple"; "orange";
   "yellow"; "light green"; "cyan"; "light cyan"; "light blue"; "pink"; "grey";
   "light grey"].

Fixpoint list_index (x : string) (l : list string) : option nat :=
  match l with
  | [] => None
  | y :: l' => if String.eqb y x then Some 0%nat else S <$> list_index x l'
  end.

(** ['%02d' % n] for a non-negative [n]. *)
Definition fmt_02d (n : nat) : string :=
  if (n <? 10)%nat then "0" +:+ pretty n else pretty n.

Definition Colorize (s color : string) : string :=
  match list_index (str_lower color) _MIRC_COLORS with
  | Some code =>
      String (ascii_of_nat 3) "" +:+ fmt_02d code +:+ s +:+ String (ascii_of_nat 15) ""
  | None => s
  end.

(** ['{:3}'.format(s)]: left-aligned in a field of width 3. *)
Definition fmt_3 (s : string) : string :=
  s +:+ String.concat "" (replicate (3 - String.length s) " ").

(** ** Sorting: Python's [sorted] is stable, also with [reverse=True] *)

Section sorting.
Context {A : Type} (before : A -> A -> bool).

(** [x] stood before every element of [l]: it goes in front of the first
    element that need not come before it. *)
Fixpoint insert_sorted (x : A) (l : list A) : list A :=
  match l with
  | [] => [x]
  | y :: l' => if before y x then y :: insert_sorted x l' else x :: y :: l'
  end.

Definition stable_sort (l : list A) : list A := foldr insert_sorted [] l.
End sorting.

(** [sorted(l, key=key, reverse=reverse)] for keys compared with [lt]. *)
Definition sorted_with {A K} (lt : K -> K -> bool) (key : A -> K) (reverse : bool)
    (l : list A) : list A :=
  stable_sort (fun y x => if reverse then lt (key x) (key y) else lt (key y) (key x)) l.

Definition sorted {A} (key : A -> Z) (reverse : bool) (l : list A) : list A :=
  sorted_with Z.ltb key reverse l.

(** ** The protobuf messages of esports_pb2

    [esports_pb2] is generated code that is not part of the sources: the
    messages are the records below, with the fields the code reads and
    writes.  An unset string is [""], an unset number is [0], and a field
    given [None] in a constructor stays unset. *)

Record Player := mkPlayer {
  summoner_name : string;
  player_team_id : string;
  position : string;
  is_substitute : bool }.

Record Team := mkTeam {
  team_id : string;
  team_name : string;
  team_league_id : string;
  players : list Player }.

Record Game := mkGame {
  game_id : string;
  realm : string;
  hash : string }.

Record MatchProto := mkMatch {
  match_id : string;
  match_bracket_id : string;
  blue : string;
  red : string;
  timestamp : Z;
  games : list Game;
  winner : string }.

Record TeamStanding := mkTeamStanding {
  rank : Z;
  team : Team;
  wins : Z;
  losses : Z;
  ties : Z;
  points : Z }.

(** The matches of a bracket are named by their place in the store. *)
Definition loc := nat.

Record Bracket := mkBracket {
  bracket_id : string;
  bracket_name : string;
  bracket_league_id : string;
  is_playoffs : bool;
  standings : list TeamStanding;
  schedule : list loc }.

(** Modelled from the spec: the default of [Match.timestamp] in
    [esports_pb2]: a match that has no scheduled time carries the "far
    future" sentinel, the last second [arrow] can represent
    (9999-12-31T23:59:59Z). *)
Definition TIMESTAMP_FAR_FUTURE : Z := 253402300799.

(** Assigning a Python value to a typed protobuf field. *)
Definition pb_string (j : json) : result string :=
  match j with
  | JNull => Ok ""
  | JStr s => Ok s
  | _ => Raise TypeError
  end.

Definition pb_int (default : Z) (j : json) : result Z :=
  match j with
  | JNull => Ok default
  | JNum n => Ok n
  | _ => Raise TypeError
  end.

(** [field = value] after construction: [None] is refused. *)
Definition pb_set_string (j : json) : result string :=
  match j with
  | JStr s => Ok s
  | _ => Raise TypeError
  end.

Definition pb_set_int (j : json) : result Z :=
  match j with
  | JNum n => Ok n
  | _ => Raise TypeError
  end.

Definition set_winner (w : string) (m : MatchProto) : MatchProto :=
  mkMatch (match_id m) (match_bracket_id m) (blue m) (red m) (timestamp m) (games m) w.
Definition set_blue (b : string) (m : MatchProto) : MatchProto :=
  mkMatch (match_id m) (match_bracket_id m) b (red m) (timestamp m) (games m) (winner m).
Definition set_red (r : string) (m : MatchProto) : MatchProto :=
  mkMatch (match_id m) (match_bracket_id m) (blue m) r (timestamp m) (games m) (winner m).
Definition set_timestamp (t : Z) (m : MatchProto) : MatchProto :=
  mkMatch (match_id m) (match_bracket_id m) (blue m) (red m) t (games m) (winner m).
Definition set_games (g : list Game) (m : MatchProto) : MatchProto :=
  mkMatch (match_id m) (match_bracket_id m) (blue m) (red m) (timestamp m) g (winner m).

Definition add_player (p : Player) (t : Team) : Team :=
  mkTeam (team_id t) (team_name t) (team_league_id t) (players t ++ [p]).

Definition add_schedule (l : loc) (b : Bracket) : Bracket :=
  mkBracket (bracket_id b) (bracket_name b) (bracket_league_id b) (is_playoffs b)
    (standings b) (schedule b ++ [l]).
Definition extend_standings (s : list TeamStanding) (b : Bracket) : Bracket :=
  mkBracket (bracket_id b) (bracket_name b) (bracket_league_id b) (is_playoffs b)
    (standings b ++ s) (schedule b).

(** ** The collaborators

    What the engine is given and does not own: the fetcher ([proxy]), the
    clock, [random.choice], [game_lib] and the message constants. *)
Record Env := mkEnv {
  (** [proxy.FetchJson(url, force_lookup, use_storage)]; a failure is [None]. *)
  FetchJson : string -> bool -> bool -> json;
  (** [arrow.utcnow()], in seconds. *)
  utcnow : Z;
  (** [arrow.get(x).timestamp] for a date of an upstream document; a date
      that does not parse raises. *)
  arrow_get : json -> result Z;
  (** the draws of [random.choice]: the [n]-th call picks the element at
      [random_tape n] modulo the length *)
  random_tape : nat -> nat;
  GetChampNameFromId : hkey -> option string;
  LCS_PLAYER_NICKNAME_MAP : list (string * string);
  FALLBACK_LIVESTREAM_LINK : string;
  SCHEDULE_NO_GAMES_STRING : string;
  (** [time.to(tz).strftime('%a %m/%d %I:%M%p %Z')] *)
  strftime : Z -> string }.

(** ** Providers *)

Inductive ProviderKind :=
| RitoProvider (region league : string) (aliases : list string)
| GrumbleProvider (division realm : string).

(** A roster of [RitoProvider._rosters] is the team object stored under a
    key of [_teams] (an alias of it), or a team of its own (a player at
    All-Stars). *)
Inductive Roster :=
| RosterTeam (key : string)
| RosterOwn (t : Team).

Record Provider := mkProvider {
  kind : ProviderKind;
  stats_enabled : bool;
  _teams : list (string * Team);
  _brackets : list (string * Bracket);
  _matches : list (string * loc);
  _rosters : list (string * Roster) }.

Definition league_id (p : Provider) : string :=
  match kind p with
  | RitoProvider region _ _ => region
  | GrumbleProvider division _ => "grumble-" +:+ division
  end.

Definition name (p : Provider) : string :=
  match kind p with
  | RitoProvider region _ _ => region
  | GrumbleProvider division _ =>
      if String.eqb division "D1" then "Draft" else "Open"
  end.

Definition aliases (p : Provider) : list string :=
  match kind p with
  | RitoProvider _ _ aliases => aliases
  | GrumbleProvider division _ => [division]
  end.

Definition brackets (p : Provider) : list Bracket := od_values (_brackets p).
Definition teams (p : Provider) : list Team := od_values (_teams p).

Definition _MakeBracketId (p : Provider) (bracket_name : string) : string :=
  league_id p +:+ "-" +:+ bracket_name.

(** The state a provider method runs on: the store of matches, the number of
    random draws made so far, and the provider object itself. *)
Record PState := mkPState {
  heap : list MatchProto;
  rng_pos : nat;
  self : Provider }.

Definition with_self (f : Provider -> Provider) (s : PState) : PState :=
  mkPState (heap s) (rng_pos s) (f (self s)).

Definition set_teams (v : list (string * Team)) (p : Provider) : Provider :=
  mkProvider (kind p) (stats_enabled p) v (_brackets p) (_matches p) (_rosters p).
Definition set_brackets (v : list (string * Bracket)) (p : Provider) : Provider :=
  mkProvider (kind p) (stats_enabled p) (_teams p) v (_matches p) (_rosters p).
Definition set_matches (v : list (string * loc)) (p : Provider) : Provider :=
  mkProvider (kind p) (stats_enabled p) (_teams p) (_brackets p) v (_rosters p).
Definition set_rosters (v : list (string * Roster)) (p : Provider) : Provider :=
  mkProvider (kind p) (stats_enabled p) (_teams p) (_brackets p) (_matches p) v.

Definition get_self : M PState Provider := gets self.

(** [bracket.schedule.add(...)]: a new match in the store. *)
Definition alloc_match (m : MatchProto) : M PState loc :=
  fun s => (mkPState (heap s ++ [m]) (rng_pos s) (self s), Ok (length (heap s))).

Definition read_match (l : loc) : M PState MatchProto :=
  fun s => (s, match heap s !! l with Some m => Ok m | None => Raise OtherError end).

(** A write to a field of the match at [l]. *)
Definition update_match (l : loc) (f : MatchProto -> MatchProto) : M PState unit :=
  fun s => (mkPState (alter f l (heap s)) (rng_pos s) (self s), Ok tt).

(** A mutation of the object stored under [k]: every alias sees it. *)
Definition od_update {V} (d : list (string * V)) (k : string) (f : V -> V)
    : list (string * V) :=
  map (fun kv => if String.eqb (fst kv) k then (fst kv, f (snd kv)) else kv) d.

Definition update_bracket (k : string) (f : Bracket -> Bracket) : M PState unit :=
  modify (with_self (fun p => set_brackets (od_update (_brackets p) k f) p)).

Definition update_team (k : string) (f : Team -> Team) : M PState unit :=
  modify (with_self (fun p => set_teams (od_update (_teams p) k f) p)).

(** [self._brackets[k]] *)
Definition get_bracket (k : string) : M PState Bracket :=
  p ← get_self;
  match od_get (_brackets p) k with
  | Some b => ret b
  | None => raise KeyError
  end.

(** [random.choice(l)] *)
Definition random_choice (env : Env) {A} (l : list A) : M PState A :=
  fun s =>
    (mkPState (heap s) (S (rng_pos s)) (self s),
     match l !! (random_tape env (rng_pos s) mod length l)%nat with
     | Some x => Ok x
     | None => Raise IndexError
     end).

(** *** GrumbleProvider *)

Definition Grumble_BASE_URL (what : string) : string :=
  "http://goog-lol-tournaments.appspot.com/rest/" +:+ what +:+ "/grumble-2018/".

Definition division (p : Provider) : string :=
  match kind p with
  | GrumbleProvider division _ => division
  | RitoProvider _ _ _ => ""
  end.

Definition _realm (p : Provider) : string :=
  match kind p with
  | GrumbleProvider _ realm => realm
  | RitoProvider _ _ _ => ""
  end.

Definition add_win (t : TeamStanding) : TeamStanding :=
  mkTeamStanding (rank t) (team t) (wins t + 1) (losses t) (ties t) (points t + 3).
Definition add_tie (t : TeamStanding) : TeamStanding :=
  mkTeamStanding (rank t) (team t) (wins t) (losses t) (ties t + 1) (points t + 1).
Definition add_loss (t : TeamStanding) : TeamStanding :=
  mkTeamStanding (rank t) (team t) (wins t) (losses t + 1) (ties t) (points t).
Definition set_rank (r : Z) (t : TeamStanding) : TeamStanding :=
  mkTeamStanding r (team t) (wins t) (losses t) (ties t) (points t).

(** The ranking loop of [_ParseSchedule]: [rank] and [cur_points] are its
    local variables, [i] the index [enumerate] gives. *)
Fixpoint assign_ranks (i : nat) (rank cur_points : Z) (l : list TeamStanding)
    : list TeamStanding :=
  match l with
  | [] => []
  | t :: l' =>
      let rank' := if bool_decide (points t = cur_points) then rank else Z.of_nat i + 1 in
      set_rank rank' t :: assign_ranks (S i) rank' (points t) l'
  end.

(** The loop over the two teams of a match in [_ParseSchedule]. *)
Definition _ParseSchedule_team (m : loc) (standings : list (string * TeamStanding))
    (team : json) : M PState (list (string * TeamStanding)) :=
  team_id ← lift (Access team "ref.id" JNull);
  if negb (py_truthy team_id) then ret standings else
  p ← get_self;
  known ← lift (py_hash team_id ≫= fun h => Ok (match h with
                                                 | HStr k => od_contains (_teams p) k
                                                 | _ => false
                                                 end));
  _ ← (if (known : bool) then pass else
         display ← lift (r ← py_getitem team "ref"; py_getitem r "displayName");
         tid ← lift (pb_string team_id);
         nm ← lift (pb_string display);
         modify (with_self (fun p =>
           set_teams (od_set (_teams p) tid (mkTeam tid nm (league_id p) [])) p)));
  tid ← lift (pb_set_string team_id);
  p ← get_self;
  standings ←
    (if od_contains standings tid then ret standings else
       match od_get (_teams p) tid with
       | Some t => ret (od_set standings tid (mkTeamStanding 0 t 0 0 0 0))
       | None => raise KeyError
       end);
  outcome ← lift (py_getitem team "outcome");
  if negb (py_truthy outcome) then ret standings else
  if py_eq outcome (JStr "VICTORY") then
    _ ← update_match m (set_winner tid);
    ret (od_update standings tid add_win)
  else if py_eq outcome (JStr "TIE") then
    _ ← update_match m (set_winner "TIE");
    ret (od_update standings tid add_tie)
  else
    ret (od_update standings tid add_loss).

(** One match of a week in [_ParseSchedule]; [match_count] and [standings]
    are the local variables of the method. *)
Definition _ParseSchedule_match (bkey : string)
    (acc : nat * list (string * TeamStanding)) (match_ : json)
    : M PState (nat * list (string * TeamStanding)) :=
  let match_count := S (fst acc) in
  let standings := snd acc in
  p ← get_self;
  bracket ← get_bracket bkey;
  let mid := league_id p +:+ "-" +:+ bracket_id bracket +:+ "-" +:+ pretty match_count in
  b ← lift (Access match_ "team1.ref.id" (JStr "TBD"));
  r ← lift (Access match_ "team2.ref.id" (JStr "TBD"));
  ts ← lift (py_getitem match_ "timestampSec");
  b ← lift (pb_string b);
  r ← lift (pb_string r);
  ts ← lift (pb_int TIMESTAMP_FAR_FUTURE ts);
  m ← alloc_match (mkMatch mid (bracket_id bracket) b r ts [] "");
  _ ← update_bracket bkey (add_schedule m);
  _ ← modify (with_self (fun p => set_matches (od_set (_matches p) mid m) p));
  gs ← lift (py_getitem match_ "games" ≫= py_iter);
  _ ← for_ gs (fun game =>
        gid ← lift (Access game "ref.gameId" JNull);
        h ← lift (Access game "ref.tournamentCode" JNull);
        h ← lift (pb_string h);
        update_match m (fun m' =>
          set_games (games m' ++ [mkGame (py_str gid) (_realm p) h]) m'));
  team1 ← lift (py_getitem match_ "team1");
  team2 ← lift (py_getitem match_ "team2");
  standings ← fold_ [team1; team2] (_ParseSchedule_team m) standings;
  ret (match_count, standings).

(** [GrumbleProvider._ParseSchedule(schedule, bracket)]; the bracket is the
    object stored under [bkey] in [_brackets]. *)
Definition _ParseSchedule (schedule : json) (bkey : string) : M PState unit :=
  weeks ← lift (py_iter schedule);
  acc ← fold_ weeks (fun acc week =>
           ms ← lift (py_getitem week "matches" ≫= py_iter);
           fold_ ms (_ParseSchedule_match bkey) acc) (0%nat, []);
  let standings := sorted points true (od_values (snd acc)) in
  let standings := assign_ranks 0 1 (-1) standings in
  update_bracket bkey (extend_standings standings).

Definition Grumble_bracket_url (p : Provider) (which : string) : string :=
  str_join "/" [Grumble_BASE_URL "bracket"; division p; which].

Definition Grumble_LoadData (env : Env) : M PState unit :=
  _ ← modify (with_self (fun p => set_matches [] (set_brackets [] (set_teams [] p))));
  p ← get_self;
  _ ← modify (with_self (fun p =>
         set_brackets (od_set (_brackets p) "season"
           (mkBracket (_MakeBracketId p "season") "Regular Season" (league_id p)
              false [] [])) p));
  let response := FetchJson env (Grumble_bracket_url p "season") true false in
  schedule ← lift (py_getitem response "schedule");
  _ ← _ParseSchedule schedule "season";
  _ ← modify (with_self (fun p =>
         set_brackets (od_set (_brackets p) "playoffs"
           (mkBracket (_MakeBracketId p "playoffs") "Playoffs" (league_id p)
              true [] [])) p));
  let response := FetchJson env (Grumble_bracket_url p "playoffs") true false in
  schedule ← lift (py_getitem response "schedule");
  _ ← _ParseSchedule schedule "playoffs";
  p ← get_self;
  for_ (_teams p) (fun kv =>
    let team_id := fst kv in
    let response :=
      FetchJson env (str_join "/" [Grumble_BASE_URL "team"; division p; team_id])
        false false in
    if negb (py_truthy response) then pass else
    ps ← lift (py_getitem response "players" ≫= py_iter);
    for_ ps (fun player =>
      sn ← lift (py_getitem player "summonerName");
      pos ← random_choice env ["Fill"; "Feed"];
      sn ← lift (pb_string sn);
      update_team team_id (add_player (mkPlayer sn team_id pos false)))).

(** The loop over the two teams of a match in [_UpdateSchedule]. *)
Definition _UpdateSchedule_team (old_match : loc) (team : json) : M PState unit :=
  team_id ← lift (Access team "ref.id" JNull);
  if negb (py_truthy team_id) then pass else
  outcome ← lift (py_getitem team "outcome");
  if negb (py_truthy outcome) then pass else
  if py_eq outcome (JStr "VICTORY") then
    tid ← lift (pb_set_string team_id);
    update_match old_match (set_winner tid)
  else if py_eq outcome (JStr "TIE") then
    update_match old_match (set_winner "TIE")
  else pass.

Definition _UpdateSchedule_match (bkey : string) (acc : nat * list loc) (match_ : json)
    : M PState (nat * list loc) :=
  let match_count := S (fst acc) in
  let updated_matches := snd acc in
  p ← get_self;
  bracket ← get_bracket bkey;
  let mid := league_id p +:+ "-" +:+ bracket_id bracket +:+ "-" +:+ pretty match_count in
  match od_get (_matches p) mid with
  | None => ret (match_count, updated_matches)
  | Some old_match =>
      m ← read_match old_match;
      if negb (String.eqb (winner m) "") then ret (match_count, updated_matches) else
      team1 ← lift (py_getitem match_ "team1");
      team2 ← lift (py_getitem match_ "team2");
      _ ← for_ [team1; team2] (_UpdateSchedule_team old_match);
      m ← read_match old_match;
      if negb (String.eqb (winner m) "")
      then ret (match_count, updated_matches ++ [old_match])
      else ret (match_count, updated_matches)
  end.

Definition _UpdateSchedule (schedule : json) (bkey : string) : M PState (list loc) :=
  weeks ← lift (py_iter schedule);
  acc ← fold_ weeks (fun acc week =>
           ms ← lift (py_getitem week "matches" ≫= py_iter);
           fold_ ms (_UpdateSchedule_match bkey) acc) (0%nat, []);
  ret (snd acc).

Definition Grumble_UpdateMatches (env : Env) : M PState (list loc) :=
  p ← get_self;
  let response := FetchJson env (Grumble_bracket_url p "season") true false in
  schedule ← lift (py_getitem response "schedule");
  _ ← get_bracket "season";
  updated1 ← _UpdateSchedule schedule "season";
  let response := FetchJson env (Grumble_bracket_url p "playoffs") true false in
  schedule ← lift (py_getitem response "schedule");
  _ ← get_bracket "playoffs";
  updated2 ← _UpdateSchedule schedule "playoffs";
  ret (updated1 ++ updated2).

(** *** RitoProvider *)

Definition _POSITIONS : list (string * string) :=
  [("toplane", "Top"); ("jungle", "Jungle"); ("midlane", "Mid");
   ("adcarry", "ADC"); ("support", "Support")].

Definition _league (p : Provider) : string :=
  match kind p with
  | RitoProvider _ league _ => league
  | GrumbleProvider _ _ => ""
  end.

(** The [api_id] argument of [_FetchEsportsData]. *)
Inductive ApiId :=
| ApiStr (s : string)
| ApiVal (j : json)
| ApiPair (a b : json).

Definition endpoint_urls : list (string * string) :=
  [("leagues", "v1/leagues?slug=%s");
   ("matchDetails", "v2/highlanderMatchDetails?tournamentId=%s&matchId=%s");
   ("scheduleItems", "v1/scheduleItems?id=%s");
   ("streamgroups", "v2/streamgroups%s");
   ("teams", "v1/teams?slug=%s&tournament=%s")].

(** [template % args] for a template whose only conversions are [%s]. *)
Fixpoint py_format (template : string) (args : list string) : result string :=
  match template with
  | EmptyString => match args with [] => Ok "" | _ => Raise TypeError end
  | String "%"%char (String "s"%char rest) =>
      match args with
      | a :: args' => (fun r => a +:+ r) <$> py_format rest args'
      | [] => Raise TypeError
      end
  | String c rest => (fun r => String c r) <$> py_format rest args
  end.

Definition _FetchEsportsData (env : Env) (api_endpoint : string) (api_id : ApiId)
    (force_lookup use_storage : bool) : result json :=
  let truthy := match api_id with
                | ApiStr s => negb (String.eqb s "")
                | ApiVal j => py_truthy j
                | ApiPair _ _ => true
                end in
  if negb (String.eqb api_endpoint "streamgroups") && negb truthy then Ok JNull else
  template ← match od_get endpoint_urls api_endpoint with
              | Some t => Ok t
              | None => Raise KeyError
              end;
  let args := if truthy then
                match api_id with
                | ApiStr s => [s]
                | ApiVal j => [py_str j]
                | ApiPair a b => [py_str a; py_str b]
                end
              else [""] in
  url ← py_format template args;
  Ok (FetchJson env ("http://api.lolesports.com/api/" +:+ url) force_lookup use_storage).

(** Modelled from the spec: [arrow.Arrow.min], the first second [arrow] can
    represent (0001-01-01T00:00:00Z). *)
Definition ARROW_MIN : Z := -62135596800.

(** The loop of [_FindActiveTournaments]; [active_tournaments], [tournament]
    and [newest_start_date] are its local variables. *)
Definition _FindActiveTournaments_step (env : Env)
    (acc : list json * json * Z) (t : json) : result (list json * json * Z) :=
  let '(active_tournaments, tournament, newest_start_date) := acc in
  has ← py_contains "startDate" t;
  if negb has then Ok acc else
  t_start_date ← py_getitem t "startDate" ≫= arrow_get env;
  t_end_date ← py_getitem t "endDate" ≫= arrow_get env;
  let '(tournament, newest_start_date) :=
    if newest_start_date <? t_start_date then (t, t_start_date)
    else (tournament, newest_start_date) in
  let active_tournaments :=
    if (t_start_date <=? utcnow env) && (utcnow env <=? t_end_date)
    then active_tournaments ++ [t] else active_tournaments in
  Ok (active_tournaments, tournament, newest_start_date).

Definition _FindActiveTournaments (env : Env) (tournaments : json) : result (list json) :=
  ts ← py_iter tournaments;
  acc ← rfold ts (_FindActiveTournaments_step env) ([], JNull, ARROW_MIN);
  let '(active_tournaments, tournament, _) := acc in
  Ok (match active_tournaments with [] => [tournament] | _ => active_tournaments end).

(** The team object a roster stands for. *)
Definition roster_team (p : Provider) (r : Roster) : result Team :=
  match r with
  | RosterTeam k =>
      match od_get (_teams p) k with Some t => Ok t | None => Raise OtherError end
  | RosterOwn t => Ok t
  end.

(** [self._rosters[x]] *)
Definition get_roster (x : json) : M PState Team :=
  p ← get_self;
  lift (od_getitem_json (_rosters p) x ≫= roster_team p).

(** [_FindTeam] of [_ExtractMatchTeams] *)
Definition _FindTeam (team : json) : M PState string :=
  has ← lift (py_contains "roster" team);
  if (has : bool) then
    r ← lift (py_getitem team "roster");
    t ← get_roster r;
    ret (team_id t)
  else ret "TBD".

Fixpoint mmap {S A B} (f : A -> M S B) (l : list A) : M S (list B) :=
  match l with
  | [] => ret []
  | x :: l' => y ← f x; ys ← mmap f l'; ret (y :: ys)
  end.

(** [_ExtractMatchTeams(match)]: [None] unless the match has two inputs. *)
Definition _ExtractMatchTeams (match_ : json) : M PState (option (list string)) :=
  match_teams ← lift (py_get match_ "input" (JList []));
  n ← lift (py_len match_teams);
  if negb (n =? 2)%nat then ret None else
  ts ← lift (py_iter match_teams);
  names ← mmap _FindTeam ts;
  ret (Some names).

(** [l[i]] on a list of the program. *)
Definition list_getitem {A} (l : list A) (i : nat) : result A :=
  match l !! i with Some x => Ok x | None => Raise IndexError end.

(** The winner a match's standings give: the single team of the top group,
    a tie when the top group has several, nothing when it is empty. *)
Definition top_group_winner (match_ : json) (l : loc) : M PState unit :=
  top_group ← lift (s ← py_getitem match_ "standings";
                    r ← py_getitem s "result";
                    py_index r 0);
  n ← lift (py_len top_group);
  if (1 <? n)%nat then update_match l (set_winner "TIE")
  else if (n =? 1)%nat then
    r ← lift (g ← py_index top_group 0; py_getitem g "roster");
    t ← get_roster r;
    update_match l (set_winner (team_id t))
  else pass.

(** [_ExtractStandings(record, rank)] of [LoadData] *)
Definition _ExtractStandings (record : json) (rank : Z) : M PState TeamStanding :=
  r ← lift (py_getitem record "roster");
  t ← get_roster r;
  w ← lift (py_get record "wins" (JNum 0));
  l ← lift (py_get record "losses" (JNum 0));
  d ← lift (py_get record "ties" (JNum 0));
  s ← lift (py_get record "score" (JNum 0));
  w ← lift (pb_int 0 w);
  l ← lift (pb_int 0 l);
  d ← lift (pb_int 0 d);
  s ← lift (pb_int 0 s);
  ret (mkTeamStanding rank t w l d s).

(** [[x for x in l if cond x]] *)
Fixpoint rfilter {A} (cond : A -> result bool) (l : list A) : result (list A) :=
  match l with
  | [] => Ok []
  | x :: l' =>
      c ← cond x;
      rest ← rfilter cond l';
      Ok (if (c : bool) then x :: rest else rest)
  end.

(** [a and b] on conditions that may raise. *)
Definition rand (a : result bool) (b : result bool) : result bool :=
  x ← a; if (x : bool) then b else Ok false.

(** [r[k] == o[k']] *)
Definition field_eq (r : json) (k : string) (o : json) (k' : string) : result bool :=
  x ← py_getitem r k; y ← py_getitem o k'; Ok (py_eq x y).

(** [str(x['id']) == roster['team']] *)
Definition is_roster_team (roster x : json) : result bool :=
  xid ← py_getitem x "id";
  rt ← py_getitem roster "team";
  Ok (py_eq (JStr (py_str xid)) rt).

(** The roster loop of [LoadData]. *)
Definition Rito_LoadData_roster (env : Env) (league_data tournament : json)
    (kv : string * json) : M PState unit :=
  let roster_id := fst kv in
  let roster := snd kv in
  has ← lift (py_contains "team" roster);
  if (has : bool) then
    rt ← lift (py_getitem roster "team");
    p ← get_self;
    _ ← lift (od_getitem_json (_teams p) rt);
    key ← lift (pb_set_string rt);
    _ ← modify (with_self (fun p =>
           set_rosters (od_set (_rosters p) roster_id (RosterTeam key)) p));
    all_teams ← lift (py_getitem league_data "teams" ≫= py_iter);
    found ← lift (rfilter (is_roster_team roster) all_teams);
    let team := match found with x :: _ => x | [] => JNull end in
    p ← get_self;
    t ← lift (od_getitem_json (_teams p) rt);
    if (match players t with [] => false | _ => true end) || negb (py_truthy team)
    then pass else
    slug ← lift (py_getitem team "slug");
    tid ← lift (py_getitem tournament "id");
    team_data ← lift (_FetchEsportsData env "teams" (ApiPair slug tid) false true);
    if negb (py_truthy team_data) then pass else
    has_players ← lift (py_contains "players" team_data);
    if negb has_players then pass else
    ps ← lift (py_getitem team_data "players" ≫= py_iter);
    for_ ps (fun player =>
      nm ← lift (py_getitem player "name");
      role ← lift (py_getitem player "roleSlug");
      pos ← lift (od_get_json _POSITIONS role);
      pid ← lift (py_getitem player "id");
      subs ← lift (py_getitem team "subs");
      is_sub ← lift (py_contains_val pid subs);
      nm ← lift (pb_string nm);
      update_team key (fun t =>
        add_player (mkPlayer nm (team_id t) (default "Feed" pos) is_sub) t))
  else
    nm ← lift (py_getitem roster "name");
    nm' ← lift (py_getitem roster "name");
    tid ← lift (pb_string nm);
    nm' ← lift (pb_string nm');
    modify (with_self (fun p =>
      set_rosters (od_set (_rosters p) roster_id (RosterOwn (mkTeam tid nm' "" []))) p)).

(** The standings of a bracket in [LoadData]; the bracket [b] is the object
    stored under [bid] in [_brackets]. *)
Definition Rito_LoadData_standings (league_data tournament bracket : json)
    (bid : string) : M PState unit :=
  has ← lift (py_contains "standings" bracket);
  if (has : bool) then
    groups ← lift (s ← py_getitem bracket "standings";
                   r ← py_getitem s "result";
                   py_iter r);
    for_ groups (fun group =>
      b ← get_bracket bid;
      let rank := Z.of_nat (length (standings b)) + 1 in
      rosters ← lift (py_iter group);
      for_ rosters (fun roster =>
        records ← lift (py_getitem league_data "highlanderRecords" ≫= py_iter);
        found ← lift (rfilter (fun r =>
                        rand (field_eq r "tournament" tournament "id")
                          (rand (field_eq r "bracket" bracket "id")
                             (field_eq r "roster" roster "roster"))) records);
        let record := match found with x :: _ => x | [] => JNull end in
        if py_truthy record then
          st ← _ExtractStandings record rank;
          update_bracket bid (extend_standings [st])
        else pass))
  else
    records ← lift (py_getitem league_data "highlanderRecords" ≫= py_iter);
    sts ← fold_ records (fun sts r =>
            c ← lift (rand (field_eq r "tournament" tournament "id")
                        (field_eq r "bracket" bracket "id"));
            if (c : bool) then st ← _ExtractStandings r 0; ret (sts ++ [st])
            else ret sts) [];
    update_bracket bid (extend_standings sts).

(** The second pass over the games of a match in [LoadData]: the hash field
    held Rito's other game id, which is replaced by the hash the mapping
    gives, or cleared. *)
Definition Rito_LoadData_hash (m : loc) (game_id_mappings : json) (i : nat)
    : M PState unit :=
  m0 ← read_match m;
  game ← lift (list_getitem (games m0) i);
  let rito_id := hash game in
  _ ← update_match m (fun m' =>
         set_games (alter (fun g => mkGame (game_id g) (realm g) "") i (games m')) m');
  mappings ← lift (py_iter game_id_mappings);
  for_ mappings (fun mapping =>
    mid ← lift (py_getitem mapping "id");
    if py_eq mid (JStr rito_id) then
      h ← lift (py_getitem mapping "gameHash" ≫= pb_set_string);
      update_match m (fun m' =>
        set_games (alter (fun g => mkGame (game_id g) (realm g) h) i (games m')) m')
    else pass).

(** One match of a bracket in [LoadData]; [b] is the bracket stored under
    [bid]. *)
Definition Rito_LoadData_match (env : Env) (tournament : json) (bid : string)
    (match_ : json) : M PState unit :=
  match_teams ← _ExtractMatchTeams match_;
  match match_teams with
  | None => pass
  | Some match_teams =>
      mid ← lift (py_getitem match_ "id");
      b ← get_bracket bid;
      blue_team ← lift (list_getitem match_teams 0);
      red_team ← lift (list_getitem match_teams 1);
      mid ← lift (pb_string mid);
      m ← alloc_match
            (mkMatch mid (bracket_id b) blue_team red_team TIMESTAMP_FAR_FUTURE [] "");
      _ ← update_bracket bid (add_schedule m);
      _ ← modify (with_self (fun p => set_matches (od_set (_matches p) mid m) p));
      gs ← lift (py_getitem match_ "games" ≫= py_values);
      _ ← for_ gs (fun game =>
            has ← lift (py_contains "id" game);
            if negb has then pass else
            gid ← lift (py_get game "gameId" JNull);
            rlm ← lift (py_get game "gameRealm" JNull);
            h ← lift (py_getitem game "id");
            gid ← lift (pb_string gid);
            rlm ← lift (pb_string rlm);
            h ← lift (pb_string h);
            update_match m (fun m' => set_games (games m' ++ [mkGame gid rlm h]) m'));
      has ← lift (py_contains "standings" match_);
      if negb has then pass else
      _ ← top_group_winner match_ m;
      tid ← lift (py_getitem tournament "id");
      details ← lift (_FetchEsportsData env "matchDetails" (ApiPair tid (JStr mid))
                        false true);
      game_id_mappings ← lift (py_get details "gameIdMappings" JNull);
      m0 ← read_match m;
      for_ (seq 0 (length (games m0))) (Rito_LoadData_hash m game_id_mappings)
  end.

(** The last part of the bracket loop of [LoadData]: the scheduled times
    come from another endpoint and are joined by match id. *)
Definition Rito_LoadData_times (env : Env) (league_data : json) : M PState unit :=
  lid ← lift (ls ← py_getitem league_data "leagues";
              l ← py_index ls 0;
              py_getitem l "id");
  schedule_data ← lift (_FetchEsportsData env "scheduleItems" (ApiVal lid) false false);
  if negb (py_truthy schedule_data) then pass else
  has ← lift (py_contains "scheduleItems" schedule_data);
  if negb has then pass else
  items ← lift (py_getitem schedule_data "scheduleItems" ≫= py_iter);
  for_ items (fun match_ =>
    match_id ← lift (py_get match_ "match" (JNum 0));
    p ← get_self;
    found ← lift (od_get_json (_matches p) match_id);
    match found with
    | None => pass
    | Some m =>
        ts ← lift (py_getitem match_ "scheduledTime" ≫= arrow_get env);
        update_match m (set_timestamp ts)
    end).

Definition Rito_LoadData_bracket (env : Env) (league_data tournament bracket : json)
    : M PState unit :=
  nm ← lift (py_getitem bracket "name");
  p ← get_self;
  let bid := _MakeBracketId p (py_str nm) in
  title ← lift (py_getitem bracket "name" ≫=
                py_str_method (fun s => str_title (str_replace_char "_" " " s)));
  lower ← lift (py_getitem bracket "name" ≫= py_str_method str_lower);
  let b := mkBracket bid title (league_id p) (str_contains "playoff" lower) [] [] in
  _ ← modify (with_self (fun p => set_brackets (od_set (_brackets p) bid b) p));
  _ ← Rito_LoadData_standings league_data tournament bracket bid;
  ms ← lift (py_getitem bracket "matches" ≫= py_values);
  _ ← for_ ms (Rito_LoadData_match env tournament bid);
  Rito_LoadData_times env league_data.

Definition Rito_LoadData (env : Env) : M PState unit :=
  _ ← modify (with_self (fun p => set_rosters [] (set_matches [] (set_teams [] p))));
  p ← get_self;
  league_data ← lift (_FetchEsportsData env "leagues" (ApiStr (_league p)) false false);
  if negb (py_truthy league_data) then pass else
  has ← lift (py_contains "leagues" league_data);
  if negb has then pass else
  ts ← lift (py_getitem league_data "teams" ≫= py_iter);
  _ ← for_ ts (fun team =>
        tid ← lift (py_getitem team "id");
        acronym ← lift (py_getitem team "acronym");
        nm ← lift (py_getitem team "name");
        acronym ← lift (pb_string acronym);
        nm ← lift (pb_string nm);
        modify (with_self (fun p =>
          set_teams (od_set (_teams p) (py_str tid) (mkTeam acronym nm (league_id p) [])) p)));
  tournaments ← lift (py_getitem league_data "highlanderTournaments" ≫=
                      _FindActiveTournaments env);
  for_ tournaments (fun tournament =>
    _ ← lift (py_getitem tournament "title");
    rosters ← lift (py_getitem tournament "rosters" ≫= py_items);
    _ ← for_ rosters (Rito_LoadData_roster env league_data tournament);
    bs ← lift (py_getitem tournament "brackets" ≫= py_values);
    for_ bs (Rito_LoadData_bracket env league_data tournament)).

Definition Rito_UpdateMatches_match (updated_matches : list loc) (match_ : json)
    : M PState (list loc) :=
  mid ← lift (py_getitem match_ "id");
  p ← get_self;
  old ← lift (od_get_json (_matches p) mid);
  match old with
  | None => ret updated_matches
  | Some old_match =>
      m ← read_match old_match;
      _ ← (if String.eqb (blue m) "TBD" || String.eqb (red m) "TBD" then
             match_teams ← _ExtractMatchTeams match_;
             match match_teams with
             | Some match_teams =>
                 b ← lift (list_getitem match_teams 0);
                 _ ← update_match old_match (set_blue b);
                 r ← lift (list_getitem match_teams 1);
                 update_match old_match (set_red r)
             | None => pass
             end
           else pass);
      m ← read_match old_match;
      if negb (String.eqb (winner m) "") then ret updated_matches else
      has ← lift (py_contains "standings" match_);
      if negb has then ret updated_matches else
      _ ← top_group_winner match_ old_match;
      ret (updated_matches ++ [old_match])
  end.

Definition Rito_UpdateMatches (env : Env) : M PState (list loc) :=
  p ← get_self;
  league_data ← lift (_FetchEsportsData env "leagues" (ApiStr (_league p)) true false);
  if negb (py_truthy league_data) then ret [] else
  has ← lift (py_contains "leagues" league_data);
  if negb has then ret [] else
  tournaments ← lift (py_getitem league_data "highlanderTournaments" ≫=
                      _FindActiveTournaments env);
  fold_ tournaments (fun updated_matches tournament =>
    bs ← lift (py_getitem tournament "brackets" ≫= py_values);
    fold_ bs (fun updated_matches bracket =>
      ms ← lift (py_getitem bracket "matches" ≫= py_values);
      fold_ ms Rito_UpdateMatches_match updated_matches) updated_matches) [].

(** The two methods of the provider interface, dispatched on the class. *)
Definition LoadData (env : Env) : M PState unit :=
  p ← get_self;
  match kind p with
  | RitoProvider _ _ _ => Rito_LoadData env
  | GrumbleProvider _ _ => Grumble_LoadData env
  end.

Definition UpdateMatches (env : Env) : M PState (list loc) :=
  p ← get_self;
  match kind p with
  | RitoProvider _ _ _ => Rito_UpdateMatches env
  | GrumbleProvider _ _ => Grumble_UpdateMatches env
  end.

(** ** NameComplete (name_complete_lib) *)

(** Modelled from the spec: [name_complete_lib.NameComplete] is not part of
    the sources.  It is built from a mapping of alias to key and the backing
    mapping of key to value, optionally with one more alias per value (in
    the order of the values); a key is an alias of itself. *)
Record NameComplete (V : Type) := mkNameComplete {
  nc_aliases : list (string * string);
  nc_data : list (string * V) }.
Arguments mkNameComplete {V} _ _.
Arguments nc_aliases {V} _.
Arguments nc_data {V} _.

Definition NameComplete_new {V} (aliases : list (string * string))
    (data : list (string * V)) (extra : list string) : NameComplete V :=
  mkNameComplete
    (aliases ++ zip extra (od_keys data) ++ map (fun k => (k, k)) (od_keys data))
    data.

Fixpoint dedup (l : list string) : list string :=
  match l with
  | [] => []
  | x :: l' => x :: filter (fun y => y ≠ x) (dedup l')
  end.

(** The keys one of whose aliases satisfies [test]. *)
Definition nc_candidates {V} (nc : NameComplete V) (test : string -> bool) : list string :=
  dedup (map snd (filter (fun kv => Is_true (test (fst kv))) (nc_aliases nc))).

(** Modelled from the spec: [Lookup(query)].  An exact key wins; then an
    alias equal to the query up to case and punctuation; then the aliases
    that contain the query.  More than one candidate is ambiguous, and both
    "not found" and "ambiguous" give no result. *)
Definition Lookup {V} (nc : NameComplete V) (query : string) : option V :=
  match od_get (nc_data nc) query with
  | Some v => Some v
  | None =>
      let q := CanonicalizeName query in
      match nc_candidates nc (fun a => String.eqb (CanonicalizeName a) q) with
      | [k] => od_get (nc_data nc) k
      | _ :: _ :: _ => None
      | [] =>
          match nc_candidates nc (fun a => str_contains q (CanonicalizeName a)) with
          | [k] => od_get (nc_data nc) k
          | _ => None
          end
      end
  end.

(** [query in nc] and [nc[query]] *)
Definition nc_contains {V} (nc : NameComplete V) (query : string) : bool :=
  match Lookup nc query with Some _ => true | None => false end.

(** ** EsportsLib *)

(** The class [Match]: the wrapped protobuf match is shared with the
    provider, the attributes it does not define are read from it. *)
Record Match := mkMatchW {
  _match : loc;
  time : Z;
  announced : bool }.

(** [Counter]: a missing key counts 0. *)
Definition Counter := list (string * Z).

Definition counter_get (c : Counter) (k : string) : Z := default 0 (od_get c k).
Definition counter_incr (c : Counter) (k : string) : Counter :=
  od_set c k (counter_get c k + 1).
(** [c.update(other)] adds the counts of [other]. *)
Definition counter_update (c other : Counter) : Counter :=
  foldl (fun c kv => od_set c (fst kv) (counter_get c (fst kv) + snd kv)) c other.

(** A value of the per-player dictionary of [player_stats]: the display
    name under ['name'], a counter under a champion name or ['num_games']. *)
Inductive PlayerStat :=
| PSName (s : string)
| PSCounter (c : Counter).

Definition ChampStats := list (hkey * list (string * Counter)).
Definition PlayerStats := list (string * list (hkey * PlayerStat)).

(** What [LoadEsports] publishes under the engine's lock. *)
Record Snapshot := mkSnapshot {
  es_teams : NameComplete Team;
  es_schedule : list Match;
  es_matches : list (string * Match);
  es_brackets : list (string * Bracket);
  (** the values are the provider objects, named by their place in
      [_providers] *)
  es_leagues : NameComplete nat;
  es_champ_stats : ChampStats;
  es_player_stats : NameComplete (list (hkey * PlayerStat));
  es_num_games : Counter }.

(** A registered callback acts on the world outside the engine (the
    messages it sent so far) and may raise. *)
Definition Callback := M (list string) unit.

Record World := mkWorld {
  w_heap : list MatchProto;
  w_rng : nat;
  _providers : list Provider;
  snapshot : Snapshot;
  _callbacks : list Callback;
  outside : list string }.

Definition set_snapshot (s : Snapshot) (w : World) : World :=
  mkWorld (w_heap w) (w_rng w) (_providers w) s (_callbacks w) (outside w).

(** The providers the constructor installs. *)
Definition new_provider (k : ProviderKind) (stats : bool) : Provider :=
  mkProvider k stats [] [] [] [].

Definition initial_providers : list Provider :=
  [new_provider (GrumbleProvider "D1" "NA1") true;
   new_provider (GrumbleProvider "D2" "NA1") true;
   new_provider (RitoProvider "NA" "na-lcs" ["North America"]) true;
   new_provider (RitoProvider "EU" "lec" ["Europe"]) true;
   new_provider (RitoProvider "LCK" "lck" ["LCK"; "Korea"; "KR"]) true;
   new_provider (RitoProvider "IN" "worlds" ["International"; "Worlds"]) true].

Definition empty_snapshot : Snapshot :=
  mkSnapshot (mkNameComplete [] []) [] [] [] (mkNameComplete [] []) []
    (mkNameComplete [] []) [].

(** The engine [__init__] leaves, before the first [LoadEsports]. *)
Definition initial_world : World :=
  mkWorld [] 0 initial_providers empty_snapshot [] [].

(** A method of the provider at place [i] of [_providers], run on the
    shared store. *)
Definition on_provider {A} (i : nat) (m : M PState A) : M World A :=
  fun w =>
    match _providers w !! i with
    | None => (w, Raise IndexError)
    | Some p =>
        let '(s, r) := m (mkPState (w_heap w) (w_rng w) p) in
        (mkWorld (heap s) (rng_pos s) (<[i := self s]> (_providers w))
           (snapshot w) (_callbacks w) (outside w), r)
    end.

Definition RegisterCallback (fn : Callback) : M World unit :=
  modify (fun w =>
    mkWorld (w_heap w) (w_rng w) (_providers w) (snapshot w) (_callbacks w ++ [fn])
      (outside w)).

(** [fn()] *)
Definition call (fn : Callback) : M World unit :=
  fun w =>
    let '(o, r) := fn (outside w) in
    (mkWorld (w_heap w) (w_rng w) (_providers w) (snapshot w) (_callbacks w) o, r).

(** [Match(match)] *)
Definition Match_init (env : Env) (h : list MatchProto) (l : loc) : result Match :=
  match h !! l with
  | Some m => Ok (mkMatchW l (timestamp m) (timestamp m <? utcnow env))
  | None => Raise OtherError
  end.

(** [match.attr] for an attribute of the protobuf match. *)
Definition deref (h : list MatchProto) (m : Match) : result MatchProto :=
  match h !! _match m with
  | Some p => Ok p
  | None => Raise OtherError
  end.

(** The local dictionaries [_ScrapePickBanData] fills. *)
Record Stats := mkStats {
  champ_stats : ChampStats;
  player_stats : PlayerStats;
  num_games : Counter }.

(** [champ_stats[champ_id][league_id][what] += 1] on the nested
    [defaultdict]. *)
Definition champ_incr (cs : ChampStats) (champ_id : hkey) (league : string)
    (what : string) : ChampStats :=
  let regions := default [] (od_get cs champ_id) in
  let c := default [] (od_get regions league) in
  od_set cs champ_id (od_set regions league (counter_incr c what)).

(** [player_stats[player_key][k][what] += 1]; the value under ['name'] is a
    string, which cannot be indexed by [what]. *)
Definition player_incr (ps : PlayerStats) (player_key : string) (k : hkey)
    (what : string) : result PlayerStats :=
  let entry := default [] (od_get ps player_key) in
  match od_get entry k with
  | Some (PSName _) => Raise TypeError
  | Some (PSCounter c) =>
      Ok (od_set ps player_key (od_set entry k (PSCounter (counter_incr c what))))
  | None =>
      Ok (od_set ps player_key (od_set entry k (PSCounter (counter_incr [] what))))
  end.

Definition player_set_name (ps : PlayerStats) (player_key : string) (n : string)
    : PlayerStats :=
  let entry := default [] (od_get ps player_key) in
  od_set ps player_key (od_set entry (HStr "name") (PSName n)).

Definition name_key (o : option string) : hkey :=
  match o with Some s => HStr s | None => HNone end.

(** The loop over the participants of a game in [_ScrapePickBanData]. *)
Definition _ScrapePickBanData_player (env : Env) (league : string)
    (participant_to_player : list (hkey * json)) (winning_team : json)
    (st : Stats) (player : json) : result Stats :=
  champ_id ← py_getitem player "championId";
  champ_key ← py_hash champ_id;
  let champ_name := name_key (GetChampNameFromId env champ_key) in
  pid ← py_getitem player "participantId" ≫= py_hash;
  player_name ← match od_get participant_to_player pid with
                 | Some n => Ok n
                 | None => Raise KeyError
                 end;
  player_key ← match (if py_truthy player_name then player_name else JStr "hypebot") with
                | JStr s => Ok (CanonicalizeName s)
                | _ => Raise TypeError
                end;
  let display := match player_name with
                 | JStr s => if String.eqb s "" then "HypeBot" else s
                 | _ => "HypeBot"
                 end in
  let ps := player_set_name (player_stats st) player_key display in
  let cs := champ_stats st in
  team_id ← py_get player "teamId" JNull;
  '(cs, ps) ← (if py_eq team_id winning_team then
                 let cs := champ_incr cs champ_key league "wins" in
                 ps ← player_incr ps player_key champ_name "wins";
                 ps ← player_incr ps player_key (HStr "num_games") "wins";
                 Ok (cs, ps)
               else Ok (cs, ps));
  let cs := champ_incr cs champ_key league "picks" in
  ps ← player_incr ps player_key champ_name "picks";
  ps ← player_incr ps player_key (HStr "num_games") "picks";
  Ok (mkStats cs ps (num_games st)).

(** The loop over the teams of a game: the winning team and the bans. *)
Definition _ScrapePickBanData_team (league : string)
    (acc : json * ChampStats) (team : json) : result (json * ChampStats) :=
  let '(winning_team, cs) := acc in
  win ← py_get team "win" JNull;
  winning_team ← (if py_eq win (JStr "Win") then py_get team "teamId" JNull
                  else Ok winning_team);
  bans ← py_get team "bans" (JList []) ≫= py_iter;
  cs ← rfold bans (fun cs ban =>
          k ← py_getitem ban "championId" ≫= py_hash;
          Ok (champ_incr cs k league "bans")) cs;
  Ok (winning_team, cs).

Definition _ScrapePickBanData_game (env : Env) (league : string)
    (st : Stats) (game : Game) : result Stats :=
  if String.eqb (hash game) "" then Ok st else
  let ng := counter_incr (num_games st) league in
  let game_stats :=
    FetchJson env
      ("https://acs.leagueoflegends.com/v1/stats/game/" +:+ realm game +:+ "/" +:+
       game_id game +:+ "?gameHash=" +:+ hash game) false true in
  ids ← py_get game_stats "participantIdentities" (JList []) ≫= py_iter;
  participant_to_player ←
    rfold ids (fun d p =>
      k ← py_getitem p "participantId";
      v ← Access p "player.summonerName" JNull;
      k ← py_hash k;
      Ok (od_set d k v)) [];
  ts ← py_get game_stats "teams" (JList []) ≫= py_iter;
  '(winning_team, cs) ← rfold ts (_ScrapePickBanData_team league) (JNull, champ_stats st);
  ps ← py_get game_stats "participants" (JList []) ≫= py_iter;
  rfold ps (_ScrapePickBanData_player env league participant_to_player winning_team)
    (mkStats cs (player_stats st) ng).

Definition _ScrapePickBanData (env : Env) (league : string) (m : MatchProto)
    (st : Stats) : result Stats :=
  rfold (games m) (_ScrapePickBanData_game env league) st.

(** The local dictionaries of [LoadEsports]. *)
Record Assembly := mkAssembly {
  a_teams : list (string * Team);
  a_matches : list (string * Match);
  a_brackets : list (string * Bracket);
  a_leagues : list (string * nat);
  a_stats : Stats }.

(** The body of the loop over the schedule of a bracket in [LoadEsports]. *)
Definition LoadEsports_match (env : Env) (h : list MatchProto) (league : Provider)
    (acc : list (string * Match) * Stats) (l : loc)
    : result (list (string * Match) * Stats) :=
  let '(matches, st) := acc in
  match_ ← Match_init env h l;
  p ← deref h match_;
  let matches := od_set matches (match_id p) match_ in
  if negb (String.eqb (winner p) "") && stats_enabled league then
    st ← _ScrapePickBanData env (league_id league) p st;
    Ok (matches, st)
  else Ok (matches, st).

Definition LoadEsports_bracket (env : Env) (h : list MatchProto) (league : Provider)
    (a : Assembly) (bracket : Bracket) : result Assembly :=
  let brackets := od_set (a_brackets a) (bracket_id bracket) bracket in
  '(matches, st) ← rfold (schedule bracket) (LoadEsports_match env h league)
                     (a_matches a, a_stats a);
  Ok (mkAssembly (a_teams a) matches brackets (a_leagues a) st).

(** The body of the loop over the providers in [LoadEsports]; [i] is the
    place of [league] in [_providers]. *)
Definition LoadEsports_league (env : Env) (h : list MatchProto)
    (a : Assembly) (il : nat * Provider) : result Assembly :=
  let '(i, league) := il in
  let a := mkAssembly (a_teams a) (a_matches a) (a_brackets a)
             (od_set (a_leagues a) (league_id league) i) (a_stats a) in
  a ← rfold (brackets league) (LoadEsports_bracket env h league) a;
  let teams := foldl (fun d t => od_set d (team_id t) t) (a_teams a) (teams league) in
  Ok (mkAssembly teams (a_matches a) (a_brackets a) (a_leagues a) (a_stats a)).

Definition assemble (env : Env) (w : World) : result Assembly :=
  rfold (imap pair (_providers w)) (LoadEsports_league env (w_heap w))
    (mkAssembly [] [] [] [] (mkStats [] [] [])).

(** [x.timestamp] for a wrapped match, as the sort key of the schedule. *)
Definition timestamp_of (h : list MatchProto) (m : Match) : Z :=
  match h !! _match m with Some p => timestamp p | None => 0 end.

(** The display name stored under ['name'] in a player's statistics. *)
Definition player_display (entry : list (hkey * PlayerStat)) : string :=
  match od_get entry (HStr "name") with
  | Some (PSName s) => s
  | _ => ""
  end.

(** The assignments [LoadEsports] makes while it holds the engine's lock. *)
Definition publish (env : Env) (w : World) (a : Assembly) : Snapshot :=
  let league_aliases :=
    foldl (fun d i =>
             match _providers w !! i with
             | Some league => od_set d (name league) (league_id league)
             | None => d
             end) [] (od_values (a_leagues a)) in
  let league_aliases :=
    foldl (fun d i =>
             match _providers w !! i with
             | Some league =>
                 foldl (fun d alias => od_set d alias (league_id league)) d (aliases league)
             | None => d
             end) league_aliases (od_values (a_leagues a)) in
  mkSnapshot
    (NameComplete_new
       (foldl (fun d kv => od_set d (team_name (snd kv)) (fst kv)) [] (a_teams a))
       (a_teams a) [])
    (sorted (timestamp_of (w_heap w)) false (od_values (a_matches a)))
    (a_matches a)
    (a_brackets a)
    (NameComplete_new league_aliases (a_leagues a) [])
    (champ_stats (a_stats a))
    (NameComplete_new (LCS_PLAYER_NICKNAME_MAP env) (player_stats (a_stats a))
       (map player_display (od_values (player_stats (a_stats a)))))
    (num_games (a_stats a)).

(** The first loop of [LoadEsports]: [provider.LoadData()] for every
    provider. *)
Definition LoadEsports_providers (env : Env) : M World unit :=
  w ← get_state;
  for_ (seq 0 (length (_providers w))) (fun i => on_provider i (LoadData env)).

(** The last loop of [LoadEsports]: [fn()] for every registered callback. *)
Definition LoadEsports_callbacks : M World unit :=
  w ← get_state;
  for_ (_callbacks w) call.

Definition LoadEsports (env : Env) : M World unit :=
  _ ← LoadEsports_providers env;
  w ← get_state;
  a ← lift (assemble env w);
  _ ← modify (set_snapshot (publish env w a));
  LoadEsports_callbacks.

Definition UpdateEsportsMatches (env : Env) : M World (list loc) :=
  w ← get_state;
  fold_ (seq 0 (length (_providers w)))
    (fun updated_matches i =>
       u ← on_provider i (UpdateMatches env);
       ret (updated_matches ++ u)) [].

(** [self.leagues[subcommand].league_id] *)
Definition league_of (w : World) (s : Snapshot) (subcommand : string) : option string :=
  i ← Lookup (es_leagues s) subcommand;
  league_id <$> _providers w !! i.

(** The first lines of [GetSchedule] and of [GetResults]: the qualifier,
    and whether it is a team. *)
Definition resolve_qualifier (w : World) (s : Snapshot) (subcommand : string)
    : string * bool :=
  let qualifier := "All" in
  let is_team := false in
  let '(qualifier, is_team) :=
    match Lookup (es_teams s) subcommand with
    | Some t => (team_id t, true)
    | None => (qualifier, is_team)
    end in
  match league_of w s subcommand with
  | Some l => (l, false)
  | None => (qualifier, is_team)
  end.

(** Modelled from the spec: [arrow.Arrow.max], the time of a match that has
    no scheduled time yet. *)
Definition ARROW_MAX : Z := TIMESTAMP_FAR_FUTURE.

(** [self.brackets[match.bracket_id]] *)
Definition bracket_of (s : Snapshot) (p : MatchProto) : result Bracket :=
  match od_get (es_brackets s) (match_bracket_id p) with
  | Some b => Ok b
  | None => Raise KeyError
  end.

Definition qualifies (qualifier : string) (b : Bracket) (p : MatchProto) : bool :=
  String.eqb qualifier "All" ||
  String.eqb qualifier (bracket_league_id b) ||
  String.eqb qualifier (blue p) || String.eqb qualifier (red p).

Definition _MatchIsInteresting (w : World) (s : Snapshot) (match_ : Match)
    (qualifier : string) (now : Z) (include_playoffs : bool) : result bool :=
  p ← deref (w_heap w) match_;
  bracket ← bracket_of s p;
  Ok (qualifies qualifier bracket p &&
      String.eqb (winner p) "" &&
      ((time match_ =? ARROW_MAX) ||
       (now <? time match_ + 3600 * Z.of_nat (length (games p)))) &&
      (include_playoffs || negb (is_playoffs bracket))).

Definition _ResultIsInteresting (w : World) (s : Snapshot) (match_ : Match)
    (qualifier : string) : result bool :=
  p ← deref (w_heap w) match_;
  bracket ← bracket_of s p;
  Ok (qualifies qualifier bracket p && negb (String.eqb (winner p) "")).

(** [l[:n]] *)
Definition py_take {A} (n : Z) (l : list A) : list A :=
  if n <? 0 then take (Z.to_nat (Z.of_nat (length l) + n)) l else take (Z.to_nat n) l.

(** The line [GetSchedule] prints for a match. *)
Definition schedule_line (env : Env) (match_ : Match) (p : MatchProto) (now : Z) : string :=
  let date_time :=
    if now <? time match_ then
      if time match_ =? ARROW_MAX then "TBD" else strftime env (time match_)
    else "LIVE - " +:+ FALLBACK_LIVESTREAM_LINK env in
  let num_games_str :=
    match games p with
    | [] => ""
    | _ => "Bo" +:+ pretty (length (games p)) +:+ " - "
    end in
  Colorize (fmt_3 (blue p)) "blue" +:+ " v " +:+ Colorize (fmt_3 (red p)) "red" +:+
  ": " +:+ num_games_str +:+ date_time.

(** The loop of [GetSchedule]; [schedule] is the list it appends to, and the
    loop stops once it holds [num_games] lines. *)
Fixpoint GetSchedule_loop (env : Env) (w : World) (s : Snapshot) (qualifier : string)
    (now : Z) (include_playoffs : bool) (num_games : Z)
    (schedule : list string) (l : list Match) : result (list string) :=
  match l with
  | [] => Ok schedule
  | match_ :: l' =>
      c ← _MatchIsInteresting w s match_ qualifier now include_playoffs;
      if (c : bool) then
        p ← deref (w_heap w) match_;
        let schedule := schedule ++ [schedule_line env match_ p now] in
        if num_games <=? Z.of_nat (length schedule) then Ok schedule
        else GetSchedule_loop env w s qualifier now include_playoffs num_games schedule l'
      else GetSchedule_loop env w s qualifier now include_playoffs num_games schedule l'
  end.

Definition GetSchedule (env : Env) (w : World) (subcommand : string)
    (include_playoffs : bool) (num_games : Z) : result (list string * string) :=
  let s := snapshot w in
  let qualifier := fst (resolve_qualifier w s subcommand) in
  let now := utcnow env in
  schedule ← GetSchedule_loop env w s qualifier now include_playoffs num_games []
                (es_schedule s);
  match schedule with
  | [] => Ok (py_take num_games [SCHEDULE_NO_GAMES_STRING env], "No")
  | _ => Ok (py_take num_games schedule, qualifier)
  end.

(** The line [GetResults] prints for a match. *)
Definition result_line (p : MatchProto) (qualifier : string) (is_team : bool) : string :=
  let is_tie := String.eqb (winner p) "TIE" in
  let winner_msg :=
    if is_team then
      if is_tie then "Tie"
      else if String.eqb (winner p) qualifier then "Won!" else "Lost"
    else
      (if is_tie then winner p
       else Colorize (fmt_3 (winner p))
              (if String.eqb (red p) (winner p) then "red" else "blue")) +:+
      " " +:+ (if is_tie then ":^)" else "wins!") in
  Colorize (fmt_3 (blue p)) "blue" +:+ " v " +:+ Colorize (fmt_3 (red p)) "red" +:+
  ": " +:+ winner_msg.

Fixpoint GetResults_loop (w : World) (s : Snapshot) (qualifier : string)
    (is_team : bool) (num_games : Z) (results : list string) (l : list Match)
    : result (list string) :=
  match l with
  | [] => Ok results
  | match_ :: l' =>
      c ← _ResultIsInteresting w s match_ qualifier;
      if (c : bool) then
        p ← deref (w_heap w) match_;
        let results := results ++ [result_line p qualifier is_team] in
        if num_games <=? Z.of_nat (length results) then Ok results
        else GetResults_loop w s qualifier is_team num_games results l'
      else GetResults_loop w s qualifier is_team num_games results l'
  end.

Definition GetResults (w : World) (subcommand : string) (num_games : Z)
    : result (list string * string) :=
  let s := snapshot w in
  let '(qualifier, is_team) := resolve_qualifier w s subcommand in
  let tmp_schedule := reverse (es_schedule s) in
  results ← GetResults_loop w s qualifier is_team num_games [] tmp_schedule;
  Ok (py_take num_games results, qualifier).

(** [region = self.leagues[region].league_id if region in self.leagues] *)
Definition resolve_region (w : World) (s : Snapshot) (region : string) : string :=
  default region (league_of w s region).

(** [region in ('all', k)] *)
Definition in_region (region k : string) : bool :=
  String.eqb region "all" || String.eqb region k.

(** The first loop of [GetTopPickBanChamps]. *)
Definition flatten_champs (env : Env) (region : string) (cs : ChampStats)
    : list (string * Counter) :=
  foldl (fun d entry =>
           match GetChampNameFromId env (fst entry) with
           | None => d
           | Some champ_name =>
               if String.eqb champ_name "" then d else
               od_set d champ_name
                 (foldl (fun c rd => if in_region region (fst rd)
                                     then counter_update c (snd rd) else c)
                    [] (snd entry))
           end) [] cs.

(** [sum(v for k, v in self._num_games.items() if region in ('all', k))] *)
Definition games_in_region (region : string) (ng : Counter) : Z :=
  foldr Z.add 0 (map snd (filter (fun kv => Is_true (in_region region (fst kv))) ng)).

Definition picks (x : string * Counter) : Z := counter_get (snd x) "picks".

(** [x[1]['picks'] >= num_games / 20.0]: an integer compared with an exact
    twentieth. *)
Definition above_floor (num_games : Z) (x : string * Counter) : bool :=
  num_games <=? 20 * picks x.

Definition GetTopPickBanChamps {K} (lt : K -> K -> bool) (env : Env) (w : World)
    (region : string) (sort_key_fn : Counter -> K) (descending : bool)
    : Z * list (string * Counter) :=
  let s := snapshot w in
  let region := resolve_region w s region in
  let champs_to_flattened_data := flatten_champs env region (es_champ_stats s) in
  let num_games := games_in_region region (es_num_games s) in
  let filtered_champs :=
    filter (fun x => Is_true (above_floor num_games x)) champs_to_flattened_data in
  let sorted_champs := sorted picks true filtered_champs in
  let sorted_champs :=
    sorted_with lt (fun x => sort_key_fn (snd x)) descending sorted_champs in
  (num_games, take 5 sorted_champs).

(** ** Readers and a reload in another thread

    The engine's lock is held for one property access ([self.schedule],
    [self.brackets]) or one [with self._lock] block at a time.  A read query
    is therefore a sequence of sections, each of which reads the world as
    it is when the section runs; between two sections another thread may
    run.  [LoadEsports] assigns all the fields of the snapshot in one
    section. *)
Inductive Reader (A : Type) : Type :=
| Done (r : result A)
| Locked (k : World -> Reader A).
Arguments Done {A} r.
Arguments Locked {A} k.

(** The query run alone: every section reads the same world. *)
Fixpoint run_alone {A} (w : World) (r : Reader A) : result A :=
  match r with
  | Done x => x
  | Locked k => run_alone w (k w)
  end.

(** The loop of [GetResults]: [self.brackets] is read, under the lock, for
    every match ([_ResultIsInteresting]). *)
Fixpoint GetResults_sections (qualifier : string) (is_team : bool) (num_games : Z)
    (results : list string) (l : list Match) : Reader (list string * string) :=
  match l with
  | [] => Done (Ok (py_take num_games results, qualifier))
  | match_ :: l' =>
      Locked (fun w =>
        match _ResultIsInteresting w (snapshot w) match_ qualifier with
        | Raise e => Done (Raise e)
        | Ok false => GetResults_sections qualifier is_team num_games results l'
        | Ok true =>
            match deref (w_heap w) match_ with
            | Raise e => Done (Raise e)
            | Ok p =>
                let results := results ++ [result_line p qualifier is_team] in
                if num_games <=? Z.of_nat (length results)
                then Done (Ok (py_take num_games results, qualifier))
                else GetResults_sections qualifier is_team num_games results l'
            end
        end)
  end.

(** [GetResults] by its sections: the [with self._lock] block that resolves
    the qualifier, the read of [self.schedule], then the loop. *)
Definition GetResults_reader (subcommand : string) (num_games : Z)
    : Reader (list string * string) :=
  Locked (fun w =>
    let '(qualifier, is_team) := resolve_qualifier w (snapshot w) subcommand in
    Locked (fun w =>
      let tmp_schedule := reverse (es_schedule (snapshot w)) in
      GetResults_sections qualifier is_team num_games [] tmp_schedule)).

Fixpoint GetSchedule_sections (env : Env) (qualifier : string) (now : Z)
    (include_playoffs : bool) (num_games : Z) (schedule : list string) (l : list Match)
    : Reader (list string * string) :=
  let finish (schedule : list string) :=
    match schedule with
    | [] => Done (Ok (py_take num_games [SCHEDULE_NO_GAMES_STRING env], "No"))
    | _ => Done (Ok (py_take num_games schedule, qualifier))
    end in
  match l with
  | [] => finish schedule
  | match_ :: l' =>
      Locked (fun w =>
        match _MatchIsInteresting w (snapshot w) match_ qualifier now include_playoffs with
        | Raise e => Done (Raise e)
        | Ok false =>
            GetSchedule_sections env qualifier now include_playoffs num_games schedule l'
        | Ok true =>
            match deref (w_heap w) match_ with
            | Raise e => Done (Raise e)
            | Ok p =>
                let schedule := schedule ++ [schedule_line env match_ p now] in
                if num_games <=? Z.of_nat (length schedule) then finish schedule
                else GetSchedule_sections env qualifier now include_playoffs num_games
                       schedule l'
            end
        end)
  end.

Definition GetSchedule_reader (env : Env) (subcommand : string)
    (include_playoffs : bool) (num_games : Z) : Reader (list string * string) :=
  Locked (fun w =>
    let qualifier := fst (resolve_qualifier w (snapshot w) subcommand) in
    let now := utcnow env in
    Locked (fun w =>
      GetSchedule_sections env qualifier now include_playoffs num_games []
        (es_schedule (snapshot w)))).

(** The steps of the two threads: a section of the reader, or the section
    in which the reload assigns the fields of the snapshot it assembled. *)
Inductive label := ReaderStep | Publish.

Record Config (A : Type) := mkConfig {
  c_world : World;
  c_pending : option Snapshot;
  c_reader : Reader A }.
Arguments mkConfig {A} _ _ _.
Arguments c_world {A} _.
Arguments c_pending {A} _.
Arguments c_reader {A} _.

Definition step {A} (c : Config A) (l : label) : Config A :=
  match l with
  | ReaderStep =>
      match c_reader c with
      | Locked k => mkConfig (c_world c) (c_pending c) (k (c_world c))
      | Done _ => c
      end
  | Publish =>
      match c_pending c with
      | Some s => mkConfig (set_snapshot s (c_world c)) None (c_reader c)
      | None => c
      end
  end.

(** An interleaving of the two threads. *)
Definition run {A} (c : Config A) (t : list label) : Config A := foldl step c t.

(** * Specification vocabulary

    The predicates the theorems are stated with. *)

(** [x] stands before [y] in a list sorted with [before] only if [y] need
    not come before [x]; when neither must come first, the relation [S] that
    held between them in the input still holds. *)
Definition sorted_rel {A} (before : A -> A -> bool) (S : A -> A -> Prop) (x y : A) : Prop :=
  before y x = false /\ (before x y = false -> S x y).

(** The outcome of running [m] from [s]: [Q] holds of the result and the
    state if it returns, [E] of the state if it raises. *)
Definition wp {S A} (m : M S A) (Q : A -> S -> Prop) (E : S -> Prop) (s : S) : Prop :=
  match m s with
  | (s', Ok a) => Q a s'
  | (s', Raise _) => E s'
  end.

(** What a poll may not change in a match. *)
Definition same_match_identity (m0 m : MatchProto) : Prop :=
  match_id m = match_id m0 /\ match_bracket_id m = match_bracket_id m0 /\
  timestamp m = timestamp m0 /\ games m = games m0.

Definition heap_frame (h0 h : list MatchProto) : Prop :=
  Forall2 same_match_identity h0 h.

(** The frame of a poll on the state of a provider method: the provider
    object and the random draws are untouched, the store keeps the identity
    of every match. *)
Definition poll_frame (s0 s : PState) : Prop :=
  self s = self s0 /\ rng_pos s = rng_pos s0 /\ heap_frame (heap s0) (heap s).

(** A match that the provider's match map already names. *)
Definition known_match (s0 : PState) (l : loc) : Prop :=
  (exists k, (k, l) ∈ _matches (self s0)) /\ (l < length (heap s0))%nat.

(** A provider method that stays within the frame of a poll, whether it
    returns or raises. *)
Definition framed (s0 : PState) {A} (m : M PState A) : Prop :=
  forall s, poll_frame s0 s -> wp m (fun _ => poll_frame s0) (poll_frame s0) s.

Definition poll_inv (s0 : PState) (updated_matches : list loc) (s : PState) : Prop :=
  poll_frame s0 s /\ Forall (known_match s0) updated_matches.

Definition world_frame (w0 w : World) : Prop :=
  _providers w = _providers w0 /\ snapshot w = snapshot w0 /\
  _callbacks w = _callbacks w0 /\ outside w = outside w0 /\ w_rng w = w_rng w0 /\
  heap_frame (w_heap w0) (w_heap w).

Definition known_to_provider (w0 : World) (l : loc) : Prop :=
  (exists i p k, _providers w0 !! i = Some p /\ (k, l) ∈ _matches p) /\
  (l < length (w_heap w0))%nat.

(** [x] may stand before [y] in the ranking of [GetTopPickBanChamps]: the
    caller's key does not rank [y] strictly first, and when the key ties the
    two, [x] has at least as many picks. *)
Definition ranks_before {K} (lt : K -> K -> bool) (sort_key_fn : Counter -> K)
    (descending : bool) (x y : string * Counter) : Prop :=
  let kx := sort_key_fn (snd x) in
  let ky := sort_key_fn (snd y) in
  (if descending then lt kx ky else lt ky kx) = false /\
  ((if descending then lt ky kx else lt kx ky) = false -> picks y <= picks x).

(** Three points a win, one a tie, none a loss. *)
Definition standing_ok (t : TeamStanding) : Prop :=
  points t = 3 * wins t + 1 * ties t + 0 * losses t.

(** Adjacent entries of a standings list: points do not increase, equal
    points share the rank, and the rank changes only when points decrease. *)
Definition ranked_ok (l : list TeamStanding) : Prop :=
  forall i t t', l !! i = Some t -> l !! S i = Some t' ->
    points t' <= points t /\
    (points t' = points t -> rank t' = rank t) /\
    (rank t' <> rank t -> points t' < points t).

Definition bracket_ok (b : Bracket) : Prop :=
  Forall standing_ok (standings b) /\ ranked_ok (standings b).

(** The brackets of a provider while [_ParseSchedule] fills the bracket
    stored under [bkey]: the others are final, this one has no standings
    yet. *)
Definition parsing_inv (bkey : string) (ks : list string) (s : PState) : Prop :=
  od_keys (_brackets (self s)) = ks /\
  (forall k b, (k, b) ∈ _brackets (self s) -> bracket_ok b) /\
  (forall b, (bkey, b) ∈ _brackets (self s) -> standings b = []).

Definition brackets_ok (ks : list string) (s : PState) : Prop :=
  od_keys (_brackets (self s)) = ks /\
  (forall k b, (k, b) ∈ _brackets (self s) -> bracket_ok b).

(** The local dictionary [standings] of [_ParseSchedule]. *)
Definition standings_dict_ok (d : list (string * TeamStanding)) : Prop :=
  forall k t, (k, t) ∈ d -> standing_ok t.


(** Two worlds that differ at most in what the callbacks did outside. *)
Definition same_engine (w w' : World) : Prop :=
  w_heap w' = w_heap w /\ w_rng w' = w_rng w /\ _providers w' = _providers w /\
  snapshot w' = snapshot w /\ _callbacks w' = _callbacks w.

(** What reloading the providers leaves alone. *)
Definition same_registry (w w' : World) : Prop :=
  snapshot w' = snapshot w /\ _callbacks w' = _callbacks w /\ outside w' = outside w.

(** Every registered callback invoked in turn, each isolated from the
    failures of the others. *)
Definition call_isolated (cbs : list Callback) (o : list string) : list string :=
  foldl (fun o fn => fst (fn o)) o cbs.

(** The callbacks up to and including the first one that raises. *)
Fixpoint invoked_prefix (cbs : list Callback) (o : list string) : list Callback :=
  match cbs with
  | [] => []
  | fn :: cbs' =>
      fn :: (if is_ok (snd (fn o)) then invoked_prefix cbs' (fst (fn o)) else [])
  end.

(** The reader after its next sections have read the worlds [ws]. *)
Fixpoint feed {A} (r : Reader A) (ws : list World) {struct ws} : Reader A :=
  match ws, r with
  | w :: ws', Locked k => feed (k w) ws'
  | _, _ => r
  end.

(** C1 as the specification states it: whatever the interleaving, a query
    that completes returns what it returns on the old snapshot or what it
    returns on the new one. *)
Definition C1_as_stated (w : World) (new : Snapshot) (subcommand : string)
    (num_games : Z) : Prop :=
  forall t x,
    c_reader (run (mkConfig w (Some new) (GetResults_reader subcommand num_games)) t)
      = Done x ->
    x = GetResults w subcommand num_games \/
    x = GetResults (set_snapshot new w) subcommand num_games.

(** C6 as the specification states it: a qualifier that is both a team and
    a league is resolved to the team. *)
Definition C6_as_stated (w : World) (subcommand : string) : Prop :=
  forall t l n lines qualifier,
    Lookup (es_teams (snapshot w)) subcommand = Some t ->
    league_of w (snapshot w) subcommand = Some l ->
    GetResults w subcommand n = Ok (lines, qualifier) ->
    qualifier = team_id t.

(** Every match of the published schedule is in the store and its bracket
    is published with it. *)
Definition schedule_wf (w : World) : Prop :=
  forall m, m ∈ es_schedule (snapshot w) ->
    exists p b, w_heap w !! _match m = Some p /\
                od_get (es_brackets (snapshot w)) (match_bracket_id p) = Some b.

(** The match is a result for the qualifier: it has a winner, and the
    qualifier is "All", its league or one of its teams. *)
Definition is_result (w : World) (qualifier : string) (m : Match) : Prop :=
  _ResultIsInteresting w (snapshot w) m qualifier = Ok true.

#[global] Instance is_result_dec w q m : Decision (is_result w q m).
Proof.
  unfold is_result.
  destruct (_ResultIsInteresting w (snapshot w) m q) as [[]|];
    [by left|by right|by right].
Defined.

(** C8 as the specification states it: a winner set by a poll is in the
    very next results for a qualifier that matches the match. *)
Definition C8_as_stated (env : Env) (w : World) (subcommand : string) (num_games : Z)
    : Prop :=
  forall w' r match_ p p',
    UpdateEsportsMatches env w = (w', r) ->
    match_ ∈ es_schedule (snapshot w) ->
    w_heap w !! _match match_ = Some p -> winner p = "" ->
    w_heap w' !! _match match_ = Some p' -> winner p' <> "" ->
    let '(qualifier, is_team) := resolve_qualifier w' (snapshot w') subcommand in
    is_result w' qualifier match_ ->
    exists lines, GetResults w' subcommand num_games = Ok (lines, qualifier) /\
                  result_line p' qualifier is_team ∈ lines.

(** ** More vocabulary *)

(** The characters of a string. *)
Fixpoint chars_of (s : string) : list ascii :=
  match s with
  | EmptyString => []
  | String c s' => c :: chars_of s'
  end.

(** A name of ASCII characters only, where [CanonicalizeName] is modelled
    exactly. *)
Definition ascii_name (s : string) : Prop :=
  Forall (fun c => (nat_of_ascii c < 128)%nat) (chars_of s).

(** The start of a tournament that has a ['startDate']. *)
Definition start_date (env : Env) (t : json) : option Z :=
  match py_contains "startDate" t with
  | Ok true =>
      match py_getitem t "startDate" ≫= arrow_get env with
      | Ok s => Some s
      | Raise _ => None
      end
  | _ => None
  end.

(** The tournament has started and has not ended. *)
Definition is_active (env : Env) (t : json) : bool :=
  match py_contains "startDate" t with
  | Ok true =>
      match py_getitem t "startDate" ≫= arrow_get env,
            py_getitem t "endDate" ≫= arrow_get env with
      | Ok s, Ok e => (s <=? utcnow env) && (utcnow env <=? e)
      | _, _ => false
      end
  | _ => false
  end.

(** [t] is the first of the tournaments of [ts] that start latest. *)
Definition newest_of (env : Env) (ts : list json) (t : json) : Prop :=
  exists before after s,
    ts = before ++ t :: after /\ start_date env t = Some s /\ ARROW_MIN < s /\
    (forall t' s', t' ∈ before -> start_date env t' = Some s' -> s' < s) /\
    (forall t' s', t' ∈ after -> start_date env t' = Some s' -> s' <= s).

(** No tournament of [ts] has a start after the first second of [arrow]. *)
Definition undated (env : Env) (ts : list json) : Prop :=
  forall t s, t ∈ ts -> start_date env t = Some s -> s <= ARROW_MIN.

(** The local variables of [_FindActiveTournaments] when the loop has seen
    the tournaments [seen]. *)
Definition active_inv (env : Env) (seen : list json) (acc : list json * json * Z) : Prop :=
  let '(active_tournaments, tournament, newest_start_date) := acc in
  active_tournaments = filter (fun t => is_active env t = true) seen /\
  ((tournament = JNull /\ newest_start_date = ARROW_MIN /\ undated env seen) \/
   (newest_of env seen tournament /\ start_date env tournament = Some newest_start_date)).

(** The match is upcoming for the qualifier: undecided, not over, and of a
    bracket that is asked for. *)
Definition is_upcoming (env : Env) (w : World) (qualifier : string)
    (include_playoffs : bool) (m : Match) : Prop :=
  _MatchIsInteresting w (snapshot w) m qualifier (utcnow env) include_playoffs = Ok true.

#[global] Instance is_upcoming_dec env w q ip m : Decision (is_upcoming env w q ip m).
Proof.
  unfold is_upcoming.
  destruct (_MatchIsInteresting w (snapshot w) m q (utcnow env) ip) as [[]|];
    [by left|by right|by right].
Defined.

(** The lines of the two queries for a match of the schedule. *)
Definition result_line_of (w : World) (qualifier : string) (is_team : bool) (m : Match)
    : string :=
  match w_heap w !! _match m with
  | Some p => result_line p qualifier is_team
  | None => ""
  end.

Definition schedule_line_of (env : Env) (w : World) (m : Match) : string :=
  match w_heap w !! _match m with
  | Some p => schedule_line env m p (utcnow env)
  | None => ""
  end.

(** The brackets of a provider are in order: no key twice, and every match
    of a schedule is in the store and names the bracket that lists it. *)
Definition brackets_wf (h : list MatchProto) (bs : list (string * Bracket)) : Prop :=
  NoDup (od_keys bs) /\
  forall k b l, (k, b) ∈ bs -> l ∈ schedule b ->
    exists m, h !! l = Some m /\ match_bracket_id m = bracket_id b.

(** What holds while [LoadData] runs on a store that was [H] when it
    started: the store has grown only, the match map names new matches only,
    and the brackets are in order if they were ([P]). *)
Definition load_inv (P : Prop) (H : list MatchProto) (s : PState) : Prop :=
  (exists N, heap s = H ++ N) /\
  (forall k l, (k, l) ∈ _matches (self s) -> (length H <= l)%nat) /\
  (P -> brackets_wf (heap s) (_brackets (self s))).

(** A provider method that keeps [I], whether it returns or raises. *)
Definition keeps (I : PState -> Prop) {A} (m : M PState A) : Prop :=
  forall s, I s -> wp m (fun _ => I) I s.

(** The brackets of every provider are in order. *)
Definition providers_wf (w : World) : Prop :=
  Forall (fun p => brackets_wf (w_heap w) (_brackets p)) (_providers w).

(** The published schedule is in the order of the times its matches
    carry. *)
Definition schedule_timed (w : World) : Prop :=
  StronglySorted (fun x y => time x <= time y) (es_schedule (snapshot w)).

(** The engine between two calls: the providers' brackets and the published
    schedule refer to matches of the store and to their brackets, and the
    schedule is in order. *)
Definition engine_wf (w : World) : Prop :=
  providers_wf w /\ schedule_wf w /\ schedule_timed w.

(** The engine while the providers load, started from [w0]. *)
Definition loading_inv (w0 w : World) : Prop :=
  (exists N, w_heap w = w_heap w0 ++ N) /\ same_registry w0 w /\
  (providers_wf w0 -> providers_wf w).

(** The matches [LoadEsports] has collected are in the store and carry
    the time of the stored match, and their brackets are among the keys [K]
    of the brackets it has collected. *)
Definition matches_in (h : list MatchProto) (K : list string)
    (ms : list (string * Match)) : Prop :=
  forall k m, (k, m) ∈ ms ->
    exists p, h !! _match m = Some p /\ match_bracket_id p ∈ K /\ time m = timestamp p.

(** The states of the engine: the one the constructor leaves, and those
    reached from it by registering callbacks, reloading and polling,
    whatever the upstream answers and whether the call returns or raises. *)
Inductive reachable : World -> Prop :=
| reach_init : reachable initial_world
| reach_RegisterCallback fn w :
    reachable w -> reachable (fst (RegisterCallback fn w))
| reach_LoadEsports env w :
    reachable w -> reachable (fst (LoadEsports env w))
| reach_UpdateEsportsMatches env w :
    reachable w -> reachable (fst (UpdateEsportsMatches env w)).

(** A match the poll decided: it had no winner in the store [h0] and has
    one in [h]. *)
Definition newly_decided (h0 h : list MatchProto) (l : loc) : Prop :=
  exists m m', h0 !! l = Some m /\ winner m = "" /\ h !! l = Some m' /\ winner m' <> "".

(** What holds while [GrumbleProvider.UpdateMatches] runs from [s0] with
    the matches [updated_matches] collected: a match without a winner has
    not been written to, and the collected matches are newly decided, each
    once. *)
Definition deciding_inv (s0 : PState) (updated_matches : list loc) (s : PState) : Prop :=
  (forall l m, heap s !! l = Some m -> winner m = "" -> heap s0 !! l = Some m) /\
  Forall (newly_decided (heap s0) (heap s)) updated_matches /\
  NoDup updated_matches.

(** The number of entries of [sts] with more points than [t]. *)
Definition ahead_of (t : TeamStanding) (sts : list TeamStanding) : nat :=
  length (filter (fun t' => points t < points t') sts).

(** Competition ranking: the rank of a team is one more than the number of
    teams with more points. *)
Definition competition_ranked (sts : list TeamStanding) : Prop :=
  forall t, t ∈ sts -> rank t = 1 + Z.of_nat (ahead_of t sts).

(** The brackets of a provider while [_ParseSchedule] fills the bracket
    stored under [bkey]: the others are ranked, this one has no standings
    yet. *)
Definition ranking_inv (bkey : string) (ks : list string) (s : PState) : Prop :=
  od_keys (_brackets (self s)) = ks /\
  (forall k b, (k, b) ∈ _brackets (self s) -> competition_ranked (standings b)) /\
  (forall b, (bkey, b) ∈ _brackets (self s) -> standings b = []).

Definition all_ranked (ks : list string) (s : PState) : Prop :=
  od_keys (_brackets (self s)) = ks /\
  (forall k b, (k, b) ∈ _brackets (self s) -> competition_ranked (standings b)).

(** A league document that passes the guard of [LoadData] and
    [UpdateMatches], and none of whose tournaments has a ['startDate']. *)
Definition undated_league (league_data : json) : Prop :=
  py_truthy league_data = true /\ py_contains "leagues" league_data = Ok true /\
  exists tournaments ts,
    py_getitem league_data "highlanderTournaments" = Ok tournaments /\
    py_iter tournaments = Ok ts /\
    Forall (fun t => py_contains "startDate" t = Ok false) ts.

(** A counter with no more wins than picks. *)
Definition wins_le_picks (c : Counter) : Prop :=
  counter_get c "wins" <= counter_get c "picks".

(** The nested dictionary [champ_stats]: no key twice at any level, and [Q]
    holds of the counter of every champion and league. *)
Definition stats_inv (Q : hkey -> string -> Counter -> Prop) (cs : ChampStats) : Prop :=
  NoDup (od_keys cs) /\
  forall k regions, (k, regions) ∈ cs ->
    NoDup (od_keys regions) /\
    forall l c, (l, c) ∈ regions -> NoDup (od_keys c) /\ Q k l c.

(** The state [t] comes after [s] in a sequence of polls: the same provider
    object, the same number of matches, and every match that is undecided
    in [t] is as it was in [s]. *)
Definition polled_after (s t : PState) : Prop :=
  self t = self s /\ length (heap t) = length (heap s) /\
  forall l m, heap t !! l = Some m -> winner m = "" -> heap s !! l = Some m.

(** The match at [l] has no winner in the store [h]. *)
Definition undecided (h : list MatchProto) (l : loc) : Prop :=
  exists m, h !! l = Some m /\ winner m = "".

(** Winners are not taken back: a match without a winner in [h] had none
    in [h0]. *)
Definition undecided_before (h0 h : list MatchProto) : Prop :=
  forall l, undecided h l -> undecided h0 l.

(** While a provider polls from the store [h0]. *)
Definition polling_inv (h0 : list MatchProto) (s : PState) : Prop :=
  undecided_before h0 (heap s).

(** Code that only reads the state keeps every invariant. *)
Definition reads {A} (m : M PState A) : Prop := forall I, keeps I m.

(** ** The snapshot as a reader sees it *)

(** What a wrapped match shows: the protobuf match it wraps, its time and
    whether it counts as announced. *)
Definition match_view (h : list MatchProto) (m : Match) : option MatchProto * Z * bool :=
  (h !! _match m, time m, announced m).

(** A bracket with the matches of its schedule read from the store. *)
Record BracketView := mkBracketView {
  bv_bracket_id : string;
  bv_name : string;
  bv_league_id : string;
  bv_is_playoffs : bool;
  bv_standings : list TeamStanding;
  bv_schedule : list (option MatchProto) }.

Definition bracket_view (h : list MatchProto) (b : Bracket) : BracketView :=
  mkBracketView (bracket_id b) (bracket_name b) (bracket_league_id b) (is_playoffs b)
    (standings b) ((fun l => h !! l) <$> schedule b).

(** The values of a dictionary seen through [f]. *)
Definition vmap {K V W} (f : V -> W) (d : list (K * V)) : list (K * W) :=
  prod_map id f <$> d.

(** The published snapshot with every match read from the store, and every
    team seen through [team_view]. *)
Record SnapshotView := mkSnapshotView {
  sv_team_aliases : list (string * string);
  sv_teams : list (string * Team);
  sv_schedule : list (option MatchProto * Z * bool);
  sv_matches : list (string * (option MatchProto * Z * bool));
  sv_brackets : list (string * BracketView);
  sv_leagues : NameComplete nat;
  sv_champ_stats : ChampStats;
  sv_player_stats : NameComplete (list (hkey * PlayerStat));
  sv_num_games : Counter }.

Definition snapshot_view (team_view : Team -> Team) (w : World) : SnapshotView :=
  let s := snapshot w in
  let h := w_heap w in
  mkSnapshotView (nc_aliases (es_teams s)) (vmap team_view (nc_data (es_teams s)))
    (match_view h <$> es_schedule s) (vmap (match_view h) (es_matches s))
    (vmap (bracket_view h) (es_brackets s)) (es_leagues s) (es_champ_stats s)
    (es_player_stats s) (es_num_games s).

(** A team without the positions of its players. *)
Definition without_positions (t : Team) : Team :=
  mkTeam (team_id t) (team_name t) (team_league_id t)
    ((fun p => mkPlayer (summoner_name p) (player_team_id p) "" (is_substitute p))
       <$> players t).

(** The league ids of GrumbleProvider start with "grumble-". *)
Definition grumble_team_view (t : Team) : Team :=
  if String.prefix "grumble-" (team_league_id t) then without_positions t else t.


(** ** Two runs side by side *)

(** When the first run returns, so does the second, and [Q] relates what
    they return and the states they end in. *)
Definition rwp {S A B} (m1 : M S A) (m2 : M S B) (Q : A -> B -> S -> S -> Prop)
    (s1 s2 : S) : Prop :=
  forall s1' a1, m1 s1 = (s1', Ok a1) ->
    exists s2' a2, m2 s2 = (s2', Ok a2) /\ Q a1 a2 s1' s2'.

(** Two programs that take states related by [I] to states related by [I'],
    with results related by [V]. *)
Definition rel {S A B} (I I' : S -> S -> Prop) (V : A -> B -> Prop)
    (m1 : M S A) (m2 : M S B) : Prop :=
  forall s1 s2, I s1 s2 -> rwp m1 m2 (fun a1 a2 s1' s2' => I' s1' s2' /\ V a1 a2) s1 s2.

(** The results of a step that returns nothing. *)
Definition any {A B} : A -> B -> Prop := fun _ _ => True.

(** ** Two loads of a provider

    The first load starts from the store [H1] and, for the brackets it does
    not reset, the dictionary [B1]; the second from [H2] and [B2]. *)

(** Matches at the same place among those added to the two stores. *)
Definition loc_rel (H1 H2 : list MatchProto) (l1 l2 : loc) : Prop :=
  exists i, l1 = (length H1 + i)%nat /\ l2 = (length H2 + i)%nat.

Definition bracket_rel (H1 H2 : list MatchProto) (b1 b2 : Bracket) : Prop :=
  bracket_id b1 = bracket_id b2 /\ bracket_name b1 = bracket_name b2 /\
  bracket_league_id b1 = bracket_league_id b2 /\ is_playoffs b1 = is_playoffs b2 /\
  standings b1 = standings b2 /\ Forall2 (loc_rel H1 H2) (schedule b1) (schedule b2).

(** The dictionary [b] is [B] with the keys [W] assigned, in that order. *)
Definition written {V} (B : list (string * V)) (W : list string) (b : list (string * V))
    : Prop :=
  od_keys b = od_keys B ++ filter (fun k => k ∉ od_keys B) W /\
  forall k, k ∉ W -> od_get b k = od_get B k.

(** The bracket dictionaries of the two loads: the same keys were assigned,
    [ks] among them, and hold related brackets. *)
Definition brackets_rel (H1 H2 : list MatchProto) (B1 B2 : list (string * Bracket))
    (ks : list string) (b1 b2 : list (string * Bracket)) : Prop :=
  exists W,
    (forall k, k ∈ ks -> k ∈ W) /\ NoDup W /\ written B1 W b1 /\ written B2 W b2 /\
    forall k, k ∈ W ->
      exists x1 x2, od_get b1 k = Some x1 /\ od_get b2 k = Some x2 /\
                    bracket_rel H1 H2 x1 x2.

Definition matches_rel (H1 H2 : list MatchProto) (d1 d2 : list (string * loc)) : Prop :=
  Forall2 (fun x y => x.1 = y.1 /\ loc_rel H1 H2 x.2 y.2) d1 d2.

(** Every team carries the id [L] of the league. *)
Definition teams_of_league (L : string) (d : list (string * Team)) : Prop :=
  Forall (fun kv => team_league_id kv.2 = L) d.

(** The provider objects of the two loads at the same point of the code;
    [TR] relates their teams and [RR] their rosters; the class [K] of the
    provider, its league id [L] and whether it keeps statistics are what
    they were before the loads. *)
Definition prov_rel (H1 H2 : list MatchProto) (L : string) (K : ProviderKind) (E : bool)
    (TR : list (string * Team) -> list (string * Team) -> Prop)
    (RR : list (string * Roster) -> list (string * Roster) -> Prop)
    (p1 p2 : Provider) : Prop :=
  kind p1 = kind p2 /\
  stats_enabled p1 = stats_enabled p2 /\
  league_id p1 = L /\
  TR (_teams p1) (_teams p2) /\
  teams_of_league L (_teams p1) /\
  RR (_rosters p1) (_rosters p2) /\
  matches_rel H1 H2 (_matches p1) (_matches p2) /\
  kind p1 = K /\ stats_enabled p1 = E.

(** The states of the two loads at the same point of the code: the stores
    got the same matches added, and the same brackets were assigned. *)
Definition load_rel (H1 H2 : list MatchProto) (B1 B2 : list (string * Bracket))
    (L : string) (K : ProviderKind) (E : bool) (TR : list (string * Team) -> list (string * Team) -> Prop)
    (RR : list (string * Roster) -> list (string * Roster) -> Prop)
    (ks : list string) (s1 s2 : PState) : Prop :=
  (exists N, heap s1 = H1 ++ N /\ heap s2 = H2 ++ N) /\
  prov_rel H1 H2 L K E TR RR (self s1) (self s2) /\
  brackets_rel H1 H2 B1 B2 ks (_brackets (self s1)) (_brackets (self s2)).

(** The states the two loads start from. *)
Definition load_pre (H1 H2 : list MatchProto) (B1 B2 : list (string * Bracket))
    (L : string) (K : ProviderKind) (E : bool) (s1 s2 : PState) : Prop :=
  (exists N, heap s1 = H1 ++ N /\ heap s2 = H2 ++ N) /\
  kind (self s1) = kind (self s2) /\
  stats_enabled (self s1) = stats_enabled (self s2) /\
  league_id (self s1) = L /\
  _brackets (self s1) = B1 /\ _brackets (self s2) = B2 /\
  kind (self s1) = K /\ stats_enabled (self s1) = E.

(** Teams that differ in the positions of their players only. *)
Definition same_but_positions (d1 d2 : list (string * Team)) : Prop :=
  vmap without_positions d1 = vmap without_positions d2.

(** The brackets a load of the provider does not reset: RitoProvider's
    [LoadData] leaves [_brackets] as it finds it. *)
Definition kept_brackets (p : Provider) : list (string * Bracket) :=
  match kind p with
  | RitoProvider _ _ _ => _brackets p
  | GrumbleProvider _ _ => []
  end.

(** The provider after the first load ([q1]) and after the second ([q2]),
    the loads having started from [p1] and [p2]. *)
Definition loaded_rel (H1 H2 : list MatchProto) (p1 p2 q1 q2 : Provider) : Prop :=
  kind q1 = kind p1 /\ kind q2 = kind p1 /\
  stats_enabled q1 = stats_enabled p1 /\ stats_enabled q2 = stats_enabled p1 /\
  vmap grumble_team_view (_teams q1) = vmap grumble_team_view (_teams q2) /\
  brackets_rel H1 H2 (kept_brackets p1) (kept_brackets p2) [] (_brackets q1) (_brackets q2).

(** Two engines with providers of the same classes. *)
Definition providers_alike (w1 w2 : World) : Prop :=
  Forall2 (fun p1 p2 => kind p1 = kind p2 /\ stats_enabled p1 = stats_enabled p2)
    (_providers w1) (_providers w2).

(** The two engines, started from [w1] and [w2], when the first [n]
    providers are loaded. *)
Definition reload_rel (w1 w2 : World) (n : nat) (v1 v2 : World) : Prop :=
  (exists N, w_heap v1 = w_heap w1 ++ N /\ w_heap v2 = w_heap w2 ++ N) /\
  length (_providers v1) = length (_providers w1) /\
  length (_providers v2) = length (_providers w2) /\
  forall j p1 p2, _providers w1 !! j = Some p1 -> _providers w2 !! j = Some p2 ->
    exists q1 q2, _providers v1 !! j = Some q1 /\ _providers v2 !! j = Some q2 /\
      if decide (j < n)%nat then loaded_rel (w_heap w1) (w_heap w2) p1 p2 q1 q2
      else q1 = p1 /\ q2 = p2.

(** Matches of the two stores that read the same. *)
Definition reads_same (h1 h2 : list MatchProto) (l1 l2 : loc) : Prop :=
  forall m, h1 !! l1 = Some m -> h2 !! l2 = Some m.

Definition bracket_alike (h1 h2 : list MatchProto) (b1 b2 : Bracket) : Prop :=
  bracket_id b1 = bracket_id b2 /\ bracket_name b1 = bracket_name b2 /\
  bracket_league_id b1 = bracket_league_id b2 /\ is_playoffs b1 = is_playoffs b2 /\
  standings b1 = standings b2 /\ Forall2 (reads_same h1 h2) (schedule b1) (schedule b2).

(** Two providers that look the same to [LoadEsports]. *)
Definition provider_alike (h1 h2 : list MatchProto) (q1 q2 : Provider) : Prop :=
  kind q1 = kind q2 /\ stats_enabled q1 = stats_enabled q2 /\
  vmap grumble_team_view (_teams q1) = vmap grumble_team_view (_teams q2) /\
  Forall2 (bracket_alike h1 h2) (brackets q1) (brackets q2).

(** The local dictionaries of two runs of [LoadEsports] that look the
    same. *)
Definition assembly_alike (h1 h2 : list MatchProto) (a b : Assembly) : Prop :=
  vmap grumble_team_view (a_teams a) = vmap grumble_team_view (a_teams b) /\
  vmap (match_view h1) (a_matches a) = vmap (match_view h2) (a_matches b) /\
  vmap (bracket_view h1) (a_brackets a) = vmap (bracket_view h2) (a_brackets b) /\
  a_leagues a = a_leagues b /\ a_stats a = a_stats b.

(** The bracket dictionaries of the providers have no key twice. *)
Definition brackets_keyed (w : World) : Prop :=
  Forall (fun p => NoDup (od_keys (_brackets p))) (_providers w).


(** ** Example documents

    Upstream responses small enough to run the code on. *)

Definition ex_team (id nm outcome : string) : json :=
  JDict [("ref", JDict [("id", JStr id); ("displayName", JStr nm)]);
         ("outcome", JStr outcome)].

Definition ex_game (gid : Z) (code : string) : json :=
  JDict [("ref", JDict [("gameId", JNum gid); ("tournamentCode", JStr code)])].

Definition ex_match (team1 team2 : json) (ts : Z) (gs : list json) : json :=
  JDict [("team1", team1); ("team2", team2); ("timestampSec", JNum ts);
         ("games", JList gs)].

Definition ex_schedule (ms : list json) : json :=
  JDict [("schedule", JList [JDict [("matches", JList ms)]])].

(** A Grumble week with two matches: A beats B, C ties D. *)
Definition ex_season : json :=
  ex_schedule
    [ex_match (ex_team "A" "Alpha" "VICTORY") (ex_team "B" "Beta" "DEFEAT") 100 [];
     ex_match (ex_team "C" "Gamma" "TIE") (ex_team "D" "Delta" "TIE") 200 []].

Definition ex_roster : json :=
  JDict [("players", JList [JDict [("summonerName", JStr "p1")];
                            JDict [("summonerName", JStr "p2")]])].

Definition ex_url_season : string :=
  "http://goog-lol-tournaments.appspot.com/rest/bracket/grumble-2018//D1/season".

(** A fetcher that serves [season] for the season of division D1, an empty
    schedule for the other Grumble brackets, [roster] for every Grumble
    team, and fails everywhere else. *)
Definition ex_fetch (season roster : json) (url : string) (force_lookup use_storage : bool)
    : json :=
  if String.eqb url ex_url_season then season
  else if String.prefix "http://goog-lol-tournaments.appspot.com/rest/bracket/" url
  then ex_schedule []
  else if String.prefix "http://goog-lol-tournaments.appspot.com/rest/team/" url
  then roster
  else JNull.

Definition ex_arrow_get (j : json) : result Z :=
  match j with
  | JNum n => Ok n
  | _ => Raise ValueError
  end.

Definition ex_env (fetch : string -> bool -> bool -> json) (tape : nat -> nat) : Env :=
  mkEnv fetch 150 ex_arrow_get tape (fun _ => None) [] "https://example.org/live"
    "No games scheduled" (fun t => pretty t).

(** Every fetch fails. *)
Definition env_down : Env := ex_env (fun _ _ _ => JNull) (fun _ => 0%nat).

Definition env_season : Env := ex_env (ex_fetch ex_season JNull) (fun _ => 0%nat).

Definition ex_grumble : PState :=
  mkPState [] 0 (new_provider (GrumbleProvider "D1" "NA1") true).

(** A league of RitoProvider: two teams, one tournament with one bracket and
    one match, won by the first roster. *)
Definition ex_league : json :=
  JDict
    [("leagues", JList [JDict [("id", JNum 2)]]);
     ("teams",
      JList [JDict [("id", JNum 11); ("acronym", JStr "TSM"); ("name", JStr "Team SoloMid");
                    ("slug", JStr "tsm"); ("subs", JList [JNum 8])];
             JDict [("id", JNum 12); ("acronym", JStr "C9"); ("name", JStr "Cloud9");
                    ("slug", JStr "c9"); ("subs", JList [])]]);
     ("highlanderTournaments",
      JList [JDict
        [("id", JStr "t1"); ("title", JStr "na_2018"); ("startDate", JNum 0);
         ("endDate", JNum 1000);
         ("rosters", JDict [("r1", JDict [("team", JStr "11")]);
                            ("r2", JDict [("team", JStr "12")])]);
         ("brackets",
          JDict [("b1", JDict
            [("id", JStr "b1"); ("name", JStr "regular_season");
             ("matches",
              JDict [("m1", JDict
                [("id", JStr "m1");
                 ("input", JList [JDict [("roster", JStr "r1")];
                                  JDict [("roster", JStr "r2")]]);
                 ("games", JDict [("g1", JDict [("id", JStr "g1"); ("gameId", JStr "1001");
                                                ("gameRealm", JStr "TRLH1")])]);
                 ("standings",
                  JDict [("result", JList [JList [JDict [("roster", JStr "r1")]];
                                           JList [JDict [("roster", JStr "r2")]]])])]);
                ("m2", JDict
                [("id", JStr "m2");
                 ("input", JList [JDict [("roster", JStr "r2")]; JDict []]);
                 ("games", JDict [])])])])])]]);
     ("highlanderRecords",
      JList [JDict [("tournament", JStr "t1"); ("bracket", JStr "b1"); ("roster", JStr "r1");
                    ("wins", JNum 1); ("losses", JNum 0); ("score", JNum 1)];
             JDict [("tournament", JStr "t1"); ("bracket", JStr "b1"); ("roster", JStr "r2");
                    ("wins", JNum 0); ("losses", JNum 1); ("score", JNum 0)]])].

Definition ex_rito_fetch (url : string) (force_lookup use_storage : bool) : json :=
  if String.eqb url "http://api.lolesports.com/api/v1/leagues?slug=na-lcs" then ex_league
  else if String.prefix "http://api.lolesports.com/api/v1/teams?slug=tsm" url then
    JDict [("players", JList [JDict [("name", JStr "Bjergsen"); ("roleSlug", JStr "midlane");
                                     ("id", JNum 7)];
                              JDict [("name", JStr "Grig"); ("roleSlug", JStr "coach");
                                     ("id", JNum 8)]])]
  else if String.prefix "http://api.lolesports.com/api/v2/highlanderMatchDetails" url then
    JDict [("gameIdMappings", JList [JDict [("id", JStr "g1"); ("gameHash", JStr "h1")]])]
  else if String.prefix "http://api.lolesports.com/api/v1/scheduleItems" url then
    JDict [("scheduleItems", JList [JDict [("match", JStr "m1"); ("scheduledTime", JNum 120)]])]
  else JNull.

Definition env_rito : Env := ex_env ex_rito_fetch (fun _ => 0%nat).

Definition ex_rito : PState :=
  mkPState [] 0 (new_provider (RitoProvider "NA" "na-lcs" ["North America"]) true).

(** The engine after its first reload, with the season of [ex_season]. *)
Definition w_season : World := fst (LoadEsports env_season initial_world).

(** A reload in which both Grumble divisions have no match. *)
Definition env_quiet : Env := ex_env (ex_fetch (ex_schedule []) JNull) (fun _ => 0%nat).

(** Two callbacks: the first raises, the second announces the reload. *)
Definition cb_raise : Callback := fun o => (o, Raise OtherError).
Definition cb_announce : Callback := fun o => (o ++ ["reloaded"], Ok tt).

Definition w_callbacks : World :=
  fst (RegisterCallback cb_announce (fst (RegisterCallback cb_raise initial_world))).

(** C3 as the specification states it: once the snapshot is published,
    every registered callback has been invoked, whatever the others did. *)
Definition C3_as_stated (env : Env) (w : World) : Prop :=
  forall w1 a,
    LoadEsports_providers env w = (w1, Ok tt) -> assemble env w1 = Ok a ->
    outside (fst (LoadEsports env w)) = call_isolated (_callbacks w) (outside w).

(** A season in which a team is called like a league: "KR" is an alias of
    the league LCK. *)
Definition env_kr : Env :=
  ex_env (ex_fetch
            (ex_schedule
               [ex_match (ex_team "KR" "Kings" "VICTORY") (ex_team "B" "Beta" "DEFEAT")
                  100 []]) JNull)
    (fun _ => 0%nat).

Definition w_kr : World := fst (LoadEsports env_kr initial_world).

(** Six matches; at reload time the earliest has no outcome yet, the five
    later ones are decided.  At poll time the earliest is decided too. *)
Definition ex_six (first_outcome_a first_outcome_b : string) : json :=
  ex_schedule
    [ex_match (ex_team "A" "Alpha" first_outcome_a) (ex_team "B" "Beta" first_outcome_b)
       100 [];
     ex_match (ex_team "C" "Gamma" "VICTORY") (ex_team "D" "Delta" "DEFEAT") 200 [];
     ex_match (ex_team "C" "Gamma" "VICTORY") (ex_team "D" "Delta" "DEFEAT") 300 [];
     ex_match (ex_team "C" "Gamma" "VICTORY") (ex_team "D" "Delta" "DEFEAT") 400 [];
     ex_match (ex_team "C" "Gamma" "VICTORY") (ex_team "D" "Delta" "DEFEAT") 500 [];
     ex_match (ex_team "C" "Gamma" "VICTORY") (ex_team "D" "Delta" "DEFEAT") 600 []].

Definition env_six : Env := ex_env (ex_fetch (ex_six "" "") JNull) (fun _ => 0%nat).
Definition env_six_decided : Env :=
  ex_env (ex_fetch (ex_six "VICTORY" "DEFEAT") JNull) (fun _ => 0%nat).

Definition w_six : World := fst (LoadEsports env_six initial_world).

(** A snapshot with 100 games in one region: one champion picked in 4 of
    them, another in exactly 5. *)
Definition ex_champ_names (k : hkey) : option string :=
  match k with
  | HInt 1 => Some "Ahri"
  | HInt 2 => Some "Zed"
  | _ => None
  end.

Definition env_champs : Env :=
  mkEnv (fun _ _ _ => JNull) 150 ex_arrow_get (fun _ => 0%nat) ex_champ_names []
    "https://example.org/live" "No games scheduled" (fun t => pretty t).

Definition w_champs : World :=
  set_snapshot
    (mkSnapshot (mkNameComplete [] []) [] [] [] (mkNameComplete [] [])
       [(HInt 1, [("NA", [("picks", 4); ("bans", 30)])]);
        (HInt 2, [("NA", [("picks", 5); ("bans", 2)])])]
       (mkNameComplete [] []) [("NA", 100)])
    initial_world.

(** A reload that replaces the teams of the season: the reader resolves its
    qualifier before the new snapshot is published and walks the schedule
    after. *)
Definition env_other : Env :=
  ex_env (ex_fetch
            (ex_schedule
               [ex_match (ex_team "X" "Xray" "VICTORY") (ex_team "Y" "Yankee" "DEFEAT")
                  300 []]) JNull)
    (fun _ => 0%nat).

Definition w_reloading : World := fst (LoadEsports_providers env_other w_season).

Definition new_snapshot : Snapshot :=
  match assemble env_other w_reloading with
  | Ok a => publish env_other w_reloading a
  | Raise _ => empty_snapshot
  end.

(** The assembly of a world whose providers were reloaded. *)
Definition assembled (env : Env) (w : World) : Assembly :=
  match assemble env w with
  | Ok a => a
  | Raise _ => mkAssembly [] [] [] [] (mkStats [] [] [])
  end.

(** [schedule_wf], as a check that runs. *)
Definition schedule_wfb (w : World) : bool :=
  forallb (fun m =>
    match w_heap w !! _match m with
    | Some p =>
        match od_get (es_brackets (snapshot w)) (match_bracket_id p) with
        | Some _ => true
        | None => false
        end
    | None => false
    end) (es_schedule (snapshot w)).

(** The world of [w_callbacks] once its providers are reloaded. *)
Definition w_callbacks_reloaded : World :=
  fst (LoadEsports_providers env_quiet w_callbacks).

(** The engine with the season of [ex_season], then every fetch failing. *)
Definition s_grumble_loaded : PState := fst (Grumble_LoadData env_season ex_grumble).
Definition s_rito_loaded : PState := fst (Rito_LoadData env_rito ex_rito).

(** The world of [w_six] after the poll that finds the first match decided,
    and that match in the engine's schedule. *)
Definition w_six_polled : World := fst (UpdateEsportsMatches env_six_decided w_six).
Definition first_match : Match := mkMatchW 0%nat 100 true.
Definition first_match_before : MatchProto :=
  mkMatch "grumble-D1-grumble-D1-season-1" "grumble-D1-season" "A" "B" 100 [] "".
Definition first_match_after : MatchProto := set_winner "A" first_match_before.

(** ** More example documents *)

(** The season of [ex_season] with a roster of two players for every team;
    [random.choice] gives its first eight draws the first position and the
    later ones the second. *)
Definition env_drawn : Env :=
  ex_env (ex_fetch ex_season ex_roster) (fun n => if (n <? 8)%nat then 0%nat else 1%nat).

Definition w_drawn : World := fst (LoadEsports env_drawn initial_world).
Definition w_drawn_again : World := fst (LoadEsports env_drawn w_drawn).

(** Two tournaments: one under way at the time of [ex_env], one to come. *)
Definition ex_tournaments : json :=
  JList [JDict [("title", JStr "spring"); ("startDate", JNum 100); ("endDate", JNum 200)];
         JDict [("title", JStr "summer"); ("startDate", JNum 300); ("endDate", JNum 400)]].

(** The first provider of the engine [w_six], on the engine's store. *)
Definition s_six : PState :=
  mkPState (w_heap w_six) (w_rng w_six)
    (default (new_provider (GrumbleProvider "D1" "NA1") true) (_providers w_six !! 0%nat)).

(** A league document whose only tournament has no date. *)
Definition ex_undated_league : json :=
  JDict [("leagues", JList [JDict [("id", JNum 1)]]);
         ("teams", JList []);
         ("highlanderTournaments", JList [JDict [("title", JStr "undated")]])].

Definition env_undated : Env := ex_env (fun _ _ _ => ex_undated_league) (fun _ => 0%nat).

(** The engine [w_six] seen before the first match starts. *)
Definition env_early : Env :=
  mkEnv (FetchJson env_six) 50 ex_arrow_get (fun _ => 0%nat) (fun _ => None) []
    "https://example.org/live" "No games scheduled" (fun t => pretty t).

(** The statistics of a game: one participant, on the winning team, and one
    ban. *)
Definition ex_game_stats : json :=
  JDict [("participantIdentities",
          JList [JDict [("participantId", JNum 1);
                        ("player", JDict [("summonerName", JStr "Faker")])]]);
         ("teams",
          JList [JDict [("teamId", JNum 100); ("win", JStr "Win");
                        ("bans", JList [JDict [("championId", JNum 2)]])]]);
         ("participants",
          JList [JDict [("championId", JNum 1); ("participantId", JNum 1);
                        ("teamId", JNum 100)]])].

(** A Grumble season with one decided match of one game, and the statistics
    of the game. *)
Definition env_stats : Env :=
  mkEnv (fun url force_lookup use_storage =>
           if String.prefix "https://acs.leagueoflegends.com/v1/stats/game/" url
           then ex_game_stats
           else ex_fetch
                  (ex_schedule
                     [ex_match (ex_team "A" "Alpha" "VICTORY") (ex_team "B" "Beta" "DEFEAT")
                        100 [ex_game 1 "code"]])
                  JNull url force_lookup use_storage)
    150 ex_arrow_get (fun _ => 0%nat) ex_champ_names [] "https://example.org/live"
    "No games scheduled" (fun t => pretty t).

Definition w_stats : World := fst (LoadEsports env_stats initial_world).

(** * Theorems *)

(** ** Sorting *)

Section sorting_facts.
Context {A : Type} (before : A -> A -> bool).

Lemma insert_sorted_perm x l : Permutation (insert_sorted before x l) (x :: l).
Proof.
  induction l as [|y l IH]; simpl; [done|].
  destruct (before y x); [|done].
  rewrite IH. apply perm_swap.
Qed.

Lemma stable_sort_perm l : Permutation (stable_sort before l) l.
Proof.
  induction l as [|x l IH]; simpl; [done|].
  rewrite insert_sorted_perm. by constructor.
Qed.

(** Elements that tie with each other keep their order. *)
Lemma insert_sorted_filter (P : A -> Prop) `{!forall x, Decision (P x)} x l :
  (forall a b, P a -> P b -> before a b = false) ->
  filter P (insert_sorted before x l) = filter P (x :: l).
Proof.
  intros Htie. induction l as [|y l IH]; simpl; [done|].
  destruct (before y x) eqn:Hb; [|done].
  rewrite !filter_cons in *.
  destruct (decide (P y)) as [Hy|Hy], (decide (P x)) as [Hx|Hx]; rewrite IH; try done.
  rewrite (Htie y x Hy Hx) in Hb. done.
Qed.

Lemma stable_sort_filter (P : A -> Prop) `{!forall x, Decision (P x)} l :
  (forall a b, P a -> P b -> before a b = false) ->
  filter P (stable_sort before l) = filter P l.
Proof.
  intros Htie. induction l as [|x l IH]; simpl; [done|].
  rewrite insert_sorted_filter by done.
  rewrite !filter_cons, IH. done.
Qed.

Hypothesis before_asym : forall a b, before a b = true -> before b a = false.
Hypothesis before_cotrans :
  forall a b c, before a b = false -> before b c = false -> before a c = false.

Lemma insert_sorted_sorted (S : A -> A -> Prop) x l :
  Forall (S x) l ->
  StronglySorted (sorted_rel before S) l ->
  StronglySorted (sorted_rel before S) (insert_sorted before x l).
Proof.
  intros HS Hl. induction Hl as [|y l Hl IH Hy]; simpl.
  - repeat constructor.
  - apply Forall_cons in HS as [HSy HSl].
    destruct (before y x) eqn:Hb.
    + constructor; [by apply IH|].
      rewrite insert_sorted_perm. constructor; [|done].
      split; [by apply before_asym|]. congruence.
    + constructor; [by constructor|].
      constructor; [by split|].
      rewrite Forall_forall in Hy, HSl |- *. intros z Hz.
      split; [|intros _; by apply HSl].
      destruct (Hy z Hz) as [Hzy _]. by eapply before_cotrans.
Qed.

Lemma stable_sort_sorted (S : A -> A -> Prop) l :
  StronglySorted S l ->
  StronglySorted (sorted_rel before S) (stable_sort before l).
Proof.
  induction 1 as [|x l Hl IH Hx]; simpl; [constructor|].
  apply insert_sorted_sorted; [|done].
  by rewrite stable_sort_perm.
Qed.
End sorting_facts.

Section sorted_with_facts.
Context {A K : Type} (lt : K -> K -> bool) (key : A -> K) (reverse : bool).

Lemma sorted_with_perm l : Permutation (sorted_with lt key reverse l) l.
Proof. apply stable_sort_perm. Qed.

(** Stability: the elements of one key keep the order of the input. *)
Lemma sorted_with_stable (P : A -> Prop) `{!forall x, Decision (P x)} l :
  (forall a, lt a a = false) ->
  (forall a b, P a -> P b -> key a = key b) ->
  filter P (sorted_with lt key reverse l) = filter P l.
Proof.
  intros Hirr HP. apply stable_sort_filter.
  intros a b Ha Hb. rewrite (HP a b Ha Hb). by destruct reverse.
Qed.

Hypothesis lt_asym : forall a b, lt a b = true -> lt b a = false.
Hypothesis lt_cotrans : forall a b c, lt a b = false -> lt b c = false -> lt a c = false.

Lemma sorted_with_sorted (S : A -> A -> Prop) l :
  StronglySorted S l ->
  StronglySorted
    (sorted_rel (fun y x => if reverse then lt (key x) (key y) else lt (key y) (key x)) S)
    (sorted_with lt key reverse l).
Proof.
  apply stable_sort_sorted.
  - intros a b. destruct reverse; apply lt_asym.
  - intros a b c. destruct reverse; eauto.
Qed.
End sorted_with_facts.

Lemma Z_ltb_asym a b : (a <? b) = true -> (b <? a) = false.
Proof. lia. Qed.

Lemma Z_ltb_cotrans a b c : (a <? b) = false -> (b <? c) = false -> (a <? c) = false.
Proof. lia. Qed.

Lemma StronglySorted_True {A} (l : list A) : StronglySorted (fun _ _ => True) l.
Proof. induction l; constructor; [done|]. by apply Forall_forall. Qed.

Lemma StronglySorted_impl {A} (R R' : A -> A -> Prop) l :
  (forall x y, R x y -> R' x y) -> StronglySorted R l -> StronglySorted R' l.
Proof.
  intros HR. induction 1; constructor; [done|].
  eapply Forall_impl; [done|]. auto.
Qed.

(** [sorted(l, key=key)] is in ascending order of the key, and with
    [reverse=True] in descending order. *)
Lemma sorted_ascending {A} (key : A -> Z) l :
  StronglySorted (fun x y => key x <= key y) (sorted key false l).
Proof.
  eapply StronglySorted_impl;
    [|apply (sorted_with_sorted Z.ltb key false Z_ltb_asym Z_ltb_cotrans _ _
               (StronglySorted_True l))].
  intros x y [H _]. simpl in H. lia.
Qed.

Lemma sorted_descending {A} (key : A -> Z) l :
  StronglySorted (fun x y => key y <= key x) (sorted key true l).
Proof.
  eapply StronglySorted_impl;
    [|apply (sorted_with_sorted Z.ltb key true Z_ltb_asym Z_ltb_cotrans _ _
               (StronglySorted_True l))].
  intros x y [H _]. simpl in H. lia.
Qed.

(** ** Symbolic execution of the monadic code *)

Section wp_rules.
Context {S : Type}.
Implicit Types (E : S -> Prop) (s : S).

Lemma wp_bind {A B} (m : M S A) (k : A -> M S B) Q E s :
  wp m (fun a s' => wp (k a) Q E s') E s -> wp (m ≫= k) Q E s.
Proof.
  unfold wp, mbind, M_bind. destruct (m s) as [s' [a|e]]; done.
Qed.

Lemma wp_ret {A} (a : A) (Q : A -> S -> Prop) E s : Q a s -> wp (ret a) Q E s.
Proof. done. Qed.

Lemma wp_pass (Q : unit -> S -> Prop) E s : Q tt s -> wp pass Q E s.
Proof. done. Qed.

Lemma wp_lift {A} (r : result A) (Q : A -> S -> Prop) E s :
  match r with Ok a => Q a s | Raise _ => E s end -> wp (lift r) Q E s.
Proof. done. Qed.

Lemma wp_raise {A} e (Q : A -> S -> Prop) E s : E s -> wp (raise e) Q E s.
Proof. done. Qed.

Lemma wp_gets {A} (f : S -> A) (Q : A -> S -> Prop) E s : Q (f s) s -> wp (gets f) Q E s.
Proof. done. Qed.

Lemma wp_get_state (Q : S -> S -> Prop) E s : Q s s -> wp get_state Q E s.
Proof. done. Qed.

Lemma wp_modify (f : S -> S) (Q : unit -> S -> Prop) E s :
  Q tt (f s) -> wp (modify f) Q E s.
Proof. done. Qed.

Lemma wp_mono {A} (m : M S A) (Q Q' : A -> S -> Prop) E E' s :
  wp m Q E s -> (forall a s', Q a s' -> Q' a s') -> (forall s', E s' -> E' s') ->
  wp m Q' E' s.
Proof.
  unfold wp. destruct (m s) as [s' [a|e]]; auto.
Qed.

Lemma wp_for_ {A} (I : S -> Prop) (l : list A) body (Q : unit -> S -> Prop) E s :
  I s ->
  (forall x s, x ∈ l -> I s -> wp (body x) (fun _ => I) E s) ->
  (forall s, I s -> Q tt s) ->
  wp (for_ l body) Q E s.
Proof.
  intros HI Hbody HQ. revert s HI.
  induction l as [|x l IH]; intros s HI; simpl.
  - by apply HQ.
  - apply wp_bind. eapply wp_mono; [apply Hbody; [left|done]| |done].
    intros [] s' HI'. apply IH; [|done].
    intros y s'' Hy. apply Hbody. by right.
Qed.

Lemma wp_fold_ {A B} (I : B -> S -> Prop) (l : list A) body acc
    (Q : B -> S -> Prop) E s :
  I acc s ->
  (forall x acc s, x ∈ l -> I acc s -> wp (body acc x) I E s) ->
  (forall acc s, I acc s -> Q acc s) ->
  wp (fold_ l body acc) Q E s.
Proof.
  intros HI Hbody HQ. revert acc s HI.
  induction l as [|x l IH]; intros acc s HI; simpl.
  - by apply HQ.
  - apply wp_bind. eapply wp_mono; [apply Hbody; [left|done]| |done].
    intros acc' s' HI'. apply IH; [|done].
    intros y acc'' s'' Hy. apply Hbody. by right.
Qed.

Lemma wp_mmap {A B} (I : S -> Prop) (f : A -> M S B) (l : list A)
    (Q : list B -> S -> Prop) E s :
  I s ->
  (forall x s, I s -> wp (f x) (fun _ => I) E s) ->
  (forall bs s, I s -> Q bs s) ->
  wp (mmap f l) Q E s.
Proof.
  intros HI Hf HQ. revert s HI Q HQ.
  induction l as [|x l IH]; intros s HI Q HQ; simpl.
  - by apply HQ.
  - apply wp_bind. eapply wp_mono; [by apply Hf| |done].
    intros b s' HI'. simpl. apply wp_bind. apply IH; [done|].
    intros bs s'' HI''. by apply HQ.
Qed.
End wp_rules.

Lemma wp_update_match l f (Q : unit -> PState -> Prop) E s :
  Q tt (mkPState (alter f l (heap s)) (rng_pos s) (self s)) ->
  wp (update_match l f) Q E s.
Proof. done. Qed.

Lemma wp_read_match l (Q : MatchProto -> PState -> Prop) E s :
  match heap s !! l with Some m => Q m s | None => E s end ->
  wp (read_match l) Q E s.
Proof. unfold wp, read_match. by destruct (heap s !! l). Qed.

Lemma wp_get_bracket k (Q : Bracket -> PState -> Prop) E s :
  match od_get (_brackets (self s)) k with Some b => Q b s | None => E s end ->
  wp (get_bracket k) Q E s.
Proof.
  intros H. unfold get_bracket. apply wp_bind, wp_gets.
  destruct (od_get _ _); done.
Qed.

(** One step of the symbolic execution of a monadic program. *)
Ltac wp_step :=
  lazymatch goal with
  | |- wp (mbind _ _) _ _ _ => apply wp_bind
  | |- wp (ret _) _ _ _ => apply wp_ret
  | |- wp pass _ _ _ => apply wp_pass
  | |- wp (raise _) _ _ _ => apply wp_raise
  | |- wp (lift ?r) _ _ _ => apply wp_lift; destruct r eqn:?
  | |- wp get_self _ _ _ => apply wp_gets
  | |- wp (gets _) _ _ _ => apply wp_gets
  | |- wp get_state _ _ _ => apply wp_get_state
  | |- wp (modify _) _ _ _ => apply wp_modify
  | |- wp (update_match _ _) _ _ _ => apply wp_update_match
  | |- wp (read_match ?l) _ _ ?s => apply wp_read_match; destruct (heap s !! l) eqn:?
  | |- wp (get_bracket ?k) _ _ ?s =>
      apply wp_get_bracket; destruct (od_get (_brackets (self s)) k) eqn:?
  | |- wp (if ?b then _ else _) _ _ _ => destruct b eqn:?
  | |- wp (match ?x with _ => _ end) _ _ _ => destruct x eqn:?
  | |- wp (let '(_, _) := ?x in _) _ _ _ => destruct x eqn:?
  end.

Ltac wp_steps := repeat (wp_step; cbv beta); try done.

Lemma wp_alloc_match m (Q : loc -> PState -> Prop) E s :
  Q (length (heap s)) (mkPState (heap s ++ [m]) (rng_pos s) (self s)) ->
  wp (alloc_match m) Q E s.
Proof. done. Qed.

Lemma wp_random_choice env {A} (l : list A) (Q : A -> PState -> Prop) E s :
  (forall x, Q x (mkPState (heap s) (S (rng_pos s)) (self s))) ->
  E (mkPState (heap s) (S (rng_pos s)) (self s)) ->
  wp (random_choice env l) Q E s.
Proof.
  intros HQ HE. unfold wp, random_choice. by destruct (_ !! _).
Qed.

Ltac wp_step2 :=
  first
    [ wp_step
    | lazymatch goal with
      | |- wp (alloc_match _) _ _ _ => apply wp_alloc_match
      | |- wp (update_bracket _ _) _ _ _ => unfold update_bracket; apply wp_modify
      | |- wp (update_team _ _) _ _ _ => unfold update_team; apply wp_modify
      | |- wp (random_choice _ _) _ _ _ => apply wp_random_choice; [intros ?|]
      end ].

(** *** The frame of a poll *)

Lemma same_match_identity_refl m : same_match_identity m m.
Proof. done. Qed.

Lemma heap_frame_refl h : heap_frame h h.
Proof. apply Forall2_same_length_lookup_2; [done|]. intros; by simplify_eq. Qed.

Lemma heap_frame_alter f l h0 h :
  (forall m, same_match_identity m (f m)) ->
  heap_frame h0 h -> heap_frame h0 (alter f l h).
Proof.
  intros Hf Hh. unfold heap_frame in *.
  apply Forall2_same_length_lookup. apply Forall2_same_length_lookup in Hh as [Hlen Hh].
  split; [by rewrite length_alter|].
  intros i m0 m Hm0 Hm.
  destruct (decide (i = l)) as [->|Hne].
  - rewrite list_lookup_alter_eq in Hm.
    destruct (h !! l) as [m'|] eqn:Hl; simplify_eq/=.
    specialize (Hh _ _ _ Hm0 Hl). specialize (Hf m').
    unfold same_match_identity in *. intuition congruence.
  - rewrite list_lookup_alter_ne in Hm by done. eauto.
Qed.

Lemma poll_frame_update s0 s l f :
  (forall m, same_match_identity m (f m)) ->
  poll_frame s0 s ->
  poll_frame s0 (mkPState (alter f l (heap s)) (rng_pos s) (self s)).
Proof.
  intros Hf (?&?&?). split_and!; simpl; try done. by apply heap_frame_alter.
Qed.

Lemma set_winner_identity w m : same_match_identity m (set_winner w m).
Proof. done. Qed.
Lemma set_blue_identity w m : same_match_identity m (set_blue w m).
Proof. done. Qed.
Lemma set_red_identity w m : same_match_identity m (set_red w m).
Proof. done. Qed.

Create HintDb frame.
#[local] Hint Resolve poll_frame_update set_winner_identity set_blue_identity
  set_red_identity : frame.


Lemma framed_wp s0 {A} (m : M PState A) (Q : A -> PState -> Prop) s :
  framed s0 m -> poll_frame s0 s ->
  (forall r s', poll_frame s0 s' -> Q r s') ->
  wp m Q (poll_frame s0) s.
Proof. intros Hm Hs HQ. eapply wp_mono; [by apply Hm| |done]. eauto. Qed.

Lemma od_get_elem_of {V} (d : list (string * V)) k v :
  od_get d k = Some v -> (k, v) ∈ d.
Proof.
  induction d as [|[k' v'] d IH]; simpl; [done|].
  case_decide; intros; simplify_eq; [left|right; auto].
Qed.

Lemma od_get_json_elem_of {V} (d : list (string * V)) x v :
  od_get_json d x = Ok (Some v) -> exists k, (k, v) ∈ d.
Proof.
  unfold od_get_json. destruct (py_hash x) as [[]|]; simpl; intros; simplify_eq.
  eauto using od_get_elem_of.
Qed.

Lemma poll_frame_length s0 s : poll_frame s0 s -> length (heap s) = length (heap s0).
Proof. intros (_&_&H). symmetry. by eapply Forall2_length. Qed.

Lemma poll_frame_known s0 s k l m :
  poll_frame s0 s -> (k, l) ∈ _matches (self s) -> heap s !! l = Some m ->
  known_match s0 l.
Proof.
  intros Hf Hin Hl. split.
  - destruct Hf as (<-&_). eauto.
  - rewrite <- (poll_frame_length _ _ Hf). by eapply lookup_lt_Some.
Qed.

(** Symbolic execution within the frame: a call to a method known to be
    [framed] is stepped over. *)
Ltac wp_frame :=
  repeat first
    [ wp_step; cbv beta
    | eapply framed_wp;
      [ solve [eauto with frame] | solve [eauto with frame] | intros ? ? ?; cbv beta ] ];
  eauto with frame.

Lemma framed_for_ s0 {A} (l : list A) body :
  (forall x, framed s0 (body x)) -> framed s0 (for_ l body).
Proof.
  intros Hbody s Hs. apply (wp_for_ (poll_frame s0)); [done| |done].
  intros x s' _ Hs'. by apply Hbody.
Qed.

Lemma framed_mmap s0 {A B} (f : A -> M PState B) l :
  (forall x, framed s0 (f x)) -> framed s0 (mmap f l).
Proof.
  intros Hf s Hs. apply (wp_mmap (poll_frame s0)); [done| |done].
  intros x s' Hs'. by apply Hf.
Qed.

#[local] Hint Resolve framed_for_ framed_mmap : frame.

Lemma _UpdateSchedule_team_framed s0 old_match team :
  framed s0 (_UpdateSchedule_team old_match team).
Proof. intros s Hs. unfold _UpdateSchedule_team. wp_frame. Qed.
#[local] Hint Resolve _UpdateSchedule_team_framed : frame.

Lemma _UpdateSchedule_match_frame s0 bkey acc match_ s :
  poll_inv s0 (snd acc) s ->
  wp (_UpdateSchedule_match bkey acc match_) (fun acc' => poll_inv s0 (snd acc'))
    (poll_frame s0) s.
Proof.
  intros [Hs Hacc]. unfold _UpdateSchedule_match. wp_frame; try by split.
  split; simpl; [done|].
  apply Forall_app. split; [done|]. constructor; [|done].
  eapply (poll_frame_known s0 s); eauto using od_get_elem_of.
Qed.

Lemma _UpdateSchedule_frame s0 schedule bkey s :
  poll_frame s0 s ->
  wp (_UpdateSchedule schedule bkey) (poll_inv s0) (poll_frame s0) s.
Proof.
  intros Hs. unfold _UpdateSchedule. wp_frame.
  apply (wp_fold_ (fun acc => poll_inv s0 (snd acc))); [by split| |].
  - intros week acc s' _ Hinv. wp_frame; [|by destruct Hinv].
    apply (wp_fold_ (fun acc => poll_inv s0 (snd acc))); [done| |done].
    intros. by apply _UpdateSchedule_match_frame.
  - intros acc s' Hinv. by wp_frame.
Qed.

Lemma Grumble_UpdateMatches_frame env s0 s :
  poll_frame s0 s ->
  wp (Grumble_UpdateMatches env) (poll_inv s0) (poll_frame s0) s.
Proof.
  intros Hs. unfold Grumble_UpdateMatches. wp_frame.
  eapply wp_mono; [by apply _UpdateSchedule_frame| |done].
  intros u1 s1 [Hs1 Hu1]. cbv beta. wp_frame.
  eapply wp_mono; [by apply _UpdateSchedule_frame| |done].
  intros u2 s2 [Hs2 Hu2]. cbv beta. wp_frame.
  split; [done|]. by apply Forall_app.
Qed.

(** RitoProvider *)

Lemma get_roster_framed s0 x : framed s0 (get_roster x).
Proof. intros s Hs. unfold get_roster. wp_frame. Qed.
#[local] Hint Resolve get_roster_framed : frame.

Lemma _FindTeam_framed s0 team : framed s0 (_FindTeam team).
Proof. intros s Hs. unfold _FindTeam. wp_frame. Qed.
#[local] Hint Resolve _FindTeam_framed : frame.

Lemma _ExtractMatchTeams_framed s0 match_ : framed s0 (_ExtractMatchTeams match_).
Proof. intros s Hs. unfold _ExtractMatchTeams. wp_frame. Qed.
#[local] Hint Resolve _ExtractMatchTeams_framed : frame.

Lemma top_group_winner_framed s0 match_ l : framed s0 (top_group_winner match_ l).
Proof. intros s Hs. unfold top_group_winner. wp_frame. Qed.
#[local] Hint Resolve top_group_winner_framed : frame.

Lemma Rito_UpdateMatches_match_frame s0 updated_matches match_ s :
  poll_inv s0 updated_matches s ->
  wp (Rito_UpdateMatches_match updated_matches match_) (poll_inv s0) (poll_frame s0) s.
Proof.
  intros [Hs Hacc]. unfold Rito_UpdateMatches_match. wp_frame.
  all: split; [auto with frame|]; try done.
  all: apply Forall_app; split; [done|]; constructor; [|done].
  all: match goal with
       | H : od_get_json _ _ = Ok (Some _) |- _ =>
           apply od_get_json_elem_of in H as [k Hk]
       end.
  all: eapply (poll_frame_known s0 s); eauto.
Qed.

Lemma Rito_UpdateMatches_frame env s0 s :
  poll_frame s0 s ->
  wp (Rito_UpdateMatches env) (poll_inv s0) (poll_frame s0) s.
Proof.
  intros Hs. unfold Rito_UpdateMatches. wp_frame; try by split.
  apply (wp_fold_ (poll_inv s0)); [by split| |done].
  intros tournament acc s1 _ Hinv. wp_frame; [|by destruct Hinv].
  apply (wp_fold_ (poll_inv s0)); [done| |done].
  intros bracket acc2 s2 _ Hinv2. wp_frame; [|by destruct Hinv2].
  apply (wp_fold_ (poll_inv s0)); [done| |done].
  intros. by apply Rito_UpdateMatches_match_frame.
Qed.

Lemma UpdateMatches_frame env s0 s :
  poll_frame s0 s ->
  wp (UpdateMatches env) (poll_inv s0) (poll_frame s0) s.
Proof.
  intros Hs. unfold UpdateMatches. wp_frame.
  - by apply Rito_UpdateMatches_frame.
  - by apply Grumble_UpdateMatches_frame.
Qed.

Lemma heap_frame_trans h0 h1 h2 :
  heap_frame h0 h1 -> heap_frame h1 h2 -> heap_frame h0 h2.
Proof.
  unfold heap_frame. intros H1 H2.
  eapply Forall2_trans; [|done..].
  unfold same_match_identity. intros x y z. intuition congruence.
Qed.

Lemma world_frame_refl w : world_frame w w.
Proof. repeat split. apply heap_frame_refl. Qed.

Lemma on_provider_UpdateMatches_frame env w0 w i :
  world_frame w0 w ->
  wp (on_provider i (UpdateMatches env))
    (fun r w' => world_frame w0 w' /\ Forall (known_to_provider w0) r)
    (world_frame w0) w.
Proof.
  intros Hw. unfold wp, on_provider.
  destruct (_providers w !! i) as [p|] eqn:Hp; [|done].
  pose (s := mkPState (w_heap w) (w_rng w) p).
  assert (poll_frame s s) as Hs by (repeat split; apply heap_frame_refl).
  pose proof (UpdateMatches_frame env s s Hs) as H.
  unfold wp in H. fold s. destruct (UpdateMatches env s) as [s' r].
  destruct Hw as (Hprov & Hsnap & Hcb & Hout & Hrng & Hheap).
  assert (world_frame w0
            (mkWorld (heap s') (rng_pos s') (<[i:=self s']> (_providers w))
               (snapshot w) (_callbacks w) (outside w))) as Hw'.
  { assert (poll_frame s s') as (Hself & Hr & Hh) by (destruct r; [apply H|done]).
    repeat split; simpl; try done.
    - rewrite Hself. simpl. rewrite list_insert_id; done.
    - by rewrite Hr.
    - by eapply heap_frame_trans. }
  destruct r as [us|e]; [|done].
  split; [done|]. destruct H as [_ Hus].
  eapply Forall_impl; [done|]. intros l [[k Hk] Hl]. split.
  - exists i, p, k. by rewrite <- Hprov.
  - simpl in Hl. by rewrite (Forall2_length _ _ _ Hheap).
Qed.

Lemma UpdateEsportsMatches_frame env w :
  wp (UpdateEsportsMatches env)
    (fun r w' => world_frame w w' /\ Forall (known_to_provider w) r)
    (world_frame w) w.
Proof.
  unfold UpdateEsportsMatches. wp_steps.
  apply (wp_fold_ (fun acc w' => world_frame w w' /\ Forall (known_to_provider w) acc)).
  - split; [apply world_frame_refl|done].
  - intros i acc w' _ [Hw' Hacc]. wp_steps.
    eapply wp_mono; [by apply on_provider_UpdateMatches_frame| |done].
    intros u w'' [Hw'' Hu]. wp_steps. split; [done|]. by apply Forall_app.
  - done.
Qed.

(** C10.  A poll ([UpdateEsportsMatches]) leaves every provider object as it
    was -- its match map, its brackets with their standings, its teams --
    and the published snapshot too; the store keeps its matches, and each
    keeps its id, bracket, time and games, so that only the winner and the
    blue and red team of an existing match can change.  Every match the
    poll returns was in the match map of a provider, and in the store,
    before the call. *)
Theorem C10_poll_frame env w :
  let w' := fst (UpdateEsportsMatches env w) in
  _providers w' = _providers w /\
  snapshot w' = snapshot w /\
  length (w_heap w') = length (w_heap w) /\
  (forall l m, w_heap w !! l = Some m ->
     exists m', w_heap w' !! l = Some m' /\
       match_id m' = match_id m /\ match_bracket_id m' = match_bracket_id m /\
       timestamp m' = timestamp m /\ games m' = games m) /\
  (forall updated_matches, snd (UpdateEsportsMatches env w) = Ok updated_matches ->
     forall l, l ∈ updated_matches ->
       (exists i p k, _providers w !! i = Some p /\ (k, l) ∈ _matches p) /\
       is_Some (w_heap w !! l)).
Proof.
  pose proof (UpdateEsportsMatches_frame env w) as H. unfold wp in H.
  destruct (UpdateEsportsMatches env w) as [w' r]. simpl.
  assert (world_frame w w') as (Hprov & Hsnap & _ & _ & _ & Hheap)
    by (destruct r; [apply H|done]).
  split_and!; try done.
  - symmetry. by eapply Forall2_length.
  - intros l m Hl.
    destruct (Forall2_lookup_l _ _ _ _ _ Hheap Hl) as (m' & Hm' & Hid).
    exists m'. split; [done|]. apply Hid.
  - intros us -> l Hl. destruct H as [_ Hus].
    rewrite Forall_forall in Hus. destruct (Hus l Hl) as [Hk Hlt].
    split; [done|]. by apply lookup_lt_is_Some.
Qed.

(** ** The standings GrumbleProvider builds *)

Lemma elem_of_od_update {V} (d : list (string * V)) k0 f k v :
  (k, v) ∈ od_update d k0 f ->
  (k <> k0 /\ (k, v) ∈ d) \/ (k = k0 /\ exists v0, (k, v0) ∈ d /\ v = f v0).
Proof.
  unfold od_update. rewrite list_elem_of_fmap. intros ([k' v'] & Heq & Hin).
  simpl in Heq. destruct (String.eqb k' k0) eqn:Hk.
  - apply String.eqb_eq in Hk. simplify_eq. right. eauto.
  - apply String.eqb_neq in Hk. simplify_eq. left. eauto.
Qed.

Lemma od_keys_od_update {V} (d : list (string * V)) k0 f :
  od_keys (od_update d k0 f) = od_keys d.
Proof.
  unfold od_keys, od_update. rewrite <- list_fmap_compose.
  apply list_fmap_ext. intros i [k v] _. simpl. by destruct (String.eqb k k0).
Qed.

Lemma elem_of_od_set {K V} `{EqDecision K} (d : list (K * V)) k0 v0 k v :
  (k, v) ∈ od_set d k0 v0 -> (k, v) = (k0, v0) \/ (k, v) ∈ d.
Proof.
  induction d as [|[k' v'] d IH]; simpl.
  - rewrite list_elem_of_singleton. auto.
  - case_decide as Hk.
    + subst. intros [Heq|Hin]%elem_of_cons; [by left|right; by right].
    + intros [Heq|Hin]%elem_of_cons; [right; rewrite Heq; left|].
      destruct (IH Hin); [by left|right; by right].
Qed.

Lemma standing_ok_add_win t : standing_ok t -> standing_ok (add_win t).
Proof. unfold standing_ok. simpl. lia. Qed.
Lemma standing_ok_add_tie t : standing_ok t -> standing_ok (add_tie t).
Proof. unfold standing_ok. simpl. lia. Qed.
Lemma standing_ok_add_loss t : standing_ok t -> standing_ok (add_loss t).
Proof. unfold standing_ok. simpl. lia. Qed.

Lemma standings_dict_ok_update d k f :
  (forall t, standing_ok t -> standing_ok (f t)) ->
  standings_dict_ok d -> standings_dict_ok (od_update d k f).
Proof.
  intros Hf Hd k' t Hin. apply elem_of_od_update in Hin as [[_ Hin]|[_ (t0 & Hin & ->)]].
  - eauto.
  - apply Hf. eauto.
Qed.

Lemma standings_dict_ok_set d k t :
  standing_ok t -> standings_dict_ok d -> standings_dict_ok (od_set d k t).
Proof.
  intros Ht Hd k' t' Hin. apply elem_of_od_set in Hin as [Heq|Hin]; [by simplify_eq|eauto].
Qed.

(** The ranking loop. *)
Lemma assign_ranks_lookup i rank cur l j t :
  assign_ranks i rank cur l !! j = Some t ->
  exists t0, l !! j = Some t0 /\ points t = points t0 /\ wins t = wins t0 /\
             ties t = ties t0 /\ losses t = losses t0.
Proof.
  revert i rank cur j. induction l as [|t1 l IH]; intros i rank cur j; simpl; [done|].
  destruct j as [|j]; simpl.
  - intros; simplify_eq. by exists t1.
  - apply IH.
Qed.

Lemma assign_ranks_ranked i rank cur l :
  StronglySorted (fun x y => points y <= points x) l ->
  ranked_ok (assign_ranks i rank cur l).
Proof.
  intros Hl. revert i rank cur.
  induction Hl as [|t1 l Hl IH Ht1]; intros i rank cur j t t'; simpl; [done|].
  destruct j as [|j]; simpl.
  - intros ?; simplify_eq. destruct l as [|t2 l]; simpl; [done|].
    intros ?; simplify_eq. simpl.
    apply Forall_cons in Ht1 as [Ht12 _].
    case_bool_decide; split_and!; try lia; try done.
    all: case_bool_decide; try lia.
  - apply IH.
Qed.

Lemma assign_ranks_ok i rank cur l :
  Forall standing_ok l -> Forall standing_ok (assign_ranks i rank cur l).
Proof.
  intros Hl. revert i rank cur. induction Hl; intros; simpl; constructor; auto.
Qed.

Lemma final_standings_ok (d : list (string * TeamStanding)) :
  standings_dict_ok d ->
  let l := assign_ranks 0 1 (-1) (sorted points true (od_values d)) in
  Forall standing_ok l /\ ranked_ok l.
Proof.
  intros Hd. split.
  - apply assign_ranks_ok. unfold sorted. rewrite sorted_with_perm.
    apply Forall_forall. intros t Ht. unfold od_values in Ht.
    apply list_elem_of_fmap in Ht as ([k t'] & -> & Hin). eauto.
  - apply assign_ranks_ranked, sorted_descending.
Qed.

Lemma parsing_inv_same bkey ks s s' :
  _brackets (self s') = _brackets (self s) ->
  parsing_inv bkey ks s -> parsing_inv bkey ks s'.
Proof. unfold parsing_inv. by intros ->. Qed.

Lemma parsing_inv_add_schedule bkey ks s m :
  parsing_inv bkey ks s ->
  parsing_inv bkey ks
    (with_self (fun p => set_brackets (od_update (_brackets p) bkey (add_schedule m)) p) s).
Proof.
  intros (Hks & Hok & Hempty). split_and!; simpl.
  - by rewrite od_keys_od_update.
  - intros k b [[_ Hin]|[_ (b0 & Hin & ->)]]%elem_of_od_update; [eauto|].
    apply (Hok _ _ Hin).
  - intros b [[_ Hin]|[_ (b0 & Hin & ->)]]%elem_of_od_update; [eauto|].
    simpl. eauto.
Qed.

Ltac parsing_side :=
  try done;
  try (split; [|done]);
  first [ eassumption
        | apply parsing_inv_add_schedule; parsing_side
        | eapply parsing_inv_same; [|eassumption]; done ].

Lemma _ParseSchedule_team_ok bkey ks m standings team s :
  parsing_inv bkey ks s -> standings_dict_ok standings ->
  wp (_ParseSchedule_team m standings team)
    (fun st s' => parsing_inv bkey ks s' /\ standings_dict_ok st) (fun _ => True) s.
Proof.
  intros Hs Hd. unfold _ParseSchedule_team.
  repeat (wp_step2; cbv beta); try done.
  all: try (split; [parsing_side|]).
  all: auto using standings_dict_ok_update, standings_dict_ok_set,
         standing_ok_add_win, standing_ok_add_tie, standing_ok_add_loss.
  all: try (apply standings_dict_ok_update; [|apply standings_dict_ok_set; [done|done]];
            auto using standing_ok_add_win, standing_ok_add_tie, standing_ok_add_loss).
  all: try (apply standings_dict_ok_set; [done|done]).
Qed.

Lemma _ParseSchedule_match_ok bkey ks acc match_ s :
  parsing_inv bkey ks s -> standings_dict_ok (snd acc) ->
  wp (_ParseSchedule_match bkey acc match_)
    (fun acc' s' => parsing_inv bkey ks s' /\ standings_dict_ok (snd acc'))
    (fun _ => True) s.
Proof.
  intros Hs Hd. unfold _ParseSchedule_match.
  repeat (wp_step2; cbv beta); try done.
  apply (wp_for_ (parsing_inv bkey ks)); [parsing_side| |].
  { intros game s' _ Hs'. repeat (wp_step2; cbv beta); try done; parsing_side. }
  intros s' Hs'. repeat (wp_step2; cbv beta); try done.
  apply (wp_fold_ (fun st s' => parsing_inv bkey ks s' /\ standings_dict_ok st)); [done| |].
  { intros team st s'' _ [Hs'' Hst]. by apply _ParseSchedule_team_ok. }
  intros st s'' [Hs'' Hst]. repeat (wp_step2; cbv beta). done.
Qed.

Lemma parsing_inv_extend bkey ks s d :
  parsing_inv bkey ks s -> standings_dict_ok d ->
  brackets_ok ks
    (with_self (fun p =>
       set_brackets (od_update (_brackets p) bkey
         (extend_standings (assign_ranks 0 1 (-1) (sorted points true (od_values d))))) p) s).
Proof.
  intros (Hks & Hok & Hempty) Hd. split; simpl.
  - by rewrite od_keys_od_update.
  - intros k b [[_ Hin]|[-> (b0 & Hin & ->)]]%elem_of_od_update; [eauto|].
    unfold bracket_ok. simpl. rewrite (Hempty _ Hin). simpl.
    by apply final_standings_ok.
Qed.

Lemma _ParseSchedule_ok schedule bkey ks s :
  parsing_inv bkey ks s ->
  wp (_ParseSchedule schedule bkey) (fun _ => brackets_ok ks) (fun _ => True) s.
Proof.
  intros Hs. unfold _ParseSchedule.
  repeat (wp_step2; cbv beta); try done.
  apply (wp_fold_ (fun acc s' => parsing_inv bkey ks s' /\ standings_dict_ok (snd acc))).
  - split; [done|]. intros k t Hin. by apply elem_of_nil in Hin.
  - intros week acc s' _ [Hs' Hacc]. repeat (wp_step2; cbv beta); try done.
    apply (wp_fold_ (fun acc s' => parsing_inv bkey ks s' /\ standings_dict_ok (snd acc)));
      [done| |done].
    intros m acc' s'' _ [? ?]. by apply _ParseSchedule_match_ok.
  - intros acc s' [Hs' Hacc]. repeat (wp_step2; cbv beta).
    by apply parsing_inv_extend.
Qed.

Lemma brackets_ok_same ks s s' :
  _brackets (self s') = _brackets (self s) -> brackets_ok ks s -> brackets_ok ks s'.
Proof. unfold brackets_ok. by intros ->. Qed.

Lemma Grumble_LoadData_ok env s :
  wp (Grumble_LoadData env) (fun _ => brackets_ok ["season"; "playoffs"]) (fun _ => True) s.
Proof.
  unfold Grumble_LoadData.
  repeat (wp_step2; cbv beta); try done.
  eapply wp_mono; [apply (_ParseSchedule_ok _ "season" ["season"])| |done].
  { split_and!; simpl; [done| |].
    - intros k b Hin%list_elem_of_singleton. simplify_eq.
      split; simpl; [constructor|]. by intros [] ???.
    - intros b Hin%list_elem_of_singleton. by simplify_eq. }
  intros [] s1 [Hks Hok]. repeat (wp_step2; cbv beta); try done.
  eapply wp_mono; [apply (_ParseSchedule_ok _ "playoffs" ["season"; "playoffs"])| |done].
  { destruct (_brackets (self s1)) as [|[k1 b1] [|??]] eqn:Hb; simplify_eq/=.
    assert (bracket_ok b1) by (apply (Hok "season"); left).
    unfold parsing_inv. simpl. rewrite Hb. simpl.
    try (rewrite decide_False by done); simpl.
    split_and!; [done| |].
    - intros k b [?|[?|[]%elem_of_nil]%elem_of_cons]%elem_of_cons; simplify_eq; [done|].
      split; simpl; [constructor|]. by intros [] ???.
    - intros b [?|[?|[]%elem_of_nil]%elem_of_cons]%elem_of_cons; by simplify_eq. }
  intros [] s2 Hs2. repeat (wp_step2; cbv beta); try done.
  apply (wp_for_ (brackets_ok ["season"; "playoffs"])); [done| |done].
  intros [team_id t] s3 _ Hs3. repeat (wp_step2; cbv beta); try done.
  apply (wp_for_ (brackets_ok ["season"; "playoffs"])); [done| |done].
  intros player s4 _ Hs4. repeat (wp_step2; cbv beta); done.
Qed.

(** C7.  After [GrumbleProvider.LoadData] has returned, in the standings of
    every bracket of the provider the points of each team are 3 a win, 1 a
    tie and 0 a loss, and for adjacent entries [i], [i+1] the points do not
    increase, equal points share the rank, and the rank differs only where
    the points decrease. *)
Theorem C7_grumble_standings env s s' :
  Grumble_LoadData env s = (s', Ok tt) ->
  forall b, b ∈ brackets (self s') ->
    Forall standing_ok (standings b) /\ ranked_ok (standings b).
Proof.
  intros Hrun b Hb.
  pose proof (Grumble_LoadData_ok env s) as H. unfold wp in H. rewrite Hrun in H.
  destruct H as [_ Hok]. unfold brackets, od_values in Hb.
  apply list_elem_of_fmap in Hb as ([k b'] & -> & Hin). by apply (Hok k).
Qed.

(** ** LoadEsports: what a reload publishes *)

Lemma same_engine_refl w : same_engine w w.
Proof. done. Qed.

Lemma call_same_engine w0 fn w :
  same_engine w0 w -> wp (call fn) (fun _ => same_engine w0) (same_engine w0) w.
Proof.
  intros Hw. unfold wp, call. destruct (fn (outside w)) as [o [[]|e]]; done.
Qed.

Lemma LoadEsports_callbacks_same_engine w :
  wp LoadEsports_callbacks (fun _ => same_engine w) (same_engine w) w.
Proof.
  unfold LoadEsports_callbacks. wp_steps.
  apply (wp_for_ (same_engine w)); [done| |done].
  intros fn w' _ Hw'. by apply call_same_engine.
Qed.

Lemma on_provider_same_registry {A} (m : M PState A) w0 i w :
  same_registry w0 w ->
  wp (on_provider i m) (fun _ => same_registry w0) (same_registry w0) w.
Proof.
  intros Hw. unfold wp, on_provider.
  destruct (_providers w !! i); [|done].
  destruct (m _) as [s [a|e]]; done.
Qed.

Lemma LoadEsports_providers_same_registry env w :
  wp (LoadEsports_providers env) (fun _ => same_registry w) (same_registry w) w.
Proof.
  unfold LoadEsports_providers. wp_steps.
  apply (wp_for_ (same_registry w)); [done| |done].
  intros i w' _ Hw'. by apply on_provider_same_registry.
Qed.

(** A reload that returns has published the assembly of the reloaded
    providers, and nothing but the callbacks ran after that. *)
Lemma LoadEsports_published env w w' r :
  LoadEsports env w = (w', r) ->
  (exists e, r = Raise e /\
     (snd (LoadEsports_providers env w) = Raise e \/
      assemble env (fst (LoadEsports_providers env w)) = Raise e) /\
     snapshot w' = snapshot w) \/
  (exists w1 a,
     LoadEsports_providers env w = (w1, Ok tt) /\
     assemble env w1 = Ok a /\
     same_engine (set_snapshot (publish env w1 a) w1) w' /\
     LoadEsports_callbacks (set_snapshot (publish env w1 a) w1) = (w', r)).
Proof.
  unfold LoadEsports, mbind, M_bind, get_state, lift, modify.
  pose proof (LoadEsports_providers_same_registry env w) as Hreg. unfold wp in Hreg.
  destruct (LoadEsports_providers env w) as [w1 [[]|e]] eqn:H1; simpl.
  - destruct (assemble env w1) as [a|e] eqn:Ha.
    + intros Hcb. right. exists w1, a. split_and!; try done.
      pose proof (LoadEsports_callbacks_same_engine (set_snapshot (publish env w1 a) w1)) as H.
      unfold wp in H. rewrite Hcb in H. by destruct r.
    + intros [= <- <-]. left. exists e. split_and!; auto. apply Hreg.
  - intros [= <- <-]. left. exists e. split_and!; auto. apply Hreg.
Qed.

Lemma StronglySorted_lookup {A} (R : A -> A -> Prop) l i j x y :
  StronglySorted R l -> l !! i = Some x -> l !! j = Some y -> (i < j)%nat -> R x y.
Proof.
  intros Hl. revert i j. induction Hl as [|z l Hl IH Hz]; intros i j; [done|].
  destruct i as [|i], j as [|j]; simpl; try lia.
  - intros ? Hj _. simplify_eq. rewrite Forall_forall in Hz.
    apply Hz. by eapply list_elem_of_lookup_2.
  - intros ? ? ?. apply (IH i j); [done..|lia].
Qed.


(** *** Callbacks *)

Lemma call_isolated_app cbs1 cbs2 o :
  call_isolated (cbs1 ++ cbs2) o = call_isolated cbs2 (call_isolated cbs1 o).
Proof. apply foldl_app. Qed.

Lemma for_call_outside cbs w :
  let '(o, r) := for_ cbs (fun fn : Callback => fn) (outside w) in
  for_ cbs call w =
    (mkWorld (w_heap w) (w_rng w) (_providers w) (snapshot w) (_callbacks w) o, r).
Proof.
  revert w. induction cbs as [|fn cbs IH]; intros w; simpl.
  - by destruct w.
  - unfold mbind, M_bind, call at 1.
    destruct (fn (outside w)) as [o1 [[]|e]] eqn:Hfn; [|done].
    specialize (IH (mkWorld (w_heap w) (w_rng w) (_providers w) (snapshot w)
                      (_callbacks w) o1)).
    simpl in IH. by destruct (for_ cbs _ o1).
Qed.

Lemma for_callbacks_prefix cbs o :
  let '(o', r) := for_ cbs (fun fn : Callback => fn) o in
  o' = call_isolated (invoked_prefix cbs o) o /\
  (r = Ok tt -> invoked_prefix cbs o = cbs) /\
  (forall e, r = Raise e ->
     exists before fn, invoked_prefix cbs o = before ++ [fn] /\
       snd (fn (call_isolated before o)) = Raise e) /\
  ((forall fn o1, fn ∈ cbs -> is_ok (snd (fn o1)) = true) -> r = Ok tt).
Proof.
  revert o. induction cbs as [|fn cbs IH]; intros o; simpl.
  - split_and!; try done.
  - unfold mbind, M_bind. destruct (fn o) as [o1 [[]|e]] eqn:Hfn; simpl.
    + specialize (IH o1). destruct (for_ cbs _ o1) as [o' r].
      destruct IH as (Ho' & Hok & Hraise & Hall). split_and!.
      * done.
      * intros Hr. by rewrite Hok.
      * intros e Hr. destruct (Hraise e Hr) as (before & fn' & Heq & Hfn').
        exists (fn :: before), fn'. split; [by rewrite Heq|].
        unfold call_isolated. simpl. by rewrite Hfn.
      * intros Hcbs. apply Hall. intros fn' o2 Hin. apply Hcbs. by right.
    + split_and!.
      * done.
      * done.
      * intros e' [= <-]. exists [], fn. split; [done|]. simpl. by rewrite Hfn.
      * intros Hcbs. specialize (Hcbs fn o (list_elem_of_here _ _)).
        by rewrite Hfn in Hcbs.
Qed.

Lemma call_isolated_all_ok cbs o :
  snd (for_ cbs (fun fn : Callback => fn) o) = Ok tt ->
  fst (for_ cbs (fun fn : Callback => fn) o) = call_isolated cbs o.
Proof.
  pose proof (for_callbacks_prefix cbs o) as H.
  destruct (for_ cbs _ o) as [o' r]. simpl. intros ->.
  destruct H as (-> & Hok & _). by rewrite Hok.
Qed.

Lemma RegisterCallback_appends fn w :
  _callbacks (fst (RegisterCallback fn w)) = _callbacks w ++ [fn].
Proof. done. Qed.

(** C3, as the code has it.  Once [LoadEsports] has published the snapshot
    it calls the registered callbacks in the order of their registration,
    up to and including the first one that raises: that exception leaves
    [LoadEsports] and the callbacks registered after it are not called.
    When no callback raises, every callback is called, in order. *)
Theorem C3_callbacks_until_first_raise env w w1 a w' r :
  LoadEsports_providers env w = (w1, Ok tt) ->
  assemble env w1 = Ok a ->
  LoadEsports env w = (w', r) ->
  let cbs := _callbacks w in
  let o := outside w in
  snapshot w' = publish env w1 a /\
  outside w' = call_isolated (invoked_prefix cbs o) o /\
  (r = Ok tt -> invoked_prefix cbs o = cbs) /\
  (forall e, r = Raise e ->
     exists before fn, invoked_prefix cbs o = before ++ [fn] /\
       snd (fn (call_isolated before o)) = Raise e) /\
  ((forall fn o1, fn ∈ cbs -> is_ok (snd (fn o1)) = true) ->
     r = Ok tt /\ outside w' = call_isolated cbs o).
Proof.
  intros Hprov Hasm Hrun cbs o.
  pose proof (LoadEsports_providers_same_registry env w) as Hreg.
  unfold wp in Hreg. rewrite Hprov in Hreg. destruct Hreg as (_ & Hcbs & Hout).
  apply LoadEsports_published in Hrun
    as [(e & _ & [He|He] & _)|(w1' & a' & Hprov' & Hasm' & Hsame & Hcb)].
  { by rewrite Hprov in He. }
  { rewrite Hprov in He. simpl in He. congruence. }
  rewrite Hprov in Hprov'. simplify_eq. rewrite Hasm in Hasm'. simplify_eq.
  unfold LoadEsports_callbacks, mbind, M_bind, get_state in Hcb. simpl in Hcb.
  pose proof (for_call_outside (_callbacks w1') (set_snapshot (publish env w1' a') w1')) as Hfor.
  pose proof (for_callbacks_prefix (_callbacks w1') (outside w1')) as Hpre.
  simpl in Hfor. destruct (for_ (_callbacks w1') _ (outside w1')) as [o' r'].
  rewrite Hfor in Hcb. simplify_eq. simpl.
  unfold cbs, o. rewrite <- Hcbs, <- Hout.
  destruct Hpre as (Ho' & Hok & Hraise & Hall).
  split_and!; try done.
  intros Hno. specialize (Hall Hno). split; [done|].
  rewrite Ho'. by rewrite Hok.
Qed.

(** ** Readers and a concurrent reload *)

Lemma feed_app {A} (r : Reader A) ws1 ws2 : feed r (ws1 ++ ws2) = feed (feed r ws1) ws2.
Proof.
  revert r. induction ws1 as [|w ws1 IH]; intros r; simpl.
  - done.
  - destruct r as [x|k]; [by destruct ws2|]. apply IH.
Qed.

Lemma feed_Done {A} (x : result A) ws : feed (Done x) ws = Done x.
Proof. by destruct ws. Qed.

Lemma step_reader_feed {A} (c : Config A) :
  step c ReaderStep = mkConfig (c_world c) (c_pending c) (feed (c_reader c) [c_world c]).
Proof. destruct c as [w p [x|k]]; done. Qed.

Lemma run_alone_feed {A} (r : Reader A) w n x :
  feed r (replicate n w) = Done x -> run_alone w r = x.
Proof.
  revert r. induction n as [|n IH]; intros r; simpl.
  - by intros ->.
  - destruct r as [y|k]; simpl; [by intros [= ->]|]. apply IH.
Qed.

Lemma GetResults_sections_alone w q is_team n results l :
  run_alone w (GetResults_sections q is_team n results l) =
  (fun r => (py_take n r, q)) <$> GetResults_loop w (snapshot w) q is_team n results l.
Proof.
  revert results. induction l as [|m l IH]; intros results; simpl; [done|].
  destruct (_ResultIsInteresting w (snapshot w) m q) as [[]|e]; simpl; [|apply IH|done].
  destruct (deref (w_heap w) m) as [p|e]; simpl; [|done].
  destruct (n <=? _); [done|apply IH].
Qed.

(** Run alone, the sections of [GetResults] are [GetResults]. *)
Lemma GetResults_reader_alone w subcommand n :
  run_alone w (GetResults_reader subcommand n) = GetResults w subcommand n.
Proof.
  unfold GetResults, GetResults_reader. simpl.
  destruct (resolve_qualifier w (snapshot w) subcommand) as [q is_team]. simpl.
  rewrite GetResults_sections_alone.
  by destruct (GetResults_loop _ _ _ _ _ _ _).
Qed.

Lemma GetSchedule_sections_alone env w q now ip n schedule l :
  run_alone w (GetSchedule_sections env q now ip n schedule l) =
  (fun s => match s with
            | [] => (py_take n [SCHEDULE_NO_GAMES_STRING env], "No")
            | _ => (py_take n s, q)
            end) <$> GetSchedule_loop env w (snapshot w) q now ip n schedule l.
Proof.
  revert schedule. induction l as [|m l IH]; intros schedule; simpl.
  - by destruct schedule.
  - destruct (_MatchIsInteresting w (snapshot w) m q now ip) as [[]|e]; simpl;
      [|apply IH|done].
    destruct (deref (w_heap w) m) as [p|e]; simpl; [|done].
    destruct (n <=? _); [|apply IH].
    by destruct (schedule ++ _).
Qed.

Lemma GetSchedule_reader_alone env w subcommand ip n :
  run_alone w (GetSchedule_reader env subcommand ip n) = GetSchedule env w subcommand ip n.
Proof.
  unfold GetSchedule, GetSchedule_reader. simpl.
  rewrite GetSchedule_sections_alone.
  destruct (GetSchedule_loop _ _ _ _ _ _ _ _ _) as [[]|]; done.
Qed.


(** ** GetSchedule and GetResults *)

(** C6, as the code has it.  A qualifier that names a league is resolved to
    that league by [GetResults] and [GetSchedule], whether or not it names a
    team as well: the league takes priority.  A qualifier that names a team
    and no league is resolved to the team. *)
Theorem C6_league_takes_priority env w subcommand :
  (forall l, league_of w (snapshot w) subcommand = Some l ->
     resolve_qualifier w (snapshot w) subcommand = (l, false) /\
     (forall n r, GetResults w subcommand n = Ok r -> snd r = l) /\
     (forall include_playoffs n r,
        GetSchedule env w subcommand include_playoffs n = Ok r ->
        snd r = l \/ snd r = "No")) /\
  (forall t, league_of w (snapshot w) subcommand = None ->
     Lookup (es_teams (snapshot w)) subcommand = Some t ->
     resolve_qualifier w (snapshot w) subcommand = (team_id t, true)).
Proof.
  split.
  - intros l Hl.
    assert (resolve_qualifier w (snapshot w) subcommand = (l, false)) as Hq.
    { unfold resolve_qualifier. rewrite Hl. by destruct (Lookup _ _). }
    split_and!; [done| |].
    + intros n [lines q]. unfold GetResults. rewrite Hq.
      destruct (GetResults_loop _ _ _ _ _ _ _); simpl; [|done]. by intros [= _ <-].
    + intros ip n [lines q]. unfold GetSchedule. rewrite Hq. simpl.
      destruct (GetSchedule_loop _ _ _ _ _ _ _ _ _) as [[|]|]; simpl; [| |done].
      * intros [= _ <-]. by right.
      * intros [= _ <-]. by left.
  - intros t Hl Ht. unfold resolve_qualifier. by rewrite Hl, Ht.
Qed.

(** *** Results after a poll *)

Lemma _ResultIsInteresting_wf w m q :
  (exists p b, w_heap w !! _match m = Some p /\
               od_get (es_brackets (snapshot w)) (match_bracket_id p) = Some b) ->
  exists c, _ResultIsInteresting w (snapshot w) m q = Ok c.
Proof.
  intros (p & b & Hp & Hb). unfold _ResultIsInteresting, deref, bracket_of.
  rewrite Hp. simpl. rewrite Hb. simpl. eauto.
Qed.

Lemma GetResults_loop_prefix w q is_team n results l :
  (forall m, m ∈ l -> exists p b, w_heap w !! _match m = Some p /\
      od_get (es_brackets (snapshot w)) (match_bracket_id p) = Some b) ->
  exists more, GetResults_loop w (snapshot w) q is_team n results l = Ok (results ++ more).
Proof.
  revert results. induction l as [|m l IH]; intros results Hwf; simpl.
  - exists []. by rewrite app_nil_r.
  - destruct (_ResultIsInteresting_wf w m q) as [c Hc]; [apply Hwf; left|].
    rewrite Hc. simpl.
    assert (forall m', m' ∈ l -> exists p b, w_heap w !! _match m' = Some p /\
      od_get (es_brackets (snapshot w)) (match_bracket_id p) = Some b) as Hwf'
      by (intros; apply Hwf; by right).
    destruct c; [|by apply IH].
    destruct (Hwf m) as (p & b & Hp & _); [left|].
    unfold deref. rewrite Hp. simpl.
    destruct (n <=? _).
    + eauto.
    + destruct (IH (results ++ [result_line p q is_team]) Hwf') as [more ->].
      exists (result_line p q is_team :: more). by rewrite <- app_assoc.
Qed.

(** The loop walks past the matches that come before the one looked for, as
    long as the results they add stay below the limit. *)
Lemma GetResults_loop_skip w q is_team n results l1 l2 :
  (forall m, m ∈ l1 -> exists p b, w_heap w !! _match m = Some p /\
      od_get (es_brackets (snapshot w)) (match_bracket_id p) = Some b) ->
  Z.of_nat (length results + length (filter (is_result w q) l1)) < n ->
  exists added,
    length added = length (filter (is_result w q) l1) /\
    GetResults_loop w (snapshot w) q is_team n results (l1 ++ l2)
      = GetResults_loop w (snapshot w) q is_team n (results ++ added) l2.
Proof.
  revert results. induction l1 as [|m l1 IH]; intros results Hwf Hn; simpl.
  - exists []. by rewrite app_nil_r.
  - assert (forall m', m' ∈ l1 -> exists p b, w_heap w !! _match m' = Some p /\
      od_get (es_brackets (snapshot w)) (match_bracket_id p) = Some b) as Hwf'
      by (intros; apply Hwf; by right).
    destruct (_ResultIsInteresting_wf w m q) as [c Hc]; [apply Hwf; left|].
    rewrite filter_cons in Hn |- *.
    destruct (decide (is_result w q m)) as [Hr|Hr].
    + unfold is_result in Hr. rewrite Hr. simpl in Hn |- *.
      destruct (Hwf m) as (p & b & Hp & _); [left|].
      unfold deref. rewrite Hp. simpl.
      rewrite length_app. simpl.
      destruct (n <=? _) eqn:Hle; [apply Z.leb_le in Hle; lia|].
      destruct (IH (results ++ [result_line p q is_team]) Hwf') as (added & Hlen & ->).
      { rewrite length_app. simpl. lia. }
      exists (result_line p q is_team :: added). split; [simpl; lia|].
      by rewrite <- app_assoc.
    + rewrite Hc. destruct c; [by destruct Hr|]. simpl. by apply IH.
Qed.

Lemma schedule_wf_frame w w' :
  world_frame w w' -> schedule_wf w -> schedule_wf w'.
Proof.
  intros (_ & Hsnap & _ & _ & _ & Hheap) Hwf m Hm. rewrite Hsnap in Hm |- *.
  destruct (Hwf m Hm) as (p & b & Hp & Hb).
  destruct (Forall2_lookup_l _ _ _ _ _ Hheap Hp) as (p' & Hp' & _ & Hid & _).
  exists p', b. by rewrite Hid.
Qed.

(** C8, as the code has it.  When a poll ([UpdateEsportsMatches]) sets the
    winner of a match of the published schedule, the next [GetResults] whose
    qualifier matches the match reports it with that winner, with no reload
    in between, provided fewer than [num_games] later matches of the
    schedule are results for the qualifier: [GetResults] reports the
    [num_games] latest results only. *)
Theorem C8_poll_then_results env w w' r subcommand num_games before match_ after p p' :
  UpdateEsportsMatches env w = (w', r) ->
  schedule_wf w ->
  es_schedule (snapshot w) = before ++ match_ :: after ->
  w_heap w !! _match match_ = Some p -> winner p = "" ->
  w_heap w' !! _match match_ = Some p' -> winner p' <> "" ->
  let qualifier := fst (resolve_qualifier w' (snapshot w') subcommand) in
  let is_team := snd (resolve_qualifier w' (snapshot w') subcommand) in
  is_result w' qualifier match_ ->
  Z.of_nat (length (filter (is_result w' qualifier) after)) < num_games ->
  exists lines,
    GetResults w' subcommand num_games = Ok (lines, qualifier) /\
    result_line p' qualifier is_team ∈ lines.
Proof.
  intros Hpoll Hwf Hsched Hp Hw Hp' Hw' qualifier is_team Hres Hlimit.
  pose proof (UpdateEsportsMatches_frame env w) as Hframe. unfold wp in Hframe.
  rewrite Hpoll in Hframe.
  assert (world_frame w w') as Hfr by (destruct r; [apply Hframe|done]).
  pose proof (schedule_wf_frame _ _ Hfr Hwf) as Hwf'.
  destruct Hfr as (_ & Hsnap & _).
  assert (es_schedule (snapshot w') = before ++ match_ :: after) as Hsched'
    by (by rewrite Hsnap).
  assert (forall m, m ∈ before ++ match_ :: after ->
            exists p b, w_heap w' !! _match m = Some p /\
              od_get (es_brackets (snapshot w')) (match_bracket_id p) = Some b) as Hall.
  { intros m Hm. apply Hwf'. by rewrite Hsched'. }
  unfold GetResults.
  destruct (resolve_qualifier w' (snapshot w') subcommand) as [q it] eqn:Hq.
  simpl in qualifier, is_team. subst qualifier is_team.
  rewrite Hsched', reverse_app, reverse_cons, <- app_assoc. simpl.
  assert (length (filter (is_result w' q) (reverse after))
          = length (filter (is_result w' q) after)) as Hcount.
  { apply Permutation_length, filter_Permutation, reverse_Permutation. }
  destruct (GetResults_loop_skip w' q it num_games [] (reverse after)
              (match_ :: reverse before)) as (added & Hlen & Hskip).
  { intros m Hm. apply Hall. rewrite elem_of_reverse in Hm.
    rewrite elem_of_app, elem_of_cons. auto. }
  { simpl. by rewrite Hcount. }
  rewrite Hskip. simpl.
  unfold is_result in Hres. rewrite Hres. simpl.
  unfold deref. rewrite Hp'. simpl.
  assert (exists more,
    (if num_games <=? Z.of_nat (length (added ++ [result_line p' q it]))
     then Ok (added ++ [result_line p' q it])
     else GetResults_loop w' (snapshot w') q it num_games
            (added ++ [result_line p' q it]) (reverse before))
    = Ok ((added ++ [result_line p' q it]) ++ more)) as [more ->].
  { destruct (_ <=? _).
    - exists []. by rewrite app_nil_r.
    - apply GetResults_loop_prefix.
      intros m Hm. apply Hall. rewrite elem_of_reverse in Hm.
      rewrite elem_of_app. auto. }
  simpl. eexists. split; [done|].
  unfold py_take. destruct (num_games <? 0) eqn:Hneg; [lia|].
  apply (list_elem_of_lookup_2 _ (length added)).
  rewrite lookup_take_lt by lia.
  rewrite <- app_assoc. rewrite lookup_app_r by lia.
  by rewrite Nat.sub_diag.
Qed.

(** ** GetTopPickBanChamps *)

(** C9.  [GetTopPickBanChamps] keeps the champions picked in at least 5% of
    the games counted for the region, orders them by the caller's ranking
    key, and by the number of picks, descending, where the key ties, and
    returns the first five at most.  With 100 games, a champion picked in 4
    is dropped and one picked in 5 is kept. *)
Theorem C9_top_pick_ban_champs {K} (lt : K -> K -> bool)
    (lt_asym : forall a b, lt a b = true -> lt b a = false)
    (lt_cotrans : forall a b c, lt a b = false -> lt b c = false -> lt a c = false)
    env w region (sort_key_fn : Counter -> K) descending :
  let region' := resolve_region w (snapshot w) region in
  let champs := flatten_champs env region' (es_champ_stats (snapshot w)) in
  let num_games := games_in_region region' (es_num_games (snapshot w)) in
  exists ranked,
    GetTopPickBanChamps lt env w region sort_key_fn descending
      = (num_games, take 5 ranked) /\
    Permutation ranked (filter (fun x => num_games <= 20 * picks x) champs) /\
    StronglySorted (ranks_before lt sort_key_fn descending) ranked /\
    (length (take 5 ranked) <= 5)%nat /\
    (num_games = 100 -> forall x, x ∈ champs ->
       (picks x = 4 -> x ∉ ranked) /\ (picks x = 5 -> x ∈ ranked)).
Proof.
  intros region' champs num_games.
  set (filtered := filter (fun x => Is_true (above_floor num_games x)) champs).
  assert (filtered = filter (fun x => num_games <= 20 * picks x) champs) as Hf.
  { apply list_filter_iff. intros x. unfold above_floor.
    rewrite Is_true_true, Z.leb_le. done. }
  exists (sorted_with lt (fun x => sort_key_fn (snd x)) descending
            (sorted picks true filtered)).
  assert (Permutation
            (sorted_with lt (fun x => sort_key_fn (snd x)) descending
               (sorted picks true filtered))
            (filter (fun x => num_games <= 20 * picks x) champs)) as Hperm.
  { rewrite sorted_with_perm. unfold sorted. rewrite sorted_with_perm. by rewrite Hf. }
  split_and!.
  - done.
  - done.
  - eapply StronglySorted_impl;
      [|apply (sorted_with_sorted lt _ descending lt_asym lt_cotrans
                 (fun x y => picks y <= picks x)), sorted_descending].
    intros x y [H1 H2]. split; [done|]. done.
  - rewrite length_take. lia.
  - intros Hn x Hx. split; intros Hp.
    + rewrite Hperm, list_elem_of_filter. lia.
    + rewrite Hperm, list_elem_of_filter. split; [lia|done].
Qed.

(** ** Reloading twice *)

Section rel_rules.
Context {S : Type}.
Implicit Types (I : S -> S -> Prop).

Lemma rel_bind {A1 A2 B1 B2} I I' I'' (V : A1 -> A2 -> Prop) (V' : B1 -> B2 -> Prop)
    (m1 : M S A1) (m2 : M S A2) k1 k2 :
  rel I I' V m1 m2 ->
  (forall a1 a2, V a1 a2 -> rel I' I'' V' (k1 a1) (k2 a2)) ->
  rel I I'' V' (m1 ≫= k1) (m2 ≫= k2).
Proof.
  intros Hm Hk s1 s2 Hs t1 b1. unfold mbind, M_bind.
  destruct (m1 s1) as [u1 [a1|e]] eqn:H1; [|done].
  destruct (Hm s1 s2 Hs u1 a1 H1) as (u2 & a2 & -> & Hu & Ha).
  intros Hk1. exact (Hk a1 a2 Ha u1 u2 Hu t1 b1 Hk1).
Qed.

Lemma rel_mono {A B} I0 I I' I0' (V V' : A -> B -> Prop) (m1 : M S A) (m2 : M S B) :
  rel I I' V m1 m2 ->
  (forall s1 s2, I0 s1 s2 -> I s1 s2) ->
  (forall s1 s2, I' s1 s2 -> I0' s1 s2) ->
  (forall a1 a2, V a1 a2 -> V' a1 a2) ->
  rel I0 I0' V' m1 m2.
Proof.
  intros Hm HI HI' HV s1 s2 Hs t1 a1 H1.
  destruct (Hm s1 s2 (HI _ _ Hs) t1 a1 H1) as (t2 & a2 & ? & ? & ?). eauto 8.
Qed.

Lemma rel_ret {A B} I (V : A -> B -> Prop) a1 a2 :
  V a1 a2 -> rel I I V (ret a1) (ret a2).
Proof. intros HV s1 s2 Hs t1 b1 [= <- <-]. eauto. Qed.

Lemma rel_pass I : rel I I any (pass : M S unit) pass.
Proof. by apply rel_ret. Qed.

Lemma rel_lift {A} I (r : result A) : rel I I eq (lift r) (lift r).
Proof. intros s1 s2 Hs t1 b1 [= <- ->]. eauto. Qed.

Lemma rel_lift2 {A B} I (V : A -> B -> Prop) (r1 : result A) (r2 : result B) :
  (forall a1, r1 = Ok a1 -> exists a2, r2 = Ok a2 /\ V a1 a2) ->
  rel I I V (lift r1) (lift r2).
Proof.
  intros H s1 s2 Hs t1 b1 [= <- ->]. destruct (H _ eq_refl) as (a2 & -> & ?). eauto.
Qed.

Lemma rel_raise {A B} I I' (V : A -> B -> Prop) e (m2 : M S B) :
  rel I I' V (raise e) m2.
Proof. intros s1 s2 Hs t1 b1 [=]. Qed.

Lemma rel_lift_raise {A B} I I' (V : A -> B -> Prop) e (m2 : M S B) :
  rel I I' V (lift (Raise e)) m2.
Proof. intros s1 s2 Hs t1 b1 [=]. Qed.

Lemma rel_modify I I' (f1 f2 : S -> S) :
  (forall s1 s2, I s1 s2 -> I' (f1 s1) (f2 s2)) ->
  rel I I' any (modify f1) (modify f2).
Proof.
  intros H s1 s2 Hs t1 b1 [= <- <-]. exists (f2 s2), tt. split; [done|]. split; [auto|done].
Qed.

Lemma rel_gets {A B} I (V : A -> B -> Prop) (f1 : S -> A) (f2 : S -> B) :
  (forall s1 s2, I s1 s2 -> V (f1 s1) (f2 s2)) ->
  rel I I V (gets f1) (gets f2).
Proof.
  intros H s1 s2 Hs t1 b1 [= <- <-]. exists s2, (f2 s2). split; [done|]. split; [done|auto].
Qed.

Lemma rel_for_ {A} I (l : list A) (b1 b2 : A -> M S unit) :
  (forall x, rel I I any (b1 x) (b2 x)) ->
  rel I I any (for_ l b1) (for_ l b2).
Proof.
  intros Hb. induction l as [|x l IH]; simpl.
  - by apply rel_ret.
  - eapply rel_bind; [apply Hb|]. intros _ _ _. apply IH.
Qed.

Lemma rel_fold_ {A B} I (l : list A) (b1 b2 : B -> A -> M S B) acc :
  (forall x acc, rel I I eq (b1 acc x) (b2 acc x)) ->
  rel I I eq (fold_ l b1 acc) (fold_ l b2 acc).
Proof.
  intros Hb. revert acc. induction l as [|x l IH]; intros acc; simpl.
  - by apply rel_ret.
  - eapply rel_bind; [apply Hb|]. intros a ? <-. apply IH.
Qed.

Lemma rel_mmap {A B} I (f1 f2 : A -> M S B) (l : list A) :
  (forall x, rel I I eq (f1 x) (f2 x)) ->
  rel I I eq (mmap f1 l) (mmap f2 l).
Proof.
  intros Hf. induction l as [|x l IH]; simpl.
  - by apply rel_ret.
  - eapply rel_bind; [apply Hf|]. intros y ? <-.
    eapply rel_bind; [apply IH|]. intros ys ? <-. by apply rel_ret.
Qed.
End rel_rules.

(** One step of two runs of the same code. *)
Ltac rel_step :=
  lazymatch goal with
  | |- rel _ _ _ (mbind _ _) (mbind _ _) => eapply rel_bind; [|intros ? ? ?]
  | |- rel _ _ _ (ret _) (ret _) => apply rel_ret
  | |- rel _ _ _ pass pass => apply rel_pass
  | |- rel _ _ _ (raise _) _ => apply rel_raise
  | |- rel _ _ _ (lift (Raise _)) _ => apply rel_lift_raise
  | |- rel _ _ _ (lift ?r) (lift ?r) => apply rel_lift
  | |- rel _ _ _ (if ?b then _ else _) (if ?b then _ else _) => destruct b eqn:?
  | |- rel _ _ _ (match ?x with _ => _ end) (match ?x with _ => _ end) => destruct x eqn:?
  end.

(** *** Dictionaries *)

Lemma od_get_od_set {V} (d : list (string * V)) k v k' :
  od_get (od_set d k v) k' = if decide (k = k') then Some v else od_get d k'.
Proof.
  induction d as [|[k0 v0] d IH]; simpl.
  - repeat case_decide; congruence.
  - repeat (case_decide; simpl); try congruence.
Qed.

Lemma od_get_is_Some {V} (d : list (string * V)) k :
  is_Some (od_get d k) <-> k ∈ od_keys d.
Proof.
  induction d as [|[k0 v0] d IH]; simpl.
  - split; [by intros [? ?]|by intros ?%elem_of_nil].
  - rewrite elem_of_cons. case_decide; simpl.
    + split; [auto|eauto].
    + rewrite IH. split; [auto|]. by intros [?|?].
Qed.

Lemma od_keys_od_set {V} (d : list (string * V)) k v :
  od_keys (od_set d k v) = if decide (k ∈ od_keys d) then od_keys d else od_keys d ++ [k].
Proof.
  induction d as [|[k0 v0] d IH]; simpl.
  - destruct (decide (k ∈ [])) as [[]%elem_of_nil|]; done.
  - unfold od_keys in *. destruct (decide (k0 = k)) as [->|Hne]; simpl.
    + by rewrite decide_True by apply list_elem_of_here.
    + rewrite IH. destruct (decide (k ∈ map fst d)).
      * by rewrite decide_True by by apply list_elem_of_further.
      * rewrite decide_False; [done|]. rewrite elem_of_cons. by intros [?|?].
Qed.

Lemma od_get_od_update {V} (d : list (string * V)) k f k' :
  od_get (od_update d k f) k' = if decide (k = k') then f <$> od_get d k' else od_get d k'.
Proof.
  unfold od_update. induction d as [|[k0 v0] d IH]; simpl.
  - by case_decide.
  - destruct (String.eqb k0 k) eqn:Hk; simpl.
    + apply String.eqb_eq in Hk. subst. repeat (case_decide; simpl); congruence.
    + apply String.eqb_neq in Hk. repeat (case_decide; simpl); congruence.
Qed.

Lemma written_refl {V} (B : list (string * V)) : written B [] B.
Proof. split; [by rewrite filter_nil, app_nil_r|done]. Qed.

Lemma written_od_set {V} (B : list (string * V)) W b k v :
  written B W b -> (k ∈ W -> k ∈ od_keys b) ->
  written B (if decide (k ∈ W) then W else W ++ [k]) (od_set b k v).
Proof.
  intros [Hkeys Hget] Hin. split.
  - rewrite od_keys_od_set. destruct (decide (k ∈ W)) as [HW|HW].
    + by rewrite decide_True by auto.
    + rewrite filter_app. destruct (decide (k ∈ od_keys B)) as [HB|HB].
      * rewrite decide_True by (rewrite Hkeys, elem_of_app; auto).
        rewrite filter_cons_False, filter_nil, app_nil_r by auto. done.
      * rewrite decide_False.
        { rewrite filter_cons_True, filter_nil by done. by rewrite Hkeys, <- app_assoc. }
        rewrite Hkeys, elem_of_app, list_elem_of_filter. by intros [?|[_ ?]].
  - intros k' Hk'. rewrite od_get_od_set.
    destruct (decide (k ∈ W)) as [HW|HW].
    + rewrite decide_False by congruence. auto.
    + rewrite elem_of_app, list_elem_of_singleton in Hk'.
      rewrite decide_False by (intros ->; apply Hk'; by right).
      apply Hget. intros ?. apply Hk'. by left.
Qed.

Lemma written_od_update {V} (B : list (string * V)) W b k f :
  written B W b -> k ∈ W -> written B W (od_update b k f).
Proof.
  intros [Hkeys Hget] HW. split.
  - by rewrite od_keys_od_update.
  - intros k' Hk'. rewrite od_get_od_update, decide_False by congruence. auto.
Qed.

(** The goal [load_rel] by its parts. *)
Ltac load_rel_split :=
  split; [try done|split; [unfold prov_rel; split_and!; simpl; try done|simpl; try done]].

Section two_loads.
Context (H1 H2 : list MatchProto) (B1 B2 : list (string * Bracket)) (L : string).
Context (K : ProviderKind) (E : bool).
Implicit Types (TR : list (string * Team) -> list (string * Team) -> Prop).
Implicit Types (RR : list (string * Roster) -> list (string * Roster) -> Prop).

Local Abbreviation lrel := (loc_rel H1 H2).
Local Abbreviation brel := (bracket_rel H1 H2).
Local Abbreviation bsrel := (brackets_rel H1 H2 B1 B2).
Local Abbreviation inv := (load_rel H1 H2 B1 B2 L K E).

Lemma brackets_rel_init : bsrel [] B1 B2.
Proof.
  exists []. split_and!; [by intros k ?%elem_of_nil|constructor|apply written_refl..|].
  by intros k ?%elem_of_nil.
Qed.

Lemma brackets_rel_weaken ks ks' b1 b2 :
  (forall k, k ∈ ks' -> k ∈ ks) -> bsrel ks b1 b2 -> bsrel ks' b1 b2.
Proof. intros Hks (W & HW & ?). exists W. split; [auto|done]. Qed.

Lemma brackets_rel_get ks b1 b2 k :
  bsrel ks b1 b2 -> k ∈ ks ->
  exists x1 x2, od_get b1 k = Some x1 /\ od_get b2 k = Some x2 /\ brel x1 x2.
Proof. intros (W & HW & _ & _ & _ & Hf) Hk. auto. Qed.

Lemma brackets_rel_set ks b1 b2 k x1 x2 :
  bsrel ks b1 b2 -> brel x1 x2 -> bsrel (k :: ks) (od_set b1 k x1) (od_set b2 k x2).
Proof.
  intros (W & HW & Hnd & Hw1 & Hw2 & Hf) Hx.
  exists (if decide (k ∈ W) then W else W ++ [k]). split_and!.
  - intros k' [->|Hk']%elem_of_cons.
    + case_decide; [done|]. rewrite elem_of_app, list_elem_of_singleton. by right.
    + case_decide; [auto|]. rewrite elem_of_app. left. auto.
  - case_decide; [done|]. apply NoDup_app. split_and!; [done| |apply NoDup_singleton].
    intros k' ? ->%list_elem_of_singleton. done.
  - apply written_od_set; [done|]. intros Hk.
    destruct (Hf k Hk) as (y1 & _ & Hy & _). apply od_get_is_Some. by rewrite Hy.
  - apply written_od_set; [done|]. intros Hk.
    destruct (Hf k Hk) as (_ & y2 & _ & Hy & _). apply od_get_is_Some. by rewrite Hy.
  - intros k' Hk'. rewrite !od_get_od_set. destruct (decide (k = k')) as [->|Hne]; [eauto|].
    apply Hf. case_decide; [done|].
    rewrite elem_of_app, list_elem_of_singleton in Hk'. by destruct Hk'.
Qed.

Lemma brackets_rel_update ks b1 b2 k f1 f2 :
  bsrel ks b1 b2 -> k ∈ ks ->
  (forall x1 x2, brel x1 x2 -> brel (f1 x1) (f2 x2)) ->
  bsrel ks (od_update b1 k f1) (od_update b2 k f2).
Proof.
  intros (W & HW & Hnd & Hw1 & Hw2 & Hf) Hk Hx.
  exists W. split_and!; [done|done|by apply written_od_update; auto..|].
  intros k' Hk'. rewrite !od_get_od_update.
  destruct (Hf k' Hk') as (y1 & y2 & -> & -> & Hy).
  case_decide; simpl; eauto 6.
Qed.

(** *** The store *)

Lemma rel_alloc_match TR RR ks m :
  rel (inv TR RR ks) (inv TR RR ks) lrel (alloc_match m) (alloc_match m).
Proof.
  intros s1 s2 ((N & Hh1 & Hh2) & Hp & Hb) t1 a1 [= <- <-].
  eexists _, _. split; [done|]. split.
  - split_and!; simpl; [|done..]. exists (N ++ [m]). by rewrite Hh1, Hh2, !app_assoc.
  - exists (length N). rewrite Hh1, Hh2, !length_app. done.
Qed.

Lemma rel_update_match TR RR ks l1 l2 f :
  lrel l1 l2 -> rel (inv TR RR ks) (inv TR RR ks) any (update_match l1 f) (update_match l2 f).
Proof.
  intros (i & -> & ->) s1 s2 ((N & Hh1 & Hh2) & Hp & Hb) t1 a1 [= <- <-].
  eexists _, _. split; [done|]. split; [|done].
  split_and!; simpl; [|done..]. exists (alter f i N).
  by rewrite Hh1, Hh2, !alter_app_r.
Qed.

Lemma rel_read_match TR RR ks l1 l2 :
  lrel l1 l2 -> rel (inv TR RR ks) (inv TR RR ks) eq (read_match l1) (read_match l2).
Proof.
  intros (i & -> & ->) s1 s2 Hs t1 a1. pose proof Hs as ((N & Hh1 & Hh2) & _).
  unfold read_match. rewrite Hh1, Hh2, !lookup_app_r, !Nat.add_sub' by lia.
  destruct (N !! i); intros [= <- <-]. eauto 6.
Qed.

(** *** The provider object *)

Lemma rel_get_self TR RR ks :
  rel (inv TR RR ks) (inv TR RR ks) (prov_rel H1 H2 L K E TR RR) get_self get_self.
Proof. apply rel_gets. by intros s1 s2 (_ & ? & _). Qed.

Lemma rel_get_bracket TR RR ks k :
  k ∈ ks -> rel (inv TR RR ks) (inv TR RR ks) brel (get_bracket k) (get_bracket k).
Proof.
  intros Hk s1 s2 Hs t1 a1. pose proof Hs as (_ & _ & Hb).
  destruct (brackets_rel_get _ _ _ _ Hb Hk) as (x1 & x2 & Hx1 & Hx2 & Hx).
  unfold get_bracket, get_self, gets, mbind, M_bind. rewrite Hx1, Hx2.
  intros [= <- <-]. eauto 6.
Qed.

Lemma rel_update_bracket TR RR ks k f1 f2 :
  k ∈ ks -> (forall x1 x2, brel x1 x2 -> brel (f1 x1) (f2 x2)) ->
  rel (inv TR RR ks) (inv TR RR ks) any (update_bracket k f1) (update_bracket k f2).
Proof.
  intros Hk Hf. apply rel_modify. intros s1 s2 (Hh & Hp & Hb).
  split_and!; simpl; [done..|]. by apply brackets_rel_update.
Qed.

Lemma rel_set_bracket TR RR ks k x :
  schedule x = [] ->
  rel (inv TR RR ks) (inv TR RR (k :: ks)) any
    (modify (with_self (fun p => set_brackets (od_set (_brackets p) k x) p)))
    (modify (with_self (fun p => set_brackets (od_set (_brackets p) k x) p))).
Proof.
  intros Hx. apply rel_modify. intros s1 s2 (Hh & Hp & Hb).
  split_and!; simpl; [done..|]. apply brackets_rel_set; [done|].
  split_and!; try done. rewrite Hx. constructor.
Qed.

Lemma rel_set_team TR RR ks k t :
  (forall d1 d2, TR d1 d2 -> TR (od_set d1 k t) (od_set d2 k t)) ->
  team_league_id t = L ->
  rel (inv TR RR ks) (inv TR RR ks) any
    (modify (with_self (fun p => set_teams (od_set (_teams p) k t) p)))
    (modify (with_self (fun p => set_teams (od_set (_teams p) k t) p))).
Proof.
  intros HTR Ht. apply rel_modify.
  intros s1 s2 (Hh & (Hk & Hst & Hl & Hts & Htl & Hr & Hm & HK & HE) & Hb).
  load_rel_split; [by apply HTR|].
  unfold teams_of_league in *. rewrite Forall_forall in *.
  intros [k' t'] [?|?]%elem_of_od_set; [by simplify_eq|auto].
Qed.

Lemma rel_update_team TR RR ks k f1 f2 :
  (forall d1 d2, TR d1 d2 -> TR (od_update d1 k f1) (od_update d2 k f2)) ->
  (forall t, team_league_id (f1 t) = team_league_id t) ->
  rel (inv TR RR ks) (inv TR RR ks) any (update_team k f1) (update_team k f2).
Proof.
  intros HTR Hf. apply rel_modify.
  intros s1 s2 (Hh & (Hk & Hst & Hl & Hts & Htl & Hr & Hm & HK & HE) & Hb).
  load_rel_split; [by apply HTR|].
  unfold teams_of_league in *. rewrite Forall_forall in *.
  intros [k' t'] [[? ?]|(? & t0 & ? & ->)]%elem_of_od_update; simpl; [by apply (Htl (k', t'))|].
  rewrite Hf. by apply (Htl (k', t0)).
Qed.

Lemma rel_set_roster TR ks k r :
  rel (inv TR eq ks) (inv TR eq ks) any
    (modify (with_self (fun p => set_rosters (od_set (_rosters p) k r) p)))
    (modify (with_self (fun p => set_rosters (od_set (_rosters p) k r) p))).
Proof.
  apply rel_modify. intros s1 s2 (Hh & (Hk & Hst & Hl & Hts & Htl & Hr & Hm & HK & HE) & Hb).
  load_rel_split. by rewrite Hr.
Qed.

Lemma matches_rel_set d1 d2 k l1 l2 :
  matches_rel H1 H2 d1 d2 -> lrel l1 l2 ->
  matches_rel H1 H2 (od_set d1 k l1) (od_set d2 k l2).
Proof.
  intros Hd Hl. induction Hd as [|[k1 x1] [k2 x2] d1 d2 [Hk Hx] Hd IH]; simpl in *.
  - by constructor.
  - subst. case_decide; constructor; auto.
Qed.

Lemma rel_set_match TR RR ks k l1 l2 :
  lrel l1 l2 ->
  rel (inv TR RR ks) (inv TR RR ks) any
    (modify (with_self (fun p => set_matches (od_set (_matches p) k l1) p)))
    (modify (with_self (fun p => set_matches (od_set (_matches p) k l2) p))).
Proof.
  intros Hl. apply rel_modify.
  intros s1 s2 (Hh & (Hk & Hst & Hlg & Hts & Htl & Hr & Hm & HK & HE) & Hb).
  load_rel_split. by apply matches_rel_set.
Qed.

Lemma rel_random_choice TR RR ks env {A} (x : A) l :
  rel (inv TR RR ks) (inv TR RR ks) any (random_choice env (x :: l)) (random_choice env (x :: l)).
Proof.
  intros s1 s2 (Hh & Hp & Hb) t1 a1. unfold random_choice.
  destruct (_ !! _) as [a|] eqn:Ha; intros [= <- <-].
  destruct (lookup_lt_is_Some_2 (x :: l)
              (random_tape env (rng_pos s2) mod length (x :: l))%nat) as [a2 Ha2].
  { apply Nat.mod_upper_bound. simpl. lia. }
  rewrite Ha2. eexists _, _. split; [done|]. split; [|done]. by split.
Qed.

Lemma rel_add_team RR ks k a b :
  rel (inv eq RR ks) (inv eq RR ks) any
    (modify (with_self (fun p =>
       set_teams (od_set (_teams p) k (mkTeam a b (league_id p) [])) p)))
    (modify (with_self (fun p =>
       set_teams (od_set (_teams p) k (mkTeam a b (league_id p) [])) p))).
Proof.
  apply rel_modify.
  intros s1 s2 (Hh & (Hk & Hst & Hl & Hts & Htl & Hr & Hm & HK & HE) & Hb).
  assert (league_id (self s2) = L) as Hl2 by (unfold league_id in *; by rewrite <- Hk).
  load_rel_split.
  - by rewrite Hts, Hl, Hl2.
  - unfold teams_of_league in *. rewrite Forall_forall in *.
    intros [k' t'] [?|?]%elem_of_od_set; [by simplify_eq|by apply (Htl (k', t'))].
Qed.

(** What the code reads off the provider object is the same in the two
    loads. *)
Lemma prov_rel_reads RR p1 p2 :
  prov_rel H1 H2 L K E eq RR p1 p2 ->
  league_id p1 = league_id p2 /\ _realm p1 = _realm p2 /\ division p1 = division p2 /\
  _league p1 = _league p2 /\ _MakeBracketId p1 = _MakeBracketId p2 /\
  _teams p1 = _teams p2 /\ Grumble_bracket_url p1 = Grumble_bracket_url p2.
Proof.
  intros (Hk & _ & _ & Ht & _).
  unfold Grumble_bracket_url, _MakeBracketId, league_id, _realm, division, _league.
  rewrite Hk. done.
Qed.

Lemma prov_rel_rosters TR p1 p2 :
  prov_rel H1 H2 L K E TR eq p1 p2 -> _rosters p1 = _rosters p2.
Proof. by intros (_ & _ & _ & _ & _ & Hr & _). Qed.

Lemma bracket_rel_add_schedule l1 l2 b1 b2 :
  lrel l1 l2 -> brel b1 b2 -> brel (add_schedule l1 b1) (add_schedule l2 b2).
Proof.
  intros Hl (?&?&?&?&?&Hs). split_and!; simpl; try done.
  apply Forall2_app; [done|]. by constructor.
Qed.

Lemma bracket_rel_extend_standings sts b1 b2 :
  brel b1 b2 -> brel (extend_standings sts b1) (extend_standings sts b2).
Proof. intros (?&?&?&?&Hst&Hs). split_and!; simpl; try done. by rewrite Hst. Qed.

Lemma load_rel_weaken TR RR ks ks' s1 s2 :
  (forall k, k ∈ ks' -> k ∈ ks) -> inv TR RR ks s1 s2 -> inv TR RR ks' s1 s2.
Proof. intros Hks (? & ? & ?). split_and!; eauto using brackets_rel_weaken. Qed.

Lemma rel_set_bracket_of TR RR ks k (g : Provider -> Bracket) :
  (forall p1 p2, kind p1 = kind p2 -> g p1 = g p2) ->
  (forall p, schedule (g p) = []) ->
  rel (inv TR RR ks) (inv TR RR (k :: ks)) any
    (modify (with_self (fun p => set_brackets (od_set (_brackets p) k (g p)) p)))
    (modify (with_self (fun p => set_brackets (od_set (_brackets p) k (g p)) p))).
Proof.
  intros Hg Hs. apply rel_modify. intros s1 s2 (Hh & Hp & Hb).
  split_and!; simpl; [done..|]. rewrite (Hg (self s1) (self s2)) by apply Hp.
  apply brackets_rel_set; [done|].
  split_and!; try done. rewrite Hs. constructor.
Qed.

End two_loads.

Lemma rel_Grumble_reset H1 H2 B1 B2 L K E :
  rel (load_pre H1 H2 B1 B2 L K E) (load_rel H1 H2 [] [] L K E eq any []) any
    (modify (with_self (fun p => set_matches [] (set_brackets [] (set_teams [] p)))))
    (modify (with_self (fun p => set_matches [] (set_brackets [] (set_teams [] p))))).
Proof.
  apply rel_modify. intros s1 s2 (Hh & Hk & Hst & Hl & _ & _ & HK & HE).
  load_rel_split.
  - constructor.
  - constructor.
  - apply brackets_rel_init.
Qed.

Lemma rel_Rito_reset H1 H2 B1 B2 L K E :
  rel (load_pre H1 H2 B1 B2 L K E) (load_rel H1 H2 B1 B2 L K E eq eq []) any
    (modify (with_self (fun p => set_rosters [] (set_matches [] (set_teams [] p)))))
    (modify (with_self (fun p => set_rosters [] (set_matches [] (set_teams [] p))))).
Proof.
  apply rel_modify. intros s1 s2 (Hh & Hk & Hst & Hl & <- & <- & HK & HE).
  load_rel_split.
  - constructor.
  - constructor.
  - apply brackets_rel_init.
Qed.

Create HintDb rel.

(** What a step of the two runs returned, put to use: equal results are
    identified, and what the code reads off the provider object or off a
    bracket is rewritten to the second run's. *)
Ltac rel_post H :=
  cbv beta;
  lazymatch type of H with
  | @eq _ _ _ => subst
  | any _ _ => clear H
  | prov_rel _ _ _ _ _ eq _ _ _ =>
      let E1 := fresh in let E2 := fresh in let E3 := fresh in let E4 := fresh in
      let E5 := fresh in let E6 := fresh in let E8 := fresh in
      destruct (prov_rel_reads _ _ _ _ _ _ _ _ H) as (E1 & E2 & E3 & E4 & E5 & E6 & E8);
      rewrite ?E8, ?E1, ?E2, ?E3, ?E4, ?E5, ?E6;
      clear E1 E2 E3 E4 E5 E6 E8;
      try (let E7 := fresh in
           pose proof (prov_rel_rosters _ _ _ _ _ _ _ _ H) as E7; rewrite ?E7; clear E7)
  | bracket_rel _ _ _ _ =>
      let E1 := fresh in let E2 := fresh in
      pose proof H as (E1 & _ & _ & _ & E2 & _);
      rewrite ?E1, ?E2; clear E1 E2
  | _ => idtac
  end.

(** The two runs of the same code, step by step, as far as the rules and
    the hints go. *)
Ltac rel_go :=
  cbv beta;
  lazymatch goal with
  | |- rel _ _ _ (mbind _ _) (mbind _ _) =>
      first [ eapply rel_bind;
              [ solve [rel_go]
              | let H := fresh "Hv" in intros ? ? H; rel_post H; rel_go ]
            | idtac ]
  | |- rel _ _ _ (ret _) (ret _) =>
      first [ apply (rel_ret _ eq); reflexivity | apply rel_ret; done | idtac ]
  | |- rel _ _ _ pass pass => apply rel_pass
  | |- rel _ _ _ (raise _) _ => apply rel_raise
  | |- rel _ _ _ (lift (Raise _)) _ => apply rel_lift_raise
  | |- rel _ _ _ (lift ?r) (lift ?r) => apply rel_lift
  | |- rel _ _ _ (if ?b then _ else _) (if ?b then _ else _) => destruct b eqn:?; rel_go
  | |- rel _ _ _ (match ?x with _ => _ end) (match ?x with _ => _ end) =>
      destruct x eqn:?; rel_go
  | |- rel _ _ _ (for_ ?l _) (for_ ?l _) => apply rel_for_; intros ?; rel_go
  | |- rel _ _ _ (fold_ ?l _ ?a) (fold_ ?l _ ?a) => apply rel_fold_; intros ? ?; rel_go
  | |- rel _ _ _ (mmap _ ?l) (mmap _ ?l) => apply rel_mmap; intros ?; rel_go
  | |- rel _ _ _ get_self get_self => apply rel_get_self
  | |- rel _ _ _ (alloc_match ?m) (alloc_match ?m) => apply rel_alloc_match
  | |- rel _ _ _ (update_match _ ?f) (update_match _ ?f) =>
      apply rel_update_match; assumption
  | |- rel _ _ _ (read_match _) (read_match _) => apply rel_read_match; assumption
  | |- rel _ _ _ (get_bracket ?k) (get_bracket ?k) => apply rel_get_bracket; assumption
  | |- rel _ _ _ (update_bracket ?k _) (update_bracket ?k _) =>
      apply rel_update_bracket;
      [ assumption
      | intros ? ? ?; first [ by apply bracket_rel_add_schedule
                            | by apply bracket_rel_extend_standings ] ]
  | |- rel _ _ _ (random_choice _ _) (random_choice _ _) => apply rel_random_choice
  | |- rel _ _ _ (update_team ?k ?f) (update_team ?k ?f) =>
      apply rel_update_team; [by intros ? ? ->|done]
  | |- rel _ _ _ (modify _) (modify _) =>
      first [ apply rel_add_team
            | apply rel_set_roster
            | apply rel_set_match; assumption
            | apply rel_set_bracket; done
            | idtac ]
  | |- _ => try solve [eauto with rel]
  end.

Section two_loads.
Context (H1 H2 : list MatchProto) (B1 B2 : list (string * Bracket)) (L : string).
Context (K : ProviderKind) (E : bool).
Implicit Types (RR : list (string * Roster) -> list (string * Roster) -> Prop).

Local Abbreviation lrel := (loc_rel H1 H2).
Local Abbreviation brel := (bracket_rel H1 H2).
Local Abbreviation inv := (load_rel H1 H2 B1 B2 L K E).

(** *** GrumbleProvider *)

Lemma rel__ParseSchedule_team RR ks m1 m2 standings team :
  lrel m1 m2 ->
  rel (inv eq RR ks) (inv eq RR ks) eq
    (_ParseSchedule_team m1 standings team) (_ParseSchedule_team m2 standings team).
Proof. intros Hm. unfold _ParseSchedule_team. rel_go. Qed.
#[local] Hint Resolve rel__ParseSchedule_team : rel.

Lemma rel__ParseSchedule_match RR ks bkey acc match_ :
  bkey ∈ ks ->
  rel (inv eq RR ks) (inv eq RR ks) eq
    (_ParseSchedule_match bkey acc match_) (_ParseSchedule_match bkey acc match_).
Proof. intros Hk. unfold _ParseSchedule_match. rel_go. Qed.
#[local] Hint Resolve rel__ParseSchedule_match : rel.

Lemma rel__ParseSchedule RR ks schedule bkey :
  bkey ∈ ks ->
  rel (inv eq RR ks) (inv eq RR ks) any
    (_ParseSchedule schedule bkey) (_ParseSchedule schedule bkey).
Proof. intros Hk. unfold _ParseSchedule. rel_go. Qed.

End two_loads.

#[local] Hint Resolve rel__ParseSchedule : rel.

Lemma same_but_positions_refl d : same_but_positions d d.
Proof. done. Qed.

Lemma without_positions_add_player t1 t2 sn tid pos1 pos2 sub :
  without_positions t1 = without_positions t2 ->
  without_positions (add_player (mkPlayer sn tid pos1 sub) t1)
  = without_positions (add_player (mkPlayer sn tid pos2 sub) t2).
Proof.
  destruct t1, t2. unfold without_positions, add_player. simpl.
  intros [= -> -> -> Hp]. by rewrite !fmap_app, Hp.
Qed.

Lemma same_but_positions_add_player d1 d2 k sn tid pos1 pos2 sub :
  same_but_positions d1 d2 ->
  same_but_positions (od_update d1 k (add_player (mkPlayer sn tid pos1 sub)))
    (od_update d2 k (add_player (mkPlayer sn tid pos2 sub))).
Proof.
  unfold same_but_positions, vmap, od_update. revert d2.
  induction d1 as [|[k1 t1] d1 IH]; intros [|[k2 t2] d2]; simpl; try done.
  intros Heq.
  assert (k1 = k2) as -> by (by apply (f_equal (fun l => (fst <$> head l))) in Heq as [= ->]).
  assert (without_positions t1 = without_positions t2) as Ht.
  { apply (f_equal (fun l => (snd <$> head l))) in Heq. simpl in Heq. congruence. }
  apply (f_equal tail) in Heq. simpl in Heq. f_equal; [|by apply IH].
  destruct (String.eqb k2 k); simpl; [|by rewrite Ht].
  f_equal. by apply without_positions_add_player.
Qed.

Lemma Grumble_bracket_of_kind (nm title : string) (po : bool) p1 p2 :
  kind p1 = kind p2 ->
  mkBracket (_MakeBracketId p1 nm) title (league_id p1) po [] []
  = mkBracket (_MakeBracketId p2 nm) title (league_id p2) po [] [].
Proof. intros Hk. unfold _MakeBracketId, league_id. by rewrite Hk. Qed.

Lemma rel_Grumble_LoadData env H1 H2 B1 B2 L K E :
  rel (load_pre H1 H2 B1 B2 L K E) (load_rel H1 H2 [] [] L K E same_but_positions any [])
    any
    (Grumble_LoadData env) (Grumble_LoadData env).
Proof.
  unfold Grumble_LoadData.
  eapply rel_bind; [apply rel_Grumble_reset|]. intros _ _ _.
  eapply rel_bind; [apply rel_get_self|]. intros p1 p2 Hp. rel_post Hp.
  eapply rel_bind;
    [apply rel_set_bracket_of; [apply Grumble_bracket_of_kind|done]|]. intros _ _ _.
  eapply rel_bind; [apply rel_lift|]. intros schedule ? <-.
  eapply rel_bind; [apply rel__ParseSchedule; apply list_elem_of_here|]. intros _ _ _.
  eapply rel_bind;
    [apply rel_set_bracket_of; [apply Grumble_bracket_of_kind|done]|]. intros _ _ _.
  eapply rel_bind; [apply rel_lift|]. intros schedule' ? <-.
  eapply rel_bind; [apply rel__ParseSchedule; apply list_elem_of_here|]. intros _ _ _.
  eapply rel_bind; [apply rel_get_self|]. intros q1 q2 Hq. rel_post Hq.
  eapply rel_mono with (I := load_rel H1 H2 [] [] L K E same_but_positions any [])
                       (I' := load_rel H1 H2 [] [] L K E same_but_positions any []) (V := any);
    [|..|done].
  - apply rel_for_. intros [team_id t]. rel_go.
    apply rel_update_team; [|done].
    intros d1 d2 Hd. by apply same_but_positions_add_player.
  - intros s1 s2 (Hh & (?&?&?&Ht&?&?&?&?&?) & Hb). load_rel_split.
    + simpl in Ht. rewrite Ht. apply same_but_positions_refl.
    + eapply brackets_rel_weaken; [|done]. by intros k ?%elem_of_nil.
  - done.
Qed.

Section two_loads.
Context (H1 H2 : list MatchProto) (B1 B2 : list (string * Bracket)) (L : string).
Context (K : ProviderKind) (E : bool).

Local Abbreviation lrel := (loc_rel H1 H2).
Local Abbreviation brel := (bracket_rel H1 H2).
Local Abbreviation inv := (load_rel H1 H2 B1 B2 L K E eq eq).

(** *** RitoProvider *)

Lemma rel_get_roster ks x : rel (inv ks) (inv ks) eq (get_roster x) (get_roster x).
Proof.
  unfold get_roster. eapply rel_bind; [apply rel_get_self|]. intros p1 p2 Hp.
  pose proof Hp as (_ & _ & _ & Ht & _ & Hr & _). apply rel_lift2.
  intros t. rewrite Hr. destruct (od_getitem_json _ _) as [[]|]; simpl; [| |done].
  - unfold roster_team. rewrite Ht. eauto.
  - eauto.
Qed.
#[local] Hint Resolve rel_get_roster : rel.

Lemma rel__FindTeam ks team : rel (inv ks) (inv ks) eq (_FindTeam team) (_FindTeam team).
Proof. unfold _FindTeam. rel_go. Qed.
#[local] Hint Resolve rel__FindTeam : rel.

Lemma rel__ExtractMatchTeams ks match_ :
  rel (inv ks) (inv ks) eq (_ExtractMatchTeams match_) (_ExtractMatchTeams match_).
Proof. unfold _ExtractMatchTeams. rel_go. Qed.
#[local] Hint Resolve rel__ExtractMatchTeams : rel.

Lemma rel_top_group_winner ks match_ l1 l2 :
  lrel l1 l2 ->
  rel (inv ks) (inv ks) any (top_group_winner match_ l1) (top_group_winner match_ l2).
Proof. intros Hl. unfold top_group_winner. rel_go. Qed.
#[local] Hint Resolve rel_top_group_winner : rel.

Lemma rel__ExtractStandings ks record rank :
  rel (inv ks) (inv ks) eq (_ExtractStandings record rank) (_ExtractStandings record rank).
Proof. unfold _ExtractStandings. rel_go. Qed.
#[local] Hint Resolve rel__ExtractStandings : rel.

Lemma rel_Rito_LoadData_roster ks env league_data tournament kv :
  rel (inv ks) (inv ks) any
    (Rito_LoadData_roster env league_data tournament kv)
    (Rito_LoadData_roster env league_data tournament kv).
Proof. unfold Rito_LoadData_roster. rel_go. Qed.
#[local] Hint Resolve rel_Rito_LoadData_roster : rel.

Lemma rel_Rito_LoadData_standings ks league_data tournament bracket bid :
  bid ∈ ks ->
  rel (inv ks) (inv ks) any
    (Rito_LoadData_standings league_data tournament bracket bid)
    (Rito_LoadData_standings league_data tournament bracket bid).
Proof. intros Hk. unfold Rito_LoadData_standings. rel_go. Qed.
#[local] Hint Resolve rel_Rito_LoadData_standings : rel.

Lemma rel_Rito_LoadData_hash ks l1 l2 game_id_mappings i :
  lrel l1 l2 ->
  rel (inv ks) (inv ks) any
    (Rito_LoadData_hash l1 game_id_mappings i) (Rito_LoadData_hash l2 game_id_mappings i).
Proof. intros Hl. unfold Rito_LoadData_hash. rel_go. Qed.
#[local] Hint Resolve rel_Rito_LoadData_hash : rel.

Lemma rel_Rito_LoadData_match ks env tournament bid match_ :
  bid ∈ ks ->
  rel (inv ks) (inv ks) any
    (Rito_LoadData_match env tournament bid match_)
    (Rito_LoadData_match env tournament bid match_).
Proof. intros Hk. unfold Rito_LoadData_match. rel_go. Qed.
#[local] Hint Resolve rel_Rito_LoadData_match : rel.

Lemma matches_rel_get d1 d2 x o1 :
  matches_rel H1 H2 d1 d2 -> od_get_json d1 x = Ok o1 ->
  exists o2, od_get_json d2 x = Ok o2 /\ option_Forall2 lrel o1 o2.
Proof.
  intros Hd. unfold od_get_json. destruct (py_hash x) as [[]|]; simpl; try done.
  - intros [= <-]. eexists. split; [done|]. constructor.
  - intros [= <-]. eexists. split; [done|]. constructor.
  - intros [= <-]. eexists. split; [done|].
    induction Hd as [|[k1 l1] [k2 l2] d1 d2 [Hk Hl] Hd IH]; simpl in *; [constructor|].
    subst. case_decide; [by constructor|done].
Qed.

Lemma rel_Rito_LoadData_times ks env league_data :
  rel (inv ks) (inv ks) any
    (Rito_LoadData_times env league_data) (Rito_LoadData_times env league_data).
Proof.
  unfold Rito_LoadData_times. rel_go.
  eapply rel_bind.
  { apply (rel_lift2 _ (option_Forall2 lrel)). intros o1.
    match goal with H : prov_rel _ _ _ _ _ _ _ _ _ |- _ => apply matches_rel_get, H end. }
  intros o1 o2 [l1 l2 Hl|]; rel_go.
Qed.
#[local] Hint Resolve rel_Rito_LoadData_times : rel.

Lemma rel_Rito_LoadData_bracket ks env league_data tournament bracket :
  rel (inv ks) (inv ks) any
    (Rito_LoadData_bracket env league_data tournament bracket)
    (Rito_LoadData_bracket env league_data tournament bracket).
Proof.
  unfold Rito_LoadData_bracket.
  eapply rel_bind; [apply rel_lift|]. intros nm ? <-.
  eapply rel_bind; [apply rel_get_self|]. intros p1 p2 Hp. rel_post Hp.
  eapply rel_bind; [apply rel_lift|]. intros title ? <-.
  eapply rel_bind; [apply rel_lift|]. intros lower ? <-.
  set (bid := _MakeBracketId p2 (py_str nm)).
  assert (bid ∈ bid :: ks) by apply list_elem_of_here.
  eapply rel_mono with (I := inv ks) (I' := inv (bid :: ks)) (V := any); [|done| |done].
  - rel_go.
  - intros s1 s2. apply load_rel_weaken. intros k ?. by apply list_elem_of_further.
Qed.
#[local] Hint Resolve rel_Rito_LoadData_bracket : rel.

Lemma rel_Rito_LoadData env :
  rel (load_pre H1 H2 B1 B2 L K E) (inv []) any (Rito_LoadData env) (Rito_LoadData env).
Proof.
  unfold Rito_LoadData.
  eapply rel_bind; [apply rel_Rito_reset|]. intros _ _ _. rel_go.
Qed.

End two_loads.

Lemma teams_of_league_view L d1 d2 :
  String.prefix "grumble-" L = true ->
  same_but_positions d1 d2 -> teams_of_league L d1 ->
  vmap grumble_team_view d1 = vmap grumble_team_view d2.
Proof.
  unfold same_but_positions, teams_of_league, vmap. intros HL. revert d2.
  induction d1 as [|[k1 t1] d1 IH]; intros [|[k2 t2] d2]; simpl; try done.
  intros Heq Hl. apply Forall_cons in Hl as [Ht1 Hl]. simpl in Ht1.
  assert (k1 = k2) as -> by (by apply (f_equal (fun l => (fst <$> head l))) in Heq as [= ->]).
  assert (without_positions t1 = without_positions t2) as Ht.
  { apply (f_equal (fun l => (snd <$> head l))) in Heq. simpl in Heq. congruence. }
  apply (f_equal tail) in Heq. simpl in Heq. f_equal; [|by apply IH].
  f_equal. unfold grumble_team_view.
  assert (team_league_id t2 = L) as Ht2.
  { apply (f_equal team_league_id) in Ht. simpl in Ht. congruence. }
  by rewrite Ht1, Ht2, HL.
Qed.

Lemma rel_LoadData env H1 H2 p1 p2 :
  kind p1 = kind p2 -> stats_enabled p1 = stats_enabled p2 ->
  rel (fun s1 s2 =>
         (exists N, heap s1 = H1 ++ N /\ heap s2 = H2 ++ N) /\ self s1 = p1 /\ self s2 = p2)
      (fun s1 s2 =>
         (exists N, heap s1 = H1 ++ N /\ heap s2 = H2 ++ N) /\
         loaded_rel H1 H2 p1 p2 (self s1) (self s2))
      any (LoadData env) (LoadData env).
Proof.
  intros Hk Hst. unfold LoadData.
  eapply rel_bind.
  { apply (rel_gets _ (fun q1 q2 => q1 = p1 /\ q2 = p2)). by intros s1 s2 (_ & ? & ?). }
  intros ? ? [-> ->]. rewrite <- Hk.
  destruct (kind p1) as [region league als|d r] eqn:HK.
  - eapply rel_mono;
      [apply (rel_Rito_LoadData H1 H2 (_brackets p1) (_brackets p2) (league_id p1)
                (kind p1) (stats_enabled p1))| | |done].
    + intros s1 s2 (Hh & Hs1 & Hs2). unfold load_pre. rewrite Hs1, Hs2.
      split_and!; try done. congruence.
    + intros s1 s2 (Hh & (?&?&?&Ht&?&?&?&?&?) & Hb). split; [done|].
      split_and!; try congruence.
      unfold kept_brackets. by rewrite <- Hk, HK.
  - eapply rel_mono;
      [apply (rel_Grumble_LoadData env H1 H2 (_brackets p1) (_brackets p2) (league_id p1)
                (kind p1) (stats_enabled p1))| | |done].
    + intros s1 s2 (Hh & Hs1 & Hs2). unfold load_pre. rewrite Hs1, Hs2.
      split_and!; try done. congruence.
    + intros s1 s2 (Hh & (?&?&?&Ht&?&?&?&?&?) & Hb). split; [done|].
      split_and!; try congruence.
      * eapply teams_of_league_view; [|done..]. unfold league_id. rewrite HK.
        by destruct d.
      * unfold kept_brackets. by rewrite <- Hk, HK.
Qed.

Lemma rel_for_seq {S} (I : nat -> S -> S -> Prop) (b1 b2 : nat -> M S unit) a n :
  (forall i, rel (I i) (I (Datatypes.S i)) any (b1 i) (b2 i)) ->
  rel (I a) (I (a + n)%nat) any (for_ (seq a n) b1) (for_ (seq a n) b2).
Proof.
  intros Hb. revert a. induction n as [|n IH]; intros a; simpl.
  - rewrite Nat.add_0_r. by apply rel_ret.
  - eapply rel_bind; [apply Hb|]. intros _ _ _.
    replace (a + Datatypes.S n)%nat with (Datatypes.S a + n)%nat by lia. apply IH.
Qed.

Lemma rel_on_provider env w1 w2 n :
  providers_alike w1 w2 ->
  rel (reload_rel w1 w2 n) (reload_rel w1 w2 (S n)) any
    (on_provider n (LoadData env)) (on_provider n (LoadData env)).
Proof.
  intros Halike v1 v2 ((N & Hh1 & Hh2) & Hl1 & Hl2 & Hp) t1 a1. unfold on_provider.
  destruct (_providers v1 !! n) as [q1|] eqn:Hq1; [|done].
  assert (n < length (_providers w1))%nat as Hn
    by (rewrite <- Hl1; by eapply lookup_lt_Some).
  destruct (lookup_lt_is_Some_2 _ _ Hn) as [p1 Hp1].
  destruct (Forall2_lookup_l _ _ _ _ _ Halike Hp1) as (p2 & Hp2 & Hk & Hst).
  destruct (Hp n p1 p2 Hp1 Hp2) as (q1' & q2 & Hq1' & Hq2 & Hq).
  rewrite decide_False in Hq by lia. destruct Hq as [Hq1e Hq2e].
  assert (q1 = p1) as -> by congruence. subst q2. clear Hq1e Hq1'.
  rewrite Hq2.
  pose proof (rel_LoadData env (w_heap w1) (w_heap w2) p1 p2 Hk Hst
                (mkPState (w_heap v1) (w_rng v1) p1) (mkPState (w_heap v2) (w_rng v2) p2))
    as Hload.
  destruct (LoadData env (mkPState (w_heap v1) (w_rng v1) p1)) as [s1 r1] eqn:Hr1.
  intros [= <- ->].
  destruct (Hload ltac:(simpl; eauto) s1 a1 Hr1) as (s2 & a2 & -> & [Hh Hld] & _).
  eexists _, _. split; [done|]. split; [|done].
  split_and!; simpl; [done|by rewrite length_insert..|].
  intros j x1 x2 Hx1 Hx2. destruct (decide (j = n)) as [->|Hne].
  - simplify_eq. pose proof (lookup_lt_Some _ _ _ Hq1). pose proof (lookup_lt_Some _ _ _ Hq2).
    rewrite !list_lookup_insert_eq by lia.
    eexists _, _. split_and!; [done..|]. by rewrite decide_True by lia.
  - rewrite !list_lookup_insert_ne by done.
    destruct (Hp j x1 x2 Hx1 Hx2) as (y1 & y2 & ? & ? & Hy).
    eexists _, _. split_and!; [done..|].
    destruct (decide (j < n)%nat); [by rewrite decide_True by lia|by rewrite decide_False by lia].
Qed.

(** Reloading the providers of two engines whose providers are of the same
    classes: when the first reload returns, so does the second, and every
    provider is loaded alike. *)
Lemma LoadEsports_providers_twice env w1 w2 v1 :
  providers_alike w1 w2 ->
  LoadEsports_providers env w1 = (v1, Ok tt) ->
  exists v2, LoadEsports_providers env w2 = (v2, Ok tt) /\
             reload_rel w1 w2 (length (_providers w1)) v1 v2.
Proof.
  intros Halike Hrun. unfold LoadEsports_providers, mbind, M_bind, get_state in *.
  pose proof (rel_for_seq (reload_rel w1 w2) _ _ 0 (length (_providers w1))
                (fun i => rel_on_provider env w1 w2 i Halike) w1 w2) as Hfor.
  simpl in Hfor. rewrite <- (Forall2_length _ _ _ Halike).
  assert (reload_rel w1 w2 0 w1 w2) as Hstart.
  { split_and!; [exists []; by rewrite !app_nil_r|done..|].
    intros j p1 p2 Hp1 Hp2. eexists _, _. split_and!; [done..|].
    by rewrite decide_False by lia. }
  destruct (Hfor Hstart v1 tt Hrun) as (v2 & [] & Hv2 & Hrel & _). eauto.
Qed.

(** *** Dictionaries seen through a function *)

Lemma vmap_od_set {V W} (f : V -> W) (d : list (string * V)) k v :
  vmap f (od_set d k v) = od_set (vmap f d) k (f v).
Proof.
  unfold vmap. induction d as [|[k' v'] d IH]; simpl; [done|].
  case_decide; simpl; [done|]. f_equal. apply IH.
Qed.

Lemma vmap_od_set_eq {V1 V2 W} (f1 : V1 -> W) (f2 : V2 -> W)
    (d1 : list (string * V1)) (d2 : list (string * V2)) k v1 v2 :
  vmap f1 d1 = vmap f2 d2 -> f1 v1 = f2 v2 ->
  vmap f1 (od_set d1 k v1) = vmap f2 (od_set d2 k v2).
Proof. intros Hd Hv. by rewrite !vmap_od_set, Hd, Hv. Qed.

Lemma od_keys_vmap {V W} (f : V -> W) (d : list (string * V)) :
  od_keys (vmap f d) = od_keys d.
Proof.
  unfold od_keys, vmap. induction d as [|[k v] d IH]; simpl; [done|]. f_equal. apply IH.
Qed.

Lemma od_values_vmap {V W} (f : V -> W) (d : list (string * V)) :
  od_values (vmap f d) = f <$> od_values d.
Proof.
  unfold od_values, vmap. induction d as [|[k v] d IH]; simpl; [done|]. f_equal. apply IH.
Qed.

Lemma fmap_eq_Forall2 {A1 A2 B} (f1 : A1 -> B) (f2 : A2 -> B) l1 l2 :
  Forall2 (fun x y => f1 x = f2 y) l1 l2 -> f1 <$> l1 = f2 <$> l2.
Proof. induction 1 as [|x y l1 l2 Hxy Hl IH]; simpl; [done|]. f_equal; [done|apply IH]. Qed.

Lemma Forall2_fmap_eq {A1 A2 B} (f1 : A1 -> B) (f2 : A2 -> B) l1 l2 :
  f1 <$> l1 = f2 <$> l2 -> Forall2 (fun x y => f1 x = f2 y) l1 l2.
Proof.
  revert l2. induction l1 as [|x l1 IH]; intros [|y l2]; simpl; try done.
  intros [= Hx Hl]. constructor; auto.
Qed.

(** *** The loops of [LoadEsports] on providers that look the same *)

Lemma rfold_rel {A1 A2 B1 B2} (RX P : A1 -> A2 -> Prop) (RA : B1 -> B2 -> Prop)
    (f1 : B1 -> A1 -> result B1) (f2 : B2 -> A2 -> result B2) l1 l2 acc1 acc2 r1 :
  Forall2 RX l1 l2 -> RA acc1 acc2 ->
  (forall x1 x2 a1 a2 a1', RX x1 x2 -> RA a1 a2 -> f1 a1 x1 = Ok a1' ->
     exists a2', f2 a2 x2 = Ok a2' /\ RA a1' a2' /\ P x1 x2) ->
  rfold l1 f1 acc1 = Ok r1 ->
  exists r2, rfold l2 f2 acc2 = Ok r2 /\ RA r1 r2 /\ Forall2 P l1 l2.
Proof.
  intros Hl Hacc Hf. revert acc1 acc2 Hacc.
  induction Hl as [|x1 x2 l1 l2 Hx Hl IH]; intros acc1 acc2 Hacc; simpl.
  - intros [= <-]. eauto.
  - destruct (f1 acc1 x1) as [a1'|] eqn:H1; simpl; [|done].
    destruct (Hf _ _ _ _ _ Hx Hacc H1) as (a2' & -> & Ha & HP). simpl.
    intros Hr. destruct (IH _ _ Ha Hr) as (r2 & ? & ? & ?). eauto.
Qed.

Section two_stores.
Context (env : Env) (h1 h2 : list MatchProto).

Lemma LoadEsports_match_alike lg1 lg2 ms1 ms2 st l1 l2 ms1' st' :
  league_id lg1 = league_id lg2 -> stats_enabled lg1 = stats_enabled lg2 ->
  reads_same h1 h2 l1 l2 ->
  vmap (match_view h1) ms1 = vmap (match_view h2) ms2 ->
  LoadEsports_match env h1 lg1 (ms1, st) l1 = Ok (ms1', st') ->
  exists ms2', LoadEsports_match env h2 lg2 (ms2, st) l2 = Ok (ms2', st') /\
               vmap (match_view h1) ms1' = vmap (match_view h2) ms2' /\
               h1 !! l1 = h2 !! l2.
Proof.
  intros Hlid Hst Hl Hms. unfold LoadEsports_match, Match_init, deref.
  destruct (h1 !! l1) as [m|] eqn:Hm; simpl; [|done].
  rewrite (Hl m Hm). simpl. rewrite Hm, (Hl m Hm). simpl. rewrite <- Hlid, <- Hst.
  assert (vmap (match_view h1)
            (od_set ms1 (match_id m) (mkMatchW l1 (timestamp m) (timestamp m <? utcnow env)))
          = vmap (match_view h2)
              (od_set ms2 (match_id m) (mkMatchW l2 (timestamp m) (timestamp m <? utcnow env))))
    as Hset.
  { apply vmap_od_set_eq; [done|]. unfold match_view. simpl. by rewrite Hm, (Hl m Hm). }
  destruct (negb (winner m =? "")%string && stats_enabled lg1).
  - destruct (_ScrapePickBanData env (league_id lg1) m st) as [st1|]; simpl; [|done].
    intros [= <- <-]. eauto.
  - intros [= <- <-]. eauto.
Qed.

Lemma LoadEsports_bracket_alike lg1 lg2 a1 a2 b1 b2 a1' :
  league_id lg1 = league_id lg2 -> stats_enabled lg1 = stats_enabled lg2 ->
  bracket_alike h1 h2 b1 b2 -> assembly_alike h1 h2 a1 a2 ->
  LoadEsports_bracket env h1 lg1 a1 b1 = Ok a1' ->
  exists a2', LoadEsports_bracket env h2 lg2 a2 b2 = Ok a2' /\ assembly_alike h1 h2 a1' a2'.
Proof.
  intros Hlid Hst (Hid & Hnm & Hlg & Hpo & Hstd & Hsch) (Hts & Hms & Hbs & Hls & Hstats).
  unfold LoadEsports_bracket.
  destruct (rfold (schedule b1) _ _) as [[ms1' st1']|] eqn:Hfold; simpl; [|done].
  intros [= <-].
  destruct (rfold_rel (reads_same h1 h2) (fun l1 l2 => h1 !! l1 = h2 !! l2)
              (fun x y => vmap (match_view h1) x.1 = vmap (match_view h2) y.1 /\ x.2 = y.2)
              (LoadEsports_match env h1 lg1) (LoadEsports_match env h2 lg2)
              (schedule b1) (schedule b2) (a_matches a1, a_stats a1)
              (a_matches a2, a_stats a2) (ms1', st1'))
    as ([ms2' st2'] & Hfold2 & [Hms' Hst'] & Hread); try done.
  { intros l1 l2 [x1 s1] [x2 s2] [x1' s1'] Hl [Hx Hs] Hrun. simpl in *. subst s2.
    destruct (LoadEsports_match_alike lg1 lg2 x1 x2 s1 l1 l2 x1' s1' Hlid Hst Hl Hx Hrun)
      as (x2' & ? & ? & ?).
    exists (x2', s1'). eauto. }
  rewrite Hfold2. simpl in *. subst st2'. eexists. split; [done|].
  split_and!; simpl; try done.
  rewrite Hid. apply vmap_od_set_eq; [done|].
  unfold bracket_view. rewrite Hid, Hnm, Hlg, Hpo, Hstd. f_equal.
  by apply fmap_eq_Forall2.
Qed.

Lemma foldl_teams_alike (tv : Team -> Team) d1 d2 l1 l2 :
  (forall t, team_id (tv t) = team_id t) ->
  vmap tv d1 = vmap tv d2 -> tv <$> l1 = tv <$> l2 ->
  vmap tv (foldl (fun d t => od_set d (team_id t) t) d1 l1)
  = vmap tv (foldl (fun d t => od_set d (team_id t) t) d2 l2).
Proof.
  intros Htv. revert d1 d2 l2. induction l1 as [|t1 l1 IH]; intros d1 d2 [|t2 l2]; simpl;
    try done.
  intros Hd [= Ht Hl]. apply IH; [|done].
  rewrite <- (Htv t1), <- (Htv t2), Ht. by apply vmap_od_set_eq.
Qed.

Lemma grumble_team_view_id t : team_id (grumble_team_view t) = team_id t.
Proof. unfold grumble_team_view. by destruct (String.prefix _ _). Qed.

Lemma LoadEsports_league_alike a1 a2 i q1 q2 a1' :
  provider_alike h1 h2 q1 q2 -> assembly_alike h1 h2 a1 a2 ->
  LoadEsports_league env h1 a1 (i, q1) = Ok a1' ->
  exists a2', LoadEsports_league env h2 a2 (i, q2) = Ok a2' /\ assembly_alike h1 h2 a1' a2'.
Proof.
  intros (Hk & Hst & Hteams & Hbs) (Hts & Hms & Hbrs & Hls & Hstats).
  assert (league_id q1 = league_id q2) as Hlid by (unfold league_id; by rewrite Hk).
  unfold LoadEsports_league.
  destruct (rfold (brackets q1) _ _) as [b1'|] eqn:Hfold; simpl; [|done].
  intros [= <-].
  destruct (rfold_rel (bracket_alike h1 h2) (fun _ _ => True) (assembly_alike h1 h2)
              (LoadEsports_bracket env h1 q1) (LoadEsports_bracket env h2 q2)
              (brackets q1) (brackets q2)
              (mkAssembly (a_teams a1) (a_matches a1) (a_brackets a1)
                 (od_set (a_leagues a1) (league_id q1) i) (a_stats a1))
              (mkAssembly (a_teams a2) (a_matches a2) (a_brackets a2)
                 (od_set (a_leagues a2) (league_id q2) i) (a_stats a2)) b1' Hbs)
    as (b2' & Hfold2 & (Hts' & Hms' & Hbrs' & Hls' & Hstats') & _); [| |exact Hfold|].
  { split_and!; simpl; try done. by rewrite Hls, Hlid. }
  { intros x1 x2 c1 c2 c1' Hx Hc Hrun.
    destruct (LoadEsports_bracket_alike q1 q2 c1 c2 x1 x2 c1' Hlid Hst Hx Hc Hrun)
      as (c2' & ? & ?). eauto. }
  rewrite Hfold2. simpl. eexists. split; [done|]. split_and!; simpl; try done.
  apply foldl_teams_alike; [apply grumble_team_view_id|done|].
  unfold teams. rewrite <- !od_values_vmap. by rewrite Hteams.
Qed.

Lemma assemble_alike (w1 w2 : World) a1 :
  w_heap w1 = h1 -> w_heap w2 = h2 ->
  Forall2 (provider_alike h1 h2) (_providers w1) (_providers w2) ->
  assemble env w1 = Ok a1 ->
  exists a2, assemble env w2 = Ok a2 /\ assembly_alike h1 h2 a1 a2.
Proof.
  intros Hh1 Hh2 Hps. unfold assemble. rewrite Hh1, Hh2. intros Hrun.
  destruct (rfold_rel (fun x y => x.1 = y.1 /\ provider_alike h1 h2 x.2 y.2)
              (fun _ _ => True) (assembly_alike h1 h2)
              (LoadEsports_league env h1) (LoadEsports_league env h2)
              (imap pair (_providers w1)) (imap pair (_providers w2))
              (mkAssembly [] [] [] [] (mkStats [] [] []))
              (mkAssembly [] [] [] [] (mkStats [] [] [])) a1)
    as (a2 & ? & ? & _); [| | |exact Hrun|eauto].
  - apply Forall2_same_length_lookup. split.
    + rewrite !length_imap. by eapply Forall2_length.
    + intros i [j1 x1] [j2 x2]. rewrite !list_lookup_imap.
      destruct (_providers w1 !! i) as [y1|] eqn:Hy1; simpl; [|done].
      destruct (_providers w2 !! i) as [y2|] eqn:Hy2; simpl; [|done].
      intros [= <- <-] [= <- <-]. split; [done|].
      by eapply Forall2_lookup_lr.
  - done.
  - intros [i x1] [j x2] c1 c2 c1' [Hi Hx] Hc Hrun'. simpl in *. subst j.
    destruct (LoadEsports_league_alike c1 c2 i x1 x2 c1' Hx Hc Hrun') as (c2' & ? & ?).
    eauto.
Qed.

End two_stores.

(** *** From the same loads to the same looks *)

Lemma od_pointwise_Forall2 {V} (R : V -> V -> Prop) (d1 d2 : list (string * V)) :
  od_keys d1 = od_keys d2 -> NoDup (od_keys d1) ->
  (forall k x1 x2, od_get d1 k = Some x1 -> od_get d2 k = Some x2 -> R x1 x2) ->
  Forall2 (fun a b => a.1 = b.1 /\ R a.2 b.2) d1 d2.
Proof.
  revert d2. induction d1 as [|[k1 x1] d1 IH]; intros [|[k2 x2] d2]; simpl; try done.
  intros [= <- Hk] [Hnin Hnd]%NoDup_cons HR. constructor.
  - split; [done|]. apply (HR k1); simpl; by rewrite decide_True.
  - apply IH; [done..|]. intros k y1 y2 Hy1 Hy2.
    assert (k1 <> k) as Hne.
    { intros ->. apply Hnin. apply od_get_is_Some. by rewrite Hy1. }
    apply (HR k); simpl; by rewrite decide_False.
Qed.

Lemma written_keys_NoDup {V} (B : list (string * V)) W b :
  written B W b -> NoDup (od_keys B) -> NoDup W -> NoDup (od_keys b).
Proof.
  intros [-> _] HB HW. apply NoDup_app. split_and!; [done| |by apply NoDup_filter].
  intros k Hk [Hnk _]%list_elem_of_filter. done.
Qed.

Lemma filter_none {A} (P : A -> Prop) `{!forall x, Decision (P x)} (l : list A) :
  (forall x, x ∈ l -> ~ P x) -> filter P l = [].
Proof.
  induction l as [|x l IH]; intros Hl; [done|].
  rewrite filter_cons_False by (apply Hl; left). apply IH. intros y Hy. apply Hl. by right.
Qed.

Lemma filter_all {A} (P : A -> Prop) `{!forall x, Decision (P x)} (l : list A) :
  (forall x, x ∈ l -> P x) -> filter P l = l.
Proof.
  induction l as [|x l IH]; intros Hl; [done|].
  rewrite filter_cons_True by (apply Hl; left). f_equal. apply IH. intros y Hy. apply Hl.
  by right.
Qed.

Lemma bracket_rel_alike H1 H2 N x1 x2 :
  bracket_rel H1 H2 x1 x2 -> bracket_alike (H1 ++ N) (H2 ++ N) x1 x2.
Proof.
  intros (?&?&?&?&?&Hs). split_and!; try done.
  eapply Forall2_impl; [done|]. intros l1 l2 (i & -> & ->) m.
  by rewrite !lookup_app_r, !Nat.add_sub' by lia.
Qed.

Lemma bracket_alike_app h N x : bracket_alike h (h ++ N) x x.
Proof.
  split_and!; try done. apply Forall_Forall2_diag, Forall_forall.
  intros l _ m Hm. by apply lookup_app_l_Some.
Qed.

(** A provider loaded a second time, from where the first load left it,
    looks as it did after the first load. *)
Lemma loaded_alike H1 N p1 q1 q2 :
  loaded_rel H1 (H1 ++ N) p1 q1 q1 q2 -> NoDup (od_keys (_brackets p1)) ->
  provider_alike (H1 ++ N) ((H1 ++ N) ++ N) q1 q2.
Proof.
  intros (Hk1 & Hk2 & Hs1 & Hs2 & Hteams & W & _ & HW & Hw1 & Hw2 & Hf) Hnd.
  split_and!; try congruence.
  assert (NoDup (od_keys (kept_brackets p1))) as Hnd'.
  { unfold kept_brackets. destruct (kind p1); [done|constructor]. }
  assert (forall k, k ∈ W -> k ∈ od_keys (_brackets q1)) as HWin.
  { intros k Hk. destruct (Hf k Hk) as (y1 & _ & Hy & _). apply od_get_is_Some.
    by rewrite Hy. }
  assert (od_keys (_brackets q2) = od_keys (_brackets q1)) as Hkeys.
  { destruct Hw1 as [Hkeys1 _], Hw2 as [Hkeys2 _]. rewrite Hkeys2.
    unfold kept_brackets in *. rewrite Hk1 in Hkeys2 |- *. destruct (kind p1).
    - rewrite filter_none; [by rewrite app_nil_r|]. intros k Hk Hnk. by apply Hnk, HWin.
    - by rewrite Hkeys1. }
  unfold brackets, od_values. apply Forall2_fmap_2.
  eapply Forall2_impl.
  - apply (od_pointwise_Forall2 (bracket_alike (H1 ++ N) ((H1 ++ N) ++ N)));
      [done|by eapply written_keys_NoDup|].
    intros k x1 x2 Hx1 Hx2. destruct (decide (k ∈ W)) as [Hk|Hk].
    + destruct (Hf k Hk) as (y1 & y2 & Hy1 & Hy2 & Hy). simplify_eq.
      by apply bracket_rel_alike.
    + destruct Hw1 as [_ Hg1], Hw2 as [_ Hg2].
      rewrite (Hg1 k Hk) in Hx1. rewrite (Hg2 k Hk) in Hx2.
      unfold kept_brackets in *. rewrite Hk1 in Hx2. destruct (kind p1); [|done].
      rewrite <- (Hg1 k Hk) in Hx1. simplify_eq. apply bracket_alike_app.
  - by intros [] [] [_ ?].
Qed.

(** *** What is published *)

Lemma insert_sorted_fmap {A B} (f : A -> B) (before : A -> A -> bool)
    (before' : B -> B -> bool) x l :
  (forall x y, before x y = before' (f x) (f y)) ->
  f <$> insert_sorted before x l = insert_sorted before' (f x) (f <$> l).
Proof.
  intros Hb. induction l as [|y l IH]; simpl; [done|].
  rewrite <- Hb. destruct (before y x); simpl; [|done]. f_equal. apply IH.
Qed.

Lemma stable_sort_fmap {A B} (f : A -> B) (before : A -> A -> bool)
    (before' : B -> B -> bool) l :
  (forall x y, before x y = before' (f x) (f y)) ->
  f <$> stable_sort before l = stable_sort before' (f <$> l).
Proof.
  intros Hb. unfold stable_sort. induction l as [|x l IH]; simpl; [done|].
  rewrite (insert_sorted_fmap f before before') by done. f_equal. apply IH.
Qed.

(** The timestamp a wrapped match shows. *)
Lemma timestamp_of_view h m :
  timestamp_of h m = match (match_view h m).1.1 with Some p => timestamp p | None => 0 end.
Proof. done. Qed.

Lemma sorted_schedule_view h1 h2 (l1 l2 : list Match) :
  match_view h1 <$> l1 = match_view h2 <$> l2 ->
  match_view h1 <$> sorted (timestamp_of h1) false l1
  = match_view h2 <$> sorted (timestamp_of h2) false l2.
Proof.
  intros Hl. unfold sorted, sorted_with.
  set (key := fun v : option MatchProto * Z * bool =>
                match v.1.1 with Some p => timestamp p | None => 0 end).
  rewrite (stable_sort_fmap (match_view h1) _ (fun y x => key y <? key x)) by done.
  rewrite (stable_sort_fmap (match_view h2) _ (fun y x => key y <? key x)) by done.
  by rewrite Hl.
Qed.

Lemma team_aliases_view (tv : Team -> Team) d acc :
  (forall t, team_name (tv t) = team_name t) ->
  foldl (fun d kv => od_set d (team_name kv.2) kv.1) acc (vmap tv d)
  = foldl (fun (d : list (string * string)) (kv : string * Team) =>
             od_set d (team_name kv.2) kv.1) acc d.
Proof.
  intros Htv. revert acc. induction d as [|[k t] d IH]; intros acc; simpl; [done|].
  rewrite Htv. apply IH.
Qed.

Lemma grumble_team_view_name t : team_name (grumble_team_view t) = team_name t.
Proof. unfold grumble_team_view. by destruct (String.prefix _ _). Qed.

Lemma foldl_pointwise {A B} (f g : A -> B -> A) a l :
  (forall a x, f a x = g a x) -> foldl f a l = foldl g a l.
Proof.
  intros Hfg. revert a. induction l as [|x l IH]; intros a; simpl; [done|].
  by rewrite Hfg, IH.
Qed.

Lemma league_aliases_alike (ps1 ps2 : list Provider) (is_ : list nat) :
  Forall2 (fun p q => kind p = kind q) ps1 ps2 ->
  foldl (fun d i =>
           match ps1 !! i with
           | Some league =>
               foldl (fun d alias => od_set d alias (league_id league)) d (aliases league)
           | None => d
           end)
    (foldl (fun d i =>
              match ps1 !! i with
              | Some league => od_set d (name league) (league_id league)
              | None => d
              end) [] is_) is_
  = foldl (fun d i =>
           match ps2 !! i with
           | Some league =>
               foldl (fun d alias => od_set d alias (league_id league)) d (aliases league)
           | None => d
           end)
    (foldl (fun d i =>
              match ps2 !! i with
              | Some league => od_set d (name league) (league_id league)
              | None => d
              end) [] is_) is_.
Proof.
  intros Hps.
  assert (forall i, option_Forall2 (fun p q => kind p = kind q) (ps1 !! i) (ps2 !! i)) as Hi.
  { intros i. destruct (ps1 !! i) as [p|] eqn:Hp.
    - destruct (Forall2_lookup_l _ _ _ _ _ Hps Hp) as (q & -> & ?). by constructor.
    - rewrite (proj2 (lookup_ge_None ps2 i)); [constructor|].
      rewrite <- (Forall2_length _ _ _ Hps). by apply lookup_ge_None. }
  rewrite (foldl_pointwise _ (fun d i =>
              match ps2 !! i with
              | Some league => od_set d (name league) (league_id league)
              | None => d
              end) [] is_).
  - apply foldl_pointwise. intros d i. destruct (Hi i) as [p q Hk|]; [|done].
    unfold aliases, league_id. by rewrite Hk.
  - intros d i. destruct (Hi i) as [p q Hk|]; [|done].
    unfold name, league_id. by rewrite Hk.
Qed.

Lemma publish_view env (w1 w2 : World) a1 a2 :
  Forall2 (fun p q => kind p = kind q) (_providers w1) (_providers w2) ->
  assembly_alike (w_heap w1) (w_heap w2) a1 a2 ->
  snapshot_view grumble_team_view (set_snapshot (publish env w1 a1) w1)
  = snapshot_view grumble_team_view (set_snapshot (publish env w2 a2) w2).
Proof.
  intros Hps (Hts & Hms & Hbs & Hls & Hst).
  unfold snapshot_view, publish. simpl. rewrite Hls, Hst.
  rewrite (league_aliases_alike _ _ _ Hps). f_equal; try done.
  - unfold NameComplete_new. simpl.
    rewrite <- (team_aliases_view grumble_team_view (a_teams a1)) by apply grumble_team_view_name.
    rewrite <- (team_aliases_view grumble_team_view (a_teams a2)) by apply grumble_team_view_name.
    rewrite <- (od_keys_vmap grumble_team_view (a_teams a1)).
    rewrite <- (od_keys_vmap grumble_team_view (a_teams a2)). by rewrite Hts.
  - apply sorted_schedule_view. by rewrite <- !od_values_vmap, Hms.
Qed.

Lemma snapshot_view_same tv (w w' : World) :
  w_heap w' = w_heap w -> snapshot w' = snapshot w ->
  snapshot_view tv w' = snapshot_view tv w.
Proof. unfold snapshot_view. by intros -> ->. Qed.

(** Reloading keeps the class of every provider and whether it keeps
    statistics. *)
Lemma LoadEsports_providers_alike env w v :
  LoadEsports_providers env w = (v, Ok tt) -> providers_alike w v.
Proof.
  intros Hrun.
  assert (providers_alike w w) as Hrefl.
  { apply Forall_Forall2_diag, Forall_forall. by intros. }
  destruct (LoadEsports_providers_twice env w w v Hrefl Hrun) as (v' & Hrun' & _ & Hl & _ & Hp).
  assert (v' = v) as -> by congruence.
  apply Forall2_same_length_lookup. split; [done|].
  intros j p q Hj Hq. destruct (Hp j p p Hj Hj) as (q1 & q2 & Hq1 & Hq2 & Hrel).
  rewrite decide_True in Hrel by (by eapply lookup_lt_Some).
  destruct Hrel as (Hk & _ & Hs & _). simplify_eq. done.
Qed.

(** Two reloads in a row, with the same upstream responses and the same
    clock: when the first has published, the second publishes too, and
    its snapshot shows the same matches in the same order, the same
    brackets with their standings, the same leagues and statistics, and the
    same teams but for the positions GrumbleProvider draws for its
    players. *)
Theorem reload_twice env w0 wa a w1 r1 w2 r2 :
  brackets_keyed w0 ->
  LoadEsports_providers env w0 = (wa, Ok tt) -> assemble env wa = Ok a ->
  LoadEsports env w0 = (w1, r1) -> LoadEsports env w1 = (w2, r2) ->
  (exists wb b, LoadEsports_providers env w1 = (wb, Ok tt) /\ assemble env wb = Ok b /\
                snapshot w2 = publish env wb b) /\
  snapshot_view grumble_team_view w2 = snapshot_view grumble_team_view w1.
Proof.
  intros Hkeyed Hprov Hasm Hrun1 Hrun2.
  apply LoadEsports_published in Hrun1
    as [(e & _ & [He|He] & _)|(wa' & a' & Hprov' & Hasm' & Hsame1 & _)].
  { by rewrite Hprov in He. }
  { rewrite Hprov in He. simpl in He. congruence. }
  rewrite Hprov in Hprov'. simplify_eq. rewrite Hasm in Hasm'. simplify_eq.
  destruct Hsame1 as (Hheap1 & _ & Hps1 & Hsnap1 & _). simpl in *.
  pose proof (LoadEsports_providers_alike env w0 wa' Hprov) as Halike.
  assert (providers_alike w0 w1) as Halike1.
  { unfold providers_alike. by rewrite Hps1. }
  destruct (LoadEsports_providers_twice env w0 w1 wa' Halike1 Hprov)
    as (wb & Hprov2 & (N & Hh1 & Hh2) & Hl1 & Hl2 & Hp).
  assert (Forall2 (provider_alike (w_heap wa') (w_heap wb)) (_providers wa') (_providers wb))
    as Hlooks.
  { apply Forall2_same_length_lookup. split.
    - rewrite Hl1, Hl2, Hps1. by rewrite Hl1.
    - intros j q1 q2 Hq1 Hq2.
      assert (j < length (_providers w0))%nat as Hj
        by (rewrite <- Hl1; by eapply lookup_lt_Some).
      destruct (lookup_lt_is_Some_2 _ _ Hj) as [p1 Hp1].
      assert (_providers w1 !! j = Some q1) as Hp2 by (by rewrite Hps1).
      destruct (Hp j p1 q1 Hp1 Hp2) as (q1' & q2' & Hq1' & Hq2' & Hrel).
      rewrite decide_True in Hrel by done. simplify_eq.
      rewrite Hh2, Hheap1, Hh1. rewrite Hheap1, Hh1 in Hrel.
      apply (loaded_alike _ _ p1); [done|].
      unfold brackets_keyed in Hkeyed. rewrite Forall_forall in Hkeyed.
      apply Hkeyed. by eapply list_elem_of_lookup_2. }
  destruct (assemble_alike env (w_heap wa') (w_heap wb) wa' wb a' eq_refl eq_refl Hlooks Hasm)
    as (b & Hasm2 & Hab).
  apply LoadEsports_published in Hrun2
    as [(e & _ & [He|He] & _)|(wb' & b' & Hprov2' & Hasm2' & Hsame2 & _)].
  { by rewrite Hprov2 in He. }
  { rewrite Hprov2 in He. simpl in He. congruence. }
  rewrite Hprov2 in Hprov2'. simplify_eq. rewrite Hasm2 in Hasm2'. simplify_eq.
  destruct Hsame2 as (Hheap2 & _ & _ & Hsnap2 & _). simpl in *.
  split; [by eauto|].
  rewrite (snapshot_view_same _ (set_snapshot (publish env wb' b') wb') w2) by done.
  rewrite (snapshot_view_same _ (set_snapshot (publish env wa' a') wa') w1) by done.
  symmetry. apply publish_view; [|done].
  eapply Forall2_impl; [exact Hlooks|]. by intros ?? (? & _).
Qed.

(** ** util_lib *)

Lemma Access_keys_None keys default : Access_keys JNull keys default = Ok JNull.
Proof. induction keys as [|k keys IH]; [done|]. simpl. exact IH. Qed.

(** [Access(None, path, default)] is [None] whatever the default: the loop
    skips every key and returns the object. *)
Theorem Access_of_None path default : Access JNull path default = Ok JNull.
Proof.
  unfold Access. induction (str_split "." path) as [|k keys IH]; [done|].
  simpl. exact IH.
Qed.

(** On any other object, [Access] with a default that is not [None] does
    not return [None]. *)
Theorem Access_never_None obj path default r :
  obj <> JNull -> default <> JNull -> Access obj path default = Ok r -> r <> JNull.
Proof.
  unfold Access. intros Hobj Hd. revert obj Hobj.
  induction (str_split "." path) as [|k keys IH]; intros obj Hobj; simpl.
  - by intros [= <-].
  - assert (forall obj', is_None obj' = false -> obj' <> JNull) as Hnn
      by (by intros []).
    destruct obj as [| | |s|l|d]; try done.
    + destruct (py_int k) as [k'|]; [|done]. simpl. done.
    + destruct (py_int k) as [k'|]; [|done]. simpl. done.
    + destruct (py_int k) as [k'|]; [|done]. simpl.
      destruct (k' <? _); [|by intros [= <-]].
      destruct (py_index_Z _ _) as [obj'|]; [|done]. simpl.
      destruct (is_None obj') eqn:Hn; [by intros [= <-]|]. by apply IH, Hnn.
    + destruct (py_int k) as [k'|]; [|done]. simpl.
      destruct (k' <? _); [|by intros [= <-]].
      destruct (py_index_Z _ _) as [obj'|]; [|done]. simpl.
      destruct (is_None obj') eqn:Hn; [by intros [= <-]|]. by apply IH, Hnn.
    + destruct (od_get d k) as [obj'|]; [|by intros [= <-]].
      destruct obj'; try (by intros [= <-]); by apply IH.
Qed.

Lemma Access_never_None_witness :
  JDict [("team1", JDict [])] <> JNull /\ JStr "TBD" <> JNull /\
  Access (JDict [("team1", JDict [])]) "team1.ref.id" (JStr "TBD") = Ok (JStr "TBD") /\
  JStr "TBD" <> JNull.
Proof.
  assert (JDict [("team1", JDict [])] <> JNull) as H1 by discriminate.
  assert (JStr "TBD" <> JNull) as H2 by discriminate.
  assert (Access (JDict [("team1", JDict [])]) "team1.ref.id" (JStr "TBD")
          = Ok (JStr "TBD")) as H3 by reflexivity.
  split; [exact H1|]. split; [exact H2|]. split; [exact H3|].
  exact (Access_never_None _ _ _ _ H1 H2 H3).
Defined.

Lemma str_split_go_app sep cur p1 p2 :
  str_split_go sep cur (p1 +:+ String sep p2)
  = str_split_go sep cur p1 ++ str_split_go sep "" p2.
Proof.
  revert cur. induction p1 as [|c p1 IH]; intros cur; simpl.
  - by rewrite bool_decide_true.
  - destruct (bool_decide (c = sep)); simpl; by rewrite IH.
Qed.

Lemma Access_keys_app obj keys1 keys2 default v :
  Access_keys obj keys1 JNull = Ok v -> v <> JNull ->
  Access_keys obj (keys1 ++ keys2) default = Access_keys v keys2 default.
Proof.
  revert obj. induction keys1 as [|k keys1 IH]; intros obj; simpl.
  - by intros [= ->].
  - destruct obj as [| | | |l|d].
    + rewrite Access_keys_None. by intros [= <-].
    + destruct (py_int k) as [k'|]; [|done]. simpl. done.
    + destruct (py_int k) as [k'|]; [|done]. simpl. done.
    + destruct (py_int k) as [k'|]; [|done]. simpl.
      destruct (k' <? _); [|by intros [= <-]].
      destruct (py_index_Z _ _) as [obj'|]; [|done]. simpl.
      destruct (is_None obj') eqn:Hn; [by intros [= <-]|]. apply IH.
    + destruct (py_int k) as [k'|]; [|done]. simpl.
      destruct (k' <? _); [|by intros [= <-]].
      destruct (py_index_Z _ _) as [obj'|]; [|done]. simpl.
      destruct (is_None obj') eqn:Hn; [by intros [= <-]|]. apply IH.
    + destruct (od_get d k) as [obj'|]; [|by intros [= <-]].
      destruct obj'; try (by intros [= <-]); apply IH.
Qed.

(** Paths compose: when [path1] leads to a value [v] that is not [None],
    [Access] with [path1 + '.' + path2] does what [Access] with [path2]
    does on [v]. *)
Theorem Access_compose obj path1 path2 default v :
  Access obj path1 JNull = Ok v -> v <> JNull ->
  Access obj (path1 +:+ "." +:+ path2) default = Access v path2 default.
Proof.
  intros H Hv. unfold Access, str_split.
  change ("." +:+ path2) with (String "."%char path2).
  rewrite str_split_go_app. by apply Access_keys_app.
Qed.

Lemma Access_compose_witness :
  Access (JDict [("team1", JDict [("ref", JDict [("id", JStr "A")])])]) "team1.ref" JNull
    = Ok (JDict [("id", JStr "A")]) /\
  Access (JDict [("team1", JDict [("ref", JDict [("id", JStr "A")])])])
    ("team1.ref" +:+ "." +:+ "id") (JStr "TBD")
    = Access (JDict [("id", JStr "A")]) "id" (JStr "TBD").
Proof.
  assert (Access (JDict [("team1", JDict [("ref", JDict [("id", JStr "A")])])])
            "team1.ref" JNull = Ok (JDict [("id", JStr "A")])) as H by reflexivity.
  split; [exact H|]. by apply Access_compose.
Defined.

Lemma to_lower_fixed c : is_lower c || is_digit c = true -> to_lower c = c.
Proof.
  unfold to_lower, is_lower, is_digit, is_upper. intros H.
  destruct ((65 <=? nat_of_ascii c)%nat && (nat_of_ascii c <=? 90)%nat) eqn:Hu; [|done].
  apply andb_prop in Hu as [?%Nat.leb_le ?%Nat.leb_le].
  apply orb_prop in H as [H|H]; apply andb_prop in H as [?%Nat.leb_le ?%Nat.leb_le]; lia.
Qed.

Lemma CanonicalizeName_chars raw_name :
  Forall (fun c => is_lower c || is_digit c = true) (chars_of (CanonicalizeName raw_name)).
Proof.
  unfold CanonicalizeName, str_lower.
  induction raw_name as [|c s IH]; simpl; [constructor|].
  destruct (is_lower (to_lower c) || is_digit (to_lower c)) eqn:Hc; simpl; [|done].
  by constructor.
Qed.

Lemma canonical_fixed s :
  Forall (fun c => is_lower c || is_digit c = true) (chars_of s) ->
  CanonicalizeName s = s.
Proof.
  unfold CanonicalizeName, str_lower.
  induction s as [|c s IH]; simpl; [done|].
  intros [Hc Hs]%Forall_cons. rewrite (to_lower_fixed c Hc), Hc. f_equal. by apply IH.
Qed.

Lemma to_lower_twice c : to_lower (to_lower c) = to_lower c.
Proof.
  destruct (is_upper c) eqn:Hu.
  - apply to_lower_fixed. unfold to_lower. rewrite Hu. unfold is_upper in Hu.
    apply andb_prop in Hu as [?%Nat.leb_le ?%Nat.leb_le].
    unfold is_lower. rewrite nat_ascii_embedding by lia.
    apply orb_true_intro. left. apply andb_true_intro.
    split; apply Nat.leb_le; lia.
  - unfold to_lower. by rewrite !Hu.
Qed.

(** [CanonicalizeName] gives a canonical form of an ASCII name: the result
    holds lower-case letters and digits only, canonicalizing it again
    changes nothing, and the case of the name does not matter. *)
Theorem CanonicalizeName_canonical raw_name :
  ascii_name raw_name ->
  Forall (fun c => is_lower c || is_digit c = true) (chars_of (CanonicalizeName raw_name)) /\
  CanonicalizeName (CanonicalizeName raw_name) = CanonicalizeName raw_name /\
  CanonicalizeName (str_lower raw_name) = CanonicalizeName raw_name /\
  CanonicalizeName (str_map to_upper raw_name) = CanonicalizeName raw_name.
Proof.
  intros Hascii. split; [apply CanonicalizeName_chars|].
  split; [apply canonical_fixed, CanonicalizeName_chars|].
  unfold CanonicalizeName, str_lower. split.
  - f_equal. induction raw_name as [|c s IH]; simpl; [done|].
    apply Forall_cons in Hascii as [_ Hs]. by rewrite to_lower_twice, IH.
  - f_equal. induction raw_name as [|c s IH]; simpl; [done|].
    apply Forall_cons in Hascii as [Hc Hs]. rewrite IH by done. f_equal.
    unfold to_upper. destruct (is_lower c) eqn:Hl; [|done].
    unfold is_lower in Hl. apply andb_prop in Hl as [?%Nat.leb_le ?%Nat.leb_le].
    unfold to_lower at 1. unfold is_upper. rewrite nat_ascii_embedding by lia.
    replace ((65 <=? nat_of_ascii c - 32)%nat && (nat_of_ascii c - 32 <=? 90)%nat) with true
      by (symmetry; apply andb_true_intro; split; apply Nat.leb_le; lia).
    replace (nat_of_ascii c - 32 + 32)%nat with (nat_of_ascii c) by lia.
    rewrite ascii_nat_embedding.
    unfold to_lower, is_upper.
    replace ((65 <=? nat_of_ascii c)%nat && (nat_of_ascii c <=? 90)%nat) with false; [done|].
    symmetry. apply andb_false_intro2. apply Nat.leb_gt. lia.
Qed.

Lemma CanonicalizeName_canonical_witness :
  ascii_name "Team Solo-Mid 2" /\ CanonicalizeName "Team Solo-Mid 2" = "teamsolomid2" /\
  CanonicalizeName (CanonicalizeName "Team Solo-Mid 2") = CanonicalizeName "Team Solo-Mid 2".
Proof.
  assert (ascii_name "Team Solo-Mid 2") as H
    by (unfold ascii_name; simpl; repeat constructor; simpl; lia).
  split; [exact H|]. split; [reflexivity|].
  exact (proj1 (proj2 (CanonicalizeName_canonical "Team Solo-Mid 2" H))).
Defined.

(** ** _FindActiveTournaments *)

Lemma _FindActiveTournaments_step_inv env seen acc t acc' :
  active_inv env seen acc -> _FindActiveTournaments_step env acc t = Ok acc' ->
  active_inv env (seen ++ [t]) acc'.
Proof.
  destruct acc as [[act tour] newest]. intros [Hact Hnew].
  unfold _FindActiveTournaments_step.
  destruct (py_contains "startDate" t) as [has|] eqn:Hhas; [|done]. simpl.
  destruct has; simpl.
  2:{ intros [= <-]. split.
      - rewrite filter_app, filter_cons_False, filter_nil, app_nil_r; [done|].
        unfold is_active. rewrite Hhas. done.
      - destruct Hnew as [(-> & -> & Hun)|[(before & after & s & -> & Hs & Hmin & Hb & Ha) Hn]].
        + left. split_and!; try done. intros t' s' [Hin|Hin%list_elem_of_singleton]%elem_of_app.
          * by apply Hun.
          * subst t'. unfold start_date. by rewrite Hhas.
        + right. split; [|done]. exists before, (after ++ [t]), s.
          rewrite <- app_assoc. split_and!; try done.
          intros t' s' [Hin|Hin%list_elem_of_singleton]%elem_of_app; [by apply Ha|].
          subst t'. unfold start_date. by rewrite Hhas. }
  destruct (py_getitem t "startDate" ≫= arrow_get env) as [s|] eqn:Hs; [|done]. simpl.
  destruct (py_getitem t "endDate" ≫= arrow_get env) as [e|] eqn:He; [|done]. simpl.
  assert (start_date env t = Some s) as Hst by (unfold start_date; by rewrite Hhas, Hs).
  assert (is_active env t = (s <=? utcnow env) && (utcnow env <=? e)) as Hia
    by (unfold is_active; by rewrite Hhas, Hs, He).
  assert (filter (fun t => is_active env t = true) (seen ++ [t])
          = if (s <=? utcnow env) && (utcnow env <=? e) then act ++ [t] else act) as Hf.
  { rewrite filter_app, <- Hact. rewrite <- Hia.
    destruct (is_active env t) eqn:Hc.
    - by rewrite filter_cons_True by done.
    - rewrite filter_cons_False by (by rewrite Hc). by rewrite filter_nil, app_nil_r. }
  destruct (newest <? s) eqn:Hlt; intros [= <-]; (split; [by rewrite Hf|]).
  - apply Z.ltb_lt in Hlt. right. split; [|done].
    exists seen, [], s. split_and!; try done.
    + destruct Hnew as [(-> & -> & Hun)|[(before & after & s0 & -> & Hs0 & Hmin & Hb & Ha) Hn]];
        [done|]. simplify_eq. lia.
    + intros t' s' Hin Hs'.
      destruct Hnew as [(-> & -> & Hun)|[(before & after & s0 & -> & Hs0 & Hmin & Hb & Ha) Hn]].
      * specialize (Hun _ _ Hin Hs'). lia.
      * simplify_eq.
        apply elem_of_app in Hin as [Hin|Hin]; [specialize (Hb _ _ Hin Hs'); lia|].
        apply elem_of_cons in Hin as [->|Hin]; [simplify_eq; lia|].
        specialize (Ha _ _ Hin Hs'). lia.
    + intros t' s' Hin. by apply elem_of_nil in Hin.
  - apply Z.ltb_ge in Hlt.
    destruct Hnew as [(-> & -> & Hun)|[(before & after & s0 & -> & Hs0 & Hmin & Hb & Ha) Hn]].
    + left. split_and!; try done.
      intros t' s' [Hin|Hin%list_elem_of_singleton]%elem_of_app; [by apply Hun|].
      subst t'. intros Hs'. simplify_eq. lia.
    + right. split; [|done]. exists before, (after ++ [t]), s0.
      rewrite <- app_assoc. split_and!; try done.
      intros t' s' [Hin|Hin%list_elem_of_singleton]%elem_of_app; [by apply Ha|].
      subst t'. intros Hs'. simplify_eq. lia.
Qed.

Lemma _FindActiveTournaments_loop_inv env l seen acc acc' :
  active_inv env seen acc -> rfold l (_FindActiveTournaments_step env) acc = Ok acc' ->
  active_inv env (seen ++ l) acc'.
Proof.
  revert seen acc. induction l as [|t l IH]; intros seen acc Hinv; simpl.
  - intros [= <-]. by rewrite app_nil_r.
  - destruct (_FindActiveTournaments_step env acc t) as [acc1|] eqn:Hstep; [|done]. simpl.
    intros Hl. replace (seen ++ t :: l) with ((seen ++ [t]) ++ l) by by rewrite <- app_assoc.
    eapply IH; [|done]. by eapply _FindActiveTournaments_step_inv.
Qed.

(** [_FindActiveTournaments] never returns an empty list.  When some
    tournament is active, it returns the active ones in their order;
    otherwise, one element: the first of the tournaments that start latest,
    or [None] when no tournament starts after [arrow.Arrow.min]. *)
Theorem _FindActiveTournaments_spec env tournaments r :
  _FindActiveTournaments env tournaments = Ok r ->
  exists ts, py_iter tournaments = Ok ts /\ r <> [] /\
    match filter (fun t => is_active env t = true) ts with
    | [] => exists t, r = [t] /\ (newest_of env ts t \/ (t = JNull /\ undated env ts))
    | active_tournaments => r = active_tournaments
    end.
Proof.
  unfold _FindActiveTournaments.
  destruct (py_iter tournaments) as [ts|]; [|done]. simpl.
  destruct (rfold ts _ _) as [[[act tour] newest]|] eqn:Hl; [|done]. simpl.
  intros [= <-]. exists ts. split; [done|].
  apply (_FindActiveTournaments_loop_inv env ts []) in Hl as [Hact Hnew].
  2:{ split; [done|]. left. split_and!; try done. intros t s Hin. by apply elem_of_nil in Hin. }
  simpl in Hact, Hnew. rewrite <- Hact. split; [by destruct act|].
  destruct act; [|done]. exists tour. split; [done|].
  destruct Hnew as [(-> & _ & Hun)|[Hn _]]; [by right|by left].
Qed.

(** ** The two queries on a well-formed snapshot *)

Lemma py_take_take {A} (n : Z) (l : list A) :
  py_take n (take (Z.to_nat (Z.max 1 n)) l) = take (Z.to_nat n) l.
Proof.
  unfold py_take. destruct (n <? 0) eqn:Hn.
  - apply Z.ltb_lt in Hn. replace (Z.to_nat n) with 0%nat by lia.
    replace (Z.to_nat (Z.max 1 n)) with 1%nat by lia.
    destruct l as [|x l]; [by rewrite !take_nil|]. simpl. rewrite take_0. simpl.
    replace (Z.to_nat (Z.of_nat 1 + n)) with 0%nat by lia. done.
  - apply Z.ltb_ge in Hn. rewrite take_take. f_equal. lia.
Qed.

Lemma GetResults_loop_spec w q is_team n results l :
  (forall m, m ∈ l -> exists p b, w_heap w !! _match m = Some p /\
      od_get (es_brackets (snapshot w)) (match_bracket_id p) = Some b) ->
  GetResults_loop w (snapshot w) q is_team n results l
  = Ok (results ++ take (Z.to_nat (Z.max 1 (n - Z.of_nat (length results))))
                     (result_line_of w q is_team <$> filter (is_result w q) l)).
Proof.
  revert results. induction l as [|m l IH]; intros results Hwf; simpl.
  - by rewrite ?filter_nil, ?fmap_nil, take_nil, app_nil_r.
  - destruct (Hwf m) as (p & b & Hp & Hb); [by left|].
    assert (forall m', m' ∈ l -> exists p b, w_heap w !! _match m' = Some p /\
      od_get (es_brackets (snapshot w)) (match_bracket_id p) = Some b) as Hwf'
      by (intros m' Hm'; apply Hwf; by right).
    destruct (_ResultIsInteresting w (snapshot w) m q) as [c|] eqn:Hc.
    2:{ unfold _ResultIsInteresting, deref, bracket_of in Hc.
        rewrite Hp in Hc. simpl in Hc. by rewrite Hb in Hc. }
    simpl. destruct c.
    + rewrite filter_cons_True by done. simpl.
      unfold deref. rewrite Hp. simpl. rewrite length_app. simpl.
      unfold result_line_of at 1. rewrite Hp.
      destruct (n <=? _) eqn:Hn.
      * apply Z.leb_le in Hn. replace (Z.to_nat _) with 1%nat by lia. simpl.
        by rewrite take_0.
      * apply Z.leb_gt in Hn. rewrite IH by done. rewrite <- app_assoc. simpl.
        rewrite length_app. simpl.
        replace (Z.to_nat (Z.max 1 (n - Z.of_nat (length results))))
          with (S (Z.to_nat (Z.max 1 (n - Z.of_nat (length results + 1))))) by lia.
        done.
    + rewrite filter_cons_False by (unfold is_result; by rewrite Hc). by apply IH.
Qed.

(** On a well-formed snapshot [GetResults] does not raise; it returns the
    lines of the latest [num_games] results for the qualifier, the latest
    first, and none when [num_games] is not positive. *)
Theorem GetResults_latest_results w subcommand num_games :
  schedule_wf w ->
  let '(qualifier, is_team) := resolve_qualifier w (snapshot w) subcommand in
  GetResults w subcommand num_games
  = Ok (take (Z.to_nat num_games)
          (result_line_of w qualifier is_team <$>
             filter (is_result w qualifier) (reverse (es_schedule (snapshot w)))),
        qualifier).
Proof.
  intros Hwf. unfold GetResults.
  destruct (resolve_qualifier w (snapshot w) subcommand) as [q is_team].
  rewrite GetResults_loop_spec by (intros m Hm; apply Hwf; by apply elem_of_reverse).
  simpl. rewrite Z.sub_0_r. by rewrite py_take_take.
Qed.

Lemma GetSchedule_loop_spec env w q ip n schedule l :
  (forall m, m ∈ l -> exists p b, w_heap w !! _match m = Some p /\
      od_get (es_brackets (snapshot w)) (match_bracket_id p) = Some b) ->
  GetSchedule_loop env w (snapshot w) q (utcnow env) ip n schedule l
  = Ok (schedule ++ take (Z.to_nat (Z.max 1 (n - Z.of_nat (length schedule))))
                      (schedule_line_of env w <$> filter (is_upcoming env w q ip) l)).
Proof.
  revert schedule. induction l as [|m l IH]; intros schedule Hwf; simpl.
  - by rewrite ?filter_nil, ?fmap_nil, take_nil, app_nil_r.
  - destruct (Hwf m) as (p & b & Hp & Hb); [by left|].
    assert (forall m', m' ∈ l -> exists p b, w_heap w !! _match m' = Some p /\
      od_get (es_brackets (snapshot w)) (match_bracket_id p) = Some b) as Hwf'
      by (intros m' Hm'; apply Hwf; by right).
    destruct (_MatchIsInteresting w (snapshot w) m q (utcnow env) ip) as [c|] eqn:Hc.
    2:{ unfold _MatchIsInteresting, deref, bracket_of in Hc.
        rewrite Hp in Hc. simpl in Hc. by rewrite Hb in Hc. }
    simpl. destruct c.
    + rewrite filter_cons_True by done. simpl.
      unfold deref. rewrite Hp. simpl. rewrite length_app. simpl.
      unfold schedule_line_of at 1. rewrite Hp.
      destruct (n <=? _) eqn:Hn.
      * apply Z.leb_le in Hn. replace (Z.to_nat _) with 1%nat by lia. simpl.
        by rewrite take_0.
      * apply Z.leb_gt in Hn. rewrite IH by done. rewrite <- app_assoc. simpl.
        rewrite length_app. simpl.
        replace (Z.to_nat (Z.max 1 (n - Z.of_nat (length schedule))))
          with (S (Z.to_nat (Z.max 1 (n - Z.of_nat (length schedule + 1))))) by lia.
        done.
    + rewrite filter_cons_False by (unfold is_upcoming; by rewrite Hc). by apply IH.
Qed.


(** ** What LoadData keeps *)

Lemma load_inv_length P H s : load_inv P H s -> (length H <= length (heap s))%nat.
Proof. intros [[N ->] _]. rewrite length_app. lia. Qed.

Lemma brackets_wf_app h N bs : brackets_wf h bs -> brackets_wf (h ++ N) bs.
Proof.
  intros [Hk Hs]. split; [done|]. intros k b l Hb Hl.
  destruct (Hs k b l Hb Hl) as (m & Hm & Hid). exists m. split; [|done].
  by apply lookup_app_l_Some.
Qed.

Lemma brackets_wf_alter h f l bs :
  (forall m, match_bracket_id (f m) = match_bracket_id m) ->
  brackets_wf h bs -> brackets_wf (alter f l h) bs.
Proof.
  intros Hf [Hk Hs]. split; [done|]. intros k b l' Hb Hl.
  destruct (Hs k b l' Hb Hl) as (m & Hm & Hid).
  destruct (decide (l' = l)) as [->|Hne].
  - exists (f m). rewrite list_lookup_alter_eq. change (h !! l = Some m) in Hm. rewrite Hm. split; [done|]. by rewrite Hf.
  - exists m. by rewrite list_lookup_alter_ne.
Qed.

Lemma load_inv_with_self P H s f :
  (forall p, _matches (f p) = _matches p) -> (forall p, _brackets (f p) = _brackets p) ->
  load_inv P H s -> load_inv P H (with_self f s).
Proof. intros Hm Hb (Hh & Hl & Hw). split_and!; simpl; by rewrite ?Hm, ?Hb. Qed.

Lemma load_inv_rng P H s n :
  load_inv P H s -> load_inv P H (mkPState (heap s) n (self s)).
Proof. done. Qed.

Lemma load_inv_alloc P H s m :
  load_inv P H s -> load_inv P H (mkPState (heap s ++ [m]) (rng_pos s) (self s)).
Proof.
  intros ([N HN] & Hl & Hw). split_and!; simpl; [|done|].
  - exists (N ++ [m]). by rewrite HN, app_assoc.
  - intros HP. by apply brackets_wf_app, Hw.
Qed.

Lemma load_inv_update P H s l f :
  load_inv P H s -> (length H <= l)%nat ->
  (forall m, match_bracket_id (f m) = match_bracket_id m) ->
  load_inv P H (mkPState (alter f l (heap s)) (rng_pos s) (self s)).
Proof.
  intros ([N HN] & Hl & Hw) Hlen Hf. split_and!; simpl; [|done|].
  - exists (alter f (l - length H)%nat N). rewrite HN. by apply alter_app_r_alt.
  - intros HP. by apply brackets_wf_alter, Hw.
Qed.

Lemma load_inv_set_match P H s k l :
  load_inv P H s -> (length H <= l)%nat ->
  load_inv P H (with_self (fun p => set_matches (od_set (_matches p) k l) p) s).
Proof.
  intros (Hh & Hl & Hw) Hlen. split_and!; simpl; [done| |done].
  intros k' l' [Heq|Hin]%elem_of_od_set; [by simplify_eq|eauto].
Qed.

Lemma od_get_NoDup {V} (d : list (string * V)) k v v' :
  NoDup (od_keys d) -> od_get d k = Some v -> (k, v') ∈ d -> v' = v.
Proof.
  induction d as [|[k0 v0] d IH]; simpl; [done|].
  intros [Hnin Hnd]%NoDup_cons. case_decide as Hk.
  - subst k0. intros [= ->] [Heq|Hin]%elem_of_cons; [by simplify_eq|].
    destruct Hnin. unfold od_keys. apply list_elem_of_fmap. by exists (k, v').
  - intros Hget [Heq|Hin]%elem_of_cons; [by simplify_eq|]. by apply IH.
Qed.

Lemma load_inv_add_schedule P H s k b l m :
  load_inv P H s -> od_get (_brackets (self s)) k = Some b ->
  heap s !! l = Some m -> match_bracket_id m = bracket_id b ->
  load_inv P H (with_self (fun p =>
                  set_brackets (od_update (_brackets p) k (add_schedule l)) p) s).
Proof.
  intros (Hh & Hl & Hw) Hget Hm Hid. split_and!; simpl; [done|done|].
  intros HP. destruct (Hw HP) as [Hk Hs]. split; [by rewrite od_keys_od_update|].
  intros k' b' l' [[_ Hin]|[-> (b0 & Hin & ->)]]%elem_of_od_update Hl'; [by eapply Hs|].
  pose proof (od_get_NoDup _ _ _ _ Hk Hget Hin) as ->. simpl in Hl' |- *.
  apply elem_of_app in Hl' as [Hl'|Hl'%list_elem_of_singleton]; [by eapply Hs|].
  subst l'. eauto.
Qed.

Lemma load_inv_extend_standings P H s k sts :
  load_inv P H s ->
  load_inv P H (with_self (fun p =>
                  set_brackets (od_update (_brackets p) k (extend_standings sts)) p) s).
Proof.
  intros (Hh & Hl & Hw). split_and!; simpl; [done|done|].
  intros HP. destruct (Hw HP) as [Hk Hs]. split; [by rewrite od_keys_od_update|].
  intros k' b' l' [[_ Hin]|[-> (b0 & Hin & ->)]]%elem_of_od_update Hl'; [by eapply Hs|].
  simpl in Hl' |- *. by eapply Hs.
Qed.

Lemma load_inv_set_bracket P H s k b :
  schedule b = [] -> load_inv P H s ->
  load_inv P H (with_self (fun p => set_brackets (od_set (_brackets p) k b) p) s).
Proof.
  intros Hb (Hh & Hl & Hw). split_and!; simpl; [done|done|].
  intros HP. destruct (Hw HP) as [Hk Hs]. split.
  - rewrite od_keys_od_set. case_decide; [done|].
    apply NoDup_app. split_and!; [done| |apply NoDup_singleton].
    intros x Hx ->%list_elem_of_singleton. done.
  - intros k' b' l' [Heq|Hin]%elem_of_od_set Hl'; [|by eapply Hs].
    simplify_eq. rewrite Hb in Hl'. by apply elem_of_nil in Hl'.
Qed.

Lemma load_inv_reset P s f :
  (forall p, _matches (f p) = []) -> (P -> brackets_wf (heap s) (_brackets (f (self s)))) ->
  load_inv P (heap s) (with_self f s).
Proof.
  intros Hm Hb. split_and!; simpl; [|rewrite Hm|done].
  - exists []. by rewrite app_nil_r.
  - by intros k l ?%elem_of_nil.
Qed.

Lemma load_inv_known P H s x l :
  load_inv P H s -> od_get_json (_matches (self s)) x = Ok (Some l) -> (length H <= l)%nat.
Proof. intros (_ & Hl & _) [k Hk]%od_get_json_elem_of. eauto. Qed.

Lemma keeps_wp I {A} (m : M PState A) (Q : A -> PState -> Prop) s :
  keeps I m -> I s -> (forall r s', I s' -> Q r s') -> wp m Q I s.
Proof. intros Hm Hs HQ. eapply wp_mono; [by apply Hm| |done]. eauto. Qed.

(** The bound [length H <= l] for a match that was added to the store. *)
Ltac load_len :=
  first
    [ eassumption
    | match goal with
      | Hs : load_inv _ ?H ?s |- (length ?H <= _)%nat =>
          pose proof (load_inv_length _ _ _ Hs); simpl; rewrite ?length_app; simpl; lia
      | Hs : load_inv _ ?H ?s |- (length ?H <= _)%nat =>
          eapply (load_inv_known _ _ s); [exact Hs|eassumption]
      end ].

(** The invariant after the writes of a straight piece of code. *)
Ltac load_inv_solve :=
  repeat first
    [ eassumption
    | apply load_inv_alloc
    | apply load_inv_rng
    | apply load_inv_with_self; [done|done|]
    | apply load_inv_set_match; [|load_len]
    | apply load_inv_extend_standings
    | apply load_inv_set_bracket; [done|]
    | apply load_inv_update; [|load_len|done]
    | eapply load_inv_add_schedule;
      [ | simpl; eassumption | simpl; by apply list_lookup_middle | done ] ].

Create HintDb load.

Ltac wp_load :=
  repeat first
    [ wp_step2; cbv beta
    | eapply keeps_wp;
      [ solve [eauto with load] | solve [load_inv_solve] | intros ? ? ?; cbv beta ]
    | lazymatch goal with
      | |- match ?x with Some _ => _ | None => _ end => destruct x eqn:?
      end ];
  try solve [load_inv_solve].

Section load.
Context (P : Prop) (H : list MatchProto).

Local Abbreviation inv := (load_inv P H).

Lemma keeps_for_ {A} (l : list A) body :
  (forall x, keeps inv (body x)) -> keeps inv (for_ l body).
Proof.
  intros Hbody s Hs. apply (wp_for_ inv); [done| |done].
  intros x s' _ Hs'. by apply Hbody.
Qed.

Lemma keeps_mmap {A B} (f : A -> M PState B) l :
  (forall x, keeps inv (f x)) -> keeps inv (mmap f l).
Proof.
  intros Hf s Hs. apply (wp_mmap inv); [done| |done].
  intros x s' Hs'. by apply Hf.
Qed.

#[local] Hint Resolve keeps_for_ keeps_mmap : load.

(** GrumbleProvider *)

Lemma _ParseSchedule_team_keeps (m : loc) standings team :
  (length H <= m)%nat -> keeps inv (_ParseSchedule_team m standings team).
Proof. intros Hm s Hs. unfold _ParseSchedule_team. wp_load. Qed.

Lemma _ParseSchedule_match_keeps bkey acc match_ :
  keeps inv (_ParseSchedule_match bkey acc match_).
Proof.
  intros s Hs. unfold _ParseSchedule_match. wp_load.
  apply (wp_for_ inv); [load_inv_solve| |].
  { intros game s' _ Hs'. wp_load. }
  intros s' Hs'. wp_load.
  apply (wp_fold_ (fun _ => inv)); [done| |done].
  intros team st s'' _ Hs''. apply _ParseSchedule_team_keeps; [|done]. load_len.
Qed.
#[local] Hint Resolve _ParseSchedule_match_keeps : load.

Lemma _ParseSchedule_keeps schedule bkey : keeps inv (_ParseSchedule schedule bkey).
Proof.
  intros s Hs. unfold _ParseSchedule. wp_load.
  apply (wp_fold_ (fun _ => inv)); [done| |].
  - intros week acc s' _ Hs'. wp_load.
    apply (wp_fold_ (fun _ => inv)); [done| |done].
    intros m acc' s'' _ Hs''. by apply _ParseSchedule_match_keeps.
  - intros acc s' Hs'. wp_load.
Qed.
#[local] Hint Resolve _ParseSchedule_keeps : load.

(** RitoProvider *)

Lemma get_roster_keeps x : keeps inv (get_roster x).
Proof. intros s Hs. unfold get_roster. wp_load. Qed.
#[local] Hint Resolve get_roster_keeps : load.

Lemma _FindTeam_keeps team : keeps inv (_FindTeam team).
Proof. intros s Hs. unfold _FindTeam. wp_load. Qed.
#[local] Hint Resolve _FindTeam_keeps : load.

Lemma _ExtractMatchTeams_keeps match_ : keeps inv (_ExtractMatchTeams match_).
Proof. intros s Hs. unfold _ExtractMatchTeams. wp_load. Qed.
#[local] Hint Resolve _ExtractMatchTeams_keeps : load.

Lemma _ExtractStandings_keeps record rank : keeps inv (_ExtractStandings record rank).
Proof. intros s Hs. unfold _ExtractStandings. wp_load. Qed.
#[local] Hint Resolve _ExtractStandings_keeps : load.

Lemma top_group_winner_keeps match_ (l : loc) :
  (length H <= l)%nat -> keeps inv (top_group_winner match_ l).
Proof. intros Hl s Hs. unfold top_group_winner. wp_load. Qed.

Lemma Rito_LoadData_roster_keeps env league_data tournament kv :
  keeps inv (Rito_LoadData_roster env league_data tournament kv).
Proof.
  intros s Hs. unfold Rito_LoadData_roster. wp_load.
  apply (wp_for_ inv); [load_inv_solve| |done].
  intros player s' _ Hs'. wp_load.
Qed.
#[local] Hint Resolve Rito_LoadData_roster_keeps : load.

Lemma Rito_LoadData_standings_keeps league_data tournament bracket bid :
  keeps inv (Rito_LoadData_standings league_data tournament bracket bid).
Proof.
  intros s Hs. unfold Rito_LoadData_standings. wp_load.
  - apply (wp_for_ inv); [done| |done].
    intros group s1 _ Hs1. wp_load.
    apply (wp_for_ inv); [done| |done].
    intros roster s2 _ Hs2. wp_load.
  - apply (wp_fold_ (fun _ => inv)); [done| |].
    + intros r sts s1 _ Hs1. wp_load.
    + intros sts s1 Hs1. wp_load.
Qed.
#[local] Hint Resolve Rito_LoadData_standings_keeps : load.

Lemma Rito_LoadData_hash_keeps (m : loc) game_id_mappings i :
  (length H <= m)%nat -> keeps inv (Rito_LoadData_hash m game_id_mappings i).
Proof.
  intros Hm s Hs. unfold Rito_LoadData_hash. wp_load.
  apply (wp_for_ inv); [load_inv_solve| |done].
  intros mapping s' _ Hs'. wp_load.
Qed.

Lemma Rito_LoadData_match_keeps env tournament bid match_ :
  keeps inv (Rito_LoadData_match env tournament bid match_).
Proof.
  intros s Hs. unfold Rito_LoadData_match. wp_load.
  apply (wp_for_ inv); [load_inv_solve| |].
  { intros game sg _ Hsg. wp_load. }
  intros sb Hsb. wp_load.
  eapply keeps_wp; [apply top_group_winner_keeps; load_len|done|].
  intros [] s2 Hs2. wp_load.
  all: apply (wp_for_ inv); [done| |done].
  all: intros i s3 _ Hs3; apply Rito_LoadData_hash_keeps; [load_len|done].
Qed.
#[local] Hint Resolve Rito_LoadData_match_keeps : load.

Lemma Rito_LoadData_times_keeps env league_data :
  keeps inv (Rito_LoadData_times env league_data).
Proof.
  intros s Hs. unfold Rito_LoadData_times. wp_load.
  apply (wp_for_ inv); [done| |done].
  intros match_ s' _ Hs'. wp_load.
Qed.
#[local] Hint Resolve Rito_LoadData_times_keeps : load.

Lemma Rito_LoadData_bracket_keeps env league_data tournament bracket :
  keeps inv (Rito_LoadData_bracket env league_data tournament bracket).
Proof. intros s Hs. unfold Rito_LoadData_bracket. wp_load. Qed.
#[local] Hint Resolve Rito_LoadData_bracket_keeps : load.

End load.

Lemma Grumble_LoadData_keeps env s :
  let P := brackets_wf (heap s) (_brackets (self s)) in
  wp (Grumble_LoadData env) (fun _ => load_inv P (heap s)) (load_inv P (heap s)) s.
Proof.
  intros P. unfold Grumble_LoadData. apply wp_bind, wp_modify. cbv beta.
  assert (load_inv P (heap s)
            (with_self (fun p => set_matches [] (set_brackets [] (set_teams [] p))) s)) as Hs.
  { apply load_inv_reset; [done|]. intros _. split; [constructor|].
    by intros k b l ?%elem_of_nil. }
  revert Hs. generalize (with_self (fun p => set_matches [] (set_brackets [] (set_teams [] p))) s).
  intros s0 Hs0. wp_load.
  eapply keeps_wp; [apply _ParseSchedule_keeps|load_inv_solve|].
  intros [] s1 Hs1. cbv beta. wp_load.
  eapply keeps_wp; [apply _ParseSchedule_keeps|load_inv_solve|].
  intros [] s2 Hs2. cbv beta. wp_load.
  apply (wp_for_ (load_inv P (heap s))); [done| |done].
  intros kv s3 _ Hs3. wp_load.
  apply (wp_for_ (load_inv P (heap s))); [done| |done].
  intros player s4 _ Hs4. wp_load.
Qed.

Lemma Rito_LoadData_keeps env s :
  let P := brackets_wf (heap s) (_brackets (self s)) in
  wp (Rito_LoadData env) (fun _ => load_inv P (heap s)) (load_inv P (heap s)) s.
Proof.
  intros P. unfold Rito_LoadData. apply wp_bind, wp_modify. cbv beta.
  assert (load_inv P (heap s)
            (with_self (fun p => set_rosters [] (set_matches [] (set_teams [] p))) s)) as Hs.
  { apply load_inv_reset; [done|]. by intros HP. }
  revert Hs. generalize (with_self (fun p => set_rosters [] (set_matches [] (set_teams [] p))) s).
  intros s0 Hs0. wp_load.
  apply (wp_for_ (load_inv P (heap s))); [done| |].
  { intros team s1 _ Hs1. wp_load. }
  intros s1 Hs1. wp_load.
  apply (wp_for_ (load_inv P (heap s))); [done| |done].
  intros tournament s2 _ Hs2. wp_load.
  eapply keeps_wp; [apply keeps_for_, Rito_LoadData_roster_keeps|done|].
  intros [] s3 Hs3. cbv beta. wp_load.
  eapply keeps_wp; [apply keeps_for_, Rito_LoadData_bracket_keeps|done|done].
Qed.

Lemma LoadData_keeps env s :
  let P := brackets_wf (heap s) (_brackets (self s)) in
  wp (LoadData env) (fun _ => load_inv P (heap s)) (load_inv P (heap s)) s.
Proof.
  intros P. unfold LoadData. wp_step2. wp_step2. cbv beta. wp_step2.
  - apply Rito_LoadData_keeps.
  - apply Grumble_LoadData_keeps.
Qed.

(** ** The engine stays well formed *)

Lemma schedule_wf_app w w' N :
  snapshot w' = snapshot w -> w_heap w' = w_heap w ++ N -> schedule_wf w -> schedule_wf w'.
Proof.
  intros Hs Hh Hwf m Hm. rewrite Hs in Hm |- *. rewrite Hh.
  destruct (Hwf m Hm) as (p & b & Hp & Hb). exists p, b. split; [|done].
  by apply lookup_app_l_Some.
Qed.

Lemma on_provider_LoadData_inv env w0 i w :
  loading_inv w0 w ->
  wp (on_provider i (LoadData env)) (fun _ => loading_inv w0) (loading_inv w0) w.
Proof.
  intros ([N HN] & Hreg & Hwf). unfold wp, on_provider.
  destruct (_providers w !! i) as [p|] eqn:Hp; [|by split_and!; eauto].
  pose proof (LoadData_keeps env (mkPState (w_heap w) (w_rng w) p)) as Hk.
  unfold wp in Hk. simpl in Hk.
  destruct (LoadData env _) as [s r].
  assert (load_inv (brackets_wf (w_heap w) (_brackets p)) (w_heap w) s)
    as ([N' HN'] & _ & Hb) by (by destruct r).
  assert (loading_inv w0
            (mkWorld (heap s) (rng_pos s) (<[i:=self s]> (_providers w))
               (snapshot w) (_callbacks w) (outside w))) as Hinv.
  { split_and!; simpl.
    - exists (N ++ N'). by rewrite HN', HN, app_assoc.
    - done.
    - intros H0. specialize (Hwf H0). unfold providers_wf in *. simpl.
      apply Forall_insert.
      + eapply Forall_impl; [done|]. intros q Hq. simpl in Hq. rewrite HN'.
        by apply brackets_wf_app.
      + apply Hb. by eapply (Forall_lookup_1 _ _ _ _ Hwf). }
  by destruct r.
Qed.

Lemma loading_inv_refl w : loading_inv w w.
Proof. split_and!; [exists []; by rewrite app_nil_r|done|done]. Qed.

Lemma LoadEsports_providers_inv env w :
  wp (LoadEsports_providers env) (fun _ => loading_inv w) (loading_inv w) w.
Proof.
  unfold LoadEsports_providers. wp_steps.
  apply (wp_for_ (loading_inv w)); [apply loading_inv_refl| |done].
  intros i w' _ Hw'. by apply on_provider_LoadData_inv.
Qed.

Lemma matches_in_mono h K K' ms :
  K ⊆ K' -> matches_in h K ms -> matches_in h K' ms.
Proof.
  intros HK Hms k m Hin. destruct (Hms k m Hin) as (p & Hp & Hid & Ht). eauto.
Qed.

Lemma LoadEsports_match_in env h league K id acc l acc' :
  (exists p, h !! l = Some p /\ match_bracket_id p = id) -> id ∈ K ->
  matches_in h K (fst acc) ->
  LoadEsports_match env h league acc l = Ok acc' -> matches_in h K (fst acc').
Proof.
  intros (p & Hp & Hid) HK Hacc. destruct acc as [matches st].
  unfold LoadEsports_match, Match_init, deref. rewrite Hp. simpl. rewrite Hp. simpl.
  assert (matches_in h K
            (od_set matches (match_id p) (mkMatchW l (timestamp p) (timestamp p <? utcnow env))))
    as Hset.
  { intros k m [Heq|Hin]%elem_of_od_set; [|by eapply Hacc].
    injection Heq as -> ->. simpl. exists p. split_and!; [done| |done]. by rewrite Hid. }
  destruct (negb _ && _).
  - destruct (_ScrapePickBanData _ _ _ _); simpl; [|done]. by intros [= <-].
  - by intros [= <-].
Qed.

Lemma LoadEsports_schedule_in env h league K id ls acc acc' :
  (forall l, l ∈ ls -> exists p, h !! l = Some p /\ match_bracket_id p = id) -> id ∈ K ->
  matches_in h K (fst acc) ->
  rfold ls (LoadEsports_match env h league) acc = Ok acc' -> matches_in h K (fst acc').
Proof.
  intros Hls HK. revert acc. induction ls as [|l ls IH]; intros acc Hacc; simpl.
  - by intros [= <-].
  - destruct (LoadEsports_match env h league acc l) as [acc1|] eqn:H1; [|done]. simpl.
    apply IH; [intros; apply Hls; by right|].
    eapply LoadEsports_match_in; [apply Hls; by left|done|done|done].
Qed.

Lemma od_keys_od_set_subseteq {V} (d : list (string * V)) k v :
  od_keys d ⊆ od_keys (od_set d k v) /\ k ∈ od_keys (od_set d k v).
Proof.
  rewrite od_keys_od_set. case_decide; [done|]. split.
  - intros x Hx. apply elem_of_app. by left.
  - apply elem_of_app. right. by apply list_elem_of_singleton.
Qed.

Lemma LoadEsports_brackets_in env h league bs a a' :
  (forall b l, b ∈ bs -> l ∈ schedule b ->
     exists p, h !! l = Some p /\ match_bracket_id p = bracket_id b) ->
  matches_in h (od_keys (a_brackets a)) (a_matches a) ->
  rfold bs (LoadEsports_bracket env h league) a = Ok a' ->
  matches_in h (od_keys (a_brackets a')) (a_matches a').
Proof.
  revert a. induction bs as [|b bs IH]; intros a Hbs Ha; simpl.
  - by intros [= <-].
  - destruct (LoadEsports_bracket env h league a b) as [a1|] eqn:H1; [|done]. simpl.
    apply IH; [intros; eapply Hbs; [by right|done]|].
    unfold LoadEsports_bracket in H1.
    destruct (rfold (schedule b) _ _) as [[matches st]|] eqn:H2; [|done].
    simpl in H1. injection H1 as <-. simpl.
    destruct (od_keys_od_set_subseteq (a_brackets a) (bracket_id b) b) as [Hsub Hin].
    eapply (LoadEsports_schedule_in _ _ _ _ (bracket_id b) _ _ (matches, st)) in H2; [done| |done|].
    + intros l Hl. apply Hbs; [by left|done].
    + simpl. by eapply matches_in_mono.
Qed.

Lemma assemble_matches_in env w a :
  providers_wf w -> assemble env w = Ok a ->
  matches_in (w_heap w) (od_keys (a_brackets a)) (a_matches a).
Proof.
  intros Hwf. unfold assemble.
  assert (forall il, il ∈ imap pair (_providers w) ->
            brackets_wf (w_heap w) (_brackets (snd il))) as Hil.
  { intros [i p] Hin. apply elem_of_lookup_imap in Hin as (j & q & [= -> ->] & Hq).
    by eapply (Forall_lookup_1 _ _ _ _ Hwf). }
  revert Hil. generalize (imap pair (_providers w)).
  assert (matches_in (w_heap w) (od_keys (a_brackets (mkAssembly [] [] [] [] (mkStats [] [] []))))
            (a_matches (mkAssembly [] [] [] [] (mkStats [] [] [])))) as Ha
    by (by intros k m ?%elem_of_nil).
  revert Ha. generalize (mkAssembly [] [] [] [] (mkStats [] [] [])).
  intros a0 Ha0 ils. revert a0 Ha0.
  induction ils as [|[i league] ils IH]; intros a0 Ha0 Hils; simpl.
  - by intros [= <-].
  - destruct (rfold (brackets league) _ _) as [a1|] eqn:H1; [|done]. simpl.
    apply IH; [|intros; apply Hils; by right]. simpl.
    apply LoadEsports_brackets_in in H1; [done| |done].
    intros b l Hb Hl. destruct (Hils (i, league)) as [_ Hs]; [by left|].
    unfold brackets, od_values in Hb. apply list_elem_of_fmap in Hb as ([k b'] & -> & Hb).
    by eapply Hs.
Qed.

Lemma publish_schedule_wf env w a :
  providers_wf w -> assemble env w = Ok a -> schedule_wf (set_snapshot (publish env w a) w).
Proof.
  intros Hwf Ha m Hm. simpl in Hm |- *.
  unfold sorted in Hm. rewrite sorted_with_perm in Hm.
  unfold od_values in Hm. apply list_elem_of_fmap in Hm as ([k m'] & -> & Hin).
  destruct (assemble_matches_in env w a Hwf Ha k m' Hin) as (p & Hp & Hid & _).
  apply od_get_is_Some in Hid as [b Hb]. eauto.
Qed.

Lemma StronglySorted_impl_in {A} (R R' : A -> A -> Prop) l :
  (forall x y, x ∈ l -> y ∈ l -> R x y -> R' x y) ->
  StronglySorted R l -> StronglySorted R' l.
Proof.
  intros HR Hl. induction Hl as [|x l Hl IH Hx]; constructor.
  - apply IH. intros y z Hy Hz. apply HR; by right.
  - apply Forall_forall. intros y Hy. rewrite Forall_forall in Hx.
    apply HR; [by left|by right|by apply Hx].
Qed.

Lemma publish_schedule_timed env w a :
  providers_wf w -> assemble env w = Ok a ->
  schedule_timed (set_snapshot (publish env w a) w).
Proof.
  intros Hwf Ha. unfold schedule_timed. simpl.
  apply (StronglySorted_impl_in
           (fun x y => timestamp_of (w_heap w) x <= timestamp_of (w_heap w) y));
    [|apply sorted_ascending].
  assert (forall m, m ∈ sorted (timestamp_of (w_heap w)) false (od_values (a_matches a)) ->
            timestamp_of (w_heap w) m = time m) as Ht.
  { intros m Hm. unfold sorted in Hm. rewrite sorted_with_perm in Hm.
    unfold od_values in Hm. apply list_elem_of_fmap in Hm as ([k m'] & -> & Hin).
    destruct (assemble_matches_in env w a Hwf Ha k m' Hin) as (p & Hp & _ & Hp').
    unfold timestamp_of. simpl. by rewrite Hp. }
  intros x y Hx Hy. by rewrite !Ht by done.
Qed.

Lemma brackets_wf_frame h h' bs :
  heap_frame h h' -> brackets_wf h bs -> brackets_wf h' bs.
Proof.
  intros Hh [Hk Hs]. split; [done|]. intros k b l Hb Hl.
  destruct (Hs k b l Hb Hl) as (m & Hm & Hid).
  destruct (Forall2_lookup_l _ _ _ _ _ Hh Hm) as (m' & Hm' & _ & Hid' & _).
  exists m'. split; [done|]. by rewrite Hid'.
Qed.

Lemma engine_wf_LoadEsports env w :
  engine_wf w -> engine_wf (fst (LoadEsports env w)).
Proof.
  intros (Hp & Hs & Ht).
  pose proof (LoadEsports_providers_inv env w) as H1. unfold wp in H1.
  unfold LoadEsports, mbind, M_bind, get_state, lift, modify.
  destruct (LoadEsports_providers env w) as [w1 r1].
  assert (loading_inv w w1) as ([N HN] & (Hsnap & _) & Hwf) by (by destruct r1).
  specialize (Hwf Hp).
  assert (engine_wf w1) as Hw1.
  { split_and!; [done|by eapply schedule_wf_app|]. unfold schedule_timed. by rewrite Hsnap. }
  destruct r1 as [[]|e]; [|done]. simpl.
  destruct (assemble env w1) as [a|e] eqn:Ha; [|done].
  pose proof (LoadEsports_callbacks_same_engine (set_snapshot (publish env w1 a) w1)) as Hcb.
  unfold wp in Hcb. destruct (LoadEsports_callbacks _) as [w' r]. simpl.
  assert (same_engine (set_snapshot (publish env w1 a) w1) w')
    as (Hh & _ & Hpr & Hsn & _) by (by destruct r).
  pose proof (publish_schedule_wf env w1 a Hwf Ha) as Hpub.
  pose proof (publish_schedule_timed env w1 a Hwf Ha) as Hpubt.
  split_and!.
  - unfold providers_wf. rewrite Hh, Hpr. done.
  - intros m Hm. rewrite Hsn in Hm |- *. rewrite Hh. by apply Hpub.
  - unfold schedule_timed. by rewrite Hsn.
Qed.

Lemma engine_wf_UpdateEsportsMatches env w :
  engine_wf w -> engine_wf (fst (UpdateEsportsMatches env w)).
Proof.
  intros (Hp & Hs & Ht).
  pose proof (UpdateEsportsMatches_frame env w) as H. unfold wp in H.
  destruct (UpdateEsportsMatches env w) as [w' r]. simpl.
  assert (world_frame w w') as Hf by (destruct r; [apply H|done]).
  split_and!; [|by eapply schedule_wf_frame|].
  - destruct Hf as (Hpr & _ & _ & _ & _ & Hh). unfold providers_wf. rewrite Hpr.
    eapply Forall_impl; [done|]. intros p. by apply brackets_wf_frame.
  - destruct Hf as (_ & Hsn & _). unfold schedule_timed. by rewrite Hsn.
Qed.

Lemma engine_wf_initial : engine_wf initial_world.
Proof.
  split_and!.
  - repeat constructor; by intros k b l ?%elem_of_nil.
  - by intros m ?%elem_of_nil.
  - constructor.
Qed.

Lemma reachable_wf w : reachable w -> engine_wf w.
Proof.
  induction 1 as [|fn w _ IH|env w _ IH|env w _ IH].
  - apply engine_wf_initial.
  - done.
  - by apply engine_wf_LoadEsports.
  - by apply engine_wf_UpdateEsportsMatches.
Qed.


(** In every state the engine can reach, the published schedule is in the
    order of the times of its matches: [GetSchedule] lists the upcoming
    matches from the earliest on, [GetResults] the results from the latest
    on. *)
Theorem schedule_chronological w :
  reachable w ->
  StronglySorted (fun x y => time x <= time y) (es_schedule (snapshot w)).
Proof. by intros (_ & _ & Ht)%reachable_wf. Qed.

(** [LoadData] and [LoadEsports] only add to the store of matches: no match
    that existed before the call is changed, whether the call returns or
    raises. *)
Theorem reload_store_grows env :
  (forall s, exists N, heap (fst (LoadData env s)) = heap s ++ N) /\
  (forall w, exists N, w_heap (fst (LoadEsports env w)) = w_heap w ++ N).
Proof.
  split.
  - intros s. pose proof (LoadData_keeps env s) as H. unfold wp in H.
    destruct (LoadData env s) as [s' r]. simpl.
    by assert (load_inv (brackets_wf (heap s) (_brackets (self s))) (heap s) s')
      as [? _] by (by destruct r).
  - intros w.
    pose proof (LoadEsports_providers_inv env w) as H1. unfold wp in H1.
    unfold LoadEsports, mbind, M_bind, get_state, lift, modify.
    destruct (LoadEsports_providers env w) as [w1 r1].
    assert (loading_inv w w1) as ([N HN] & _) by (by destruct r1).
    destruct r1 as [[]|e]; [|by exists N]. simpl.
    destruct (assemble env w1) as [a|e] eqn:Ha; [|by exists N].
    pose proof (LoadEsports_callbacks_same_engine (set_snapshot (publish env w1 a) w1)) as Hcb.
    unfold wp in Hcb. destruct (LoadEsports_callbacks _) as [w' r]. simpl.
    assert (same_engine (set_snapshot (publish env w1 a) w1) w') as (Hh & _)
      by (by destruct r).
    exists N. by rewrite Hh.
Qed.

(** ** What a poll of GrumbleProvider returns *)

Lemma deciding_inv_update s0 acc s (l : loc) t :
  t <> "" -> deciding_inv s0 acc s ->
  deciding_inv s0 acc (mkPState (alter (set_winner t) l (heap s)) (rng_pos s) (self s)).
Proof.
  intros Ht (Hun & Hacc & Hnd). split_and!; simpl; [| |done].
  - intros l' m Hm Hw. destruct (decide (l' = l)) as [->|Hne].
    + rewrite list_lookup_alter_eq in Hm.
      apply fmap_Some in Hm as (m0 & _ & ->). simpl in Hw. done.
    + rewrite list_lookup_alter_ne in Hm by done. by apply Hun.
  - eapply Forall_impl; [done|]. intros l' (m & m' & H0 & Hw0 & H1 & Hw1).
    destruct (decide (l' = l)) as [->|Hne].
    + exists m, (set_winner t m'). split_and!; try done.
      rewrite list_lookup_alter_eq. unfold loc in *. by rewrite H1.
    + exists m, m'. split_and!; try done. by rewrite list_lookup_alter_ne.
Qed.

Lemma pb_set_string_truthy j t : pb_set_string j = Ok t -> py_truthy j = true -> t <> "".
Proof.
  destruct j; try done. simpl. intros [= ->] Ht ->. done.
Qed.

Lemma _UpdateSchedule_team_deciding s0 acc (old_match : loc) team s :
  deciding_inv s0 acc s ->
  wp (_UpdateSchedule_team old_match team) (fun _ => deciding_inv s0 acc) (fun _ => True) s.
Proof.
  intros Hs. unfold _UpdateSchedule_team. repeat (wp_step2; cbv beta); try done.
  - apply deciding_inv_update; [|done]. eapply pb_set_string_truthy; [done|].
    by destruct (py_truthy _).
  - by apply deciding_inv_update.
Qed.

Lemma _UpdateSchedule_match_deciding s0 pre bkey acc match_ s :
  deciding_inv s0 (pre ++ snd acc) s ->
  wp (_UpdateSchedule_match bkey acc match_) (fun acc' => deciding_inv s0 (pre ++ snd acc'))
    (fun _ => True) s.
Proof.
  intros Hs. unfold _UpdateSchedule_match. repeat (wp_step2; cbv beta); try done.
  match goal with
  | Hm : heap s !! ?l = Some ?m, Hw : negb (String.eqb (winner ?m) "") = false |- _ =>
      rename Hm into Hm0; rename Hw into Hw0; rename l into l0; rename m into m0
  end.
  apply negb_false_iff, String.eqb_eq in Hw0.
  apply (wp_for_ (deciding_inv s0 (pre ++ snd acc))); [done| |].
  { intros team s' _ Hs'. by apply _UpdateSchedule_team_deciding. }
  intros s' Hs'. repeat (wp_step2; cbv beta); try done.
  match goal with
  | Hm : heap s' !! l0 = Some ?m, Hw : negb (String.eqb (winner ?m) "") = true |- _ =>
      rename Hm into Hm1; rename Hw into Hw1; rename m into m1
  end.
  apply negb_true_iff, String.eqb_neq in Hw1.
  destruct Hs as (Hun & Hacc & _). destruct Hs' as (Hun' & Hacc' & Hnd').
  simpl. rewrite app_assoc. split_and!; [done| |].
  - apply Forall_app. split; [done|]. constructor; [|done].
    exists m0, m1. split_and!; try done. by apply Hun.
  - apply NoDup_app. split_and!; [done| |apply NoDup_singleton].
    intros l Hl ->%list_elem_of_singleton.
    rewrite Forall_forall in Hacc.
    destruct (Hacc _ Hl) as (m & m' & _ & _ & Hm' & Hw').
    unfold loc in *. congruence.
Qed.

Lemma _UpdateSchedule_deciding s0 pre schedule bkey s :
  deciding_inv s0 pre s ->
  wp (_UpdateSchedule schedule bkey) (fun u => deciding_inv s0 (pre ++ u)) (fun _ => True) s.
Proof.
  intros Hs. unfold _UpdateSchedule. repeat (wp_step2; cbv beta); try done.
  apply (wp_fold_ (fun acc => deciding_inv s0 (pre ++ snd acc))).
  - simpl. by rewrite app_nil_r.
  - intros week acc s' _ Hs'. repeat (wp_step2; cbv beta); try done.
    apply (wp_fold_ (fun acc => deciding_inv s0 (pre ++ snd acc))); [done| |done].
    intros m acc' s'' _ Hs''. by apply _UpdateSchedule_match_deciding.
  - intros acc s' Hs'. by repeat (wp_step2; cbv beta).
Qed.

Lemma Grumble_UpdateMatches_deciding env s s' updated_matches :
  Grumble_UpdateMatches env s = (s', Ok updated_matches) ->
  deciding_inv s updated_matches s'.
Proof.
  intros Hrun.
  assert (wp (Grumble_UpdateMatches env) (deciding_inv s) (fun _ => True) s) as H.
  { assert (deciding_inv s [] s) as Hs by (split_and!; [done|done|constructor]).
    unfold Grumble_UpdateMatches. repeat (wp_step2; cbv beta); try done.
    eapply wp_mono; [by apply (_UpdateSchedule_deciding s [])| |done].
    intros u1 s1 Hs1. simpl in Hs1. repeat (wp_step2; cbv beta); try done.
    eapply wp_mono; [by apply (_UpdateSchedule_deciding s u1)| |done].
    intros u2 s2 Hs2. by repeat (wp_step2; cbv beta). }
  unfold wp in H. by rewrite Hrun in H.
Qed.

(** [GrumbleProvider.UpdateMatches] returns each match at most once, and
    only matches it has decided: a returned match had no winner before the
    poll and has one after it.  The next poll does not return it again. *)
Theorem Grumble_UpdateMatches_newly_decided env s s' updated_matches :
  Grumble_UpdateMatches env s = (s', Ok updated_matches) ->
  NoDup updated_matches /\
  (forall l, l ∈ updated_matches -> newly_decided (heap s) (heap s') l) /\
  (forall env' s'' updated_matches' l,
     Grumble_UpdateMatches env' s' = (s'', Ok updated_matches') ->
     l ∈ updated_matches -> l ∉ updated_matches').
Proof.
  intros Hrun. destruct (Grumble_UpdateMatches_deciding _ _ _ _ Hrun) as (_ & Hacc & Hnd).
  rewrite Forall_forall in Hacc. split_and!; [done|done|].
  intros env' s'' u' l Hrun' Hl Hl'.
  destruct (Grumble_UpdateMatches_deciding _ _ _ _ Hrun') as (_ & Hacc' & _).
  rewrite Forall_forall in Hacc'.
  destruct (Hacc _ Hl) as (_ & m' & _ & _ & Hm' & Hw').
  destruct (Hacc' _ Hl') as (m2 & _ & Hm2 & Hw2 & _).
  unfold loc in *. congruence.
Qed.

(** ** A poll reports no match that was decided before *)

Lemma undecided_before_refl h : undecided_before h h.
Proof. by intros l. Qed.

Lemma undecided_before_trans h0 h1 h2 :
  undecided_before h0 h1 -> undecided_before h1 h2 -> undecided_before h0 h2.
Proof. intros H1 H2 l Hl. by apply H1, H2. Qed.

Lemma polling_inv_update h0 s (l : loc) f :
  (forall m, winner (f m) = "" -> winner m = "") ->
  polling_inv h0 s ->
  polling_inv h0 (mkPState (alter f l (heap s)) (rng_pos s) (self s)).
Proof.
  intros Hf Hs l' (m & Hm & Hw). simpl in Hm. apply Hs.
  destruct (decide (l' = l)) as [->|Hne].
  - rewrite list_lookup_alter_eq in Hm. apply fmap_Some in Hm as (m0 & Hm0 & ->).
    exists m0. split; [done|]. by apply Hf.
  - rewrite list_lookup_alter_ne in Hm by done. by exists m.
Qed.

Lemma polling_inv_decide h0 s (l : loc) x :
  undecided (heap s) l -> polling_inv h0 s ->
  polling_inv h0 (mkPState (alter (set_winner x) l (heap s)) (rng_pos s) (self s)).
Proof.
  intros Hl Hs l' (m & Hm & Hw). simpl in Hm. apply Hs.
  destruct (decide (l' = l)) as [->|Hne]; [done|].
  rewrite list_lookup_alter_ne in Hm by done. by exists m.
Qed.

Ltac wp_reads :=
  repeat first
    [ wp_step2; cbv beta
    | lazymatch goal with
      | Hm : reads ?m |- wp ?m _ _ _ =>
          eapply keeps_wp; [apply Hm|eassumption|intros ? ? ?; cbv beta]
      end ];
  try done.

Lemma get_roster_reads x : reads (get_roster x).
Proof. intros I s Hs. unfold get_roster. wp_reads. Qed.

Lemma _FindTeam_reads team : reads (_FindTeam team).
Proof.
  intros I s Hs. unfold _FindTeam. pose proof get_roster_reads. wp_reads.
  eapply keeps_wp; [apply get_roster_reads|done|]. intros t s' Hs'. cbv beta. wp_reads.
Qed.

Lemma _ExtractMatchTeams_reads match_ : reads (_ExtractMatchTeams match_).
Proof.
  intros I s Hs. unfold _ExtractMatchTeams. wp_reads.
  apply (wp_mmap I); [done| |].
  - intros x s' Hs'. by apply _FindTeam_reads.
  - intros ns s' Hs'. wp_reads.
Qed.

Section polling.
Context (h0 : list MatchProto).

Local Abbreviation inv := (polling_inv h0).

Lemma top_group_winner_polling match_ (l : loc) s :
  inv s -> undecided (heap s) l ->
  wp (top_group_winner match_ l) (fun _ => inv) inv s.
Proof.
  intros Hs Hl. unfold top_group_winner. repeat (wp_step2; cbv beta); try done.
  - by apply polling_inv_decide.
  - eapply wp_mono; [by apply (get_roster_reads _ (fun s' => s' = s))| |]; cbv beta.
    + intros t s' ->. wp_step2. by apply polling_inv_decide.
    + by intros s' ->.
Qed.

Lemma inv_set_blue s (l : loc) x : inv s ->
  inv (mkPState (alter (set_blue x) l (heap s)) (rng_pos s) (self s)).
Proof. by apply polling_inv_update. Qed.

Lemma inv_set_red s (l : loc) x : inv s ->
  inv (mkPState (alter (set_red x) l (heap s)) (rng_pos s) (self s)).
Proof. by apply polling_inv_update. Qed.

Lemma Rito_UpdateMatches_match_polling acc match_ s :
  inv s -> Forall (undecided h0) acc ->
  wp (Rito_UpdateMatches_match acc match_)
     (fun acc' s' => inv s' /\ Forall (undecided h0) acc') inv s.
Proof.
  intros Hs Hacc. unfold Rito_UpdateMatches_match.
  repeat (lazymatch goal with
          | |- wp ((if _ then _ else _) ≫= _) _ _ _ => fail
          | _ => wp_step2; cbv beta
          end); try done.
  apply wp_bind. eapply wp_mono with (Q := fun _ => inv) (E := inv); [| |done].
  { wp_step2; [|by wp_step2]. wp_step2.
    eapply keeps_wp; [apply _ExtractMatchTeams_reads|done|]. intros r s' Hs'. cbv beta.
    repeat (wp_step2; cbv beta); try done; try (by apply inv_set_red, inv_set_blue). by apply inv_set_blue. }
  intros _ s1 Hs1. cbv beta.
  repeat (wp_step2; cbv beta); try done.
  assert (undecided (heap s1) l) as Hl.
  { eexists. split; [eassumption|]. by apply String.eqb_eq, negb_false_iff. }
  eapply wp_mono; [by apply top_group_winner_polling| |done].
  intros [] s2 Hs2. cbv beta in *. wp_step2. split; [done|].
  apply Forall_app. split; [done|]. apply Forall_singleton. by apply Hs1.
Qed.

Lemma Rito_UpdateMatches_polling env s :
  inv s ->
  wp (Rito_UpdateMatches env) (fun acc s' => inv s' /\ Forall (undecided h0) acc) inv s.
Proof.
  intros Hs. unfold Rito_UpdateMatches.
  repeat (wp_step2; cbv beta); try done.
  apply (wp_fold_ (fun acc s' => inv s' /\ Forall (undecided h0) acc)); [done| |done].
  intros t acc s1 _ [Hs1 Hacc]. repeat (wp_step2; cbv beta); try done.
  apply (wp_fold_ (fun acc s' => inv s' /\ Forall (undecided h0) acc)); [done| |done].
  intros b acc2 s2 _ [Hs2 Hacc2]. repeat (wp_step2; cbv beta); try done.
  apply (wp_fold_ (fun acc s' => inv s' /\ Forall (undecided h0) acc)); [done| |done].
  intros m acc3 s3 _ [Hs3 Hacc3]. by apply Rito_UpdateMatches_match_polling.
Qed.
End polling.

Lemma UpdateMatches_polling env s :
  wp (UpdateMatches env)
     (fun u s' => undecided_before (heap s) (heap s') /\ Forall (undecided (heap s)) u)
     (fun _ => True) s.
Proof.
  unfold UpdateMatches. wp_step2. wp_step2. cbv beta. wp_step2.
  - eapply wp_mono; [apply (Rito_UpdateMatches_polling (heap s)), undecided_before_refl|done|done].
  - unfold wp. destruct (Grumble_UpdateMatches env s) as [s' [u|e]] eqn:Hrun; [|done].
    apply Grumble_UpdateMatches_deciding in Hrun as (Hh & Hu & _). split.
    + intros l (m & Hm & Hw). exists m. eauto.
    + eapply Forall_impl; [exact Hu|]. intros l (m & m' & Hm & Hw & _). by exists m.
Qed.

Lemma UpdateEsportsMatches_polling env w :
  wp (UpdateEsportsMatches env)
     (fun u w' => undecided_before (w_heap w) (w_heap w') /\ Forall (undecided (w_heap w)) u)
     (fun _ => True) w.
Proof.
  unfold UpdateEsportsMatches. wp_step2. wp_step2. cbv beta.
  apply (wp_fold_ (fun u w' => undecided_before (w_heap w) (w_heap w') /\
                              Forall (undecided (w_heap w)) u)); [|clear|done].
  { split; [apply undecided_before_refl|constructor]. }
  intros i acc w1 _ [Hw1 Hacc]. wp_step2.
  unfold wp at 1, on_provider. destruct (_providers w1 !! i) as [p|]; [|done].
  pose proof (UpdateMatches_polling env (mkPState (w_heap w1) (w_rng w1) p)) as H.
  unfold wp in H. destruct (UpdateMatches env _) as [s' [u|e]]; [|done]. simpl in H.
  destruct H as [Hs' Hu]. cbv beta. wp_step2. simpl. split.
  - by eapply undecided_before_trans.
  - apply Forall_app. split; [done|]. eapply Forall_impl; [exact Hu|]. intros l. apply Hw1.
Qed.

(** [UpdateEsportsMatches] reports no match that had a winner before the
    poll, and takes no winner back: a match without a winner after the poll
    had none before it. *)
Theorem UpdateEsportsMatches_undecided_before env w w' updated_matches :
  UpdateEsportsMatches env w = (w', Ok updated_matches) ->
  (forall l, l ∈ updated_matches -> exists m, w_heap w !! l = Some m /\ winner m = "") /\
  (forall l m', w_heap w' !! l = Some m' -> winner m' = "" ->
     exists m, w_heap w !! l = Some m /\ winner m = "").
Proof.
  intros Hrun. pose proof (UpdateEsportsMatches_polling env w) as H.
  unfold wp in H. rewrite Hrun in H. destruct H as [Hh Hu]. split.
  - intros l Hl. rewrite Forall_forall in Hu. by apply Hu.
  - intros l m' Hm' Hw. apply Hh. by exists m'.
Qed.

(** ** Polling GrumbleProvider twice *)

Lemma wp_run {S A} (m : M S A) (Q : A -> S -> Prop) E s s' a :
  wp m Q E s -> m s = (s', Ok a) -> Q a s'.
Proof. unfold wp. intros H Hrun. by rewrite Hrun in H. Qed.

Lemma _UpdateSchedule_team_cases (l : loc) team s s' :
  _UpdateSchedule_team l team s = (s', Ok tt) ->
  (s' = s /\ forall t, _UpdateSchedule_team l team t = (t, Ok tt)) \/
  (exists x, x <> "" /\
     s' = mkPState (alter (set_winner x) l (heap s)) (rng_pos s) (self s)).
Proof.
  unfold _UpdateSchedule_team, mbind, M_bind, lift, pass, update_match. simpl.
  destruct (Access team "ref.id" JNull) as [team_id|]; [|done].
  destruct (py_truthy team_id) eqn:Ht; simpl; [|intros [= <-]; by left].
  destruct (py_getitem team "outcome") as [outcome|]; [|done].
  destruct (negb (py_truthy outcome)); [intros [= <-]; by left|].
  destruct (py_eq outcome (JStr "VICTORY")).
  - destruct (pb_set_string team_id) as [tid|] eqn:Htid; [|done].
    intros [= <-]. right. exists tid. split; [|done]. by eapply pb_set_string_truthy.
  - destruct (py_eq outcome (JStr "TIE")); intros [= <-]; [|by left].
    right. by exists "TIE".
Qed.

Lemma _UpdateSchedule_teams_cases (l : loc) team1 team2 s s' :
  for_ [team1; team2] (_UpdateSchedule_team l) s = (s', Ok tt) ->
  (forall t, for_ [team1; team2] (_UpdateSchedule_team l) t = (t, Ok tt)) \/
  (forall m, heap s' !! l = Some m -> winner m <> "").
Proof.
  simpl. unfold mbind, M_bind.
  destruct (_UpdateSchedule_team l team1 s) as [s1 [[]|]] eqn:H1; [|done].
  destruct (_UpdateSchedule_team l team2 s1) as [s2 [[]|]] eqn:H2; [|done].
  intros [= <-].
  apply _UpdateSchedule_team_cases in H1 as [[-> H1]|(x1 & Hx1 & ->)];
    apply _UpdateSchedule_team_cases in H2 as [[-> H2]|(x2 & Hx2 & ->)].
  - left. intros t. by rewrite H1, H2.
  - right. simpl. intros m. rewrite list_lookup_alter_eq.
    intros (m0 & _ & ->)%fmap_Some. done.
  - right. simpl. intros m. rewrite list_lookup_alter_eq.
    intros (m0 & _ & ->)%fmap_Some. done.
  - right. simpl. intros m. rewrite list_lookup_alter_eq.
    intros (m0 & _ & ->)%fmap_Some. done.
Qed.

Lemma polled_after_refl s : polled_after s s.
Proof. done. Qed.

Lemma polled_after_trans s1 s2 s3 :
  polled_after s1 s2 -> polled_after s2 s3 -> polled_after s1 s3.
Proof.
  intros (Hs1 & Hl1 & Hu1) (Hs2 & Hl2 & Hu2). split_and!; [congruence|congruence|].
  intros l m Hm Hw. apply Hu1; [|done]. by apply Hu2.
Qed.

Lemma _UpdateSchedule_team_after (l : loc) team s s' :
  _UpdateSchedule_team l team s = (s', Ok tt) -> polled_after s s'.
Proof.
  intros H. apply _UpdateSchedule_team_cases in H as [[-> _]|(x & Hx & ->)]; [done|].
  split_and!; simpl; [done|by rewrite length_alter|].
  intros l' m Hm Hw. destruct (decide (l' = l)) as [->|Hne].
  - rewrite list_lookup_alter_eq in Hm. apply fmap_Some in Hm as (m0 & _ & ->). done.
  - by rewrite list_lookup_alter_ne in Hm.
Qed.

Lemma polled_after_lookup s t (l : loc) m :
  polled_after s t -> heap s !! l = Some m ->
  exists mt, heap t !! l = Some mt /\ (winner mt = "" -> mt = m).
Proof.
  intros (_ & Hlen & Hun) Hm.
  destruct (heap t !! l) as [mt|] eqn:Hmt.
  - exists mt. split; [done|]. intros Hw. specialize (Hun _ _ Hmt Hw).
    unfold loc in *. congruence.
  - apply lookup_ge_None in Hmt. apply lookup_lt_Some in Hm. lia.
Qed.

(** One match of the schedule in a poll that returned: the provider moves
    forward, and the same match in a later poll changes nothing and adds
    nothing. *)
Lemma _UpdateSchedule_match_twice bkey cnt acc match_ s s' acc' :
  _UpdateSchedule_match bkey (cnt, acc) match_ s = (s', Ok acc') ->
  polled_after s s' /\ fst acc' = S cnt /\
  forall t acc2, polled_after s' t ->
    _UpdateSchedule_match bkey (cnt, acc2) match_ t = (t, Ok (S cnt, acc2)).
Proof.
  unfold _UpdateSchedule_match, get_bracket, get_self, gets, read_match, mbind, M_bind,
    lift, ret, raise. simpl.
  destruct (od_get (_brackets (self s)) bkey) as [b|] eqn:Hb; [|done]. simpl.
  destruct (od_get (_matches (self s)) _) as [l|] eqn:Hl.
  2:{ intros [= <- <-]. split_and!; [done|done|].
      intros t acc2 (Hself & _). rewrite Hself, Hb. simpl. by rewrite Hl. }
  destruct (heap s !! l) as [m|] eqn:Hm; [|done]. simpl.
  destruct (String.eqb (winner m) "") eqn:Hw; simpl.
  2:{ intros [= <- <-]. split_and!; [done|done|].
      intros t acc2 Ht. pose proof Ht as (Hself & _). rewrite Hself, Hb. simpl. rewrite Hl.
      destruct (polled_after_lookup _ _ _ _ Ht Hm) as (mt & -> & Hmt). simpl.
      destruct (String.eqb (winner mt) "") eqn:Hwt; [|reflexivity].
      apply String.eqb_eq in Hwt. apply String.eqb_neq in Hw. destruct Hw.
      by rewrite <- (Hmt Hwt). }
  destruct (py_getitem match_ "team1") as [team1|]; [|done]. simpl.
  destruct (py_getitem match_ "team2") as [team2|]; [|done]. simpl.
  unfold mbind, M_bind, mret, M_ret.
  destruct (_UpdateSchedule_team l team1 s) as [s1 [[]|]] eqn:H1; [|done].
  destruct (_UpdateSchedule_team l team2 s1) as [s2 [[]|]] eqn:H2; [|done]. simpl.
  destruct (heap s2 !! l) as [m2|] eqn:Hm2; [|done]. simpl.
  assert (for_ [team1; team2] (_UpdateSchedule_team l) s = (s2, Ok tt)) as Hloop
    by (simpl; unfold mbind, M_bind; by rewrite H1, H2).
  assert (polled_after s s2) as Hs2
    by (eapply polled_after_trans; by eapply _UpdateSchedule_team_after).
  intros Hret.
  assert (s' = s2 /\ fst acc' = S cnt) as [-> Hcnt]
    by (destruct (negb _); by injection Hret as <- <-).
  split_and!; [done|done|].
  intros t acc2 Ht. pose proof Ht as (Hself & _). destruct Hs2 as (Hself2 & _).
  rewrite Hself, Hself2, Hb. simpl. rewrite Hl.
  destruct (polled_after_lookup _ _ _ _ Ht Hm2) as (mt & Hmt & Hmt'). rewrite Hmt. simpl.
  destruct (String.eqb (winner mt) "") eqn:Hwt; [|reflexivity]. simpl.
  unfold mbind, M_bind, mret, M_ret.
  apply String.eqb_eq in Hwt. specialize (Hmt' Hwt). subst mt.
  apply _UpdateSchedule_teams_cases in Hloop as [Hnoop|Hdec]; [|by destruct (Hdec _ Hm2)].
  specialize (Hnoop t). simpl in Hnoop. unfold mbind, M_bind in Hnoop.
  destruct (_UpdateSchedule_team l team1 t) as [t1 [[]|]]; [|done].
  destruct (_UpdateSchedule_team l team2 t1) as [t2 [[]|]]; [|done].
  injection Hnoop as ->. rewrite Hmt. simpl. rewrite Hwt. done.
Qed.

Lemma fold_twice {A} (body : nat * list loc -> A -> M PState (nat * list loc)) l :
  (forall x cnt acc s s' acc',
     body (cnt, acc) x s = (s', Ok acc') ->
     polled_after s s' /\
     forall t acc2, polled_after s' t -> body (cnt, acc2) x t = (t, Ok (fst acc', acc2))) ->
  forall cnt acc s s' acc',
    fold_ l body (cnt, acc) s = (s', Ok acc') ->
    polled_after s s' /\
    forall t acc2, polled_after s' t -> fold_ l body (cnt, acc2) t = (t, Ok (fst acc', acc2)).
Proof.
  intros Hbody. induction l as [|x l IH]; intros cnt acc s s' acc'; simpl.
  - intros [= <- <-]. split; [done|]. by intros t acc2 _.
  - unfold mbind, M_bind.
    destruct (body (cnt, acc) x s) as [s1 [[cnt1 acc1]|]] eqn:H1; [|done].
    intros Hrest. destruct (Hbody _ _ _ _ _ _ H1) as [Hs1 Hx].
    destruct (IH _ _ _ _ _ Hrest) as [Hs' Hl]. split; [by eapply polled_after_trans|].
    intros t acc2 Ht. rewrite Hx by (by eapply polled_after_trans). simpl. by apply Hl.
Qed.

Lemma _UpdateSchedule_twice schedule bkey s s' updated_matches :
  _UpdateSchedule schedule bkey s = (s', Ok updated_matches) ->
  polled_after s s' /\
  forall t, polled_after s' t -> _UpdateSchedule schedule bkey t = (t, Ok []).
Proof.
  unfold _UpdateSchedule, mbind, M_bind, lift, ret. simpl.
  destruct (py_iter schedule) as [weeks|]; [|done].
  match goal with
  | |- context [fold_ weeks ?body (0%nat, []) s] =>
      destruct (fold_ weeks body (0%nat, []) s) as [s1 [acc1|]] eqn:Hrun; [|done];
      apply (fold_twice body) in Hrun as [Hs1 Htwice]
  end.
  - intros [= <- <-]. split; [done|]. intros t Ht. rewrite (Htwice t []) by done. reflexivity.
  - intros week cnt acc s0 s0' acc0. unfold mbind, M_bind, lift.
    destruct (result_bind _ _ py_iter (py_getitem week "matches")) as [ms|]; [|done].
    apply fold_twice. clear. intros match_ cnt acc s s' acc' Hrun.
    destruct (_UpdateSchedule_match_twice _ _ _ _ _ _ _ Hrun) as (Hs & Hcnt & Ht).
    split; [done|]. intros t acc2 Hpt. rewrite Hcnt. by apply Ht.
Qed.

(** [GrumbleProvider.UpdateMatches] is idempotent: after a poll that
    returned, a second poll with the same upstream responses returns no
    match and changes nothing. *)
Theorem Grumble_UpdateMatches_idempotent env s s' updated_matches :
  Grumble_UpdateMatches env s = (s', Ok updated_matches) ->
  Grumble_UpdateMatches env s' = (s', Ok []).
Proof.
  unfold Grumble_UpdateMatches, get_bracket, get_self, gets, mbind, M_bind, lift, ret, raise.
  simpl.
  destruct (py_getitem (FetchJson env (Grumble_bracket_url (self s) "season") true false)
              "schedule") as [schedule1|] eqn:Hf1; [|done].
  destruct (od_get (_brackets (self s)) "season") as [b1|] eqn:Hb1; [|done]. simpl.
  destruct (_UpdateSchedule schedule1 "season" s) as [sa [u1|]] eqn:H1; [|done].
  apply _UpdateSchedule_twice in H1 as [(Hselfa & Hsa) H1].
  rewrite Hselfa.
  destruct (py_getitem (FetchJson env (Grumble_bracket_url (self s) "playoffs") true false)
              "schedule") as [schedule2|] eqn:Hf2; [|done].
  destruct (od_get (_brackets (self s)) "playoffs") as [b2|] eqn:Hb2; [|done]. simpl.
  destruct (_UpdateSchedule schedule2 "playoffs" sa) as [sb [u2|]] eqn:H2; [|done].
  apply _UpdateSchedule_twice in H2 as [Hsb H2].
  intros [= <- _]. pose proof Hsb as (Hselfb & _).
  rewrite Hselfb, Hselfa, Hf1, Hb1. simpl.
  rewrite (H1 sb Hsb). rewrite Hselfb, Hselfa, Hf2, Hb2. simpl.
  by rewrite (H2 sb (polled_after_refl sb)).
Qed.

(** ** The ranks GrumbleProvider gives *)

Lemma ahead_of_app t l1 l2 : ahead_of t (l1 ++ l2) = (ahead_of t l1 + ahead_of t l2)%nat.
Proof. unfold ahead_of. by rewrite filter_app, length_app. Qed.

Lemma ahead_of_none t l : Forall (fun t' => points t' <= points t) l -> ahead_of t l = 0%nat.
Proof.
  unfold ahead_of. induction 1 as [|t' l Ht' _ IH]; [done|].
  rewrite filter_cons_False by lia. done.
Qed.

Lemma ahead_of_all t l : Forall (fun t' => points t < points t') l -> ahead_of t l = length l.
Proof.
  unfold ahead_of. induction 1 as [|t' l Ht' _ IH]; [done|].
  rewrite filter_cons_True by done. simpl. by rewrite IH.
Qed.

Lemma ahead_of_points t t' l : points t = points t' -> ahead_of t l = ahead_of t' l.
Proof. unfold ahead_of. by intros ->. Qed.

Lemma ahead_of_assign_ranks t i rank cur l :
  ahead_of t (assign_ranks i rank cur l) = ahead_of t l.
Proof.
  revert i rank cur. induction l as [|t' l IH]; intros i rank cur; [done|].
  simpl. change (ahead_of t (?x :: ?l)) with (ahead_of t ([x] ++ l)).
  rewrite !ahead_of_app, IH. f_equal.
  unfold ahead_of. rewrite !filter_cons. simpl. by destruct (decide _).
Qed.

(** The loop after the entries [pre]: [cur_points] is the points of the last
    of them, [rank] its rank. *)
Lemma assign_ranks_competition pre rk cur l t :
  StronglySorted (fun x y => points y <= points x) l ->
  (forall t' x, t' ∈ pre -> x ∈ l -> points x <= points t') ->
  (pre = [] \/ Forall (fun t' => points t' <= cur) l) ->
  Forall (fun t' => cur <= points t') pre ->
  rk = 1 + Z.of_nat (length (filter (fun t' => cur < points t') pre)) ->
  t ∈ assign_ranks (length pre) rk cur l ->
  rank t = 1 + Z.of_nat (ahead_of t (pre ++ l)).
Proof.
  revert pre rk cur. induction l as [|t1 l IH]; intros pre rk cur Hs Hpl Hl Hpre Hrank; simpl.
  { by intros ?%elem_of_nil. }
  apply StronglySorted_inv in Hs as [Hs Ht1].
  assert (Forall (fun t' => points t1 <= points t') pre) as Hpre1.
  { apply Forall_forall. intros t' Ht'. apply Hpl; [done|by left]. }
  set (rank' := if bool_decide (points t1 = cur) then rk else Z.of_nat (length pre) + 1).
  assert (rank' = 1 + Z.of_nat (length (filter (fun t' => points t1 < points t') pre))) as Hrank'.
  { unfold rank'. case_bool_decide as Hc; [by rewrite Hc|].
    destruct Hl as [->|Hl]; [done|]. apply Forall_cons in Hl as [Hle _].
    change (length (filter _ pre)) with (ahead_of t1 pre).
    rewrite ahead_of_all; [lia|]. eapply Forall_impl; [exact Hpre|]. simpl. lia. }
  intros [->|Hin]%elem_of_cons.
  - simpl. rewrite Hrank'. f_equal. f_equal.
    rewrite ahead_of_app. change (ahead_of _ pre) with
      (length (filter (fun t' => points t1 < points t') pre)).
    rewrite (ahead_of_none _ (t1 :: l)); [lia|].
    constructor; [simpl; lia|]. eapply Forall_impl; [exact Ht1|]. simpl. lia.
  - replace (pre ++ t1 :: l) with ((pre ++ [t1]) ++ l) by by rewrite <- app_assoc.
    apply (IH (pre ++ [t1]) rank' (points t1)).
    + done.
    + intros t' x [Ht'|Ht'%list_elem_of_singleton]%elem_of_app Hx.
      * apply Hpl; [done|by right].
      * subst t'. rewrite Forall_forall in Ht1. by apply Ht1.
    + right. done.
    + apply Forall_app. split; [done|]. by constructor.
    + rewrite filter_app, length_app. rewrite (filter_cons_False _ t1) by lia.
      simpl. rewrite Hrank'. lia.
    + by rewrite length_app, Nat.add_1_r.
Qed.

Lemma final_standings_ranked (d : list (string * TeamStanding)) :
  competition_ranked (assign_ranks 0 1 (-1) (sorted points true (od_values d))).
Proof.
  intros t Ht. rewrite ahead_of_assign_ranks.
  apply (assign_ranks_competition [] 1 (-1)); simpl; auto.
  - apply sorted_descending.
  - by intros t' x ?%elem_of_nil.
Qed.

Lemma ranking_inv_same bkey ks s s' :
  _brackets (self s') = _brackets (self s) ->
  ranking_inv bkey ks s -> ranking_inv bkey ks s'.
Proof. unfold ranking_inv. by intros ->. Qed.

Lemma ranking_inv_add_schedule bkey ks s m :
  ranking_inv bkey ks s ->
  ranking_inv bkey ks
    (with_self (fun p => set_brackets (od_update (_brackets p) bkey (add_schedule m)) p) s).
Proof.
  intros (Hks & Hok & Hempty). split_and!; simpl.
  - by rewrite od_keys_od_update.
  - intros k b [[_ Hin]|[_ (b0 & Hin & ->)]]%elem_of_od_update; [eauto|].
    apply (Hok _ _ Hin).
  - intros b [[_ Hin]|[_ (b0 & Hin & ->)]]%elem_of_od_update; [eauto|].
    simpl. eauto.
Qed.

Ltac ranking_side :=
  try done;
  first [ eassumption
        | apply ranking_inv_add_schedule; ranking_side
        | eapply ranking_inv_same; [|eassumption]; done ].

Lemma _ParseSchedule_team_ranking bkey ks m standings team s :
  ranking_inv bkey ks s ->
  wp (_ParseSchedule_team m standings team)
    (fun _ => ranking_inv bkey ks) (fun _ => True) s.
Proof.
  intros Hs. unfold _ParseSchedule_team.
  repeat (wp_step2; cbv beta); try done; ranking_side.
Qed.

Lemma _ParseSchedule_match_ranking bkey ks acc match_ s :
  ranking_inv bkey ks s ->
  wp (_ParseSchedule_match bkey acc match_)
    (fun _ => ranking_inv bkey ks) (fun _ => True) s.
Proof.
  intros Hs. unfold _ParseSchedule_match.
  repeat (wp_step2; cbv beta); try done.
  apply (wp_for_ (ranking_inv bkey ks)); [ranking_side| |].
  { intros game s' _ Hs'. repeat (wp_step2; cbv beta); try done; ranking_side. }
  intros s' Hs'. repeat (wp_step2; cbv beta); try done.
  apply (wp_fold_ (fun _ => ranking_inv bkey ks)); [done| |].
  { intros team st s'' _ Hs''. by apply _ParseSchedule_team_ranking. }
  intros st s'' Hs''. repeat (wp_step2; cbv beta). done.
Qed.

Lemma ranking_inv_extend bkey ks s (d : list (string * TeamStanding)) :
  ranking_inv bkey ks s ->
  all_ranked ks
    (with_self (fun p =>
       set_brackets (od_update (_brackets p) bkey
         (extend_standings (assign_ranks 0 1 (-1) (sorted points true (od_values d))))) p) s).
Proof.
  intros (Hks & Hok & Hempty). split; simpl.
  - by rewrite od_keys_od_update.
  - intros k b [[_ Hin]|[-> (b0 & Hin & ->)]]%elem_of_od_update; [eauto|].
    simpl. rewrite (Hempty _ Hin). simpl. apply final_standings_ranked.
Qed.

Lemma _ParseSchedule_ranking schedule bkey ks s :
  ranking_inv bkey ks s ->
  wp (_ParseSchedule schedule bkey) (fun _ => all_ranked ks) (fun _ => True) s.
Proof.
  intros Hs. unfold _ParseSchedule.
  repeat (wp_step2; cbv beta); try done.
  apply (wp_fold_ (fun _ => ranking_inv bkey ks)); [done| |].
  - intros week acc s' _ Hs'. repeat (wp_step2; cbv beta); try done.
    apply (wp_fold_ (fun _ => ranking_inv bkey ks)); [done| |done].
    intros m acc' s'' _ ?. by apply _ParseSchedule_match_ranking.
  - intros acc s' Hs'. repeat (wp_step2; cbv beta).
    by apply ranking_inv_extend.
Qed.

Lemma all_ranked_same ks s s' :
  _brackets (self s') = _brackets (self s) -> all_ranked ks s -> all_ranked ks s'.
Proof. unfold all_ranked. by intros ->. Qed.

Lemma Grumble_LoadData_ranking env s :
  wp (Grumble_LoadData env) (fun _ => all_ranked ["season"; "playoffs"]) (fun _ => True) s.
Proof.
  unfold Grumble_LoadData.
  repeat (wp_step2; cbv beta); try done.
  eapply wp_mono; [apply (_ParseSchedule_ranking _ "season" ["season"])| |done].
  { split_and!; simpl; [done| |].
    - intros k b Hin%list_elem_of_singleton. simplify_eq. simpl.
      by intros t ?%elem_of_nil.
    - intros b Hin%list_elem_of_singleton. by simplify_eq. }
  intros [] s1 [Hks Hok]. repeat (wp_step2; cbv beta); try done.
  eapply wp_mono; [apply (_ParseSchedule_ranking _ "playoffs" ["season"; "playoffs"])| |done].
  { destruct (_brackets (self s1)) as [|[k1 b1] [|??]] eqn:Hb; simplify_eq/=.
    assert (competition_ranked (standings b1)) by (apply (Hok "season"); left).
    unfold ranking_inv. simpl. rewrite Hb. simpl.
    try (rewrite decide_False by done); simpl.
    split_and!; [done| |].
    - intros k b [?|[?|[]%elem_of_nil]%elem_of_cons]%elem_of_cons; simplify_eq; [done|].
      simpl. by intros t ?%elem_of_nil.
    - intros b [?|[?|[]%elem_of_nil]%elem_of_cons]%elem_of_cons; by simplify_eq. }
  intros [] s2 Hs2. repeat (wp_step2; cbv beta); try done.
  apply (wp_for_ (all_ranked ["season"; "playoffs"])); [done| |done].
  intros [team_id t] s3 _ Hs3. repeat (wp_step2; cbv beta); try done.
  apply (wp_for_ (all_ranked ["season"; "playoffs"])); [done| |done].
  intros player s4 _ Hs4. repeat (wp_step2; cbv beta); done.
Qed.

(** After [GrumbleProvider.LoadData] has returned, the standings of every
    bracket follow competition ranking: the rank of a team is one more than
    the number of teams of the bracket with more points, so the leaders
    have rank 1 and a rank is skipped for every team that shares one. *)
Theorem Grumble_standings_competition_ranked env s s' :
  Grumble_LoadData env s = (s', Ok tt) ->
  forall b t, b ∈ brackets (self s') -> t ∈ standings b ->
    rank t = 1 + Z.of_nat (length (filter (fun t' => points t < points t') (standings b))).
Proof.
  intros Hrun b t Hb Ht.
  pose proof (Grumble_LoadData_ranking env s) as H. unfold wp in H. rewrite Hrun in H.
  destruct H as [_ Hok]. unfold brackets, od_values in Hb.
  apply list_elem_of_fmap in Hb as ([k b'] & -> & Hin). by apply (Hok k).
Qed.

(** ** A league without dated tournaments *)

Lemma _FindActiveTournaments_undated env tournaments ts :
  py_iter tournaments = Ok ts ->
  Forall (fun t => py_contains "startDate" t = Ok false) ts ->
  _FindActiveTournaments env tournaments = Ok [JNull].
Proof.
  intros Hts Hall. unfold _FindActiveTournaments. rewrite Hts. simpl.
  assert (rfold ts (_FindActiveTournaments_step env) ([], JNull, ARROW_MIN)
          = Ok ([], JNull, ARROW_MIN)) as ->; [|done].
  generalize (@nil json) JNull ARROW_MIN. intros active_tournaments tournament newest.
  clear Hts. induction Hall as [|t ts Ht _ IH]; [done|]. simpl.
  unfold _FindActiveTournaments_step at 1. rewrite Ht. simpl. apply IH.
Qed.

(** When the league document has no tournament with a ['startDate'],
    [_FindActiveTournaments] gives [[None]], and the loop over it fails:
    [RitoProvider.UpdateMatches] raises [TypeError] and leaves the provider
    and the store as they were, and [RitoProvider.LoadData] does not
    return. *)
Theorem Rito_undated_league_raises env s league_data :
  (forall force_lookup,
     _FetchEsportsData env "leagues" (ApiStr (_league (self s))) force_lookup false
     = Ok league_data) ->
  undated_league league_data ->
  Rito_UpdateMatches env s = (s, Raise TypeError) /\
  exists s' e, Rito_LoadData env s = (s', Raise e).
Proof.
  intros Hfetch (Htruthy & Hleagues & tournaments & ts & Htour & Hts & Hall).
  pose proof (_FindActiveTournaments_undated env tournaments ts Hts Hall) as Hfind.
  split.
  - unfold Rito_UpdateMatches, mbind, M_bind, get_self, gets, lift. simpl.
    rewrite Hfetch, Htruthy. simpl. rewrite Hleagues. simpl.
    rewrite Htour. simpl. rewrite Hfind. simpl. done.
  - assert (wp (Rito_LoadData env) (fun _ _ => False) (fun _ => True) s) as H.
    { unfold Rito_LoadData. apply wp_bind, wp_modify. apply wp_bind, wp_gets. cbv beta.
      match goal with
      | |- context [_FetchEsportsData env "leagues" (ApiStr ?x) false false] =>
          change x with (_league (self s))
      end.
      rewrite Hfetch. apply wp_bind, wp_lift. rewrite Htruthy. simpl negb. cbv iota.
      rewrite Hleagues. apply wp_bind, wp_lift. simpl negb. cbv iota.
      apply wp_bind, wp_lift. destruct (py_getitem league_data "teams" ≫= py_iter); [|done].
      apply wp_bind. apply (wp_for_ (fun _ => True)); [done| |].
      { intros team s1 _ _. repeat (wp_step2; cbv beta); done. }
      intros s1 _. rewrite Htour. simpl. rewrite Hfind.
      apply wp_bind, wp_lift. simpl. apply wp_bind, wp_bind, wp_lift. done. }
    unfold wp in H. destruct (Rito_LoadData env s) as [s' [[]|e]]; [done|eauto].
Qed.

(** ** A reload that fails before it publishes *)

(** When [LoadData] of a provider raises, or the aggregation of the loaded
    providers does, [LoadEsports] raises the same exception, publishes
    nothing and calls no callback: the snapshot, the registered callbacks
    and what the callbacks did are as before. *)
Theorem LoadEsports_failure_publishes_nothing env w w1 r1 e :
  LoadEsports_providers env w = (w1, r1) ->
  r1 = Raise e \/ (r1 = Ok tt /\ assemble env w1 = Raise e) ->
  LoadEsports env w = (w1, Raise e) /\
  snapshot w1 = snapshot w /\ _callbacks w1 = _callbacks w /\ outside w1 = outside w.
Proof.
  intros H1 Hr.
  pose proof (LoadEsports_providers_same_registry env w) as Hreg. unfold wp in Hreg.
  rewrite H1 in Hreg.
  assert (same_registry w w1) as Hsame by (by destruct r1).
  split; [|exact Hsame].
  unfold LoadEsports, mbind, M_bind, get_state, lift, modify. rewrite H1.
  destruct Hr as [->|[-> Ha]]; [done|]. by rewrite Ha.
Qed.

(** ** _ExtractMatchTeams *)

Lemma _FindTeam_pure team s : fst (_FindTeam team s) = s.
Proof.
  unfold _FindTeam, get_roster, mbind, M_bind, lift, get_self, gets, ret. simpl.
  destruct (py_contains "roster" team) as [[]|]; simpl; try done.
  destruct (py_getitem team "roster"); simpl; [|done].
  match goal with |- context [match ?x with Ok _ => _ | Raise _ => _ end] => by destruct x end.
Qed.

Lemma mmap__FindTeam ts s :
  fst (mmap _FindTeam ts s) = s /\
  forall names, snd (mmap _FindTeam ts s) = Ok names -> length names = length ts.
Proof.
  induction ts as [|t ts [IH1 IH2]]; simpl.
  - split; [done|]. by intros names [= <-].
  - unfold mbind, M_bind. pose proof (_FindTeam_pure t s) as Ht.
    destruct (_FindTeam t s) as [s1 [n|e]]; simpl in Ht; subst s1; [|done].
    destruct (mmap _FindTeam ts s) as [s2 [ns|e]]; simpl in *; subst s2; [|done].
    split; [done|]. intros names [= <-]. simpl. f_equal. by apply IH2.
Qed.

Lemma py_iter_len o ts n : py_iter o = Ok ts -> py_len o = Ok n -> length ts = n.
Proof.
  destruct o as [| | |str|l|d]; try done; simpl; intros [= <-] [= <-].
  - induction str as [|c str IH]; simpl; [done|]. by rewrite IH.
  - done.
  - unfold od_keys. by rewrite !length_map.
Qed.

(** [_ExtractMatchTeams] reads only: the provider and the store are as
    before, whether it returns or raises.  When it returns a list, the list
    has exactly two names, so that [match_teams[0]] and [match_teams[1]] are
    there for its callers. *)
Theorem _ExtractMatchTeams_two match_ s :
  fst (_ExtractMatchTeams match_ s) = s /\
  forall names, snd (_ExtractMatchTeams match_ s) = Ok (Some names) -> length names = 2%nat.
Proof.
  unfold _ExtractMatchTeams, mbind, M_bind, lift, ret. simpl.
  destruct (py_get match_ "input" (JList [])) as [match_teams|]; simpl; [|done].
  destruct (py_len match_teams) as [n|] eqn:Hn; simpl; [|done].
  destruct (n =? 2)%nat eqn:H2; simpl; [|done]. apply Nat.eqb_eq in H2. subst n.
  destruct (py_iter match_teams) as [ts|] eqn:Hts; simpl; [|done].
  pose proof (mmap__FindTeam ts s) as [H1 Hlen].
  destruct (mmap _FindTeam ts s) as [s1 [ns|e]]; simpl in *; subst s1; [|done].
  split; [done|]. intros names [= <-]. rewrite (Hlen ns) by done.
  by eapply py_iter_len.
Qed.

(** ** The statistics a reload collects *)

Lemma od_get_od_set_any {K V} `{EqDecision K} (d : list (K * V)) k v k' :
  od_get (od_set d k v) k' = if decide (k = k') then Some v else od_get d k'.
Proof.
  induction d as [|[k0 v0] d IH]; simpl.
  - repeat case_decide; congruence.
  - repeat (case_decide; simpl); try congruence.
Qed.

Lemma od_keys_od_set_any {K V} `{EqDecision K} (d : list (K * V)) k v :
  od_keys (od_set d k v) = if decide (k ∈ od_keys d) then od_keys d else od_keys d ++ [k].
Proof.
  induction d as [|[k0 v0] d IH]; simpl.
  - destruct (decide (k ∈ [])) as [[]%elem_of_nil|]; done.
  - unfold od_keys in *. destruct (decide (k0 = k)) as [->|Hne]; simpl.
    + by rewrite decide_True by apply list_elem_of_here.
    + rewrite IH. destruct (decide (k ∈ map fst d)).
      * by rewrite decide_True by by apply list_elem_of_further.
      * rewrite decide_False; [done|]. intros [?|?]%elem_of_cons; congruence.
Qed.

Lemma NoDup_od_set {K V} `{EqDecision K} (d : list (K * V)) k v :
  NoDup (od_keys d) -> NoDup (od_keys (od_set d k v)).
Proof.
  intros Hd. rewrite od_keys_od_set_any. case_decide; [done|].
  apply NoDup_app. split_and!; [done| |apply NoDup_singleton].
  intros x Hx ->%list_elem_of_singleton. done.
Qed.

Lemma elem_of_od_set_NoDup {K V} `{EqDecision K} (d : list (K * V)) k v k' v' :
  NoDup (od_keys d) -> (k', v') ∈ od_set d k v ->
  (k', v') = (k, v) \/ (k' <> k /\ (k', v') ∈ d).
Proof.
  induction d as [|[k0 v0] d IH]; simpl.
  - intros _ ->%list_elem_of_singleton. by left.
  - intros [Hnin Hnd]%NoDup_cons. case_decide as Hk.
    + subst k0. intros [Heq|Hin]%elem_of_cons; [by left|]. right. split; [|by right].
      intros ->. apply Hnin. unfold od_keys. apply list_elem_of_fmap. by exists (k, v').
    + intros [Heq|Hin]%elem_of_cons.
      * right. simplify_eq. split; [done|by left].
      * destruct (IH Hnd Hin) as [?|[? ?]]; [by left|]. right. split; [done|by right].
Qed.

Lemma od_get_elem_of_any {K V} `{EqDecision K} (d : list (K * V)) k v :
  od_get d k = Some v -> (k, v) ∈ d.
Proof.
  induction d as [|[k' v'] d IH]; simpl; [done|].
  case_decide; intros; simplify_eq; [left|right; auto].
Qed.

Lemma counter_get_incr c what k :
  counter_get (counter_incr c what) k
  = counter_get c k + (if decide (what = k) then 1 else 0).
Proof.
  unfold counter_incr, counter_get at 1. rewrite od_get_od_set_any.
  case_decide; subst; simpl; [done|]. unfold counter_get. lia.
Qed.

Lemma stats_inv_incr (Q Q' : hkey -> string -> Counter -> Prop) cs k l what :
  stats_inv Q cs ->
  (forall k' l' c, (k', l') <> (k, l) -> Q k' l' c -> Q' k' l' c) ->
  (forall c, Q k l c -> Q' k l (counter_incr c what)) ->
  Q' k l (counter_incr [] what) ->
  stats_inv Q' (champ_incr cs k l what).
Proof.
  intros [Hnd Hcs] Hother Hthis Hnew. unfold champ_incr. split; [by apply NoDup_od_set|].
  assert (NoDup (od_keys (default [] (od_get cs k))) /\
          forall l' c, (l', c) ∈ default [] (od_get cs k) -> NoDup (od_keys c) /\ Q k l' c)
    as [Hrnd Hr].
  { destruct (od_get cs k) as [regions|] eqn:Hget; simpl.
    - by apply Hcs, od_get_elem_of_any.
    - split; [constructor|]. by intros ?? ?%elem_of_nil. }
  intros k' regions' Hin.
  apply (elem_of_od_set_NoDup _ _ _ _ _ Hnd) in Hin as [[= -> ->]|[Hne Hin]].
  - split; [by apply NoDup_od_set|].
    intros l' c' Hin.
    apply (elem_of_od_set_NoDup _ _ _ _ _ Hrnd) in Hin as [[= -> ->]|[Hne Hin]].
    + destruct (od_get _ l) as [c|] eqn:Hc; simpl.
      * apply od_get_elem_of_any, Hr in Hc as [? ?].
        split; [by apply NoDup_od_set|by apply Hthis].
      * split; [apply NoDup_singleton|done].
    + destruct (Hr _ _ Hin) as [? ?]. split; [done|]. apply Hother; [congruence|done].
  - destruct (Hcs _ _ Hin) as [? Hr']. split; [done|].
    intros l' c Hc. destruct (Hr' _ _ Hc). split; [done|]. apply Hother; [congruence|done].
Qed.

Lemma stats_inv_other cs k l what :
  what <> "wins" ->
  stats_inv (fun _ _ => wins_le_picks) cs ->
  stats_inv (fun _ _ => wins_le_picks) (champ_incr cs k l what).
Proof.
  intros Hw Hcs. eapply stats_inv_incr; [done|done| |].
  - intros c Hc. unfold wins_le_picks in *. rewrite !counter_get_incr.
    rewrite decide_False by done. case_decide; lia.
  - unfold wins_le_picks. rewrite !counter_get_incr. rewrite decide_False by done.
    unfold counter_get. simpl. case_decide; lia.
Qed.

Lemma stats_inv_win_pick cs k l :
  stats_inv (fun _ _ => wins_le_picks) cs ->
  stats_inv (fun _ _ => wins_le_picks) (champ_incr (champ_incr cs k l "wins") k l "picks").
Proof.
  intros Hcs.
  apply (stats_inv_incr
           (fun k' l' c => if decide ((k', l') = (k, l))
                           then counter_get c "wins" <= counter_get c "picks" + 1
                           else wins_le_picks c)).
  - eapply stats_inv_incr; [done| | |].
    + intros k' l' c Hne Hc. by rewrite decide_False.
    + intros c Hc. rewrite decide_True by done. unfold wins_le_picks in Hc.
      rewrite !counter_get_incr. simpl. lia.
    + rewrite decide_True by done. rewrite !counter_get_incr. unfold counter_get. simpl. lia.
  - intros k' l' c Hne Hc. by rewrite decide_False in Hc.
  - intros c Hc. rewrite decide_True in Hc by done. unfold wins_le_picks.
    rewrite !counter_get_incr. simpl. lia.
  - unfold wins_le_picks. rewrite !counter_get_incr. unfold counter_get. simpl. lia.
Qed.

Lemma result_bind_Ok {A B} (m : result A) (f : A -> result B) b :
  m ≫= f = Ok b -> exists a, m = Ok a /\ f a = Ok b.
Proof. destruct m as [a|e]; [|done]. simpl. eauto. Qed.

Lemma rfold_inv {A B} (I : B -> Prop) (l : list A) body acc acc' :
  (forall acc x acc', I acc -> body acc x = Ok acc' -> I acc') ->
  I acc -> rfold l body acc = Ok acc' -> I acc'.
Proof.
  intros Hbody. revert acc. induction l as [|x l IH]; intros acc Hacc; simpl.
  - by intros [= <-].
  - intros (acc1 & H1 & H2)%result_bind_Ok. eauto.
Qed.

(** One bind of a run that returned. *)
Ltac inv_bind H :=
  let a := fresh "a" in
  let H1 := fresh "Hrun" in
  apply result_bind_Ok in H as (a & H1 & H).

Local Abbreviation stats_ok := (stats_inv (fun _ _ => wins_le_picks)).

Lemma _ScrapePickBanData_player_ok env league p2p winning_team st player st' :
  stats_ok (champ_stats st) ->
  _ScrapePickBanData_player env league p2p winning_team st player = Ok st' ->
  stats_ok (champ_stats st').
Proof.
  intros Hst H. unfold _ScrapePickBanData_player in H.
  repeat inv_bind H.
  match goal with
  | Hif : (if py_eq _ _ then _ else _) = Ok ?p |- _ =>
      destruct p as [cs ps]; rename Hif into Hif'
  end.
  repeat inv_bind H. injection H as <-. simpl.
  destruct (py_eq _ _) in Hif'.
  - repeat inv_bind Hif'. injection Hif' as <- _. by apply stats_inv_win_pick.
  - injection Hif' as <- _. by apply stats_inv_other.
Qed.

Lemma _ScrapePickBanData_team_ok league acc team acc' :
  stats_ok (snd acc) -> _ScrapePickBanData_team league acc team = Ok acc' ->
  stats_ok (snd acc').
Proof.
  intros Hacc H. destruct acc as [winning_team cs]. unfold _ScrapePickBanData_team in H.
  repeat inv_bind H. injection H as <-. simpl.
  match goal with
  | Hr : rfold _ _ _ = Ok _ |- _ => eapply (rfold_inv stats_ok) in Hr; [done| |done]
  end.
  intros cs1 ban cs2 Hcs1 Hban. repeat inv_bind Hban. injection Hban as <-.
  by apply stats_inv_other.
Qed.

Lemma _ScrapePickBanData_game_ok env league st game st' :
  stats_ok (champ_stats st) -> _ScrapePickBanData_game env league st game = Ok st' ->
  stats_ok (champ_stats st').
Proof.
  intros Hst H. unfold _ScrapePickBanData_game in H.
  destruct (String.eqb (hash game) ""); [by injection H as <-|].
  repeat inv_bind H.
  match goal with
  | Hr : rfold _ (_ScrapePickBanData_team _) _ = Ok ?p |- _ =>
      eapply (rfold_inv (fun acc => stats_ok (snd acc))) in Hr;
        [|intros ????; by apply _ScrapePickBanData_team_ok|done];
      destruct p as [winning_team cs]
  end.
  repeat inv_bind H.
  eapply (rfold_inv (fun st => stats_ok (champ_stats st))) in H; [done| |done].
  intros ????. by apply _ScrapePickBanData_player_ok.
Qed.

Lemma LoadEsports_match_stats env h league acc l acc' :
  stats_ok (champ_stats (snd acc)) -> LoadEsports_match env h league acc l = Ok acc' ->
  stats_ok (champ_stats (snd acc')).
Proof.
  intros Hacc H. destruct acc as [matches st]. unfold LoadEsports_match in H.
  repeat inv_bind H. destruct (negb _ && _).
  - repeat inv_bind H. injection H as <-. simpl.
    match goal with
    | Hr : _ScrapePickBanData _ _ _ _ = Ok _ |- _ =>
        eapply (rfold_inv (fun st => stats_ok (champ_stats st))) in Hr; [done| |done]
    end.
    intros ????. by apply _ScrapePickBanData_game_ok.
  - by injection H as <-.
Qed.

Lemma assemble_stats env w a :
  assemble env w = Ok a -> stats_ok (champ_stats (a_stats a)).
Proof.
  unfold assemble. apply (rfold_inv (fun a => stats_ok (champ_stats (a_stats a)))).
  - intros a0 [i league] a1 Ha0 H. unfold LoadEsports_league in H.
    repeat inv_bind H. injection H as <-. simpl.
    match goal with
    | Hr : rfold _ (LoadEsports_bracket _ _ _) _ = Ok _ |- _ =>
        eapply (rfold_inv (fun a => stats_ok (champ_stats (a_stats a)))) in Hr; [done| |done]
    end.
    intros asm b asm' Hasm Hb. unfold LoadEsports_bracket in Hb. repeat inv_bind Hb.
    match goal with
    | Hr : rfold _ (LoadEsports_match _ _ _) _ = Ok ?p |- _ =>
        eapply (rfold_inv (fun acc => stats_ok (champ_stats (snd acc)))) in Hr;
          [|intros ????; by apply LoadEsports_match_stats|done];
        destruct p as [matches st]
    end.
    by injection Hb as <-.
  - split; [constructor|]. by intros ?? ?%elem_of_nil.
Qed.

Lemma counter_get_od_set (c : Counter) k0 v k :
  counter_get (od_set c k0 v) k = if decide (k0 = k) then v else counter_get c k.
Proof. unfold counter_get. rewrite od_get_od_set_any. by case_decide. Qed.

Lemma counter_get_cons k0 v0 (other : Counter) k :
  counter_get ((k0, v0) :: other) k = if decide (k0 = k) then v0 else counter_get other k.
Proof. unfold counter_get. simpl. by case_decide. Qed.

Lemma counter_get_update c other k :
  NoDup (od_keys other) ->
  counter_get (counter_update c other) k = counter_get c k + counter_get other k.
Proof.
  unfold counter_update. revert c. induction other as [|[k0 v0] other IH]; intros c; simpl.
  - intros _. unfold counter_get at 3. simpl. lia.
  - intros [Hnin Hnd]%NoDup_cons. rewrite IH by done.
    rewrite counter_get_od_set, counter_get_cons.
    case_decide; subst; [|done].
    assert (counter_get other k = 0) as ->; [|lia].
    unfold counter_get. destruct (od_get other k) as [v|] eqn:Hv; [|done].
    destruct Hnin. apply od_get_elem_of_any in Hv. unfold od_keys.
    apply list_elem_of_fmap. by exists (k, v).
Qed.

Lemma flatten_regions_ok region (rds : list (string * Counter)) c0 :
  (forall l c, (l, c) ∈ rds -> NoDup (od_keys c) /\ wins_le_picks c) ->
  wins_le_picks c0 ->
  wins_le_picks (foldl (fun c rd => if in_region region (fst rd)
                                    then counter_update c (snd rd) else c) c0 rds).
Proof.
  revert c0. induction rds as [|[l c1] rds IH]; intros c0 Hrds Hc0; simpl; [done|].
  apply IH; [intros; eapply Hrds; by right|].
  destruct (in_region region l); [|done].
  destruct (Hrds l c1) as [Hnd1 Hc1]; [by left|].
  unfold wins_le_picks in *. rewrite !counter_get_update by done. lia.
Qed.

Lemma flatten_champs_ok env region cs name c :
  stats_ok cs -> (name, c) ∈ flatten_champs env region cs -> wins_le_picks c.
Proof.
  intros [_ Hcs]. unfold flatten_champs.
  assert (forall x : string * Counter, x ∈ [] -> wins_le_picks (snd x)) as Hd
    by (by intros x ?%elem_of_nil).
  revert Hd. generalize (@nil (string * Counter)).
  induction cs as [|[k regions] cs IH]; intros d Hd; simpl.
  - intros Hin. by apply (Hd (name, c)).
  - apply IH; [intros; eapply Hcs; by right|].
    destruct (GetChampNameFromId env k) as [champ_name|]; [|done].
    destruct (String.eqb champ_name ""); [done|].
    intros [n c'] [[= -> ->]|Hin]%elem_of_od_set; [|by apply Hd]. simpl.
    apply flatten_regions_ok; [|done].
    apply (Hcs k regions). by left.
Qed.

Lemma reachable_stats w : reachable w -> stats_ok (es_champ_stats (snapshot w)).
Proof.
  induction 1 as [|fn w _ IH|env w _ IH|env w _ IH].
  - split; [constructor|]. by intros ?? ?%elem_of_nil.
  - done.
  - destruct (LoadEsports env w) as [w' r] eqn:Hrun. simpl.
    apply LoadEsports_published in Hrun
      as [(e & _ & _ & ->)|(w1 & a & _ & Ha & (_ & _ & _ & -> & _) & _)]; [done|].
    simpl. by eapply assemble_stats.
  - pose proof (UpdateEsportsMatches_frame env w) as H. unfold wp in H.
    destruct (UpdateEsportsMatches env w) as [w' r]. simpl.
    assert (world_frame w w') as (_ & -> & _) by (destruct r; [apply H|done]). done.
Qed.

(** In every state the engine can reach, no champion that
    [GetTopPickBanChamps] returns has more wins than picks: the statistics a
    reload collects count a win only together with a pick. *)
Theorem top_champs_wins_le_picks {K} (lt : K -> K -> bool) env w region sort_key_fn
    descending x :
  reachable w ->
  x ∈ snd (GetTopPickBanChamps lt env w region sort_key_fn descending) ->
  counter_get (snd x) "wins" <= counter_get (snd x) "picks".
Proof.
  intros Hw%reachable_stats Hx. unfold GetTopPickBanChamps in Hx. cbv zeta in Hx.
  unfold snd at 1 in Hx.
  apply elem_of_take in Hx as (i & Hx & _). apply list_elem_of_lookup_2 in Hx.
  rewrite sorted_with_perm in Hx. unfold sorted in Hx.
  rewrite sorted_with_perm in Hx. apply list_elem_of_filter in Hx as [_ Hx].
  destruct x as [name c]. by eapply flatten_champs_ok.
Qed.

(** ** The theorems at concrete inputs *)

Lemma schedule_wfb_correct w : schedule_wfb w = true -> schedule_wf w.
Proof.
  unfold schedule_wfb, schedule_wf. rewrite forallb_forall.
  intros H m Hm. apply list_elem_of_In in Hm. specialize (H m Hm).
  destruct (w_heap w !! _match m) as [p|]; [|done].
  destruct (od_get (es_brackets (snapshot w)) (match_bracket_id p)) as [b|] eqn:Hb;
    [|done].
  by exists p, b.
Qed.

(** C3 as stated fails: of two registered callbacks the first raises, and
    the second, which would have announced the reload, is never called. *)
Lemma C3_counterexample : ~ C3_as_stated env_quiet w_callbacks.
Proof.
  intros H.
  specialize (H w_callbacks_reloaded (assembled env_quiet w_callbacks_reloaded)).
  assert (outside (fst (LoadEsports env_quiet w_callbacks)) = []) as Hcode
    by (vm_compute; reflexivity).
  assert (call_isolated (_callbacks w_callbacks) (outside w_callbacks) = ["reloaded"])
    as Hclaim by (vm_compute; reflexivity).
  rewrite Hcode, Hclaim in H.
  discriminate H; vm_compute; reflexivity.
Qed.

Lemma C3_callbacks_until_first_raise_witness :
  LoadEsports_providers env_quiet w_callbacks = (w_callbacks_reloaded, Ok tt) /\
  assemble env_quiet w_callbacks_reloaded
    = Ok (assembled env_quiet w_callbacks_reloaded) /\
  outside (fst (LoadEsports env_quiet w_callbacks))
    = call_isolated (invoked_prefix (_callbacks w_callbacks) (outside w_callbacks))
        (outside w_callbacks).
Proof.
  assert (LoadEsports_providers env_quiet w_callbacks = (w_callbacks_reloaded, Ok tt))
    as H1 by (vm_compute; reflexivity).
  assert (assemble env_quiet w_callbacks_reloaded
          = Ok (assembled env_quiet w_callbacks_reloaded))
    as H2 by (vm_compute; reflexivity).
  split; [exact H1|]. split; [exact H2|].
  exact (proj1 (proj2
    (C3_callbacks_until_first_raise env_quiet w_callbacks w_callbacks_reloaded
       (assembled env_quiet w_callbacks_reloaded)
       (fst (LoadEsports env_quiet w_callbacks)) (snd (LoadEsports env_quiet w_callbacks))
       H1 H2 (surjective_pairing _)))).
Defined.


(** C6 as stated fails: "KR" is the id of a team and an alias of the league
    LCK, and [GetResults] resolves it to the league. *)
Lemma C6_counterexample : ~ C6_as_stated w_kr "KR".
Proof.
  intros H.
  specialize (H (mkTeam "KR" "Kings" "grumble-D1" []) "LCK" 5 [] "LCK").
  discriminate H; vm_compute; reflexivity.
Qed.

Lemma C7_grumble_standings_witness :
  Grumble_LoadData env_season ex_grumble = (s_grumble_loaded, Ok tt) /\
  forall b, b ∈ brackets (self s_grumble_loaded) ->
    Forall standing_ok (standings b) /\ ranked_ok (standings b).
Proof.
  assert (Grumble_LoadData env_season ex_grumble = (s_grumble_loaded, Ok tt)) as H
    by (vm_compute; reflexivity).
  split; [exact H|].
  exact (C7_grumble_standings env_season ex_grumble s_grumble_loaded H).
Defined.

(** The scenario of the specification: A first with 3 points, C and D tied
    next with 1 point each and the same rank, B last with none. *)
Example grumble_scenario :
  (fun b => map (fun t => (team_id (team t), rank t, points t)) (standings b))
    <$> brackets (self s_grumble_loaded)
  = [[("A", 1, 3); ("C", 2, 1); ("D", 2, 1); ("B", 4, 0)]; []].
Proof. vm_compute. reflexivity. Qed.

(** C8 as stated fails: the poll decides the earliest of six matches, five
    later ones are decided already, and [GetResults] with its limit of 5
    reports those five only. *)
Lemma C8_counterexample : ~ C8_as_stated env_six_decided w_six "All" 5.
Proof.
  intros H.
  specialize (H w_six_polled (snd (UpdateEsportsMatches env_six_decided w_six))
                first_match first_match_before first_match_after).
  assert (resolve_qualifier w_six_polled (snapshot w_six_polled) "All" = ("All", false)) as Hq
    by (vm_compute; reflexivity).
  rewrite Hq in H.
  destruct H as (lines & Hlines & Hin); try (vm_compute; reflexivity).
  - vm_compute. by left.
  - vm_compute. discriminate.
  - vm_compute in Hlines. injection Hlines as <-.
    vm_compute in Hin.
    repeat (apply elem_of_cons in Hin as [Hin|Hin]; [discriminate Hin|]).
    by apply elem_of_nil in Hin.
Qed.

Lemma C8_poll_then_results_witness :
  UpdateEsportsMatches env_six_decided w_six
    = (w_six_polled, snd (UpdateEsportsMatches env_six_decided w_six)) /\
  schedule_wf w_six /\
  es_schedule (snapshot w_six) = [] ++ first_match :: drop 1 (es_schedule (snapshot w_six)) /\
  exists lines,
    GetResults w_six_polled "All" 6 = Ok (lines, "All") /\
    result_line first_match_after "All" false ∈ lines.
Proof.
  assert (schedule_wf w_six) as Hwf
    by (apply schedule_wfb_correct; vm_compute; reflexivity).
  assert (es_schedule (snapshot w_six)
          = [] ++ first_match :: drop 1 (es_schedule (snapshot w_six))) as Hsched
    by (vm_compute; reflexivity).
  split; [apply surjective_pairing|]. split; [exact Hwf|]. split; [exact Hsched|].
  apply (C8_poll_then_results env_six_decided w_six w_six_polled
           (snd (UpdateEsportsMatches env_six_decided w_six)) "All" 6
           [] first_match (drop 1 (es_schedule (snapshot w_six)))
           first_match_before first_match_after).
  - apply surjective_pairing.
  - exact Hwf.
  - exact Hsched.
  - vm_compute; reflexivity.
  - vm_compute; reflexivity.
  - vm_compute; reflexivity.
  - vm_compute. discriminate.
  - vm_compute; reflexivity.
  - vm_compute; reflexivity.
Defined.

Lemma C9_top_pick_ban_champs_witness :
  (forall a b, (a <? b) = true -> (b <? a) = false) /\
  (forall a b c, (a <? b) = false -> (b <? c) = false -> (a <? c) = false) /\
  exists ranked,
    GetTopPickBanChamps Z.ltb env_champs w_champs "all"
      (fun c => counter_get c "bans") true = (100, take 5 ranked) /\
    Permutation ranked
      (filter (fun x => 100 <= 20 * picks x)
         (flatten_champs env_champs "all" (es_champ_stats (snapshot w_champs)))).
Proof.
  split; [exact Z_ltb_asym|]. split; [exact Z_ltb_cotrans|].
  destruct (C9_top_pick_ban_champs Z.ltb Z_ltb_asym Z_ltb_cotrans env_champs w_champs
              "all" (fun c => counter_get c "bans") true)
    as (ranked & Hrun & Hperm & _).
  exists ranked. split; [exact Hrun|exact Hperm].
Defined.

(** The scenario of the specification: of 100 games, the champion picked in
    4 is dropped and the one picked in exactly 5 is kept. *)
Example top_pick_ban_scenario :
  GetTopPickBanChamps Z.ltb env_champs w_champs "all"
    (fun c => counter_get c "bans") true
  = (100, [("Zed", [("picks", 5); ("bans", 2)])]).
Proof. vm_compute. reflexivity. Qed.


(** C2, at a fetch that fails (every [FetchJson] gives [None]) on providers
    that were loaded before: what the two providers and the engine do. *)
Theorem C2_fetch_failure_not_contained :
  (* GrumbleProvider: both methods raise, and LoadData has emptied the
     provider before it does *)
  _teams (self s_grumble_loaded) <> [] /\
  snd (LoadData env_down s_grumble_loaded) = Raise TypeError /\
  _teams (self (fst (LoadData env_down s_grumble_loaded))) = [] /\
  _matches (self (fst (LoadData env_down s_grumble_loaded))) = [] /\
  schedule <$> brackets (self (fst (LoadData env_down s_grumble_loaded))) = [[]] /\
  UpdateMatches env_down s_grumble_loaded = (s_grumble_loaded, Raise TypeError) /\
  (* RitoProvider: both methods return, LoadData has emptied the teams and
     the matches and kept the brackets, UpdateMatches has changed nothing *)
  _teams (self s_rito_loaded) <> [] /\
  snd (LoadData env_down s_rito_loaded) = Ok tt /\
  _teams (self (fst (LoadData env_down s_rito_loaded))) = [] /\
  _matches (self (fst (LoadData env_down s_rito_loaded))) = [] /\
  _brackets (self (fst (LoadData env_down s_rito_loaded))) = _brackets (self s_rito_loaded) /\
  UpdateMatches env_down s_rito_loaded = (s_rito_loaded, Ok []) /\
  (* the engine: the exception of the first provider leaves LoadEsports,
     and the poll *)
  snd (LoadEsports env_down w_season) = Raise TypeError /\
  snd (UpdateEsportsMatches env_down w_season) = Raise TypeError.
Proof.
  split_and!; try (vm_compute; reflexivity); vm_compute; discriminate.
Qed.

(** ** The theorems at example inputs *)

Lemma _FindActiveTournaments_spec_witness :
  _FindActiveTournaments env_season ex_tournaments
    = Ok [JDict [("title", JStr "spring"); ("startDate", JNum 100); ("endDate", JNum 200)]] /\
  [JDict [("title", JStr "spring"); ("startDate", JNum 100); ("endDate", JNum 200)]] <> [].
Proof.
  assert (_FindActiveTournaments env_season ex_tournaments
          = Ok [JDict [("title", JStr "spring"); ("startDate", JNum 100);
                       ("endDate", JNum 200)]]) as H by reflexivity.
  split; [exact H|].
  destruct (_FindActiveTournaments_spec _ _ _ H) as (ts & _ & Hne & _). exact Hne.
Defined.

Lemma GetResults_latest_results_witness :
  schedule_wf w_six_polled /\
  let '(qualifier, is_team) := resolve_qualifier w_six_polled (snapshot w_six_polled) "All" in
  GetResults w_six_polled "All" 2
  = Ok (take (Z.to_nat 2)
          (result_line_of w_six_polled qualifier is_team <$>
             filter (is_result w_six_polled qualifier)
               (reverse (es_schedule (snapshot w_six_polled)))),
        qualifier).
Proof.
  assert (schedule_wf w_six_polled) as Hwf
    by (apply schedule_wfb_correct; vm_compute; reflexivity).
  split; [exact Hwf|]. exact (GetResults_latest_results w_six_polled "All" 2 Hwf).
Defined.



Lemma schedule_chronological_witness :
  reachable w_season /\
  StronglySorted (fun x y => time x <= time y) (es_schedule (snapshot w_season)).
Proof.
  assert (reachable w_season) as H by exact (reach_LoadEsports env_season _ reach_init).
  split; [exact H|]. exact (schedule_chronological w_season H).
Defined.

Lemma Grumble_UpdateMatches_newly_decided_witness :
  Grumble_UpdateMatches env_six_decided s_six
    = (fst (Grumble_UpdateMatches env_six_decided s_six), Ok [0%nat]) /\
  newly_decided (heap s_six) (heap (fst (Grumble_UpdateMatches env_six_decided s_six))) 0%nat.
Proof.
  assert (Grumble_UpdateMatches env_six_decided s_six
          = (fst (Grumble_UpdateMatches env_six_decided s_six), Ok [0%nat])) as H
    by (vm_compute; reflexivity).
  split; [exact H|].
  apply (proj1 (proj2 (Grumble_UpdateMatches_newly_decided _ _ _ _ H))). by left.
Defined.

Lemma Grumble_standings_competition_ranked_witness :
  Grumble_LoadData env_season ex_grumble = (s_grumble_loaded, Ok tt) /\
  forall b t, b ∈ brackets (self s_grumble_loaded) -> t ∈ standings b ->
    rank t = 1 + Z.of_nat (length (filter (fun t' => points t < points t') (standings b))).
Proof.
  assert (Grumble_LoadData env_season ex_grumble = (s_grumble_loaded, Ok tt)) as H
    by (vm_compute; reflexivity).
  split; [exact H|].
  exact (Grumble_standings_competition_ranked env_season ex_grumble s_grumble_loaded H).
Defined.

Lemma Rito_undated_league_raises_witness :
  undated_league ex_undated_league /\
  Rito_UpdateMatches env_undated ex_rito = (ex_rito, Raise TypeError) /\
  exists s' e, Rito_LoadData env_undated ex_rito = (s', Raise e).
Proof.
  assert (undated_league ex_undated_league) as H.
  { split; [reflexivity|]. split; [reflexivity|].
    exists (JList [JDict [("title", JStr "undated")]]), [JDict [("title", JStr "undated")]].
    split; [reflexivity|]. split; [reflexivity|]. repeat constructor. }
  split; [exact H|].
  apply (Rito_undated_league_raises env_undated ex_rito ex_undated_league); [|exact H].
  intros force_lookup. reflexivity.
Defined.

Lemma LoadEsports_failure_publishes_nothing_witness :
  LoadEsports_providers env_down initial_world
    = (fst (LoadEsports_providers env_down initial_world), Raise TypeError) /\
  LoadEsports env_down initial_world
    = (fst (LoadEsports_providers env_down initial_world), Raise TypeError).
Proof.
  assert (LoadEsports_providers env_down initial_world
          = (fst (LoadEsports_providers env_down initial_world), Raise TypeError)) as H
    by (vm_compute; reflexivity).
  split; [exact H|].
  exact (proj1 (LoadEsports_failure_publishes_nothing env_down initial_world _ _ TypeError H
                  (or_introl eq_refl))).
Defined.

Lemma top_champs_wins_le_picks_witness :
  reachable w_stats /\
  ("Ahri", [("wins", 1); ("picks", 1)])
    ∈ snd (GetTopPickBanChamps Z.ltb env_stats w_stats "all"
             (fun c => counter_get c "picks") true) /\
  counter_get (snd ("Ahri", [("wins", 1); ("picks", 1)])) "wins"
    <= counter_get (snd ("Ahri", [("wins", 1); ("picks", 1)])) "picks".
Proof.
  assert (reachable w_stats) as H by exact (reach_LoadEsports env_stats _ reach_init).
  assert (("Ahri", [("wins", 1); ("picks", 1)])
            ∈ snd (GetTopPickBanChamps Z.ltb env_stats w_stats "all"
                     (fun c => counter_get c "picks") true)) as Hin
    by (vm_compute; apply list_elem_of_here).
  split; [exact H|]. split; [exact Hin|].
  exact (top_champs_wins_le_picks Z.ltb env_stats w_stats "all" _ true _ H Hin).
Defined.

Lemma Grumble_UpdateMatches_idempotent_witness :
  Grumble_UpdateMatches env_six_decided s_six
    = (fst (Grumble_UpdateMatches env_six_decided s_six), Ok [0%nat]) /\
  Grumble_UpdateMatches env_six_decided (fst (Grumble_UpdateMatches env_six_decided s_six))
    = (fst (Grumble_UpdateMatches env_six_decided s_six), Ok []).
Proof.
  assert (Grumble_UpdateMatches env_six_decided s_six
          = (fst (Grumble_UpdateMatches env_six_decided s_six), Ok [0%nat])) as H
    by (vm_compute; reflexivity).
  split; [exact H|]. exact (Grumble_UpdateMatches_idempotent _ _ _ _ H).
Defined.

Lemma reload_twice_witness :
  brackets_keyed initial_world /\
  snapshot_view grumble_team_view w_drawn_again = snapshot_view grumble_team_view w_drawn.
Proof.
  assert (brackets_keyed initial_world) as Hk
    by (repeat constructor).
  split; [exact Hk|].
  refine (proj2 (reload_twice env_drawn initial_world
            (fst (LoadEsports_providers env_drawn initial_world))
            (assembled env_drawn (fst (LoadEsports_providers env_drawn initial_world)))
            w_drawn (snd (LoadEsports env_drawn initial_world))
            w_drawn_again (snd (LoadEsports env_drawn w_drawn)) Hk _ _ _ _));
    vm_compute; reflexivity.
Defined.

(** The positions do differ: the second reload draws again. *)
Example reload_twice_positions_drawn_again :
  nc_data (es_teams (snapshot w_drawn_again)) <> nc_data (es_teams (snapshot w_drawn)).
Proof. vm_compute. discriminate. Qed.

Lemma UpdateEsportsMatches_undecided_before_witness :
  UpdateEsportsMatches env_six_decided w_six = (w_six_polled, Ok [0%nat]) /\
  exists m, w_heap w_six !! 0%nat = Some m /\ winner m = "".
Proof.
  assert (UpdateEsportsMatches env_six_decided w_six = (w_six_polled, Ok [0%nat])) as H
    by (vm_compute; reflexivity).
  split; [exact H|].
  apply (proj1 (UpdateEsportsMatches_undecided_before _ _ _ _ H)). by left.
Defined.
